(** * Structural analysis of relevance expressions (fixlet_debugger.py)

    A shallow embedding of the text-analysis core of [fixlet_debugger.py]:
    the parenthesis depth tracker, the bracket matcher, the if/then/else
    matcher, the it/its/them referent resolver, the cursor handler that
    combines them, and the pretty-printer with its compactor; and of the
    text handling around it: the removal of the result lines of a QnA
    pane, the search for its queries, the query the worker sends and the
    output it reports, the expression of Single Clause mode, the zoom
    commands and the block comments of the syntax highlighter.

    Modelling decisions.
    - A text is a [list ascii]; a character stands for the code point of
      the same number, so the model covers Python strings whose code points
      are below 256.  The character classes ([str.isspace], the regex
      classes [\s] and [\w], [str.lower], case-insensitive matching of an
      ASCII letter) are the ones CPython has on that range.
    - Offsets are Python integers, hence [Z].
    - [text[i]] is Python indexing: a negative index counts from the end
      and an index outside [-len, len) raises [IndexError].  Code that can
      raise lives in the [result] monad.
    - [for i in range(..)] is [for_in] over the list of indices; a [while]
      loop is [while] with a fuel of [2 * len(text) + 2] tests of its
      condition, running out of which is the outcome [Timeout], distinct
      from an exception and not caught by [try].
    - The four regular expressions of the source are matchers that look at
      the character before the current position and at the rest of the
      text; [re.finditer] and [re.split] scan the text with them from left
      to right.
    - A Qt extra selection is the triple of its two cursor positions and
      its character format; a function that sets the extra selections of
      the pane returns the list the pane ends with.
    - A pane is the text it holds; its lines are [text.split('\n')].
    - The evaluator is a separate program: its output is an input of the
      model, and the formatting of its timing line, a float division
      printed with three decimals, is the parameter [show_ms], [None]
      standing for the exception the source catches.
    - [QRegExp.indexIn] for the two literal patterns of the block comments
      is the search for the first occurrence from an offset.

    The first part holds the embedding, function by function under the
    names of the source; the second part holds the properties. *)

From Stdlib Require Import String Ascii.
From Stdlib Require Import List ZArith Bool Lia Arith.
Import ListNotations.

Local Open Scope Z_scope.

(* ================================================================== *)
(** ** Characters and Python string primitives *)

(** A Python string. *)
Definition text := list ascii.

(** A string literal as a text. *)
Definition lit (s : string) : text := list_ascii_of_string s.

(** [len(t)]. *)
Definition len (t : text) : Z := Z.of_nat (List.length t).

(** The code point of a character. *)
Definition code (c : ascii) : N := N_of_ascii c.

Definition between (lo hi : N) (c : ascii) : bool :=
  (N.leb lo (code c) && N.leb (code c) hi)%bool.

(** [str.isspace] on one character; also the regex class [\s]. *)
Definition isspace (c : ascii) : bool :=
  (between 9 13 c || between 28 32 c
   || N.eqb (code c) 133 || N.eqb (code c) 160)%bool.

(** The regex class [\w]: alphanumeric characters and the underscore. *)
Definition isword (c : ascii) : bool :=
  (between 48 57 c || between 65 90 c || N.eqb (code c) 95
   || between 97 122 c
   || N.eqb (code c) 170 || between 178 179 c || N.eqb (code c) 181
   || between 185 186 c || between 188 190 c
   || between 192 214 c || between 216 246 c || between 248 255 c)%bool.

(** [str.lower] on one character. *)
Definition lower_char (c : ascii) : ascii :=
  if (between 65 90 c || between 192 214 c || between 216 222 c)%bool
  then ascii_of_N (code c + 32) else c.

(** [s.lower()]. *)
Definition lower (t : text) : text := map lower_char t.

(** Equality of characters and of strings. *)
Definition ch_eqb (a b : ascii) : bool := Ascii.eqb a b.

Fixpoint text_eqb (a b : text) : bool :=
  match a, b with
  | [], [] => true
  | x :: a', y :: b' => ch_eqb x y && text_eqb a' b'
  | _, _ => false
  end.

(** [s.startswith(p)]. *)
Fixpoint startswith (s p : text) : bool :=
  match p, s with
  | [], _ => true
  | x :: p', y :: s' => ch_eqb x y && startswith s' p'
  | _ :: _, [] => false
  end.

(** [s.endswith(p)]. *)
Definition endswith (s p : text) : bool := startswith (rev s) (rev p).

(** [needle in hay] for strings: the substring test. *)
Fixpoint str_in (needle hay : text) : bool :=
  startswith hay needle ||
  match hay with
  | [] => false
  | _ :: hay' => str_in needle hay'
  end.

(** [c in chars] for one character [c]. *)
Definition char_in (c : ascii) (chars : text) : bool :=
  existsb (ch_eqb c) chars.

(** [s.lstrip()], [s.rstrip()] and [s.strip()]. *)
Fixpoint lstrip (t : text) : text :=
  match t with
  | c :: t' => if isspace c then lstrip t' else t
  | [] => []
  end.

Definition rstrip (t : text) : text := rev (lstrip (rev t)).

Definition strip (t : text) : text := rstrip (lstrip t).

(** [s.split()]: the maximal runs of characters that are not whitespace. *)
Fixpoint split_ws_aux (t : text) (cur : text) : list text :=
  match t with
  | [] => match cur with [] => [] | _ => [rev cur] end
  | c :: t' =>
      if isspace c
      then match cur with
           | [] => split_ws_aux t' []
           | _ => rev cur :: split_ws_aux t' []
           end
      else split_ws_aux t' (c :: cur)
  end.

Definition split_ws (t : text) : list text := split_ws_aux t [].

(** [sep.join(parts)]. *)
Fixpoint join (sep : text) (parts : list text) : text :=
  match parts with
  | [] => []
  | [p] => p
  | p :: ps => p ++ sep ++ join sep ps
  end.

(** [s * n] for a string [s]: nothing when [n <= 0]. *)
Definition str_mul (s : text) (n : Z) : text :=
  concat (repeat s (Z.to_nat n)).

(** [t[:i]] and [t[i:]] with Python's treatment of negative and large
    bounds. *)
Definition norm_bound (t : text) (i : Z) : nat :=
  Z.to_nat (if i <? 0 then Z.max 0 (len t + i) else Z.min i (len t)).

Definition slice_to (t : text) (i : Z) : text := firstn (norm_bound t i) t.

Definition slice_from (t : text) (i : Z) : text := skipn (norm_bound t i) t.

(** The newline, the tab and the double quote. *)
Definition nl : ascii := ascii_of_nat 10.
Definition tab : ascii := ascii_of_nat 9.
Definition dquote : ascii := ascii_of_nat 34.

(* ================================================================== *)
(** ** Exceptions, results, loops *)

(** The exceptions the modelled code could raise. *)
Inductive exn := IndexError | KeyError | UnboundLocalError.

(** The outcome of a computation: a value, an exception, or no answer
    within the fuel of a loop. *)
Inductive result (A : Type) :=
| Ok (a : A)
| Raise (e : exn)
| Timeout.
Arguments Ok {A} a.
Arguments Raise {A} e.
Arguments Timeout {A}.

Definition bind {A B} (m : result A) (k : A -> result B) : result B :=
  match m with
  | Ok a => k a
  | Raise e => Raise e
  | Timeout => Timeout
  end.

Notation "x <- m ;; k" := (bind m (fun x => k))
  (at level 61, m at next level, right associativity).
Notation "' p <- m ;; k" := (bind m (fun x => match x with p => k end))
  (at level 61, p pattern, m at next level, right associativity).

(** [try: m except Exception: handler]. *)
Definition try_except {A} (m : result A) (handler : result A) : result A :=
  match m with
  | Raise _ => handler
  | r => r
  end.

(** What one iteration of a loop body asks for. *)
Inductive ctl (S R : Type) :=
| Next (s : S)
| Break (s : S)
| Return (r : R).
Arguments Next {S R} s.
Arguments Break {S R} s.
Arguments Return {S R} r.

(** A loop ends with its final state or with the value a [return] inside
    its body gave. *)
Fixpoint for_in {I S R} (xs : list I) (body : I -> S -> result (ctl S R))
         (s : S) : result (S + R) :=
  match xs with
  | [] => Ok (inl s)
  | x :: xs' =>
      c <- body x s ;;
      match c with
      | Next s' => for_in xs' body s'
      | Break s' => Ok (inl s')
      | Return r => Ok (inr r)
      end
  end.

(** [while cond: body], for at most [fuel] tests of the condition. *)
Fixpoint while {S R} (fuel : nat) (cond : S -> result bool)
         (body : S -> result (ctl S R)) (s : S) : result (S + R) :=
  match fuel with
  | O => Timeout
  | Datatypes.S fuel' =>
      b <- cond s ;;
      if b : bool then
        c <- body s ;;
        match c with
        | Next s' => while fuel' cond body s'
        | Break s' => Ok (inl s')
        | Return r => Ok (inr r)
        end
      else Ok (inl s)
  end.

(** [range(a, b)] and [range(a, b, -1)]. *)
Definition range (a b : Z) : list Z :=
  map (fun k => a + Z.of_nat k) (seq 0 (Z.to_nat (b - a))).

Definition range_down (a b : Z) : list Z :=
  map (fun k => a - Z.of_nat k) (seq 0 (Z.to_nat (a - b))).

(** [text[i]]. *)
Definition getc (t : text) (i : Z) : result ascii :=
  if (0 <=? i) && (i <? len t) then Ok (nth (Z.to_nat i) t zero)
  else if (- len t <=? i) && (i <? 0) then Ok (nth (Z.to_nat (i + len t)) t zero)
  else Raise IndexError.

(** The fuel of the loops over [t]: each of them moves one index by one
    position at every iteration; an index that starts within the text
    leaves it after [len(text)] iterations at most, and one that starts
    below zero, where Python counts from the end, after twice as many. *)
Definition fuel_of (t : text) : nat :=
  Datatypes.S (Datatypes.S (List.length t + List.length t)).

(** A loop whose body never executes [return]. *)
Definition final {S} (r : S + Empty_set) : S :=
  match r with
  | inl s => s
  | inr e => match e with end
  end.

(* ================================================================== *)
(** ** Regular expressions used by the source

    The patterns are [\b(it|its|them)\b], [\b(if|then|else)\b],
    [\bwhose\s*\(] and [(\(|\)|\bif\b|\bthen\b|\belse\b)], all with
    [re.IGNORECASE].  A matcher looks at the character before the current
    position and at the rest of the text, and answers the length of the
    match that starts here, as the backtracking engine finds it. *)

(** Whether there is a character and it is a word character: the ends of
    the text count as non-word characters for [\b]. *)
Definition isword_opt (c : option ascii) : bool :=
  match c with
  | Some c => isword c
  | None => false
  end.

(** [\b] at the position between [prev] and [rest]. *)
Definition word_boundary (prev : option ascii) (rest : text) : bool :=
  xorb (isword_opt prev) (isword_opt (hd_error rest)).

(** The literal [p] at the head of [rest], ignoring case. *)
Fixpoint ci_prefix (p rest : text) : bool :=
  match p, rest with
  | [], _ => true
  | x :: p', y :: rest' =>
      ch_eqb (lower_char x) (lower_char y) && ci_prefix p' rest'
  | _ :: _, [] => false
  end.

(** The character before the position reached after matching [m]. *)
Definition last_char (prev : option ascii) (m : text) : option ascii :=
  match rev m with
  | c :: _ => Some c
  | [] => prev
  end.

(** One alternative: a literal, or a literal between two [\b]. *)
Inductive alt :=
| Lit (p : text)
| Word (p : text).

Definition match_alt (prev : option ascii) (rest : text) (a : alt)
  : option nat :=
  match a with
  | Lit p => if ci_prefix p rest then Some (length p) else None
  | Word p =>
      if word_boundary prev rest && ci_prefix p rest
         && word_boundary (last_char prev (firstn (length p) rest))
                          (skipn (length p) rest)
      then Some (length p) else None
  end.

(** Alternation tries its branches from left to right. *)
Fixpoint match_alts (alts : list alt) (prev : option ascii) (rest : text)
  : option nat :=
  match alts with
  | [] => None
  | a :: alts' =>
      match match_alt prev rest a with
      | Some n => Some n
      | None => match_alts alts' prev rest
      end
  end.

(** The length of the whitespace prefix. *)
Fixpoint count_space (t : text) : nat :=
  match t with
  | c :: t' => if isspace c then Datatypes.S (count_space t') else O
  | [] => O
  end.

(** [\bwhose\s*\(]: the greedy [\s*] takes the whole whitespace run, and
    giving characters back cannot help since [(] is not whitespace. *)
Definition match_whose (prev : option ascii) (rest : text) : option nat :=
  if word_boundary prev rest && ci_prefix (lit "whose") rest then
    let r := skipn 5 rest in
    let k := count_space r in
    match nth_error r k with
    | Some c => if ch_eqb c "("%char then Some (5 + k + 1)%nat else None
    | None => None
    end
  else None.

(** A match object: [start()], [end()] and [group()]. *)
Record re_match := { m_start : Z; m_end : Z; m_group : text }.

(** [re.finditer]: the matches from left to right, none overlapping.
    [skip] counts the characters of the current match still to pass.  No
    pattern of the source matches the empty string. *)
Fixpoint scan (m : option ascii -> text -> option nat)
         (prev : option ascii) (rest : text) (pos : Z) (skip : nat)
  : list re_match :=
  match rest with
  | [] => []
  | c :: rest' =>
      match skip with
      | Datatypes.S k => scan m (Some c) rest' (pos + 1) k
      | O =>
          match m prev rest with
          | Some (Datatypes.S k) =>
              {| m_start := pos; m_end := pos + Z.of_nat (Datatypes.S k);
                 m_group := firstn (Datatypes.S k) rest |}
              :: scan m (Some c) rest' (pos + 1) k
          | _ => scan m (Some c) rest' (pos + 1) O
          end
      end
  end.

Definition finditer (m : option ascii -> text -> option nat) (t : text)
  : list re_match := scan m None t 0 O.

(** [re.split] for a pattern that is one capture group: the text between
    the matches, interleaved with the matches.  [cur] is the text since the
    last match, reversed. *)
Fixpoint re_split_from (m : option ascii -> text -> option nat)
         (prev : option ascii) (rest : text) (skip : nat) (cur : text)
  : list text :=
  match rest with
  | [] => [rev cur]
  | c :: rest' =>
      match skip with
      | Datatypes.S k => re_split_from m (Some c) rest' k cur
      | O =>
          match m prev rest with
          | Some (Datatypes.S k) =>
              rev cur :: firstn (Datatypes.S k) rest
              :: re_split_from m (Some c) rest' k []
          | _ => re_split_from m (Some c) rest' O (c :: cur)
          end
      end
  end.

Definition re_split (m : option ascii -> text -> option nat) (t : text)
  : list text := re_split_from m None t O [].

(** The alternatives of the three keyword patterns. *)
Definition it_pattern : list alt :=
  [Word (lit "it"); Word (lit "its"); Word (lit "them")].

Definition if_pattern : list alt :=
  [Word (lit "if"); Word (lit "then"); Word (lit "else")].

Definition token_pattern : list alt :=
  [Lit (lit "("); Lit (lit ")");
   Word (lit "if"); Word (lit "then"); Word (lit "else")].

(* ================================================================== *)
(** ** Data model *)

(** A keyword occurrence: the dictionary with keys [word], [start], [end]. *)
Record keyword := { word : text; start : Z; end_ : Z }.

(** [a == b] for two keyword dictionaries. *)
Definition kw_eqb (a b : keyword) : bool :=
  text_eqb (word a) (word b) && (start a =? start b) && (end_ a =? end_ b).

(** The dictionary built from a match. *)
Definition keyword_of (m : re_match) : keyword :=
  {| word := lower (m_group m); start := m_start m; end_ := m_end m |}.

(** A referent: the dictionary with keys [start] and [end]. *)
Record referent := { ref_start : Z; ref_end : Z }.

(** The character formats the source builds. *)
Inductive char_format :=
| orange_format   (* bracket or keyword, matched *)
| green_format    (* pronoun and referent, matched *)
| red_format.     (* unmatched *)

(** The two classes of highlight. *)
Inductive highlight_class := matched | unmatched.

Definition class_of (f : char_format) : highlight_class :=
  match f with
  | orange_format | green_format => matched
  | red_format => unmatched
  end.

(** An extra selection: the cursor from [sel_start] to [sel_end] and its
    format. *)
Record selection :=
  { sel_start : Z; sel_end : Z; sel_format : char_format }.

Definition sel_class (s : selection) : highlight_class :=
  class_of (sel_format s).

(** [sorted(l, key=lambda x: x['start'])] and the same with
    [reverse=True]: a stable insertion sort. *)
Fixpoint insert_by (le : keyword -> keyword -> bool) (k : keyword)
         (l : list keyword) : list keyword :=
  match l with
  | [] => [k]
  | x :: l' => if le k x then k :: l else x :: insert_by le k l'
  end.

Definition sort_by (le : keyword -> keyword -> bool) (l : list keyword)
  : list keyword := fold_right (insert_by le) [] l.

Definition sorted_by_start (l : list keyword) : list keyword :=
  sort_by (fun a b => start a <=? start b) l.

Definition sorted_by_start_reverse (l : list keyword) : list keyword :=
  sort_by (fun a b => start b <=? start a) l.

Definition open_paren : ascii := "("%char.
Definition close_paren : ascii := ")"%char.

(* ================================================================== *)
(** ** Depth tracker *)

(** [get_paren_depth(text, pos)]. *)
Definition get_paren_depth (t : text) (pos : Z) : result Z :=
  r <- for_in (R := Empty_set) (range 0 pos)
         (fun i depth =>
            c <- getc t i ;;
            if ch_eqb c open_paren then Ok (Next (depth + 1))
            else if ch_eqb c close_paren then Ok (Next (depth - 1))
            else Ok (Next depth))
         0 ;;
  Ok (final r).

(* ================================================================== *)
(** ** Keyword-block matcher *)

(** The triple [(if, then, else)] the searches return. *)
Definition triple : Type :=
  (option keyword * option keyword * option keyword)%type.

(** [o is None] and [o is not None]. *)
Definition is_none {A} (o : option A) : bool :=
  match o with None => true | Some _ => false end.

Definition is_some {A} (o : option A) : bool := negb (is_none o).

(** [not s] for a string. *)
Definition is_nil (s : text) : bool :=
  match s with [] => true | _ :: _ => false end.

(** [kw['word'] == s]. *)
Definition word_is (kw : keyword) (s : string) : bool :=
  text_eqb (word kw) (lit s).

(** Forward depth update between two keywords: [None] when the depth drops
    below [start_depth], where the caller returns. *)
Definition depth_forward (t : text) (start_depth : Z) (lo hi : Z)
           (current_depth : Z) : result (Z + unit) :=
  for_in (range lo hi)
    (fun i depth =>
       c <- getc t i ;;
       if ch_eqb c open_paren then Ok (Next (depth + 1))
       else if ch_eqb c close_paren then
         let depth := depth - 1 in
         if depth <? start_depth then Ok (Return tt) else Ok (Next depth)
       else Ok (Next depth))
    current_depth.

(** Backward depth update from [prev_pos - 1] down to [kw_end]: the loop
    breaks when the depth drops below [start_depth]. *)
Definition depth_backward (t : text) (start_depth : Z) (prev_pos kw_end : Z)
           (current_depth : Z) : result Z :=
  r <- for_in (R := Empty_set) (range_down (prev_pos - 1) (kw_end - 1))
         (fun i depth =>
            c <- getc t i ;;
            if ch_eqb c close_paren then Ok (Next (depth + 1))
            else if ch_eqb c open_paren then
              let depth := depth - 1 in
              if depth <? start_depth then Ok (Break depth)
              else Ok (Next depth)
            else Ok (Next depth))
         current_depth ;;
  Ok (final r).

(** The variables of [find_then_else_for_if]. *)
Record if_state :=
  { fi_depth : Z; fi_prev_end : option Z;
    fi_then : option keyword; fi_else : option keyword; fi_nesting : Z }.

(** The body of the loop of [find_then_else_for_if] over
    [after_keywords]. *)
Definition then_else_step (t : text) (if_kw : keyword) (start_depth : Z)
           (after_keywords : list keyword) (kw : keyword) (st : if_state)
  : result (ctl if_state triple) :=
  first <- match after_keywords with
           | k0 :: _ => Ok k0
           | [] => Raise IndexError
           end ;;
  lo <- (if kw_eqb kw first then Ok (start if_kw)
         else match fi_prev_end st with
              | Some p => Ok p
              | None => Raise UnboundLocalError
              end) ;;
  d <- depth_forward t start_depth lo (start kw) (fi_depth st) ;;
  match d with
  | inr _ => Ok (Return (Some if_kw, fi_then st, fi_else st))
  | inl current_depth =>
      let st := {| fi_depth := current_depth;
                   fi_prev_end := Some (end_ kw);
                   fi_then := fi_then st; fi_else := fi_else st;
                   fi_nesting := fi_nesting st |} in
      if current_depth >=? start_depth then
        if word_is kw "if" then
          Ok (Next {| fi_depth := fi_depth st;
                      fi_prev_end := fi_prev_end st;
                      fi_then := fi_then st; fi_else := fi_else st;
                      fi_nesting := fi_nesting st + 1 |})
        else if word_is kw "then" then
          if (fi_nesting st =? 0) && is_none (fi_then st) then
            Ok (Next {| fi_depth := fi_depth st;
                        fi_prev_end := fi_prev_end st;
                        fi_then := Some kw; fi_else := fi_else st;
                        fi_nesting := fi_nesting st |})
          else Ok (Next st)
        else if word_is kw "else" then
          if (fi_nesting st =? 0) && is_some (fi_then st)
             && is_none (fi_else st) then
            Ok (Return (Some if_kw, fi_then st, Some kw))
          else if fi_nesting st >? 0 then
            Ok (Next {| fi_depth := fi_depth st;
                        fi_prev_end := fi_prev_end st;
                        fi_then := fi_then st; fi_else := fi_else st;
                        fi_nesting := fi_nesting st - 1 |})
          else Ok (Next st)
        else Ok (Next st)
      else Ok (Next st)
  end.

(** [find_then_else_for_if]. *)
Definition find_then_else_for_if (t : text) (if_kw : keyword)
           (keywords : list keyword) : result triple :=
  let if_start := start if_kw in
  start_depth <- get_paren_depth t if_start ;;
  let after_keywords :=
    sorted_by_start (filter (fun k => start k >? if_start) keywords) in
  r <- for_in after_keywords
         (then_else_step t if_kw start_depth after_keywords)
         {| fi_depth := start_depth; fi_prev_end := None;
            fi_then := None; fi_else := None; fi_nesting := 0 |} ;;
  match r with
  | inl st => Ok (Some if_kw, fi_then st, fi_else st)
  | inr res => Ok res
  end.

(** State of a backward search: depth, previous position, the keywords
    found and the nesting counter. *)
Record back_state :=
  { bk_depth : Z; bk_prev_pos : Z;
    bk_then : option keyword; bk_if : option keyword; bk_nesting : Z }.

(** State of the forward search for [else] in [find_if_else_for_then]. *)
Record fwd_state :=
  { fw_depth : Z; fw_prev_end : Z; fw_else : option keyword; fw_nesting : Z }.

(** The body of the backward loop of [find_if_else_for_then]. *)
Definition if_for_then_step (t : text) (start_depth : Z) (kw : keyword)
           (st : back_state) : result (ctl back_state Empty_set) :=
  current_depth <-
    depth_backward t start_depth (bk_prev_pos st) (end_ kw) (bk_depth st) ;;
  let st := {| bk_depth := current_depth; bk_prev_pos := bk_prev_pos st;
               bk_then := bk_then st; bk_if := bk_if st;
               bk_nesting := bk_nesting st |} in
  if current_depth <? start_depth then Ok (Break st)
  else
    let st := {| bk_depth := current_depth; bk_prev_pos := start kw;
                 bk_then := bk_then st; bk_if := bk_if st;
                 bk_nesting := bk_nesting st |} in
    if current_depth >=? start_depth then
      if word_is kw "then" then
        Ok (Next {| bk_depth := bk_depth st; bk_prev_pos := bk_prev_pos st;
                    bk_then := bk_then st; bk_if := bk_if st;
                    bk_nesting := bk_nesting st + 1 |})
      else if word_is kw "if" then
        if bk_nesting st =? 0 then
          Ok (Break {| bk_depth := bk_depth st;
                       bk_prev_pos := bk_prev_pos st;
                       bk_then := bk_then st; bk_if := Some kw;
                       bk_nesting := bk_nesting st |})
        else
          Ok (Next {| bk_depth := bk_depth st;
                      bk_prev_pos := bk_prev_pos st;
                      bk_then := bk_then st; bk_if := bk_if st;
                      bk_nesting := bk_nesting st - 1 |})
      else Ok (Next st)
    else Ok (Next st).

(** The body of the forward loop of [find_if_else_for_then]. *)
Definition else_for_then_step (t : text) (then_kw : keyword)
           (start_depth : Z) (found_if : option keyword) (kw : keyword)
           (st : fwd_state) : result (ctl fwd_state triple) :=
  d <- depth_forward t start_depth (fw_prev_end st) (start kw)
                     (fw_depth st) ;;
  match d with
  | inr _ => Ok (Return (found_if, Some then_kw, fw_else st))
  | inl current_depth =>
      let st := {| fw_depth := current_depth; fw_prev_end := end_ kw;
                   fw_else := fw_else st; fw_nesting := fw_nesting st |} in
      if current_depth >=? start_depth then
        if word_is kw "if" then
          Ok (Next {| fw_depth := fw_depth st;
                      fw_prev_end := fw_prev_end st;
                      fw_else := fw_else st;
                      fw_nesting := fw_nesting st + 1 |})
        else if word_is kw "else" then
          if fw_nesting st =? 0 then
            Ok (Break {| fw_depth := fw_depth st;
                         fw_prev_end := fw_prev_end st;
                         fw_else := Some kw;
                         fw_nesting := fw_nesting st |})
          else
            Ok (Next {| fw_depth := fw_depth st;
                        fw_prev_end := fw_prev_end st;
                        fw_else := fw_else st;
                        fw_nesting := fw_nesting st - 1 |})
        else Ok (Next st)
      else Ok (Next st)
  end.

(** [find_if_else_for_then]. *)
Definition find_if_else_for_then (t : text) (then_kw : keyword)
           (keywords : list keyword) : result triple :=
  let then_start := start then_kw in
  start_depth <- get_paren_depth t then_start ;;
  let before_keywords :=
    sorted_by_start_reverse
      (filter (fun k => start k <? then_start) keywords) in
  r <- for_in before_keywords (if_for_then_step t start_depth)
         {| bk_depth := start_depth; bk_prev_pos := then_start;
            bk_then := None; bk_if := None; bk_nesting := 0 |} ;;
  let found_if := bk_if (final r) in
  if is_some found_if then
    let after_keywords :=
      sorted_by_start (filter (fun k => start k >? then_start) keywords) in
    r <- for_in after_keywords
           (else_for_then_step t then_kw start_depth found_if)
           {| fw_depth := start_depth; fw_prev_end := end_ then_kw;
              fw_else := None; fw_nesting := 0 |} ;;
    match r with
    | inl st => Ok (found_if, Some then_kw, fw_else st)
    | inr res => Ok res
    end
  else Ok (found_if, Some then_kw, None).

(** The body of the loop of [find_if_then_for_else]. *)
Definition if_then_for_else_step (t : text) (start_depth : Z) (kw : keyword)
           (st : back_state) : result (ctl back_state Empty_set) :=
  current_depth <-
    depth_backward t start_depth (bk_prev_pos st) (end_ kw) (bk_depth st) ;;
  let st := {| bk_depth := current_depth; bk_prev_pos := bk_prev_pos st;
               bk_then := bk_then st; bk_if := bk_if st;
               bk_nesting := bk_nesting st |} in
  if current_depth <? start_depth then Ok (Break st)
  else
    let st := {| bk_depth := current_depth; bk_prev_pos := start kw;
                 bk_then := bk_then st; bk_if := bk_if st;
                 bk_nesting := bk_nesting st |} in
    if current_depth >=? start_depth then
      if word_is kw "else" then
        Ok (Next {| bk_depth := bk_depth st; bk_prev_pos := bk_prev_pos st;
                    bk_then := bk_then st; bk_if := bk_if st;
                    bk_nesting := bk_nesting st + 1 |})
      else if word_is kw "then" then
        if (bk_nesting st =? 0) && is_none (bk_then st) then
          Ok (Next {| bk_depth := bk_depth st;
                      bk_prev_pos := bk_prev_pos st;
                      bk_then := Some kw; bk_if := bk_if st;
                      bk_nesting := bk_nesting st |})
        else Ok (Next st)
      else if word_is kw "if" then
        if (bk_nesting st =? 0) && is_some (bk_then st) then
          Ok (Break {| bk_depth := bk_depth st;
                       bk_prev_pos := bk_prev_pos st;
                       bk_then := bk_then st; bk_if := Some kw;
                       bk_nesting := bk_nesting st |})
        else if bk_nesting st >? 0 then
          Ok (Next {| bk_depth := bk_depth st;
                      bk_prev_pos := bk_prev_pos st;
                      bk_then := bk_then st; bk_if := bk_if st;
                      bk_nesting := bk_nesting st - 1 |})
        else Ok (Next st)
      else Ok (Next st)
    else Ok (Next st).

(** [find_if_then_for_else]. *)
Definition find_if_then_for_else (t : text) (else_kw : keyword)
           (keywords : list keyword) : result triple :=
  let else_start := start else_kw in
  start_depth <- get_paren_depth t else_start ;;
  let before_keywords :=
    sorted_by_start_reverse
      (filter (fun k => start k <? else_start) keywords) in
  r <- for_in before_keywords (if_then_for_else_step t start_depth)
         {| bk_depth := start_depth; bk_prev_pos := else_start;
            bk_then := None; bk_if := None; bk_nesting := 0 |} ;;
  Ok (bk_if (final r), bk_then (final r), Some else_kw).

(** [find_matching_if_then_else]. *)
Definition find_matching_if_then_else (t : text) (keywords : list keyword)
           (current_keyword : keyword) : result triple :=
  if word_is current_keyword "if" then
    find_then_else_for_if t current_keyword keywords
  else if word_is current_keyword "then" then
    find_if_else_for_then t current_keyword keywords
  else if word_is current_keyword "else" then
    find_if_then_for_else t current_keyword keywords
  else Ok (None, None, None).

(** The first keyword with [start <= pos <= end]. *)
Definition keyword_at (keywords : list keyword) (pos : Z) : option keyword :=
  find (fun kw => (start kw <=? pos) && (pos <=? end_ kw)) keywords.

(** The keyword occurrences [highlight_if_then_else] collects. *)
Definition if_keywords (t : text) : list keyword :=
  map keyword_of (finditer (match_alts if_pattern) t).

(** [add_selection(kw_info, is_matched)], as the selection it appends. *)
Definition keyword_selection (kw_info : keyword) (is_matched : bool)
  : selection :=
  {| sel_start := start kw_info; sel_end := end_ kw_info;
     sel_format := if is_matched then orange_format else red_format |}.

Definition selection_of (o : option keyword) (is_matched : bool)
  : list selection :=
  match o with
  | Some kw => [keyword_selection kw is_matched]
  | None => []
  end.

(** [highlight_if_then_else(pane, text, pos)]. *)
Definition highlight_if_then_else (t : text) (pos : Z)
  : result (option (list selection)) :=
  let keywords := if_keywords t in
  match keywords with
  | [] => Ok None
  | _ =>
      match keyword_at keywords pos with
      | None => Ok None
      | Some current_keyword =>
          '(if_pos, then_pos, else_pos) <-
            find_matching_if_then_else t keywords current_keyword ;;
          let all_matched :=
            is_some if_pos && is_some then_pos && is_some else_pos in
          let selections :=
            selection_of if_pos all_matched
            ++ selection_of then_pos all_matched
            ++ selection_of else_pos all_matched in
          match selections with
          | [] => Ok None
          | _ => Ok (Some selections)
          end
      end
  end.

(* ================================================================== *)
(** ** Bracket matcher *)

Definition open_brackets : text := lit "([{".
Definition close_brackets : text := lit ")]}".

(** The dictionaries [bracket_pairs] and [reverse_pairs]. *)
Definition bracket_pairs : list (text * ascii) :=
  [(lit "(", ")"%char); (lit "[", "]"%char); (lit "{", "}"%char)].

Definition reverse_pairs : list (text * ascii) :=
  [(lit ")", "("%char); (lit "]", "["%char); (lit "}", "{"%char)].

(** [d[key]]: a missing key raises [KeyError]. *)
Fixpoint lookup (d : list (text * ascii)) (key : text) : result ascii :=
  match d with
  | [] => Raise KeyError
  | (k, v) :: d' => if text_eqb k key then Ok v else lookup d' key
  end.

(** The variables of the loops of [find_matching_bracket]. *)
Record search_state := { count : Z; search_pos : Z }.

(** The body the two [while] loops of [find_matching_bracket] share;
    [direction] is [1] or [-1]. *)
Definition search_body (t : text) (char : text) (target : ascii)
           (direction : Z) (st : search_state)
  : result (ctl search_state Z) :=
  c <- getc t (search_pos st) ;;
  if text_eqb [c] char then
    Ok (Next {| count := count st + 1;
                search_pos := search_pos st + direction |})
  else if ch_eqb c target then
    let n := count st - 1 in
    if n =? 0 then Ok (Return (search_pos st))
    else Ok (Next {| count := n; search_pos := search_pos st + direction |})
  else Ok (Next {| count := count st;
                   search_pos := search_pos st + direction |}).

(** [find_matching_bracket]. *)
Definition find_matching_bracket (t : text) (pos : Z) (char : text)
           (open_brackets close_brackets : text)
           (bracket_pairs reverse_pairs : list (text * ascii))
  : result (option Z) :=
  if is_nil char || negb (str_in char (open_brackets ++ close_brackets))
  then Ok None
  else if str_in char open_brackets then
    target <- lookup bracket_pairs char ;;
    r <- while (fuel_of t)
           (fun st => Ok (search_pos st <? len t))
           (search_body t char target 1)
           {| count := 1; search_pos := pos + 1 |} ;;
    match r with
    | inr p => Ok (Some p)
    | inl _ => Ok None
    end
  else if str_in char close_brackets then
    target <- lookup reverse_pairs char ;;
    r <- while (fuel_of t)
           (fun st => Ok (search_pos st >=? 0))
           (search_body t char target (-1))
           {| count := 1; search_pos := pos - 1 |} ;;
    match r with
    | inr p => Ok (Some p)
    | inl _ => Ok None
    end
  else Ok None.

(** The selection of the character at [p]. *)
Definition bracket_selection (p : Z) (f : char_format) : selection :=
  {| sel_start := p; sel_end := p + 1; sel_format := f |}.

(** [get_cursor_bracket_selections(pane, text, pos)]. *)
Definition get_cursor_bracket_selections (t : text) (pos : Z)
  : result (list selection) :=
  char_at <- (if pos <? len t then c <- getc t pos ;; Ok [c] else Ok []) ;;
  char_before <- (if pos >? 0 then c <- getc t (pos - 1) ;; Ok [c]
                  else Ok []) ;;
  let check :=
    if str_in char_before (open_brackets ++ close_brackets)
    then Some (pos - 1, char_before)
    else if str_in char_at (open_brackets ++ close_brackets)
    then Some (pos, char_at)
    else None in
  match check with
  | None => Ok []
  | Some (check_pos, check_char) =>
      if is_nil check_char then Ok []
      else
        match_pos <- find_matching_bracket t check_pos check_char
                       open_brackets close_brackets
                       bracket_pairs reverse_pairs ;;
        match match_pos with
        | Some match_pos =>
            Ok [bracket_selection check_pos orange_format;
                bracket_selection match_pos orange_format]
        | None => Ok [bracket_selection check_pos red_format]
        end
  end.

(* ================================================================== *)
(** ** Referent resolver *)

(** The variables [paren_depth] and [paren_end]. *)
Record close_state := { cs_depth : Z; cs_end : option Z }.

(** The body of the loop of [find_whose_context] and of
    [find_of_it_context] that looks for a closing parenthesis:
    [paren_depth] follows the parentheses and the loop breaks where it
    reaches 0, with [paren_end] set. *)
Definition close_paren_step (t : text) (i : Z) (st : close_state)
  : result (ctl close_state Empty_set) :=
  c <- getc t i ;;
  if ch_eqb c open_paren then
    Ok (Next {| cs_depth := cs_depth st + 1; cs_end := cs_end st |})
  else if ch_eqb c close_paren then
    let d := cs_depth st - 1 in
    if d =? 0 then Ok (Break {| cs_depth := d; cs_end := Some i |})
    else Ok (Next {| cs_depth := d; cs_end := cs_end st |})
  else Ok (Next st).

(** That loop, from index [from] with [paren_depth = 1], for the
    parenthesis closing the group entered just before [from]; the value is
    [paren_end]. *)
Definition scan_close_paren (t : text) (from : Z) : result (option Z) :=
  r <- for_in (range from (len t)) (close_paren_step t)
         {| cs_depth := 1; cs_end := None |} ;;
  Ok (cs_end (final r)).

(** The loop of [find_whose_context] over the [whose (] matches: the first
    clause that contains the pronoun. *)
Definition containing_whose (t : text) (it_pos : Z)
           (whose_matches : list re_match) : result (option re_match) :=
  r <- for_in (R := Empty_set) whose_matches
         (fun whose_match (found : option re_match) =>
            let whose_end := m_end whose_match in
            paren_end <- scan_close_paren t whose_end ;;
            match paren_end with
            | Some paren_end =>
                if (whose_end <=? it_pos) && (it_pos <=? paren_end)
                then Ok (Break (Some whose_match))
                else Ok (Next found)
            | None =>
                if it_pos >=? whose_end then Ok (Break (Some whose_match))
                else Ok (Next found)
            end)
         None ;;
  Ok (final r).

(** [while expr_end > 0 and text[expr_end - 1] in ' \t\n': expr_end -= 1]. *)
Definition skip_space_back (t : text) (expr_end : Z) : result Z :=
  r <- while (R := Empty_set) (fuel_of t)
         (fun e => if e >? 0
                   then c <- getc t (e - 1) ;; Ok (char_in c [" "%char; tab; nl])
                   else Ok false)
         (fun e => Ok (Next (e - 1)))
         expr_end ;;
  Ok (final r).

(** The variables [paren_depth] and [expr_start]. *)
Record open_state := { os_depth : Z; os_start : Z }.

(** The backward scan for the parenthesis that opens the expression ending
    just before [expr_end]; the value is [(paren_depth, expr_start)] after
    the loop. *)
Definition scan_open_paren (t : text) (expr_end : Z) : result open_state :=
  r <- while (R := Empty_set) (fuel_of t)
         (fun st => Ok ((os_start st >=? 0) && (os_depth st >? 0)))
         (fun st =>
            c <- getc t (os_start st) ;;
            let d := if ch_eqb c close_paren then os_depth st + 1
                     else if ch_eqb c open_paren then os_depth st - 1
                     else os_depth st in
            Ok (Next {| os_depth := d; os_start := os_start st - 1 |}))
         {| os_depth := 1; os_start := expr_end - 2 |} ;;
  Ok (final r).

(** The characters a word stops at. *)
Definition word_stops : text :=
  [" "%char; tab; nl] ++ lit "()[]{},:;".

(** The backward scan for the start of the word ending at [word_end]. *)
Definition scan_word_start (t : text) (word_end : Z) : result Z :=
  r <- while (R := Empty_set) (fuel_of t)
         (fun w => Ok (w >? 0))
         (fun w =>
            ch <- getc t (w - 1) ;;
            if char_in ch word_stops then Ok (Break w) else Ok (Next (w - 1)))
         word_end ;;
  Ok (final r).

(** [find_whose_context(text, it_pos)]. *)
Definition find_whose_context (t : text) (it_pos : Z)
  : result (option referent) :=
  let whose_matches := finditer match_whose t in
  match whose_matches with
  | [] => Ok None
  | _ =>
      containing <- containing_whose t it_pos whose_matches ;;
      match containing with
      | None => Ok None
      | Some containing_whose =>
          let whose_start := m_start containing_whose in
          expr_end <- skip_space_back t whose_start ;;
          if expr_end =? 0 then Ok None
          else
            c <- getc t (expr_end - 1) ;;
            if ch_eqb c close_paren then
              st <- scan_open_paren t expr_end ;;
              let paren_depth := os_depth st in
              let expr_start := os_start st + 1 in
              if (paren_depth =? 0) && (expr_start >=? 0)
              then Ok (Some {| ref_start := expr_start; ref_end := expr_end |})
              else Ok None
            else
              let word_end := expr_end in
              word_start <- scan_word_start t word_end ;;
              if word_start <? word_end
              then Ok (Some {| ref_start := word_start; ref_end := word_end |})
              else Ok None
      end
  end.

(** The variables [paren_depth] and [paren_start]. *)
Record enc_state := { en_depth : Z; en_start : option Z }.

(** The backward scan of [find_of_it_context] for the parenthesis that
    encloses the pronoun; the value is [paren_start]. *)
Definition scan_enclosing_open (t : text) (it_pos : Z) : result (option Z) :=
  r <- for_in (R := Empty_set) (range_down (it_pos - 1) (-1))
         (fun i st =>
            c <- getc t i ;;
            if ch_eqb c close_paren then
              Ok (Next {| en_depth := en_depth st + 1;
                          en_start := en_start st |})
            else if ch_eqb c open_paren then
              if en_depth st =? 0
              then Ok (Break {| en_depth := en_depth st; en_start := Some i |})
              else Ok (Next {| en_depth := en_depth st - 1;
                               en_start := en_start st |})
            else Ok (Next st))
         {| en_depth := 0; en_start := None |} ;;
  Ok (en_start (final r)).

(** [re.match(r'of\s+', s, re.IGNORECASE)], as the end of the match. *)
Definition match_of_space (s : text) : option Z :=
  if ci_prefix (lit "of") s then
    match count_space (skipn 2 s) with
    | O => None
    | k => Some (Z.of_nat (2 + k))
    end
  else None.

(** The variables [obj_end] and [paren_depth]. *)
Record obj_state := { ob_end : Z; ob_depth : Z }.

(** The forward scan for the end of the object: a newline, the end of the
    text or a closing parenthesis at depth 0. *)
Definition scan_object_end (t : text) (obj_start : Z) : result Z :=
  r <- while (R := Empty_set) (fuel_of t)
         (fun st => Ok (ob_end st <? len t))
         (fun st =>
            ch <- getc t (ob_end st) ;;
            if ch_eqb ch open_paren then
              Ok (Next {| ob_end := ob_end st + 1;
                          ob_depth := ob_depth st + 1 |})
            else if ch_eqb ch close_paren then
              if ob_depth st =? 0 then Ok (Break st)
              else Ok (Next {| ob_end := ob_end st + 1;
                               ob_depth := ob_depth st - 1 |})
            else if ch_eqb ch nl then Ok (Break st)
            else Ok (Next {| ob_end := ob_end st + 1;
                             ob_depth := ob_depth st |}))
         {| ob_end := obj_start; ob_depth := 0 |} ;;
  Ok (ob_end (final r)).

(** [while obj_end > obj_start_absolute and text[obj_end - 1] in ' \t':
    obj_end -= 1]. *)
Definition trim_object_end (t : text) (obj_start obj_end : Z) : result Z :=
  r <- while (R := Empty_set) (fuel_of t)
         (fun e => if e >? obj_start
                   then c <- getc t (e - 1) ;; Ok (char_in c [" "%char; tab])
                   else Ok false)
         (fun e => Ok (Next (e - 1)))
         obj_end ;;
  Ok (final r).

(** The test that opens [find_of_it_context]: the text before the pronoun,
    right-trimmed and lower-cased, ends with [" of"]. *)
Definition follows_of (t : text) (it_pos : Z) : bool :=
  let before_it := rstrip (slice_to t it_pos) in
  endswith (lower before_it) (lit " of").

(** [find_of_it_context(text, it_pos)]. *)
Definition find_of_it_context (t : text) (it_pos : Z)
  : result (option referent) :=
  if negb (follows_of t it_pos) then Ok None
  else
    paren_start <- scan_enclosing_open t it_pos ;;
    match paren_start with
    | None => Ok None
    | Some paren_start =>
        paren_end <- scan_close_paren t (paren_start + 1) ;;
        match paren_end with
        | None => Ok None
        | Some paren_end =>
            let after_paren := lstrip (slice_from t (paren_end + 1)) in
            if negb (startswith (lower after_paren) (lit "of ")) then Ok None
            else
              match match_of_space after_paren with
              | None => Ok None
              | Some obj_start_relative =>
                  let obj_start_absolute :=
                    paren_end + 1
                    + (len (slice_from t (paren_end + 1)) - len after_paren)
                    + obj_start_relative in
                  obj_end <- scan_object_end t obj_start_absolute ;;
                  obj_end <- trim_object_end t obj_start_absolute obj_end ;;
                  if obj_end >? obj_start_absolute
                  then Ok (Some {| ref_start := obj_start_absolute;
                                   ref_end := obj_end |})
                  else Ok None
              end
        end
    end.

(** [find_it_referent(text, it_keyword)]. *)
Definition find_it_referent (t : text) (it_keyword : keyword)
  : result (option referent) :=
  let it_pos := start it_keyword in
  whose_match <- find_whose_context t it_pos ;;
  match whose_match with
  | Some r => Ok (Some r)
  | None =>
      of_it_match <- find_of_it_context t it_pos ;;
      match of_it_match with
      | Some r => Ok (Some r)
      | None => Ok None
      end
  end.

(** The pronoun occurrences [highlight_it_references] collects. *)
Definition it_keywords (t : text) : list keyword :=
  map keyword_of (finditer (match_alts it_pattern) t).

(** The selection from [s] to [e]. *)
Definition span_selection (s e : Z) (f : char_format) : selection :=
  {| sel_start := s; sel_end := e; sel_format := f |}.

(** The loop of [highlight_it_references] over the other pronouns: the
    selections it appends to [selections]. *)
Definition sibling_selections (t : text) (it_keywords : list keyword)
           (current_it : keyword) (ref : referent)
           (selections : list selection) : result (list selection) :=
  r <- for_in (R := Empty_set) it_keywords
         (fun other_it selections =>
            if negb (start other_it =? start current_it) then
              other_ref <- find_it_referent t other_it ;;
              match other_ref with
              | Some o =>
                  if (ref_start o =? ref_start ref)
                     && (ref_end o =? ref_end ref)
                  then Ok (Next (selections
                                 ++ [span_selection (start other_it)
                                       (end_ other_it) green_format]))
                  else Ok (Next selections)
              | None => Ok (Next selections)
              end
            else Ok (Next selections))
         selections ;;
  Ok (final r).

(** [highlight_it_references(pane, text, pos)]. *)
Definition highlight_it_references (t : text) (pos : Z)
  : result (option (list selection)) :=
  let it_keywords := it_keywords t in
  match it_keywords with
  | [] => Ok None
  | _ =>
      match keyword_at it_keywords pos with
      | None => Ok None
      | Some current_it =>
          referent <- find_it_referent t current_it ;;
          match referent with
          | Some ref =>
              selections <-
                sibling_selections t it_keywords current_it ref
                  [span_selection (start current_it) (end_ current_it)
                     green_format;
                   span_selection (ref_start ref) (ref_end ref)
                     green_format] ;;
              Ok (Some selections)
          | None =>
              Ok (Some [span_selection (start current_it) (end_ current_it)
                          red_format])
          end
      end
  end.

(* ================================================================== *)
(** ** The cursor handler *)

(** A list, or [None], is false when it is [None] or empty. *)
Definition truthy (o : option (list selection)) : bool :=
  match o with
  | Some (_ :: _) => true
  | _ => false
  end.

Definition selections_of (o : option (list selection)) : list selection :=
  match o with
  | Some l => l
  | None => []
  end.

(** The body of the [try] of [highlight_matching_brackets]; its value is
    the list of extra selections the pane holds when the body ends.  The
    body first clears them, so that is the empty list on every path that
    sets nothing. *)
Definition highlight_body (t : text) (pos : Z) : result (list selection) :=
  if is_nil t || (pos >? len t) then Ok []
  else
    it_selections <- highlight_it_references t pos ;;
    if truthy it_selections then Ok (selections_of it_selections)
    else
      keyword_selections <- highlight_if_then_else t pos ;;
      if truthy keyword_selections then Ok (selections_of keyword_selections)
      else
        bracket_selections <- get_cursor_bracket_selections t pos ;;
        match bracket_selections with
        | _ :: _ => Ok bracket_selections
        | [] => Ok []
        end.

(** [highlight_matching_brackets()] for a pane holding [t] with the cursor
    at [pos]: an exception leaves the pane with the cleared selections. *)
Definition highlight_matching_brackets (t : text) (pos : Z)
  : result (list selection) :=
  try_except (highlight_body t pos) (Ok []).

(* ================================================================== *)
(** ** Pretty-printer *)

(** [_tokenize_for_pretty_print(expr)]. *)
Definition _tokenize_for_pretty_print (expr : text) : list text :=
  filter (fun p => negb (is_nil p)) (re_split (match_alts token_pattern) expr).

(** The variables [result], [indent_level] and [current_line]. *)
Record pp_state :=
  { pp_result : list text; indent_level : Z; current_line : text }.

Definition indent_str : text := lit "    ".

(** The flush each delimiter starts with: a line with content is appended
    at the current indent and the buffer is emptied. *)
Definition flush (st : pp_state) : pp_state :=
  if negb (is_nil (strip (current_line st))) then
    {| pp_result := pp_result st
                    ++ [str_mul indent_str (indent_level st)
                        ++ strip (current_line st)];
       indent_level := indent_level st;
       current_line := [] |}
  else st.

(** [s in ('if', 'then', 'else')]. *)
Definition is_keyword_text (s : text) : bool :=
  text_eqb s (lit "if") || text_eqb s (lit "then") || text_eqb s (lit "else").

(** One iteration of the loop of [pretty_print_relevance]. *)
Definition pp_token (st : pp_state) (token : text) : pp_state :=
  let token_stripped := strip token in
  if is_nil token_stripped then
    if negb (is_nil (current_line st))
       && negb (endswith (current_line st) (lit " "))
    then {| pp_result := pp_result st; indent_level := indent_level st;
            current_line := current_line st ++ lit " " |}
    else st
  else
    let token_lower := lower token_stripped in
    if text_eqb token_stripped (lit "(") then
      let st := flush st in
      {| pp_result := pp_result st
                      ++ [str_mul indent_str (indent_level st) ++ lit "("];
         indent_level := indent_level st + 1;
         current_line := current_line st |}
    else if text_eqb token_stripped (lit ")") then
      let st := flush st in
      let lvl := Z.max 0 (indent_level st - 1) in
      {| pp_result := pp_result st ++ [str_mul indent_str lvl ++ lit ")"];
         indent_level := lvl;
         current_line := current_line st |}
    else if is_keyword_text token_lower then
      let st := flush st in
      {| pp_result := pp_result st; indent_level := indent_level st;
         current_line := token_stripped ++ lit " " |}
    else
      {| pp_result := pp_result st; indent_level := indent_level st;
         current_line := current_line st ++ token_stripped ++ lit " " |}.

(** The state before the loop: no line, no indent, an empty buffer. *)
Definition pp_start : pp_state :=
  {| pp_result := []; indent_level := 0; current_line := [] |}.

(** [pretty_print_relevance(expr)]. *)
Definition pretty_print_relevance (expr : text) : text :=
  let tokens := _tokenize_for_pretty_print expr in
  let st := fold_left pp_token tokens pp_start in
  join [nl] (pp_result (flush st)).

(** The compacting branch of [format_expression]:
    [' '.join(expr.split())]. *)
Definition compact (expr : text) : text := join (lit " ") (split_ws expr).

(** [format_expression()] on a Single Clause tab whose input pane holds
    [t]: the text the pane is given, or [None] when it is left alone. *)
Definition format_expression (t : text) : option text :=
  let expr := strip t in
  if is_nil expr then None
  else if char_in nl expr then Some (compact expr)
  else Some (pretty_print_relevance expr).

(* ================================================================== *)
(** ** Lines of a pane *)

(** [l[i]] for a list, with Python's negative indices. *)
Definition getitem {A} (l : list A) (i : Z) : result A :=
  let n := Z.of_nat (length l) in
  let k := if i <? 0 then i + n else i in
  if (0 <=? k) && (k <? n) then
    match nth_error l (Z.to_nat k) with
    | Some a => Ok a
    | None => Raise IndexError
    end
  else Raise IndexError.

(** [s.split(sep)] for a separator of one character: the stretches
    between the separators, so one more than there are separators. *)
Fixpoint split_on (sep : ascii) (t : text) : list text :=
  match t with
  | [] => [[]]
  | c :: t' =>
      if ch_eqb c sep then [] :: split_on sep t'
      else match split_on sep t' with
           | l :: ls => (c :: l) :: ls
           | [] => [[c]]
           end
  end.

(** [not l] for a list. *)
Definition is_empty {A} (l : list A) : bool :=
  match l with [] => true | _ :: _ => false end.

(* ================================================================== *)
(** ** Removing the result lines *)

(** The test of [remove_results] on a stripped line: it starts with
    [A:], [T:], [E:] or [I:]. *)
Definition starts_with_result (stripped : text) : bool :=
  startswith stripped (lit "A:") || startswith stripped (lit "T:")
  || startswith stripped (lit "E:") || startswith stripped (lit "I:").

(** The variables [result_lines] and [prev_blank] of the loop that keeps
    one blank line of each run of blank lines. *)
Record blank_state := { kept_lines : list text; prev_blank : bool }.

(** One iteration of that loop in [remove_results]. *)
Definition keep_one_blank (st : blank_state) (line : text) : blank_state :=
  let is_blank := text_eqb (strip line) [] in
  if is_blank && prev_blank st then st
  else {| kept_lines := kept_lines st ++ [line]; prev_blank := is_blank |}.

(** [while result_lines and result_lines[-1].strip() == '':
    result_lines.pop()]. *)
Definition pop_trailing_blank (result_lines : list text)
  : result (list text) :=
  r <- while (R := Empty_set) (Datatypes.S (length result_lines))
         (fun ls => if is_empty ls then Ok false
                    else l <- getitem ls (-1) ;; Ok (text_eqb (strip l) []))
         (fun ls => Ok (Next (removelast ls)))
         result_lines ;;
  Ok (final r).

(** The text [remove_results] gives the pane, from the text it holds. *)
Definition remove_results_text (t : text) : result text :=
  let lines := split_on nl t in
  let filtered_lines :=
    filter (fun line => negb (starts_with_result (strip line))) lines in
  let result_lines :=
    kept_lines (fold_left keep_one_blank filtered_lines
                  {| kept_lines := []; prev_blank := false |}) in
  result_lines <- pop_trailing_blank result_lines ;;
  Ok (join [nl] result_lines).

(** [remove_results()] on the active tab, of type [tab_type], whose pane
    holds [t] with the cursor at [old_pos]: the text and the cursor
    position the pane is given, or [None] when the pane is left alone. *)
Definition remove_results (tab_type : option text) (t : text) (old_pos : Z)
  : result (option (text * Z)) :=
  match tab_type with
  | None => Ok None
  | Some ty =>
      if negb (text_eqb ty (lit "qna")) then Ok None
      else
        new_text <- remove_results_text t ;;
        Ok (Some (new_text, Z.min old_pos (len new_text)))
  end.

(* ================================================================== *)
(** ** Finding the queries of a QnA pane *)

(** [s.startswith(('A:', 'E:', 'T:', 'I:'))]. *)
Definition startswith_any (s : text) (prefixes : list text) : bool :=
  existsb (startswith s) prefixes.

Definition result_prefixes : list text :=
  [lit "A:"; lit "E:"; lit "T:"; lit "I:"].

(** One iteration of the loop of [evaluate_qna_mode] that keeps one blank
    line of each run. *)
Definition keep_max_one_blank (st : blank_state) (line : text)
  : blank_state :=
  let is_blank := is_nil (strip line) in
  if is_blank && prev_blank st then st
  else {| kept_lines := kept_lines st ++ [line]; prev_blank := is_blank |}.

(** The text [evaluate_qna_mode] puts back into the pane before it looks
    for the queries. *)
Definition cleaned_text (t : text) : text :=
  let lines := split_on nl t in
  let cleaned_lines :=
    filter (fun line => negb (startswith_any (strip line) result_prefixes))
           lines in
  let final_lines :=
    kept_lines (fold_left keep_max_one_blank cleaned_lines
                  {| kept_lines := []; prev_blank := false |}) in
  join [nl] final_lines.

(** The variables [j], [query_parts] and [query_end_line] of the inner
    loop. *)
Record part_state :=
  { pj : Z; query_parts : list text; query_end_line : Z }.

(** The inner loop of the search: the continuation lines of a query are
    the lines that follow it, up to a blank line or the next [Q:] line. *)
Definition continuation (lines : list text) (st : part_state)
  : result part_state :=
  r <- while (R := Empty_set) (Datatypes.S (length lines))
         (fun st => Ok (pj st <? Z.of_nat (length lines)))
         (fun st =>
            l <- getitem lines (pj st) ;;
            let next_line := strip l in
            if is_nil next_line || startswith next_line (lit "Q:")
            then Ok (Break st)
            else Ok (Next {| pj := pj st + 1;
                             query_parts := query_parts st ++ [next_line];
                             query_end_line := pj st |}))
         st ;;
  Ok (final r).

(** The variables [i] and [pending_queries] of the outer loop. *)
Record query_state := { qi : Z; pending : list (Z * text) }.

(** One iteration of the outer loop. *)
Definition query_step (lines : list text) (st : query_state)
  : result (ctl query_state Empty_set) :=
  line <- getitem lines (qi st) ;;
  let stripped := strip line in
  if startswith stripped (lit "Q:") && (len stripped >? 2) then
    ps <- continuation lines
            {| pj := qi st + 1;
               query_parts := [strip (slice_from stripped 2)];
               query_end_line := qi st |} ;;
    let full_query := join (lit " ") (query_parts ps) in
    let pending :=
      if negb (is_nil full_query)
      then pending st ++ [(query_end_line ps, full_query)]
      else pending st in
    Ok (Next {| qi := pj ps; pending := pending |})
  else Ok (Next {| qi := qi st + 1; pending := pending st |}).

(** The queries of the lines, each with the number of its last line, in
    the order of the lines. *)
Definition find_queries (lines : list text) : result (list (Z * text)) :=
  r <- while (R := Empty_set) (Datatypes.S (length lines))
         (fun st => Ok (qi st <? Z.of_nat (length lines)))
         (query_step lines)
         {| qi := 0; pending := [] |} ;;
  Ok (pending (final r)).

(* ================================================================== *)
(** ** The worker: the query it sends and the output it reports *)

(** [s.upper().startswith('Q:')].  Upper-casing maps [q] and [Q], and no
    other character, to [Q]; it maps the colon, and no other character, to
    the colon; and it maps no character to the empty string.  So the test
    reads the first two characters of [s]. *)
Definition upper_startswith_q (s : text) : bool :=
  match s with
  | c :: d :: _ =>
      (ch_eqb c "q"%char || ch_eqb c "Q"%char) && ch_eqb d ":"%char
  | _ => false
  end.

(** The query [QnAWorker.run] sends to qna, from the query it was given:
    stripped, without a leading [Q:]; [None] when nothing is left, where
    the worker reports that there is no query and does not call qna. *)
Definition clean_query (query : text) : option text :=
  let query := strip query in
  let query :=
    if upper_startswith_q query then strip (slice_from query 2) else query in
  if is_nil query then None else Some query.

(** [s.split(sep, 1)] for a separator that is not empty: the text before
    the first occurrence of [sep] and the text after it, or [s] alone when
    [sep] does not occur.  [cur] is the text passed over, reversed. *)
Fixpoint split_once (sep s cur : text) : list text :=
  if startswith s sep then [rev cur; skipn (length sep) s]
  else match s with
       | [] => [rev cur]
       | c :: s' => split_once sep s' (c :: cur)
       end.

(** [s.replace(old, '')] for an [old] that is not empty: the occurrences
    of [old] are removed from left to right, [skip] counting the
    characters of the current occurrence still to pass. *)
Fixpoint remove_all (old s : text) (skip : nat) : text :=
  match s with
  | [] => []
  | c :: s' =>
      match skip with
      | Datatypes.S k => remove_all old s' k
      | O =>
          if startswith s old then remove_all old s' (length old - 1)
          else c :: remove_all old s' O
      end
  end.

(** [str.isdigit] on one character, and on a string. *)
Definition isdigit_char (c : ascii) : bool :=
  (between 48 57 c || between 178 179 c || N.eqb (code c) 185)%bool.

Definition isdigit (s : text) : bool :=
  negb (is_nil s) && forallb isdigit_char s.

(** One iteration of the loop of [QnAWorker.run] over the lines of the
    output of qna: [formatted_lines] after the line.  [show_ms v] stands
    for [f"{int(v) / 1000.0:.3f}"], the milliseconds as Python's float
    arithmetic and formatting give them, and is [None] when [int] or the
    division raises, which the [try] around them catches. *)
Definition format_line (show_ms : text -> option text)
           (formatted_lines : list text) (line : text)
  : result (list text) :=
  let line := rstrip line in
  if is_nil line || text_eqb line (lit "Q:") || text_eqb line (lit "Q: ")
  then Ok formatted_lines
  else if startswith line (lit "Q:") && str_in (lit " A:") line then
    rest <- getitem (split_once (lit "A:") line []) 1 ;;
    let answer := strip rest in
    Ok (formatted_lines ++ [lit "A: " ++ answer])
  else if startswith line (lit "Q:") && str_in (lit " E:") line then
    rest <- getitem (split_once (lit "E:") line []) 1 ;;
    let error := strip rest in
    Ok (formatted_lines ++ [lit "E: " ++ error])
  else if startswith line (lit "T:") then
    let time_val := strip (remove_all (lit "T:") line O) in
    if isdigit time_val then
      match show_ms time_val with
      | Some time_ms =>
          Ok (formatted_lines ++ [lit "T: " ++ time_ms ++ lit " ms"])
      | None => Ok (formatted_lines ++ [line])
      end
    else Ok (formatted_lines ++ [line])
  else if startswith_any line [lit "A:"; lit "E:"; lit "I:"] then
    Ok (formatted_lines ++ [line])
  else Ok formatted_lines.

(** [formatted_lines] after the loop, from the standard output of qna. *)
Definition formatted_lines (show_ms : text -> option text) (stdout : text)
  : result (list text) :=
  let lines := split_on nl (strip stdout) in
  r <- for_in (R := Empty_set) lines
         (fun line formatted_lines =>
            formatted_lines <- format_line show_ms formatted_lines line ;;
            Ok (Next formatted_lines))
         [] ;;
  Ok (final r).

(** The output the worker reports: [output] of [QnAWorker.run]. *)
Definition format_output (show_ms : text -> option text) (stdout : text)
  : result text :=
  ls <- formatted_lines show_ms stdout ;;
  Ok (join [nl] ls).

(* ================================================================== *)
(** ** Single Clause mode *)

(** What [evaluate_single_clause_mode] does with the text of the pane:
    nothing when the text is blank, a refusal when the expression starts
    with [Q:], and otherwise a worker for the expression on one line. *)
Inductive clause_action :=
| nothing_to_evaluate
| prefix_refused
| evaluate_expression (expression : text).

Definition single_clause_action (t : text) : clause_action :=
  let expression := strip t in
  if is_nil expression then nothing_to_evaluate
  else
    let expression := join (lit " ") (split_ws expression) in
    if upper_startswith_q expression then prefix_refused
    else evaluate_expression expression.

(* ================================================================== *)
(** ** Zoom *)

(** [zoom_in], [zoom_out] and [zoom_reset], as the value they give
    [current_font_size]. *)
Definition zoom_in (current_font_size : Z) : Z := current_font_size + 2.

Definition zoom_out (current_font_size : Z) : Z :=
  if current_font_size >? 4 then current_font_size - 2
  else current_font_size.

Definition zoom_reset (current_font_size : Z) : Z := 10.

(** The font size the window starts with. *)
Definition initial_font_size : Z := 10.

(** The three zoom commands. *)
Inductive zoom_command := ZoomIn | ZoomOut | ZoomReset.

Definition zoom (current_font_size : Z) (c : zoom_command) : Z :=
  match c with
  | ZoomIn => zoom_in current_font_size
  | ZoomOut => zoom_out current_font_size
  | ZoomReset => zoom_reset current_font_size
  end.

(* ================================================================== *)
(** ** Block comments in the syntax highlighter *)

(** [QRegExp(p).indexIn(text, offset)] for a pattern that matches the
    literal [p], not empty, and nothing else: the first index from
    [offset] on where [p] occurs, or [-1].  A negative offset counts from
    the end of the text. *)
Fixpoint index_from (p rest : text) (pos offset : Z) : Z :=
  match rest with
  | [] => -1
  | _ :: rest' =>
      if (offset <=? pos) && startswith rest p then pos
      else index_from p rest' (pos + 1) offset
  end.

Definition index_in (p t : text) (offset : Z) : Z :=
  let offset := if offset <? 0 then offset + len t else offset in
  if offset <? 0 then -1 else index_from p t 0 offset.

Definition comment_start : text := lit "/*".
Definition comment_end : text := lit "*/".

(** The variable [start_index], the state of the block and the calls
    [setFormat(start, count, comment_format)] made so far. *)
Record comment_state :=
  { start_index : Z; block_state : Z; comment_formats : list (Z * Z) }.

(** One iteration of the loop of [highlightBlock] over the comments that
    start in the block; [matchedLength()] is 2 after a match of
    [end_expression]. *)
Definition comment_step (t : text) (st : comment_state)
  : result (ctl comment_state Empty_set) :=
  let end_index := index_in comment_end t (start_index st + 2) in
  let state := if end_index =? -1 then 1 else block_state st in
  let comment_length :=
    if end_index =? -1 then len t - start_index st
    else end_index - start_index st + 2 in
  Ok (Next {| start_index :=
                index_in comment_start t (start_index st + comment_length);
              block_state := state;
              comment_formats :=
                comment_formats st ++ [(start_index st, comment_length)] |}).

(** The part of [highlightBlock(text)] that handles the block comments:
    the state it gives the block and the comment formats it sets, from the
    state of the previous block. *)
Definition highlight_comments (previous_block_state : Z) (t : text)
  : result (Z * list (Z * Z)) :=
  let st :=
    if previous_block_state =? 1 then
      let end_index := index_in comment_end t 0 in
      if end_index =? -1 then
        {| start_index := 0; block_state := 1;
           comment_formats := [(0, len t)] |}
      else
        let comment_length := end_index + 2 in
        {| start_index := index_in comment_start t comment_length;
           block_state := 0;
           comment_formats := [(0, comment_length)] |}
    else
      {| start_index := index_in comment_start t 0; block_state := 0;
         comment_formats := [] |} in
  r <- while (R := Empty_set) (fuel_of t)
         (fun st => Ok (start_index st >=? 0))
         (comment_step t)
         st ;;
  Ok (block_state (final r), comment_formats (final r)).

(* ================================================================== *)
(** ** Notions the statements and the proofs use *)

(** The number of occurrences of [c] in [s]. *)
Fixpoint count_char (c : ascii) (s : text) : Z :=
  match s with
  | [] => 0
  | x :: s' => (if ch_eqb x c then 1 else 0) + count_char c s'
  end.

(** [t[a:b]] for [0 <= a <= b]. *)
Definition sub (t : text) (a b : Z) : text :=
  firstn (Z.to_nat (b - a)) (skipn (Z.to_nat a) t).

(** [m] returns a value, without raising and within its fuel, and the
    value satisfies [P]. *)
Definition returns {A} (m : result A) (P : A -> Prop) : Prop :=
  exists a, m = Ok a /\ P a.

(** A keyword occurrence lies within the text and is not empty. *)
Definition within (t : text) (k : keyword) : Prop :=
  0 <= start k /\ start k < end_ k /\ end_ k <= len t.

(** A matcher never answers more characters than the text has left. *)
Definition bounded (m : option ascii -> text -> option nat) : Prop :=
  forall prev rest k, m prev rest = Some k -> (k <= length rest)%nat.

(** The group of a match is the text of one of the alternatives, up to
    case. *)
Definition alt_text (a : alt) : text :=
  match a with Lit p | Word p => p end.

(** Every keyword of the list lies within the text. *)
Definition all_within (t : text) (keywords : list keyword) : Prop :=
  forall k, In k keywords -> within t k.

(** [prev_end] has been assigned, to an offset that is not negative. *)
Definition has_prev_end (st : if_state) : Prop :=
  exists p, fi_prev_end st = Some p /\ 0 <= p.

(** The list of what an option holds. *)
Definition opt_list {A} (o : option A) : list A :=
  match o with Some a => [a] | None => [] end.

(** The keywords of a group that were found, in the order [if], [then],
    [else]. *)
Definition found (tr : triple) : list keyword :=
  let '(if_pos, then_pos, else_pos) := tr in
  opt_list if_pos ++ opt_list then_pos ++ opt_list else_pos.

(** All three keywords were found. *)
Definition complete (tr : triple) : bool :=
  let '(if_pos, then_pos, else_pos) := tr in
  is_some if_pos && is_some then_pos && is_some else_pos.

(** Where [scan_close_paren] can find the closing parenthesis. *)
Definition close_post (t : text) (from : Z) (r : option Z) : Prop :=
  match r with
  | Some e => from <= e < len t
  | None => True
  end.

(** An option that holds nothing, or an element of the list. *)
Definition among {A} (l : list A) (o : option A) : Prop :=
  match o with
  | Some a => In a l
  | None => True
  end.

(** Where [scan_enclosing_open] can find the opening parenthesis. *)
Definition open_post (it_pos : Z) (r : option Z) : Prop :=
  match r with
  | Some ps => 0 <= ps < it_pos
  | None => True
  end.

(** A list of selections that is returned is never empty. *)
Definition nonempty_if_some (o : option (list selection)) : Prop :=
  match o with
  | Some l => l <> []
  | None => True
  end.

(** The parenthesis at [ps] is never closed: in no stretch of text after
    it do the closing parentheses outnumber the opening ones. *)
Definition unclosed (t : text) (ps : Z) : Prop :=
  forall j, ps < j <= len t ->
  count_char close_paren (sub t (ps + 1) j)
  <= count_char open_paren (sub t (ps + 1) j).

(** The maximal prefix of word characters, and what follows it. *)
Fixpoint word_prefix (t : text) : text :=
  match t with
  | c :: t' => if isword c then c :: word_prefix t' else []
  | [] => []
  end.

Fixpoint word_rest (t : text) : text :=
  match t with
  | c :: t' => if isword c then word_rest t' else t
  | [] => []
  end.

(** The atoms of a text: its maximal runs of word characters, and each
    other character on its own. *)
Fixpoint atoms (t : text) : list text :=
  match t with
  | [] => []
  | c :: t' =>
      if isword c then
        match atoms t' with
        | a :: rest =>
            if isword_opt (hd_error t') then (c :: a) :: rest
            else [c] :: a :: rest
        | [] => [[c]]
        end
      else [c] :: atoms t'
  end.

(** An atom the tokenizer's pattern matches: a parenthesis, or a word that
    is [if], [then] or [else] up to case. *)
Definition is_delim (a : text) : bool :=
  text_eqb a (lit "(") || text_eqb a (lit ")") || is_keyword_text (lower a).

(** The pieces [re.split] gives, from the atoms: the atoms between two
    delimiters are one piece, [cur] being the piece under way. *)
Fixpoint merge (l : list text) (cur : text) : list text :=
  match l with
  | [] => [cur]
  | a :: l' =>
      if is_delim a then cur :: a :: merge l' [] else merge l' (cur ++ a)
  end.

Ltac each_char c := destruct c as [[] [] [] [] [] [] [] []].

(** The pattern of the tokenizer, as a matcher. *)
Definition token_match : option ascii -> text -> option nat :=
  match_alts token_pattern.

(** What [re_split_from] gives in each of its states: after a character that
    is not a word character it merges the atoms of the rest; after a word
    character the rest of the current word is text; inside a match the
    characters of the match are passed over. *)
Definition split_spec (prev : option ascii) (rest : text) (skip : nat)
           (cur : text) : Prop :=
  match skip with
  | O =>
      re_split_from token_match prev rest O cur
      = if isword_opt prev
        then merge (atoms (word_rest rest)) (rev cur ++ word_prefix rest)
        else merge (atoms rest) (rev cur)
  | Datatypes.S _ =>
      forall u r2,
        rest = u ++ r2 -> length u = skip -> forallb isword u = true ->
        isword_opt (hd_error r2) = false ->
        re_split_from token_match prev rest skip cur
        = merge (atoms r2) (rev cur)
  end.

(** What a text holds once whitespace is set aside: its delimiters, and
    the words of its text runs, a word being a stretch without whitespace
    and without delimiter. *)
Inductive item :=
| D (d : text)
| W (w : text).

(** A text of whitespace only. *)
Definition is_blank (a : text) : bool := forallb isspace a.

(** The word under way, when there is one. *)
Definition flush_word (cur : text) : list item :=
  if is_nil cur then [] else [W cur].

(** The items of a list of atoms, [cur] being the word under way. *)
Fixpoint group (l : list text) (cur : text) : list item :=
  match l with
  | [] => flush_word cur
  | a :: l' =>
      if is_delim a then flush_word cur ++ D a :: group l' []
      else if is_blank a then flush_word cur ++ group l' []
      else group l' (cur ++ a)
  end.

(** The items of a text. *)
Definition items (t : text) : list item := group (atoms t) [].

(** The words of the run under way, joined, when there are some. *)
Definition flush_run (pend : list text) : list text :=
  match pend with
  | [] => []
  | _ => [join (lit " ") pend]
  end.

(** The token texts the items stand for: each delimiter, and the words
    between two delimiters joined by single spaces. *)
Fixpoint render (its : list item) (pend : list text) : list text :=
  match its with
  | [] => flush_run pend
  | D d :: r => flush_run pend ++ d :: render r []
  | W w :: r => render r (pend ++ [w])
  end.

(** An atom is a single character or a run of word characters. *)
Definition is_atom (a : text) : bool :=
  match a with
  | [] => false
  | [_] => true
  | _ => forallb isword a
  end.

(** A text without whitespace. *)
Definition ws_free (a : text) : bool := forallb (fun c => negb (isspace c)) a.

(** The word under way as a list of words. *)
Definition opt_word (g : text) : list text :=
  if is_nil g then [] else [g].

(** The text [cur] has been split into the words [pend] and the word [g]
    under way. *)
Definition split_state (cur : text) (pend : list text) (g : text) : Prop :=
  forall t, split_ws_aux (cur ++ t) [] = pend ++ split_ws_aux t (rev g).

(** The tokens with their whitespace normalized: each one compacted, and
    those that are only whitespace left out. *)
Definition normalized (l : list text) : list text :=
  filter (fun p => negb (is_nil p)) (map compact l).

(** Words are not empty. *)
Definition words (l : list text) : Prop := Forall (fun w => w <> []) l.

(** A well-formed list of atoms: no two runs of word characters side by
    side. *)
Fixpoint wf_atoms (l : list text) : Prop :=
  match l with
  | [] => True
  | a :: l' =>
      is_atom a = true /\
      (isword_opt (hd_error a) = true ->
       isword_opt (hd_error (concat l')) = false) /\
      wf_atoms l'
  end.

(** A piece of text between two delimiters: atoms none of which is a
    delimiter. *)
Definition text_piece (p : text) : Prop :=
  exists l, wf_atoms l /\ Forall (fun a => is_delim a = false) l /\
            p = concat l.

(** A piece that is one delimiter. *)
Definition delim_piece (p : text) : Prop :=
  is_atom p = true /\ is_delim p = true.

(** Items none of which is a delimiter. *)
Definition only_words (its : list item) : Prop :=
  Forall (fun it => match it with W _ => True | D _ => False end) its.

(** The tokens are pieces of either kind. *)
Definition piece (p : text) : Prop := text_piece p \/ delim_piece p.

(** The buffered line is empty or ends with whitespace. *)
Definition ends_ok (cl : text) : Prop :=
  cl = [] \/ exists cl0 c, cl = cl0 ++ [c] /\ isspace c = true.

(** The items the printer holds: those of its lines, then those of its
    buffered line. *)
Definition held (st : pp_state) : list item :=
  concat (map items (pp_result st)) ++ items (current_line st).

(** The token sequence of a text as the printer reads it: each token
    stripped, and the tokens that are only whitespace left out. *)
Definition token_contents (t : text) : list text :=
  filter (fun p => negb (is_nil p)) (map strip (_tokenize_for_pretty_print t)).

(** Whether there is a character and it is whitespace. *)
Definition isspace_opt (c : option ascii) : bool :=
  match c with
  | Some c => isspace c
  | None => false
  end.

(** Every whitespace character of the text is a single space between two
    other characters or at an end of the text. *)
Fixpoint tidy (t : text) : bool :=
  match t with
  | [] => true
  | c :: t' =>
      (negb (isspace c)
       || (ch_eqb c " "%char && negb (isspace_opt (hd_error t'))))
      && tidy t'
  end.

(** What [str.split] gives: texts without whitespace that are not empty. *)
Definition chunk (w : text) : Prop := ws_free w = true /\ w <> [].

(** The test [x in open_brackets + close_brackets] for one character. *)
Definition is_bracket (x : ascii) : bool :=
  str_in [x] (open_brackets ++ close_brackets).

(** A text without any bracket character. *)
Definition no_bracket (s : text) : Prop :=
  Forall (fun x => is_bracket x = false) s.

(** The conditions of the two [while] loops of [find_matching_bracket]. *)
Definition search_cond_forward (t : text) (st : search_state) : result bool :=
  Ok (search_pos st <? len t).

Definition search_cond_backward (st : search_state) : result bool :=
  Ok (search_pos st >=? 0).

(** The selections [get_cursor_bracket_selections] builds once it has chosen
    the bracket to examine. *)
Definition report (t : text) (check_pos : Z) (check_char : text)
  : result (list selection) :=
  match_pos <- find_matching_bracket t check_pos check_char
                 open_brackets close_brackets bracket_pairs reverse_pairs ;;
  match match_pos with
  | Some match_pos =>
      Ok [bracket_selection check_pos orange_format;
          bracket_selection match_pos orange_format]
  | None => Ok [bracket_selection check_pos red_format]
  end.

(** What an iteration leaves: the invariant on the state it hands on, or [Q]
    on the value it returns. *)
Definition after_step {S R} (Inv : S -> Prop) (Q : R -> Prop)
           (c : ctl S R) : Prop :=
  match c with
  | Next s | Break s => Inv s
  | Return r => Q r
  end.

(** What a loop leaves: the invariant on its final state, or [Q] on the
    value returned from inside it. *)
Definition after_loop {S R} (Inv : S -> Prop) (Q : R -> Prop)
           (r : S + R) : Prop :=
  match r with
  | inl s => Inv s
  | inr r => Q r
  end.

(** The same for a [while] loop, whose measure [mu] goes down when the loop
    goes on. *)
Definition after_while_step {S R} (Inv : S -> Prop) (Q : R -> Prop)
           (mu : S -> nat) (s : S) (c : ctl S R) : Prop :=
  match c with
  | Next s' => Inv s' /\ (mu s' < mu s)%nat
  | Break s' => Inv s'
  | Return r => Q r
  end.

(** A keyword occurrence, written with its word as a string literal. *)
Definition kw (w : string) (s e : Z) : keyword :=
  {| word := lit w; start := s; end_ := e |}.

(** [line.strip() == ''] and [not line.strip()]: a line of whitespace
    only. *)
Definition blank_line (line : text) : bool := is_nil (strip line).

(** A line the two cleaning loops drop: stripped, it starts with one of
    the result prefixes. *)
Definition result_line (line : text) : bool :=
  starts_with_result (strip line).

(** What the loops that keep one blank line of each run of blank lines
    compute, [prev] telling whether the line before was blank. *)
Fixpoint squeeze (prev : bool) (ls : list text) : list text :=
  match ls with
  | [] => []
  | l :: ls' =>
      if blank_line l && prev then squeeze prev ls'
      else l :: squeeze (blank_line l) ls'
  end.

(** The lines without the blank lines they end with. *)
Fixpoint trim_blank_tail (ls : list text) : list text :=
  match ls with
  | [] => []
  | l :: ls' =>
      match trim_blank_tail ls' with
      | [] => if blank_line l then [] else [l]
      | r => l :: r
      end
  end.

(** Whether there is a line and it is blank. *)
Definition blank_opt (o : option text) : bool :=
  match o with
  | Some l => blank_line l
  | None => false
  end.

(** No two blank lines follow each other. *)
Fixpoint single_blanks (ls : list text) : bool :=
  match ls with
  | [] => true
  | l :: ls' =>
      negb (blank_line l && blank_opt (hd_error ls')) && single_blanks ls'
  end.

(** The lines of a text. *)
Definition lines_of (t : text) : list text := split_on nl t.

(** A line that opens a query: stripped, it starts with [Q:] and holds
    more than that. *)
Definition query_line (line : text) : bool :=
  startswith (strip line) (lit "Q:") && (len (strip line) >? 2).

(** Numbers that go up, and numbers that go down. *)
Fixpoint ascending (l : list Z) : Prop :=
  match l with
  | [] => True
  | x :: r => (forall y, In y r -> x < y) /\ ascending r
  end.

Fixpoint descending (l : list Z) : Prop :=
  match l with
  | [] => True
  | x :: r => (forall y, In y r -> y < x) /\ descending r
  end.

(** The lines [remove_results] keeps, and those the cleaning of
    [evaluate_qna_mode] keeps. *)
Definition clean_lines (t : text) : list text :=
  squeeze false (filter (fun l => negb (result_line l)) (lines_of t)).

Definition remaining_lines (t : text) : list text :=
  trim_blank_tail (clean_lines t).

(** What an iteration of a [while] loop leaves when the state the loop
    ends with has to satisfy [E]: the invariant when the loop goes on, [E]
    when it breaks. *)
Definition after_exit_step {S R} (Inv E : S -> Prop) (Q : R -> Prop)
           (mu : S -> nat) (s : S) (c : ctl S R) : Prop :=
  match c with
  | Next s' => Inv s' /\ (mu s' < mu s)%nat
  | Break s' => E s'
  | Return r => Q r
  end.

(** The delimiter a reader of block comments waits for: the end of the
    comment inside a comment, the start of one outside. *)
Definition awaited (inside : bool) : text :=
  if inside then comment_end else comment_start.

(** Reading a block character by character: whether its end lies inside a
    comment, [inside] telling whether its start does.  [skip] is set on the
    second character of a delimiter. *)
Fixpoint ends_in_comment (inside skip : bool) (t : text) : bool :=
  match t with
  | [] => inside
  | _ :: t' =>
      if skip then ends_in_comment inside false t'
      else if startswith t (awaited inside)
           then ends_in_comment (negb inside) true t'
           else ends_in_comment inside false t'
  end.

(** The block state that stands for [inside]. *)
Definition state_of (inside : bool) : Z := if inside then 1 else 0.

(** The comment format is set within the block. *)
Definition formats_within (t : text) (fs : list (Z * Z)) : Prop :=
  Forall (fun f => 0 <= fst f /\ 0 <= snd f /\ fst f + snd f <= len t) fs.

(** The three situations of the loop of [highlight_comments]: no comment
    start is left; a comment starts at [start_index]; or the previous
    block ended in a comment that does not end in this block, and
    [start_index] is still 0. *)
Definition comment_inv (t : text) (answer : bool) (st : comment_state)
  : Prop :=
  formats_within t (comment_formats st) /\
  ((start_index st = -1 /\ block_state st = state_of answer) \/
   (0 <= start_index st /\ start_index st + 2 <= len t /\
    block_state st = 0 /\
    answer = ends_in_comment true false
               (skipn (Z.to_nat (start_index st + 2)) t)) \/
   (start_index st = 0 /\ block_state st = 1 /\ answer = true /\
    index_in comment_end t 0 = -1)).

(** How far the loop is from its end. *)
Definition comment_measure (t : text) (st : comment_state) : nat :=
  if start_index st <? 0 then O
  else Datatypes.S (Z.to_nat (len t - start_index st)).

(** The line under way in the printer is empty or ends with a space. *)
Definition spaced (cl : text) : Prop :=
  cl = [] \/ endswith cl (lit " ") = true.

(** The text the printer gives for a list of tokens. *)
Definition print_tokens (tokens : list text) : text :=
  join [nl] (pp_result (flush (fold_left pp_token tokens pp_start))).

(** A referent of the pronoun at [it_pos] found before it: a stretch of
    the text that is not empty and ends before the pronoun. *)
Definition referent_before (t : text) (it_pos : Z) (o : option referent)
  : Prop :=
  match o with
  | Some r =>
      0 <= ref_start r /\ ref_start r < ref_end r /\
      ref_end r < it_pos /\ ref_end r <= len t
  | None => True
  end.

(** A referent that is a stretch of the text and not empty. *)
Definition referent_within (t : text) (o : option referent) : Prop :=
  match o with
  | Some r => 0 <= ref_start r /\ ref_start r < ref_end r /\ ref_end r <= len t
  | None => True
  end.

(** A selection that covers a stretch of the text and is not empty. *)
Definition selection_within (t : text) (s : selection) : Prop :=
  0 <= sel_start s /\ sel_start s < sel_end s /\ sel_end s <= len t.

(** The clause that contains the pronoun starts before it. *)
Definition clause_before (ms : list re_match) (it_pos : Z)
           (o : option re_match) : Prop :=
  match o with
  | Some m => In m ms /\ m_end m <= it_pos
  | None => True
  end.

(** Where a search for the partner of a bracket ends on the characters
    [s] it goes through, from the count [n]: the index in [s] of the
    character that brings the count to 0.  [up] is the bracket the search
    started from, which raises the count, and [down] its partner, which
    lowers it. *)
Fixpoint closing_index (up down : ascii) (n : Z) (s : text) : option nat :=
  match s with
  | [] => None
  | x :: s' =>
      if ch_eqb x up then
        option_map Datatypes.S (closing_index up down (n + 1) s')
      else if ch_eqb x down then
        if n - 1 =? 0 then Some O
        else option_map Datatypes.S (closing_index up down (n - 1) s')
      else option_map Datatypes.S (closing_index up down n s')
  end.

(** [find_matching_bracket] with the brackets of the source. *)
Definition find_match (t : text) (pos : Z) (char : text)
  : result (option Z) :=
  find_matching_bracket t pos char open_brackets close_brackets
    bracket_pairs reverse_pairs.

(** What a search loop of [find_matching_bracket] ends with: the position
    [found], returned from inside the loop, or no position, the loop
    having run to its end. *)
Definition search_result (found : option Z) (r : search_state + Z) : Prop :=
  match found with
  | Some q => r = inr q
  | None => exists st, r = inl st
  end.

(** What an iteration leaves when the invariant depends on the elements
    the loop has been through: the invariant with one more element when
    the loop goes on, [F] when it breaks, [Q] on a value returned. *)
Definition after_prefix_step {I S R} (Inv : list I -> S -> Prop)
           (F : S -> Prop) (Q : R -> Prop) (pre : list I) (x : I)
           (c : ctl S R) : Prop :=
  match c with
  | Next s' => Inv (pre ++ [x]) s'
  | Break s' => F s'
  | Return r => Q r
  end.

(** A keyword of the list with the given word, when there is one. *)
Definition slot_ok (keywords : list keyword) (w : string)
           (o : option keyword) : Prop :=
  forall k, o = Some k -> In k keywords /\ word k = lit w.

(** The first keyword, when both are there, starts before the second. *)
Definition slot_before (a b : option keyword) : Prop :=
  forall x y, a = Some x -> b = Some y -> start x < start y.

(** A group as the matcher should give it: each slot holds a keyword of
    the list with the word of the slot, and the keywords found come in the
    order [if], [then], [else]. *)
Definition group_ok (keywords : list keyword) (tr : triple) : Prop :=
  let '(if_pos, then_pos, else_pos) := tr in
  slot_ok keywords "if" if_pos /\ slot_ok keywords "then" then_pos /\
  slot_ok keywords "else" else_pos /\
  slot_before if_pos then_pos /\ slot_before then_pos else_pos /\
  slot_before if_pos else_pos.

(** The parenthesis depth before offset [p]: the opening minus the closing
    parentheses of [t[0:p]]. *)
Definition depth_at (t : text) (p : Z) : Z :=
  count_char open_paren (sub t 0 p) - count_char close_paren (sub t 0 p).

(** From offset [a] to offset [b] the depth is never below [sd]. *)
Definition above (t : text) (sd a b : Z) : Prop :=
  forall q, a <= q <= b -> sd <= depth_at t q.

(** The matches follow one another without overlapping, from [lo] on. *)
Fixpoint chained (lo : Z) (l : list re_match) : Prop :=
  match l with
  | [] => True
  | m :: l' => lo <= m_start m /\ m_start m < m_end m /\ chained (m_end m) l'
  end.

(** The step of the depth at one character. *)
Definition paren_step (c : ascii) : Z :=
  if ch_eqb c open_paren then 1
  else if ch_eqb c close_paren then -1 else 0.

(** A keyword found after [cur], the depth staying at [sd] or above from
    [cur] to it; and the same for a keyword found before [cur]. *)
Definition found_after (t : text) (sd : Z) (cur : keyword)
           (o : option keyword) : Prop :=
  forall k, o = Some k ->
            start cur <= start k /\ above t sd (start cur) (start k).

Definition found_before (t : text) (sd : Z) (cur : keyword)
           (o : option keyword) : Prop :=
  forall k, o = Some k ->
            start k <= start cur /\ above t sd (start k) (start cur).

(** Between [cur] and the keyword of the slot, whichever comes first, the
    depth is never below [sd]. *)
Definition slot_inside (t : text) (sd : Z) (cur : keyword)
           (o : option keyword) : Prop :=
  forall k, o = Some k ->
            above t sd (Z.min (start cur) (start k))
                  (Z.max (start cur) (start k)).

Definition group_inside (t : text) (sd : Z) (cur : keyword) (tr : triple)
  : Prop :=
  let '(if_pos, then_pos, else_pos) := tr in
  slot_inside t sd cur if_pos /\ slot_inside t sd cur then_pos /\
  slot_inside t sd cur else_pos.

(** A text in which no character is a parenthesis. *)
Definition paren_free (s : text) : bool :=
  negb (char_in open_paren s) && negb (char_in close_paren s).

(** A line of an expanded text: an indent of [k] times four spaces, then
    a text that is not empty, has no whitespace at either end, and is one
    parenthesis or holds none. *)
Definition expanded_line (l : text) : Prop :=
  exists k body,
    0 <= k /\ l = str_mul indent_str k ++ body /\ body <> [] /\
    strip body = body /\
    (body = lit "(" \/ body = lit ")" \/ paren_free body = true).

(** A text with no parenthesis and no newline. *)
Definition plain (s : text) : Prop :=
  forall c, In c s -> c <> open_paren /\ c <> close_paren /\ c <> nl.

(** What the printer keeps while it reads the tokens of a line: finished
    lines, an indent that is not negative, a plain buffer. *)
Definition printing (st : pp_state) : Prop :=
  Forall (fun l => expanded_line l /\ char_in nl l = false) (pp_result st) /\
  0 <= indent_level st /\ plain (current_line st).

(** The sample texts of the scenarios. *)
Definition nested_if : text := lit "if A then (if B then C else D) else E".

Definition whose_sample : text :=
  lit "names of files whose (it contains " ++ [dquote] ++ lit ".txt"
  ++ [dquote] ++ lit ")".

Definition of_it_sample : text :=
  lit "(name of it, version of it) of operating system".

(* ================================================================== *)
(** * Properties *)

(** ** Indexing and ranges *)

Lemma len_nonneg (t : text) : 0 <= len t.
Proof. unfold len. lia. Qed.

Lemma getc_in_range (t : text) (i : Z) :
  0 <= i < len t -> getc t i = Ok (nth (Z.to_nat i) t zero).
Proof.
  intros H. unfold getc.
  destruct (0 <=? i) eqn:E1; [|lia].
  destruct (i <? len t) eqn:E2; [reflexivity|lia].
Qed.

Lemma range_nil (a b : Z) : b <= a -> range a b = [].
Proof.
  intros H. unfold range. replace (Z.to_nat (b - a)) with O by lia.
  reflexivity.
Qed.

Lemma range_cons (a b : Z) : a < b -> range a b = a :: range (a + 1) b.
Proof.
  intros H. unfold range.
  replace (Z.to_nat (b - a)) with (Datatypes.S (Z.to_nat (b - (a + 1))))
    by lia.
  simpl. f_equal; [lia|].
  rewrite <- seq_shift, map_map. apply map_ext. intros k. lia.
Qed.

Lemma range_In (a b i : Z) : In i (range a b) -> a <= i < b.
Proof.
  unfold range. rewrite in_map_iff. intros (k & <- & Hk).
  apply in_seq in Hk. lia.
Qed.

Lemma range_down_nil (a b : Z) : a <= b -> range_down a b = [].
Proof.
  intros H. unfold range_down. replace (Z.to_nat (a - b)) with O by lia.
  reflexivity.
Qed.

Lemma range_down_cons (a b : Z) :
  b < a -> range_down a b = a :: range_down (a - 1) b.
Proof.
  intros H. unfold range_down.
  replace (Z.to_nat (a - b)) with (Datatypes.S (Z.to_nat (a - 1 - b)))
    by lia.
  simpl. f_equal; [lia|].
  rewrite <- seq_shift, map_map. apply map_ext. intros k. lia.
Qed.

Lemma range_down_In (a b i : Z) : In i (range_down a b) -> b < i <= a.
Proof.
  unfold range_down. rewrite in_map_iff. intros (k & <- & Hk).
  apply in_seq in Hk. lia.
Qed.

Lemma skipn_nth_cons (t : text) (i : nat) :
  (i < length t)%nat -> skipn i t = nth i t zero :: skipn (Datatypes.S i) t.
Proof.
  revert i. induction t as [|c t IH]; intros i H; simpl in *; [lia|].
  destruct i; [reflexivity|]. apply IH. lia.
Qed.

(** ** Reasoning about results and loops *)

Lemma returns_ok {A} (a : A) (P : A -> Prop) : P a -> returns (Ok a) P.
Proof. intros H. exists a. auto. Qed.

Lemma returns_bind {A B} (m : result A) (k : A -> result B)
      (P : A -> Prop) (Q : B -> Prop) :
  returns m P -> (forall a, P a -> returns (k a) Q) ->
  returns (bind m k) Q.
Proof.
  intros (a & -> & Ha) Hk. cbn [bind]. auto.
Qed.

Lemma returns_weaken {A} (m : result A) (P Q : A -> Prop) :
  returns m P -> (forall a, P a -> Q a) -> returns m Q.
Proof.
  intros (a & -> & Ha) H. exists a. auto.
Qed.

Lemma returns_value {A} (m : result A) (P : A -> Prop) (a : A) :
  returns m P -> m = Ok a -> P a.
Proof.
  intros (b & -> & Hb) E. injection E as <-. exact Hb.
Qed.

Lemma for_in_returns {I S R} (Inv : S -> Prop) (Q : R -> Prop)
      (xs : list I) (body : I -> S -> result (ctl S R)) :
  (forall x s, In x xs -> Inv s -> returns (body x s) (after_step Inv Q)) ->
  forall s, Inv s -> returns (for_in xs body s) (after_loop Inv Q).
Proof.
  induction xs as [|x xs IH]; intros Hbody s Hs.
  - apply returns_ok. exact Hs.
  - cbn [for_in].
    apply returns_bind with (P := after_step Inv Q).
    + apply Hbody; [left; reflexivity|exact Hs].
    + intros [s'|s'|r] Hc; cbn in Hc.
      * apply IH; [|exact Hc]. intros y s0 Hy. apply Hbody. right. exact Hy.
      * apply returns_ok. exact Hc.
      * apply returns_ok. exact Hc.
Qed.

Lemma while_returns {S R} (Inv : S -> Prop) (Q : R -> Prop) (mu : S -> nat)
      (cond : S -> result bool) (body : S -> result (ctl S R)) :
  (forall s, Inv s ->
     returns (cond s)
       (fun b => b = true ->
                 returns (body s) (after_while_step Inv Q mu s))) ->
  forall fuel s, Inv s -> (mu s < fuel)%nat ->
  returns (while fuel cond body s) (after_loop Inv Q).
Proof.
  intros Hstep fuel.
  induction fuel as [|fuel IH]; intros s Hs Hmu; [lia|].
  cbn [while].
  destruct (Hstep s Hs) as (b & -> & Hb). cbn [bind].
  destruct b.
  - destruct (Hb eq_refl) as (c & -> & Hc). cbn [bind].
    destruct c as [s'|s'|r]; cbn in Hc.
    + apply IH; [tauto|lia].
    + apply returns_ok. exact Hc.
    + apply returns_ok. exact Hc.
  - apply returns_ok. exact Hs.
Qed.

(* One step through a loop body that reads the text within its bounds. *)
Ltac returns_step :=
  match goal with
  | |- returns (Ok _) _ => apply returns_ok
  | |- returns (bind (getc _ _) _) _ =>
      rewrite getc_in_range by lia; cbn [bind]
  | |- returns (if ?b then _ else _) _ => destruct b eqn:?
  | |- returns (match ?b with inl _ => _ | inr _ => _ end) _ => destruct b eqn:?
  end.

(** ** Depth tracker *)

Lemma depth_loop_counts (t : text) (n : nat) :
  forall (a d : Z), 0 <= a -> a + Z.of_nat n <= len t ->
  for_in (R := Empty_set) (range a (a + Z.of_nat n))
    (fun i depth =>
       c <- getc t i ;;
       if ch_eqb c open_paren then Ok (Next (depth + 1))
       else if ch_eqb c close_paren then Ok (Next (depth - 1))
       else Ok (Next depth)) d
  = Ok (inl (d + count_char open_paren (firstn n (skipn (Z.to_nat a) t))
               - count_char close_paren (firstn n (skipn (Z.to_nat a) t)))).
Proof.
  induction n as [|n IH]; intros a d Ha Hb.
  - rewrite range_nil by lia. simpl. do 2 f_equal. lia.
  - rewrite range_cons by lia. cbn [for_in].
    rewrite getc_in_range by lia. cbn [bind].
    rewrite (skipn_nth_cons t (Z.to_nat a)) by (unfold len in Hb; lia).
    cbn [firstn count_char].
    replace (a + Z.of_nat (Datatypes.S n)) with (a + 1 + Z.of_nat n) by lia.
    replace (Datatypes.S (Z.to_nat a)) with (Z.to_nat (a + 1)) by lia.
    set (c := nth (Z.to_nat a) t zero).
    destruct (ch_eqb c open_paren) eqn:Eo.
    + assert (ch_eqb c close_paren = false) as ->.
      { apply Ascii.eqb_eq in Eo. rewrite Eo. reflexivity. }
      cbn [bind]. rewrite IH by lia. do 2 f_equal. lia.
    + destruct (ch_eqb c close_paren) eqn:Ec;
        cbn [bind]; rewrite IH by lia; do 2 f_equal; lia.
Qed.

Lemma slice_to_in_range (t : text) (pos : Z) :
  0 <= pos <= len t -> slice_to t pos = firstn (Z.to_nat pos) t.
Proof.
  intros H. unfold slice_to, norm_bound.
  destruct (pos <? 0) eqn:E; [lia|]. f_equal. lia.
Qed.

(** C1 (as amended): for an offset within the text, [get_paren_depth] is
    the number of ["("] minus the number of [")"] in [text[0:offset]]; it
    is an integer that is negative exactly when the closing parentheses
    outnumber the opening ones there. *)
Theorem get_paren_depth_counts (t : text) (pos : Z) :
  0 <= pos <= len t ->
  exists d,
    get_paren_depth t pos = Ok d /\
    d = count_char open_paren (slice_to t pos)
        - count_char close_paren (slice_to t pos) /\
    (d < 0 <->
     count_char open_paren (slice_to t pos)
     < count_char close_paren (slice_to t pos)).
Proof.
  intros H. eexists. split; [|split; [reflexivity|lia]].
  unfold get_paren_depth.
  pose proof (depth_loop_counts t (Z.to_nat pos) 0 0) as L.
  replace (0 + Z.of_nat (Z.to_nat pos)) with pos in L by lia.
  rewrite L by lia. cbn [bind final]. simpl skipn.
  rewrite slice_to_in_range by lia. f_equal.
Qed.

Lemma get_paren_depth_counts_witness :
  0 <= 2 <= len (lit "a)") /\
  exists d,
    get_paren_depth (lit "a)") 2 = Ok d /\
    d = count_char open_paren (slice_to (lit "a)") 2)
        - count_char close_paren (slice_to (lit "a)") 2) /\
    (d < 0 <->
     count_char open_paren (slice_to (lit "a)") 2)
     < count_char close_paren (slice_to (lit "a)") 2)).
Proof.
  split; [vm_compute; split; discriminate|].
  apply (get_paren_depth_counts (lit "a)") 2).
  vm_compute; split; discriminate.
Defined.

(** C1 as stated fails: before the end of the text [")"] the depth is
    [-1]. *)
Lemma get_paren_depth_negative :
  ~ (forall (t : text) (pos d : Z),
       0 <= pos <= len t -> get_paren_depth t pos = Ok d -> 0 <= d).
Proof.
  intros H. specialize (H (lit ")") 1 (-1)).
  assert (0 <= -1) as F; [|lia].
  apply H; [vm_compute; split; discriminate|reflexivity].
Qed.

(** ** Evaluation of the scenarios *)

Ltac split_all :=
  repeat match goal with |- _ /\ _ => split end.

Ltac each_offset :=
  match goal with
  | |- Forall _ (range ?a ?b) =>
      let l := eval vm_compute in (range a b) in
      change (range a b) with l;
      repeat first [apply Forall_nil | apply Forall_cons]
  end.

Ltac evaluate :=
  split_all; try each_offset; split_all; vm_compute; reflexivity.

(** ** Keyword-block matcher: the nested scenario *)

(** C3: in [if A then (if B then C else D) else E] the outer [else]
    (offsets 31 to 35) is grouped with the outer [if] and [then] and no
    inner keyword, and the inner [else] (offsets 23 to 27) with the inner
    [if] and [then]; every cursor offset on either [else] gives exactly
    those three spans, matched. *)
Theorem nested_else_scoping :
  if_keywords nested_if
  = [kw "if" 0 2; kw "then" 5 9; kw "if" 11 13; kw "then" 16 20;
     kw "else" 23 27; kw "else" 31 35] /\
  find_if_then_for_else nested_if (kw "else" 31 35) (if_keywords nested_if)
  = Ok (Some (kw "if" 0 2), Some (kw "then" 5 9), Some (kw "else" 31 35)) /\
  find_if_then_for_else nested_if (kw "else" 23 27) (if_keywords nested_if)
  = Ok (Some (kw "if" 11 13), Some (kw "then" 16 20),
        Some (kw "else" 23 27)) /\
  Forall (fun pos =>
            highlight_if_then_else nested_if pos
            = Ok (Some [span_selection 0 2 orange_format;
                        span_selection 5 9 orange_format;
                        span_selection 31 35 orange_format]))
         (range 31 36) /\
  Forall (fun pos =>
            highlight_if_then_else nested_if pos
            = Ok (Some [span_selection 11 13 orange_format;
                        span_selection 16 20 orange_format;
                        span_selection 23 27 orange_format]))
         (range 23 28) /\
  class_of orange_format = matched.
Proof. evaluate. Qed.

(** ** Referent resolver: the two scenarios *)

(** C6: in [names of files whose (it contains ".txt")] the pronoun at
    offsets 22 to 24 is resolved by the whose-clause pattern to the span 9
    to 14, which is the word [files], and from every cursor offset on the
    pronoun the pronoun and that referent are the two spans reported, both
    matched. *)
Theorem whose_sample_referent :
  it_keywords whose_sample = [kw "it" 22 24] /\
  find_whose_context whose_sample 22
  = Ok (Some {| ref_start := 9; ref_end := 14 |}) /\
  sub whose_sample 9 14 = lit "files" /\
  sub whose_sample 15 20 = lit "whose" /\
  Forall (fun pos =>
            highlight_it_references whose_sample pos
            = Ok (Some [span_selection 22 24 green_format;
                        span_selection 9 14 green_format])
            /\ highlight_matching_brackets whose_sample pos
               = Ok [span_selection 22 24 green_format;
                     span_selection 9 14 green_format])
         (range 22 25) /\
  class_of green_format = matched.
Proof. evaluate. Qed.

(** C7: in [(name of it, version of it) of operating system] neither
    pronoun has a whose-clause, the of-it pattern resolves both (offsets 9
    to 11 and 24 to 26) to the span 31 to 47, which is
    [operating system], and from every cursor offset on one pronoun the
    spans reported are that pronoun, the referent and the other pronoun,
    all matched. *)
Theorem of_it_sample_referent :
  it_keywords of_it_sample = [kw "it" 9 11; kw "it" 24 26] /\
  find_whose_context of_it_sample 9 = Ok None /\
  find_whose_context of_it_sample 24 = Ok None /\
  find_of_it_context of_it_sample 9
  = Ok (Some {| ref_start := 31; ref_end := 47 |}) /\
  find_of_it_context of_it_sample 24
  = Ok (Some {| ref_start := 31; ref_end := 47 |}) /\
  sub of_it_sample 31 47 = lit "operating system" /\
  len of_it_sample = 47 /\
  Forall (fun pos =>
            highlight_it_references of_it_sample pos
            = Ok (Some [span_selection 9 11 green_format;
                        span_selection 31 47 green_format;
                        span_selection 24 26 green_format]))
         (range 9 12) /\
  Forall (fun pos =>
            highlight_it_references of_it_sample pos
            = Ok (Some [span_selection 24 26 green_format;
                        span_selection 31 47 green_format;
                        span_selection 9 11 green_format]))
         (range 24 27) /\
  class_of green_format = matched.
Proof. evaluate. Qed.

(** ** Bracket matcher at offset 0 *)

(** The cursor on a bracket that is the first character of the text: there
    [char_before] is the empty string, which [in] finds in every string,
    so the bracket at the cursor is never looked at and nothing is
    reported; one offset later the same bracket is reported. *)
Lemma bracket_at_offset_zero_ignored :
  get_cursor_bracket_selections (lit "(") 0 = Ok [] /\
  highlight_matching_brackets (lit "(") 0 = Ok [] /\
  highlight_matching_brackets (lit "(") 1
  = Ok [bracket_selection 0 red_format] /\
  highlight_matching_brackets (lit "(a)") 0 = Ok [] /\
  highlight_matching_brackets (lit "(a)") 1
  = Ok [bracket_selection 0 orange_format;
        bracket_selection 2 orange_format] /\
  highlight_matching_brackets (lit "(a)") 3
  = Ok [bracket_selection 2 orange_format;
        bracket_selection 0 orange_format] /\
  highlight_matching_brackets (lit "x(a)") 1
  = Ok [bracket_selection 1 orange_format;
        bracket_selection 3 orange_format].
Proof. evaluate. Qed.

(** ** The regular-expression scanner *)

Lemma ci_prefix_length (p rest : text) :
  ci_prefix p rest = true -> (length p <= length rest)%nat.
Proof.
  revert rest. induction p as [|x p IH]; intros [|y rest] H; simpl in *;
    try lia; try discriminate.
  apply andb_prop in H as [_ H]. apply IH in H. lia.
Qed.

Lemma ci_prefix_lower (p rest : text) :
  ci_prefix p rest = true -> lower (firstn (length p) rest) = lower p.
Proof.
  revert rest. induction p as [|x p IH]; intros [|y rest] H; simpl in *;
    try reflexivity; try discriminate.
  apply andb_prop in H as [E H]. apply Ascii.eqb_eq in E.
  unfold lower in *. simpl. f_equal; [symmetry; exact E|apply IH, H].
Qed.

Lemma match_alt_bound (prev : option ascii) (rest : text) (a : alt) (k : nat) :
  match_alt prev rest a = Some k -> (k <= length rest)%nat.
Proof.
  destruct a as [p|p]; simpl.
  - destruct (ci_prefix p rest) eqn:E; [|discriminate].
    intros [= <-]. apply ci_prefix_length, E.
  - destruct (word_boundary prev rest); cbn [andb]; [|discriminate].
    destruct (ci_prefix p rest) eqn:E; cbn [andb]; [|discriminate].
    destruct (word_boundary _ _); [|discriminate].
    intros [= <-]. apply ci_prefix_length, E.
Qed.

Lemma match_alts_bound (alts : list alt) (prev : option ascii) (rest : text)
      (k : nat) :
  match_alts alts prev rest = Some k -> (k <= length rest)%nat.
Proof.
  induction alts as [|a alts IH]; simpl; [discriminate|].
  destruct (match_alt prev rest a) eqn:E.
  - intros [= <-]. eapply match_alt_bound, E.
  - exact IH.
Qed.

Lemma match_whose_bound (prev : option ascii) (rest : text) (k : nat) :
  match_whose prev rest = Some k -> (k <= length rest)%nat.
Proof.
  unfold match_whose.
  destruct (word_boundary prev rest && ci_prefix (lit "whose") rest) eqn:E;
    [|discriminate].
  apply andb_prop in E as [_ E].
  apply ci_prefix_length in E. simpl in E.
  assert (length (skipn 5 rest) = length rest - 5)%nat as R
      by apply length_skipn.
  set (r := skipn 5 rest) in *.
  destruct (nth_error _ _) as [c|] eqn:N; [|discriminate].
  destruct (ch_eqb c "("); [|discriminate].
  intros [= <-].
  assert (count_space r < length r)%nat as L.
  { apply nth_error_Some. rewrite N. discriminate. }
  lia.
Qed.

Lemma scan_bounds (m : option ascii -> text -> option nat) :
  bounded m ->
  forall rest prev pos skip x,
    In x (scan m prev rest pos skip) ->
    pos <= m_start x /\ m_start x < m_end x /\
    m_end x <= pos + Z.of_nat (length rest).
Proof.
  intros Hm. induction rest as [|c rest IH]; intros prev pos skip x H;
    simpl in H; [contradiction|].
  assert (forall k, In x (scan m (Some c) rest (pos + 1) k) ->
                    pos <= m_start x /\ m_start x < m_end x /\
                    m_end x <= pos + Z.of_nat (length (c :: rest))) as Tail.
  { intros k Hk. apply IH in Hk. simpl length. lia. }
  destruct skip as [|k]; [|eauto].
  destruct (m prev (c :: rest)) as [[|k]|] eqn:E; eauto.
  destruct H as [<-|H]; [|eauto].
  apply Hm in E. simpl in *. lia.
Qed.

Lemma finditer_bounds (m : option ascii -> text -> option nat) (t : text)
      (x : re_match) :
  bounded m -> In x (finditer m t) ->
  0 <= m_start x /\ m_start x < m_end x /\ m_end x <= len t.
Proof.
  intros Hm H. apply (scan_bounds m Hm) in H. unfold len. lia.
Qed.

Lemma keywords_within (alts : list alt) (t : text) (k : keyword) :
  In k (map keyword_of (finditer (match_alts alts) t)) -> within t k.
Proof.
  rewrite in_map_iff. intros (x & <- & H).
  apply finditer_bounds in H; [exact H|].
  intros prev rest n. apply match_alts_bound.
Qed.

Lemma match_alts_group (alts : list alt) (prev : option ascii) (rest : text)
      (k : nat) :
  match_alts alts prev rest = Some k ->
  exists a, In a alts /\ lower (firstn k rest) = lower (alt_text a).
Proof.
  induction alts as [|a alts IH]; simpl; [discriminate|].
  destruct (match_alt prev rest a) eqn:E.
  - intros [= <-]. exists a. split; [auto|].
    destruct a as [p|p]; simpl in *.
    + destruct (ci_prefix p rest) eqn:C; [|discriminate].
      injection E as <-. apply ci_prefix_lower, C.
    + destruct (word_boundary prev rest); cbn [andb] in E; [|discriminate].
      destruct (ci_prefix p rest) eqn:C; cbn [andb] in E; [|discriminate].
      destruct (word_boundary _ _); [|discriminate].
      injection E as <-. apply ci_prefix_lower, C.
  - intros H. destruct (IH H) as (b & Hb & Eb). eauto.
Qed.

Lemma scan_groups (alts : list alt) :
  forall rest prev pos skip x,
    In x (scan (match_alts alts) prev rest pos skip) ->
    exists a, In a alts /\ lower (m_group x) = lower (alt_text a).
Proof.
  induction rest as [|c rest IH]; intros prev pos skip x H;
    simpl in H; [contradiction|].
  destruct skip as [|k]; [|eauto].
  destruct (match_alts alts prev (c :: rest)) as [[|k]|] eqn:E; eauto.
  destruct H as [<-|H]; [|eauto].
  cbn [m_group]. exact (match_alts_group _ _ _ _ E).
Qed.

Lemma if_keywords_word (t : text) (k : keyword) :
  In k (if_keywords t) ->
  word k = lit "if" \/ word k = lit "then" \/ word k = lit "else".
Proof.
  unfold if_keywords. rewrite in_map_iff. intros (x & <- & H).
  apply scan_groups in H as (a & Ha & E). simpl word. rewrite E.
  simpl in Ha. destruct Ha as [<-|[<-|[<-|[]]]]; auto.
Qed.

Lemma it_keywords_word (t : text) (k : keyword) :
  In k (it_keywords t) ->
  word k = lit "it" \/ word k = lit "its" \/ word k = lit "them".
Proof.
  unfold it_keywords. rewrite in_map_iff. intros (x & <- & H).
  apply scan_groups in H as (a & Ha & E). simpl word. rewrite E.
  simpl in Ha. destruct Ha as [<-|[<-|[<-|[]]]]; auto.
Qed.

Lemma keyword_at_In (keywords : list keyword) (pos : Z) (k : keyword) :
  keyword_at keywords pos = Some k ->
  In k keywords /\ start k <= pos <= end_ k.
Proof.
  unfold keyword_at. intros H. apply find_some in H as [H1 H2].
  split; [exact H1|]. apply andb_prop in H2 as [A B]. lia.
Qed.

Lemma insert_by_In le k l x : In x (insert_by le k l) -> x = k \/ In x l.
Proof.
  induction l as [|y l IH]; simpl.
  - intros [<-|[]]. auto.
  - destruct (le k y); simpl.
    + intros [<-|[<-|H]]; auto.
    + intros [<-|H]; auto. apply IH in H as [->|H]; auto.
Qed.

Lemma sort_by_In le l x : In x (sort_by le l) -> In x l.
Proof.
  unfold sort_by. induction l as [|y l IH]; simpl; [auto|].
  intros H. apply insert_by_In in H as [->|H]; auto.
Qed.

(** ** The keyword-block matcher returns *)

Lemma get_paren_depth_returns (t : text) (pos : Z) :
  pos <= len t -> returns (get_paren_depth t pos) (fun _ => True).
Proof.
  intros H. unfold get_paren_depth.
  eapply returns_bind.
  - apply (for_in_returns (fun _ => True) (fun _ => True)); [|exact I].
    intros i d Hi _. apply range_In in Hi.
    repeat returns_step; exact I.
  - intros r _. apply returns_ok. exact I.
Qed.

Lemma depth_forward_returns (t : text) (sd lo hi d : Z) :
  0 <= lo -> hi <= len t ->
  returns (depth_forward t sd lo hi d) (fun _ => True).
Proof.
  intros H1 H2. unfold depth_forward.
  eapply returns_weaken.
  - apply (for_in_returns (fun _ => True) (fun _ => True)); [|exact I].
    intros i s Hi _. apply range_In in Hi.
    repeat returns_step; exact I.
  - auto.
Qed.

Lemma depth_backward_returns (t : text) (sd prev_pos kw_end d : Z) :
  0 <= kw_end -> prev_pos <= len t ->
  returns (depth_backward t sd prev_pos kw_end d) (fun _ => True).
Proof.
  intros H1 H2. unfold depth_backward.
  eapply returns_bind.
  - apply (for_in_returns (fun _ => True) (fun _ => True)); [|exact I].
    intros i s Hi _. apply range_down_In in Hi.
    repeat returns_step; exact I.
  - intros r _. apply returns_ok. exact I.
Qed.

Lemma text_eqb_refl (a : text) : text_eqb a a = true.
Proof.
  induction a as [|c a IH]; simpl; [reflexivity|].
  unfold ch_eqb. rewrite Ascii.eqb_refl. exact IH.
Qed.

Lemma kw_eqb_refl (k : keyword) : kw_eqb k k = true.
Proof.
  unfold kw_eqb. rewrite text_eqb_refl, !Z.eqb_refl. reflexivity.
Qed.

Lemma after_keywords_within t keywords f k :
  all_within t keywords ->
  In k (sorted_by_start (filter f keywords)) -> within t k.
Proof.
  intros H Hk. apply sort_by_In in Hk. apply filter_In in Hk as [Hk _]. auto.
Qed.

Lemma before_keywords_within t keywords f k :
  all_within t keywords ->
  In k (sorted_by_start_reverse (filter f keywords)) -> within t k.
Proof.
  intros H Hk. apply sort_by_In in Hk. apply filter_In in Hk as [Hk _]. auto.
Qed.

Lemma then_else_step_returns (t : text) (if_kw : keyword) (sd : Z)
      (first : keyword) (rest : list keyword) (kw : keyword) (st : if_state) :
  within t if_kw -> within t kw ->
  kw_eqb kw first = true \/ has_prev_end st ->
  returns (then_else_step t if_kw sd (first :: rest) kw st)
          (after_step has_prev_end
                      (fun tr : triple => fst (fst tr) = Some if_kw)).
Proof.
  intros (I1 & I2 & I3) (W1 & W2 & W3) Hprev. unfold then_else_step.
  cbn [bind].
  assert (returns
            (if kw_eqb kw first then Ok (start if_kw)
             else match fi_prev_end st with
                  | Some p => Ok p
                  | None => Raise UnboundLocalError
                  end) (fun lo => 0 <= lo)) as Hlo.
  { destruct Hprev as [->|(p & -> & Hp)].
    - apply returns_ok. lia.
    - destruct (kw_eqb kw first); apply returns_ok; lia. }
  eapply returns_bind; [exact Hlo|]. intros lo Hlo'. cbv beta in Hlo'.
  eapply returns_bind; [apply depth_forward_returns; lia|].
  intros d _. cbv zeta. cbn [fi_depth fi_prev_end fi_then fi_else fi_nesting].
  unfold has_prev_end.
  repeat returns_step; cbn; try reflexivity; try (eexists; split;
    [reflexivity| lia]).
Qed.

Lemma find_then_else_for_if_returns (t : text) (if_kw : keyword)
      (keywords : list keyword) :
  within t if_kw -> all_within t keywords ->
  returns (find_then_else_for_if t if_kw keywords)
          (fun tr => fst (fst tr) = Some if_kw).
Proof.
  intros Hif Hall. unfold find_then_else_for_if.
  eapply returns_bind;
    [apply get_paren_depth_returns; unfold within in Hif; lia|].
  intros start_depth _.
  pose proof (after_keywords_within t keywords
                (fun k => start k >? start if_kw)) as Hafter.
  specialize (fun k => Hafter k Hall).
  set (after_keywords := sorted_by_start _) in *.
  set (Q := fun tr : triple => fst (fst tr) = Some if_kw).
  assert (forall st,
             returns (for_in after_keywords
                        (then_else_step t if_kw start_depth after_keywords)
                        st)
                     (after_loop (fun _ => True) Q)) as Loop.
  { destruct after_keywords as [|first rest]; intros st.
    - apply returns_ok. exact I.
    - cbn [for_in]. eapply returns_bind.
      + apply then_else_step_returns; [exact Hif| |].
        * apply Hafter. left. reflexivity.
        * left. apply kw_eqb_refl.
      + intros [s'|s'|r] Hc; cbn in Hc.
        * eapply returns_weaken.
          -- apply (for_in_returns has_prev_end Q); [|exact Hc].
             intros x s Hx Hs. apply then_else_step_returns; auto.
             apply Hafter. right. exact Hx.
          -- intros [s|r] H; cbn in *; auto.
        * apply returns_ok. exact I.
        * apply returns_ok. exact Hc. }
  eapply returns_bind; [apply Loop|].
  intros [st|res] Hr; subst Q; cbn in Hr; apply returns_ok;
    [reflexivity|exact Hr].
Qed.

Lemma if_for_then_step_returns (t : text) (sd : Z) (kw : keyword)
      (st : back_state) :
  within t kw -> bk_prev_pos st <= len t ->
  returns (if_for_then_step t sd kw st)
          (after_step (fun st => bk_prev_pos st <= len t)
                      (fun _ : Empty_set => True)).
Proof.
  intros (W1 & W2 & W3) Hst. unfold if_for_then_step.
  eapply returns_bind; [apply depth_backward_returns; lia|].
  intros d _. cbv zeta.
  cbn [bk_depth bk_prev_pos bk_then bk_if bk_nesting].
  repeat returns_step; cbn; lia.
Qed.

Lemma if_then_for_else_step_returns (t : text) (sd : Z) (kw : keyword)
      (st : back_state) :
  within t kw -> bk_prev_pos st <= len t ->
  returns (if_then_for_else_step t sd kw st)
          (after_step (fun st => bk_prev_pos st <= len t)
                      (fun _ : Empty_set => True)).
Proof.
  intros (W1 & W2 & W3) Hst. unfold if_then_for_else_step.
  eapply returns_bind; [apply depth_backward_returns; lia|].
  intros d _. cbv zeta.
  cbn [bk_depth bk_prev_pos bk_then bk_if bk_nesting].
  repeat returns_step; cbn; lia.
Qed.

Lemma else_for_then_step_returns (t : text) (then_kw : keyword) (sd : Z)
      (found_if : option keyword) (kw : keyword) (st : fwd_state) :
  within t kw -> 0 <= fw_prev_end st ->
  returns (else_for_then_step t then_kw sd found_if kw st)
          (after_step (fun st => 0 <= fw_prev_end st)
                      (fun tr : triple => snd (fst tr) = Some then_kw)).
Proof.
  intros (W1 & W2 & W3) Hst. unfold else_for_then_step.
  eapply returns_bind; [apply depth_forward_returns; lia|].
  intros d _. cbv zeta.
  cbn [fw_depth fw_prev_end fw_else fw_nesting].
  repeat returns_step; cbn; try reflexivity; lia.
Qed.

Lemma find_if_else_for_then_returns (t : text) (then_kw : keyword)
      (keywords : list keyword) :
  within t then_kw -> all_within t keywords ->
  returns (find_if_else_for_then t then_kw keywords)
          (fun tr => snd (fst tr) = Some then_kw).
Proof.
  intros Hthen Hall. pose proof Hthen as (T1 & T2 & T3).
  unfold find_if_else_for_then.
  eapply returns_bind; [apply get_paren_depth_returns; lia|].
  intros start_depth _.
  eapply returns_bind.
  - apply (for_in_returns (fun st => bk_prev_pos st <= len t)
                          (fun _ => True)); [|cbn; lia].
    intros x s Hx Hs. apply if_for_then_step_returns; [|exact Hs].
    eapply before_keywords_within; eauto.
  - intros r _. cbv zeta.
    destruct (is_some (bk_if (final r))); [|apply returns_ok; reflexivity].
    eapply returns_bind.
    + apply (for_in_returns (fun st => 0 <= fw_prev_end st)
               (fun tr : triple => snd (fst tr) = Some then_kw)); [|cbn; lia].
      intros x s Hx Hs. apply else_for_then_step_returns; [|exact Hs].
      eapply after_keywords_within; eauto.
    + intros [st|res] Hr; cbn in Hr; apply returns_ok; auto.
Qed.

Lemma find_if_then_for_else_returns (t : text) (else_kw : keyword)
      (keywords : list keyword) :
  within t else_kw -> all_within t keywords ->
  returns (find_if_then_for_else t else_kw keywords)
          (fun tr => snd tr = Some else_kw).
Proof.
  intros Helse Hall. pose proof Helse as (T1 & T2 & T3).
  unfold find_if_then_for_else.
  eapply returns_bind; [apply get_paren_depth_returns; lia|].
  intros start_depth _.
  eapply returns_bind.
  - apply (for_in_returns (fun st => bk_prev_pos st <= len t)
                          (fun _ => True)); [|cbn; lia].
    intros x s Hx Hs. apply if_then_for_else_step_returns; [|exact Hs].
    eapply before_keywords_within; eauto.
  - intros r _. apply returns_ok. reflexivity.
Qed.

Lemma if_keywords_all_within (t : text) : all_within t (if_keywords t).
Proof. intros k. apply keywords_within. Qed.

Lemma find_matching_if_then_else_returns (t : text) (current : keyword) :
  In current (if_keywords t) ->
  returns (find_matching_if_then_else t (if_keywords t) current)
          (fun tr => In current (found tr)).
Proof.
  intros Hin.
  pose proof (if_keywords_all_within t) as Hall.
  pose proof (Hall current Hin) as Hw.
  unfold find_matching_if_then_else, word_is.
  destruct (if_keywords_word t current Hin) as [E|[E|E]]; rewrite E;
    cbn [text_eqb lit list_ascii_of_string ch_eqb Ascii.eqb Bool.eqb andb].
  - eapply returns_weaken; [apply find_then_else_for_if_returns; auto|].
    intros [[i th] el] H. cbn in *. subst i. left. reflexivity.
  - eapply returns_weaken; [apply find_if_else_for_then_returns; auto|].
    intros [[i th] el] H. cbn in *. subst th.
    apply in_or_app. right. left. reflexivity.
  - eapply returns_weaken; [apply find_if_then_for_else_returns; auto|].
    intros [[i th] el] H. cbn in *. subst el.
    apply in_or_app. right. apply in_or_app. right. left. reflexivity.
Qed.

Lemma selections_of_found (tr : triple) (b : bool) :
  (let '(if_pos, then_pos, else_pos) := tr in
   selection_of if_pos b ++ selection_of then_pos b ++ selection_of else_pos b)
  = map (fun k => keyword_selection k b) (found tr).
Proof.
  destruct tr as [[[i|] [th|]] [el|]]; reflexivity.
Qed.

Lemma found_length (tr : triple) : (length (found tr) <= 3)%nat.
Proof.
  destruct tr as [[[i|] [th|]] [el|]]; cbn; lia.
Qed.

Lemma complete_length (tr : triple) :
  complete tr = true <-> length (found tr) = 3%nat.
Proof.
  destruct tr as [[[i|] [th|]] [el|]]; cbn; split; congruence.
Qed.

(** C4: with the cursor on an [if], [then] or [else] occurrence the
    matcher finds a group that contains that occurrence and reports one
    span per keyword found, in the order [if], [then], [else], so between
    one and three spans; they are all matched when the three keywords were
    found and all unmatched otherwise. *)
Theorem highlight_if_then_else_group (t : text) (pos : Z)
        (current : keyword) :
  keyword_at (if_keywords t) pos = Some current ->
  exists tr sels,
    find_matching_if_then_else t (if_keywords t) current = Ok tr /\
    In current (found tr) /\
    highlight_if_then_else t pos = Ok (Some sels) /\
    map (fun s => (sel_start s, sel_end s)) sels
    = map (fun k => (start k, end_ k)) (found tr) /\
    (1 <= length sels <= 3)%nat /\
    (complete tr = true ->
     Forall (fun s => sel_class s = matched) sels) /\
    (complete tr = false ->
     Forall (fun s => sel_class s = unmatched) sels).
Proof.
  intros Hat. pose proof (keyword_at_In _ _ _ Hat) as [Hin _].
  destruct (find_matching_if_then_else_returns t current Hin)
    as (tr & Etr & Hcur).
  exists tr, (map (fun k => keyword_selection k (complete tr)) (found tr)).
  split; [exact Etr|]. split; [exact Hcur|].
  assert (found tr <> []) as Hne by (intros E; rewrite E in Hcur; exact Hcur).
  split; [|split; [|split; [|split]]].
  - unfold highlight_if_then_else. rewrite Hat.
    destruct (if_keywords t) as [|k0 ks]; [contradiction|].
    rewrite Etr. cbn [bind].
    destruct tr as [[i th] el].
    pose proof (selections_of_found (i, th, el) (complete (i, th, el))) as S.
    cbn [complete] in *. cbv beta iota in S. rewrite S.
    destruct (found (i, th, el)); [congruence|reflexivity].
  - rewrite map_map. reflexivity.
  - rewrite length_map. pose proof (found_length tr).
    destruct (found tr); [congruence|simpl in *; lia].
  - intros L. rewrite L.
    apply Forall_map, Forall_forall. reflexivity.
  - intros L. rewrite L.
    apply Forall_map, Forall_forall. reflexivity.
Qed.

Lemma highlight_if_then_else_group_witness :
  keyword_at (if_keywords (lit "(if x then y)")) 2 = Some (kw "if" 1 3) /\
  exists tr sels,
    find_matching_if_then_else (lit "(if x then y)")
      (if_keywords (lit "(if x then y)")) (kw "if" 1 3) = Ok tr /\
    In (kw "if" 1 3) (found tr) /\
    highlight_if_then_else (lit "(if x then y)") 2 = Ok (Some sels) /\
    map (fun s => (sel_start s, sel_end s)) sels
    = map (fun k => (start k, end_ k)) (found tr) /\
    (1 <= length sels <= 3)%nat /\
    (complete tr = true ->
     Forall (fun s => sel_class s = matched) sels) /\
    (complete tr = false ->
     Forall (fun s => sel_class s = unmatched) sels).
Proof.
  split; [vm_compute; reflexivity|].
  apply (highlight_if_then_else_group (lit "(if x then y)") 2 (kw "if" 1 3)).
  vm_compute. reflexivity.
Defined.

(** ** The referent resolver returns *)

Lemma fuel_of_len (t : text) : len t + 2 <= Z.of_nat (fuel_of t).
Proof. unfold fuel_of, len. lia. Qed.

Lemma scan_close_paren_returns (t : text) (from : Z) :
  0 <= from -> returns (scan_close_paren t from) (close_post t from).
Proof.
  intros H. unfold scan_close_paren.
  eapply returns_bind.
  - apply (for_in_returns (fun st => close_post t from (cs_end st))
                          (fun _ => True)); [|exact I].
    intros i st Hi Hst. apply range_In in Hi. unfold close_paren_step.
    repeat returns_step; cbn; auto; lia.
  - intros [st|[]] Hr. apply returns_ok. exact Hr.
Qed.

Lemma containing_whose_returns (t : text) (it_pos : Z)
      (ms : list re_match) :
  (forall m, In m ms -> 0 <= m_end m) ->
  returns (containing_whose t it_pos ms) (among ms).
Proof.
  intros H. unfold containing_whose.
  eapply returns_bind.
  - apply (for_in_returns (among ms) (fun _ => True)); [|exact I].
    intros m found Hm Hfound.
    eapply returns_bind; [apply scan_close_paren_returns; auto|].
    intros [e|] _; repeat returns_step; cbn; auto.
  - intros [st|[]] Hr. apply returns_ok. exact Hr.
Qed.

Lemma skip_space_back_returns (t : text) (e : Z) :
  0 <= e <= len t ->
  returns (skip_space_back t e) (fun e' => 0 <= e' <= e).
Proof.
  intros H. unfold skip_space_back.
  eapply returns_bind.
  - apply (while_returns (fun e' => 0 <= e' <= e) (fun _ => True) Z.to_nat).
    + intros s Hs. destruct (s >? 0) eqn:E.
      * rewrite getc_in_range by lia. cbn [bind]. apply returns_ok.
        intros _. apply returns_ok. cbn. lia.
      * apply returns_ok. discriminate.
    + lia.
    + pose proof (fuel_of_len t). lia.
  - intros [st|[]] Hr. apply returns_ok. exact Hr.
Qed.

Lemma scan_open_paren_returns (t : text) (expr_end : Z) :
  expr_end <= len t ->
  returns (scan_open_paren t expr_end) (fun _ => True).
Proof.
  intros H. unfold scan_open_paren.
  eapply returns_bind.
  - apply (while_returns (fun st => os_start st < len t) (fun _ => True)
                         (fun st => Z.to_nat (os_start st + 1))).
    + intros s Hs. apply returns_ok. intros C.
      apply andb_prop in C as [C _].
      rewrite getc_in_range by lia. cbn [bind]. apply returns_ok.
      cbn. lia.
    + cbn [os_start]. lia.
    + cbn [os_start]. pose proof (fuel_of_len t). pose proof (len_nonneg t).
      lia.
  - intros r _. apply returns_ok. exact I.
Qed.

Lemma scan_word_start_returns (t : text) (word_end : Z) :
  0 <= word_end <= len t ->
  returns (scan_word_start t word_end) (fun w => 0 <= w <= word_end).
Proof.
  intros H. unfold scan_word_start.
  eapply returns_bind.
  - apply (while_returns (fun w => 0 <= w <= word_end) (fun _ => True)
                         Z.to_nat).
    + intros s Hs. apply returns_ok. intros C.
      rewrite getc_in_range by lia. cbn [bind].
      destruct (char_in _ _); apply returns_ok; cbn; lia.
    + lia.
    + pose proof (fuel_of_len t). lia.
  - intros [st|[]] Hr. apply returns_ok. exact Hr.
Qed.

Lemma whose_matches_bounds (t : text) (m : re_match) :
  In m (finditer match_whose t) ->
  0 <= m_start m /\ m_start m < m_end m /\ m_end m <= len t.
Proof.
  apply finditer_bounds. intros prev rest k. apply match_whose_bound.
Qed.

Lemma find_whose_context_returns (t : text) (it_pos : Z) :
  returns (find_whose_context t it_pos) (fun _ => True).
Proof.
  unfold find_whose_context.
  pose proof (whose_matches_bounds t) as Hb.
  destruct (finditer match_whose t) as [|m0 ms] eqn:E;
    [apply returns_ok; exact I|].
  eapply returns_bind.
  - apply containing_whose_returns. intros m Hm. apply Hb in Hm. lia.
  - intros [m|] Hm; [|apply returns_ok; exact I].
    cbn in Hm. apply Hb in Hm.
    eapply returns_bind; [apply skip_space_back_returns; lia|].
    intros e He. cbv beta in He.
    destruct (e =? 0) eqn:E0; [apply returns_ok; exact I|].
    rewrite getc_in_range by lia. cbn [bind].
    destruct (ch_eqb _ close_paren).
    + eapply returns_bind; [apply scan_open_paren_returns; lia|].
      intros st _. repeat returns_step; exact I.
    + eapply returns_bind; [apply scan_word_start_returns; lia|].
      intros w _. repeat returns_step; exact I.
Qed.

Lemma scan_enclosing_open_returns (t : text) (it_pos : Z) :
  it_pos <= len t ->
  returns (scan_enclosing_open t it_pos) (open_post it_pos).
Proof.
  intros H. unfold scan_enclosing_open.
  eapply returns_bind.
  - apply (for_in_returns (fun st => open_post it_pos (en_start st))
                          (fun _ => True)); [|exact I].
    intros i st Hi Hst. apply range_down_In in Hi.
    repeat returns_step; cbn; auto; lia.
  - intros [st|[]] Hr. apply returns_ok. exact Hr.
Qed.

Lemma scan_object_end_returns (t : text) (obj_start : Z) :
  0 <= obj_start ->
  returns (scan_object_end t obj_start)
          (fun e => e <= len t \/ e <= obj_start).
Proof.
  intros H. unfold scan_object_end.
  eapply returns_bind.
  - apply (while_returns
             (fun st => obj_start <= ob_end st /\
                        (ob_end st <= len t \/ ob_end st <= obj_start))
             (fun _ => True)
             (fun st => Z.to_nat (len t - ob_end st))).
    + intros s Hs. apply returns_ok. intros C.
      assert (ob_end s < len t) by lia.
      rewrite getc_in_range by lia. cbn [bind].
      repeat returns_step; cbn; lia.
    + cbn [ob_end]. lia.
    + cbn [ob_end]. pose proof (fuel_of_len t). pose proof (len_nonneg t).
      lia.
  - intros [st|[]] Hr. apply returns_ok. cbn in Hr. tauto.
Qed.

Lemma trim_object_end_returns (t : text) (obj_start obj_end : Z) :
  0 <= obj_start -> obj_end <= len t \/ obj_end <= obj_start ->
  returns (trim_object_end t obj_start obj_end) (fun _ => True).
Proof.
  intros H1 H2. unfold trim_object_end.
  eapply returns_bind.
  - apply (while_returns (fun e => e <= len t \/ e <= obj_start)
                         (fun _ => True)
                         (fun e => Z.to_nat (e - obj_start))).
    + intros s Hs. destruct (s >? obj_start) eqn:E.
      * rewrite getc_in_range by lia. cbn [bind]. apply returns_ok.
        intros _. apply returns_ok. cbn. lia.
      * apply returns_ok. discriminate.
    + exact H2.
    + pose proof (fuel_of_len t). pose proof (len_nonneg t). lia.
  - intros r _. apply returns_ok. exact I.
Qed.

Lemma find_of_it_context_returns (t : text) (it_pos : Z) :
  it_pos <= len t ->
  returns (find_of_it_context t it_pos) (fun _ => True).
Proof.
  intros H. unfold find_of_it_context.
  destruct (negb (follows_of t it_pos)); [apply returns_ok; exact I|].
  eapply returns_bind; [apply scan_enclosing_open_returns; exact H|].
  intros [ps|] Hps; [|apply returns_ok; exact I]. cbn in Hps.
  eapply returns_bind; [apply scan_close_paren_returns; lia|].
  intros [pe|] Hpe; [|apply returns_ok; exact I]. cbn in Hpe.
  destruct (negb _); [apply returns_ok; exact I|].
  destruct (match_of_space _) as [rel|] eqn:M; [|apply returns_ok; exact I].
  assert (0 <= rel) as Hrel.
  { unfold match_of_space in M. destruct (ci_prefix _ _); [|discriminate].
    destruct (count_space _); [discriminate|]. injection M as <-. lia. }
  assert (len (lstrip (slice_from t (pe + 1))) <= len (slice_from t (pe + 1)))
    as Hl.
  { unfold len. apply inj_le.
    generalize (slice_from t (pe + 1)). intros l.
    induction l as [|c l IH]; simpl; [lia|].
    destruct (isspace c); simpl; lia. }
  eapply returns_bind; [apply scan_object_end_returns; lia|].
  intros e He. cbv beta in He.
  eapply returns_bind; [apply trim_object_end_returns; [lia|exact He]|].
  intros e' _. repeat returns_step; exact I.
Qed.

Lemma find_it_referent_returns (t : text) (k : keyword) :
  within t k -> returns (find_it_referent t k) (fun _ => True).
Proof.
  intros (W1 & W2 & W3). unfold find_it_referent.
  eapply returns_bind; [apply find_whose_context_returns|].
  intros [r|] _; [apply returns_ok; exact I|].
  eapply returns_bind; [apply find_of_it_context_returns; lia|].
  intros [r|] _; apply returns_ok; exact I.
Qed.

Lemma it_keywords_all_within (t : text) : all_within t (it_keywords t).
Proof. intros k. apply keywords_within. Qed.

Lemma sibling_selections_returns (t : text) (keywords : list keyword)
      (current_it : keyword) (ref : referent) (selections : list selection) :
  all_within t keywords -> selections <> [] ->
  returns (sibling_selections t keywords current_it ref selections)
          (fun sels => sels <> []).
Proof.
  intros Hall Hne. unfold sibling_selections.
  eapply returns_bind.
  - apply (for_in_returns (fun sels : list selection => sels <> [])
                          (fun _ => True)); [|exact Hne].
    intros k sels Hk Hsels.
    destruct (negb _); [|apply returns_ok; exact Hsels].
    eapply returns_bind; [apply find_it_referent_returns; auto|].
    intros [o|] _; repeat returns_step; cbn; auto.
    intros E. apply app_eq_nil in E as [_ E]. discriminate.
  - intros [st|[]] Hr. apply returns_ok. exact Hr.
Qed.

Lemma highlight_it_references_returns (t : text) (pos : Z) :
  returns (highlight_it_references t pos)
          (fun r => nonempty_if_some r /\ (pos < 0 -> r = None)).
Proof.
  unfold highlight_it_references.
  pose proof (it_keywords_all_within t) as Hall.
  destruct (it_keywords t) as [|k0 ks] eqn:E;
    [apply returns_ok; cbn; auto|].
  destruct (keyword_at (k0 :: ks) pos) as [cur|] eqn:A;
    [|apply returns_ok; cbn; auto].
  apply keyword_at_In in A as [Hin Hpos].
  pose proof (Hall cur Hin) as Hw.
  assert (pos < 0 -> False) as Hneg by (unfold within in Hw; lia).
  eapply returns_bind; [apply find_it_referent_returns; exact Hw|].
  intros [ref|] _.
  - eapply returns_bind;
      [apply sibling_selections_returns; [exact Hall|discriminate]|].
    intros sels Hs. apply returns_ok. cbn. split; [exact Hs|tauto].
  - apply returns_ok. cbn. split; [discriminate|tauto].
Qed.

Lemma highlight_if_then_else_returns (t : text) (pos : Z) :
  returns (highlight_if_then_else t pos)
          (fun r => nonempty_if_some r /\ (pos < 0 -> r = None)).
Proof.
  unfold highlight_if_then_else.
  pose proof (if_keywords_all_within t) as Hall.
  pose proof (find_matching_if_then_else_returns t) as Hfind.
  destruct (if_keywords t) as [|k0 ks] eqn:E;
    [apply returns_ok; cbn; auto|].
  destruct (keyword_at (k0 :: ks) pos) as [cur|] eqn:A;
    [|apply returns_ok; cbn; auto].
  apply keyword_at_In in A as [Hin Hpos].
  pose proof (Hall cur Hin) as Hw.
  assert (pos < 0 -> False) as Hneg by (unfold within in Hw; lia).
  eapply returns_bind; [apply Hfind; exact Hin|].
  intros [[i th] el] _.
  destruct (_ ++ _); apply returns_ok; cbn; split;
    try discriminate; tauto.
Qed.

(** ** Pronouns without a referent *)

Lemma highlight_without_referent (t : text) (pos : Z) (current : keyword) :
  keyword_at (it_keywords t) pos = Some current ->
  find_it_referent t current = Ok None ->
  highlight_it_references t pos
  = Ok (Some [span_selection (start current) (end_ current) red_format]) /\
  highlight_matching_brackets t pos
  = Ok [span_selection (start current) (end_ current) red_format].
Proof.
  intros Hat Href.
  assert (highlight_it_references t pos
          = Ok (Some [span_selection (start current) (end_ current)
                        red_format])) as Hhl.
  { unfold highlight_it_references. rewrite Hat.
    destruct (it_keywords t) as [|k0 ks]; [discriminate|].
    rewrite Href. reflexivity. }
  split; [exact Hhl|].
  pose proof (keyword_at_In _ _ _ Hat) as [Hin Hpos].
  pose proof (it_keywords_all_within t current Hin) as (W1 & W2 & W3).
  unfold highlight_matching_brackets, highlight_body.
  assert (is_nil t = false) as ->.
  { destruct t; [|reflexivity]. cbn in W3. lia. }
  assert ((pos >? len t) = false) as -> by lia.
  cbn [orb]. rewrite Hhl. reflexivity.
Qed.

(** C8: with the cursor on an [it], [its] or [them] occurrence for which
    the whose-clause pattern and then the of-it pattern both yield nothing,
    the resolver reports exactly one span, the pronoun itself, unmatched;
    the cursor handler shows that span and nothing else. *)
Theorem unresolved_pronoun_alone (t : text) (pos : Z) (current : keyword) :
  keyword_at (it_keywords t) pos = Some current ->
  find_whose_context t (start current) = Ok None ->
  find_of_it_context t (start current) = Ok None ->
  find_it_referent t current = Ok None /\
  highlight_it_references t pos
  = Ok (Some [span_selection (start current) (end_ current) red_format]) /\
  highlight_matching_brackets t pos
  = Ok [span_selection (start current) (end_ current) red_format] /\
  sel_class (span_selection (start current) (end_ current) red_format)
  = unmatched.
Proof.
  intros Hat Hwhose Hof.
  assert (find_it_referent t current = Ok None) as Href.
  { unfold find_it_referent. rewrite Hwhose. cbn [bind]. rewrite Hof.
    reflexivity. }
  destruct (highlight_without_referent t pos current Hat Href) as [H1 H2].
  repeat split; assumption.
Qed.

Lemma unresolved_pronoun_alone_witness :
  keyword_at (it_keywords (lit "size of it")) 9 = Some (kw "it" 8 10) /\
  find_whose_context (lit "size of it") (start (kw "it" 8 10)) = Ok None /\
  find_of_it_context (lit "size of it") (start (kw "it" 8 10)) = Ok None /\
  find_it_referent (lit "size of it") (kw "it" 8 10) = Ok None /\
  highlight_it_references (lit "size of it") 9
  = Ok (Some [span_selection (start (kw "it" 8 10)) (end_ (kw "it" 8 10))
                red_format]) /\
  highlight_matching_brackets (lit "size of it") 9
  = Ok [span_selection (start (kw "it" 8 10)) (end_ (kw "it" 8 10))
          red_format] /\
  sel_class (span_selection (start (kw "it" 8 10)) (end_ (kw "it" 8 10))
               red_format)
  = unmatched.
Proof.
  split; [vm_compute; reflexivity|].
  split; [vm_compute; reflexivity|].
  split; [vm_compute; reflexivity|].
  apply (unresolved_pronoun_alone (lit "size of it") 9 (kw "it" 8 10));
    vm_compute; reflexivity.
Defined.

(** ** The of-it pattern and an unclosed parenthesis *)

Lemma close_loop_unclosed (t : text) (n : nat) :
  forall (a d : Z), 0 <= a -> a + Z.of_nat n <= len t -> 0 < d ->
  (forall k, (k <= n)%nat ->
     count_char close_paren (firstn k (skipn (Z.to_nat a) t))
     < d + count_char open_paren (firstn k (skipn (Z.to_nat a) t))) ->
  exists d',
    for_in (range a (a + Z.of_nat n)) (close_paren_step t)
      {| cs_depth := d; cs_end := None |}
    = Ok (inl {| cs_depth := d'; cs_end := None |}).
Proof.
  induction n as [|n IH]; intros a d Ha Hb Hd Hbal.
  - rewrite range_nil by lia. eexists. reflexivity.
  - rewrite range_cons by lia. cbn [for_in]. unfold close_paren_step at 1.
    rewrite getc_in_range by lia. cbn [bind].
    assert (Z.to_nat a < length t)%nat as Hlt by (unfold len in Hb; lia).
    pose proof (Hbal 1%nat ltac:(lia)) as H1.
    rewrite (skipn_nth_cons t (Z.to_nat a) Hlt) in H1, Hbal.
    cbn [firstn count_char] in H1.
    replace (a + Z.of_nat (Datatypes.S n)) with (a + 1 + Z.of_nat n) by lia.
    assert (forall d0, 0 < d0 ->
              (forall k, (k <= n)%nat ->
                 count_char close_paren
                   (firstn (Datatypes.S k)
                      (nth (Z.to_nat a) t zero
                       :: skipn (Datatypes.S (Z.to_nat a)) t))
                 < d + count_char open_paren
                     (firstn (Datatypes.S k)
                        (nth (Z.to_nat a) t zero
                         :: skipn (Datatypes.S (Z.to_nat a)) t))) ->
              (forall k, (k <= n)%nat ->
                 (if ch_eqb (nth (Z.to_nat a) t zero) close_paren
                  then 1 else 0)
                 + count_char close_paren
                     (firstn k (skipn (Z.to_nat (a + 1)) t))
                 < d + ((if ch_eqb (nth (Z.to_nat a) t zero) open_paren
                         then 1 else 0)
                        + count_char open_paren
                            (firstn k (skipn (Z.to_nat (a + 1)) t))))) as Sh.
    { intros d0 _ Hk k Hle. specialize (Hk k Hle).
      cbn [firstn count_char] in Hk.
      replace (Z.to_nat (a + 1)) with (Datatypes.S (Z.to_nat a)) by lia.
      exact Hk. }
    specialize (Sh d Hd (fun k Hle => Hbal (Datatypes.S k) ltac:(lia))).
    set (c := nth (Z.to_nat a) t zero) in *.
    destruct (ch_eqb c open_paren) eqn:Eo.
    + assert (ch_eqb c close_paren = false) as Ec.
      { apply Ascii.eqb_eq in Eo. rewrite Eo. reflexivity. }
      rewrite Ec in *. cbn [cs_depth cs_end].
      apply IH; try lia. intros k Hk. specialize (Sh k Hk). lia.
    + destruct (ch_eqb c close_paren) eqn:Ec; cbn [cs_depth cs_end].
      * cbv zeta. destruct (d - 1 =? 0) eqn:Ez; [lia|].
        apply IH; try lia. intros k Hk. specialize (Sh k Hk). lia.
      * apply IH; try lia. intros k Hk. specialize (Sh k Hk). lia.
Qed.

Lemma scan_close_paren_unclosed (t : text) (ps : Z) :
  0 <= ps < len t -> unclosed t ps -> scan_close_paren t (ps + 1) = Ok None.
Proof.
  intros Hps Hun. unfold scan_close_paren.
  destruct (close_loop_unclosed t (Z.to_nat (len t - (ps + 1))) (ps + 1) 1)
    as (d' & E); try lia.
  - intros k Hk.
    specialize (Hun (ps + 1 + Z.of_nat k) ltac:(lia)).
    unfold sub in Hun.
    replace (Z.to_nat (ps + 1 + Z.of_nat k - (ps + 1))) with k in Hun by lia.
    lia.
  - replace (ps + 1 + Z.of_nat (Z.to_nat (len t - (ps + 1)))) with (len t)
      in E by lia.
    rewrite E. reflexivity.
Qed.

Lemma sibling_selections_appends (t : text) (keywords : list keyword)
      (current_it : keyword) (ref : referent) (selections : list selection) :
  all_within t keywords ->
  returns (sibling_selections t keywords current_it ref selections)
          (fun sels =>
             exists others,
               sels = selections ++ others /\
               Forall (fun s => sel_class s = matched) others).
Proof.
  intros Hall. unfold sibling_selections.
  eapply returns_bind.
  - apply (for_in_returns
             (fun sels : list selection =>
                exists others,
                  sels = selections ++ others /\
                  Forall (fun s => sel_class s = matched) others)
             (fun _ => True)).
    + intros k sels Hk (others & -> & Ho).
      destruct (negb _); [|apply returns_ok; cbn; eauto].
      eapply returns_bind; [apply find_it_referent_returns; auto|].
      intros [o|] _; [|apply returns_ok; cbn; eauto].
      destruct (_ && _); apply returns_ok; cbn; [|eauto].
      exists (others
              ++ [span_selection (start k) (end_ k) green_format]).
      split; [rewrite app_assoc; reflexivity|].
      apply Forall_app. split; [exact Ho|].
      constructor; [reflexivity|constructor].
    + exists []. rewrite app_nil_r. split; [reflexivity|constructor].
  - intros [st|[]] Hr. apply returns_ok. exact Hr.
Qed.

Lemma highlight_with_referent (t : text) (pos : Z) (current : keyword)
      (r : referent) :
  keyword_at (it_keywords t) pos = Some current ->
  find_it_referent t current = Ok (Some r) ->
  exists others,
    highlight_it_references t pos
    = Ok (Some (span_selection (start current) (end_ current) green_format
                :: span_selection (ref_start r) (ref_end r) green_format
                :: others)) /\
    Forall (fun s => sel_class s = matched) others.
Proof.
  intros Hat Href.
  destruct (sibling_selections_appends t (it_keywords t) current r
              [span_selection (start current) (end_ current) green_format;
               span_selection (ref_start r) (ref_end r) green_format]
              (it_keywords_all_within t))
    as (sels & Es & others & -> & Ho).
  exists others. split; [|exact Ho].
  unfold highlight_it_references. cbv zeta.
  destruct (it_keywords t) as [|k0 ks] eqn:E; [discriminate Hat|].
  rewrite Hat, Href. cbn [bind]. rewrite Es. reflexivity.
Qed.

(** C10 (as amended): when the text before the pronoun ends, right-trimmed,
    in [" of"] and the parenthesis that the backward scan finds around the
    pronoun is never closed, the of-it pattern yields nothing; the
    resolution is then that of the whose-clause pattern alone.  The
    pronoun is reported as a single unmatched span exactly when that
    pattern yields nothing either; when it yields a referent, the pronoun
    and that referent are reported matched, with the other pronouns of
    the same referent, matched too. *)
Theorem of_it_needs_closed_paren (t : text) (pos : Z) (current : keyword)
        (ps : Z) :
  keyword_at (it_keywords t) pos = Some current ->
  follows_of t (start current) = true ->
  scan_enclosing_open t (start current) = Ok (Some ps) ->
  unclosed t ps ->
  find_of_it_context t (start current) = Ok None /\
  find_it_referent t current = find_whose_context t (start current) /\
  (find_whose_context t (start current) = Ok None <->
   highlight_it_references t pos
   = Ok (Some [span_selection (start current) (end_ current) red_format])) /\
  (forall r,
      find_whose_context t (start current) = Ok (Some r) ->
      exists others,
        highlight_it_references t pos
        = Ok (Some (span_selection (start current) (end_ current)
                      green_format
                    :: span_selection (ref_start r) (ref_end r) green_format
                    :: others)) /\
        Forall (fun s => sel_class s = matched) others).
Proof.
  intros Hat Hof Hopen Hun.
  pose proof (keyword_at_In _ _ _ Hat) as [Hin Hpos].
  pose proof (it_keywords_all_within t current Hin) as (W1 & W2 & W3).
  assert (0 <= ps < start current) as Hps.
  { pose proof (scan_enclosing_open_returns t (start current) ltac:(lia))
      as R.
    apply (returns_value _ _ _ R Hopen). }
  assert (find_of_it_context t (start current) = Ok None) as Hnone.
  { unfold find_of_it_context. rewrite Hof. cbn [negb].
    rewrite Hopen. cbn [bind].
    rewrite scan_close_paren_unclosed by (auto; lia). reflexivity. }
  assert (find_it_referent t current
          = find_whose_context t (start current)) as Href.
  { unfold find_it_referent.
    destruct (find_whose_context_returns t (start current))
      as (r & -> & _).
    cbn [bind]. destruct r; [reflexivity|]. rewrite Hnone. reflexivity. }
  assert (forall r,
             find_whose_context t (start current) = Ok (Some r) ->
             exists others,
               highlight_it_references t pos
               = Ok (Some (span_selection (start current) (end_ current)
                             green_format
                           :: span_selection (ref_start r) (ref_end r)
                                green_format
                           :: others)) /\
               Forall (fun s => sel_class s = matched) others) as Hsome.
  { intros r Hw. apply highlight_with_referent; [exact Hat|].
    rewrite Href. exact Hw. }
  split; [exact Hnone|]. split; [exact Href|]. split; [|exact Hsome].
  split.
  - intros Hwhose. apply highlight_without_referent; [exact Hat|].
    rewrite Href. exact Hwhose.
  - intros Hred.
    destruct (find_whose_context_returns t (start current))
      as ([r|] & Ew & _); [|exact Ew].
    destruct (Hsome r Ew) as (others & Eg & _).
    rewrite Eg in Hred. discriminate Hred.
Qed.

Lemma unclosed_typing_sample : unclosed (lit "(a of it") 0.
Proof.
  intros j Hj. change (len (lit "(a of it")) with 8 in Hj.
  assert (j = 1 \/ j = 2 \/ j = 3 \/ j = 4 \/ j = 5 \/ j = 6 \/ j = 7
          \/ j = 8) as C by lia.
  repeat destruct C as [->|C]; try subst j; vm_compute; discriminate.
Qed.

Lemma of_it_needs_closed_paren_witness :
  keyword_at (it_keywords (lit "(a of it")) 6 = Some (kw "it" 6 8) /\
  follows_of (lit "(a of it") (start (kw "it" 6 8)) = true /\
  scan_enclosing_open (lit "(a of it") (start (kw "it" 6 8)) = Ok (Some 0) /\
  unclosed (lit "(a of it") 0 /\
  find_of_it_context (lit "(a of it") (start (kw "it" 6 8)) = Ok None /\
  find_it_referent (lit "(a of it") (kw "it" 6 8)
  = find_whose_context (lit "(a of it") (start (kw "it" 6 8)) /\
  (find_whose_context (lit "(a of it") (start (kw "it" 6 8)) = Ok None <->
   highlight_it_references (lit "(a of it") 6
   = Ok (Some [span_selection (start (kw "it" 6 8)) (end_ (kw "it" 6 8))
                 red_format])) /\
  (forall r,
      find_whose_context (lit "(a of it") (start (kw "it" 6 8))
      = Ok (Some r) ->
      exists others,
        highlight_it_references (lit "(a of it") 6
        = Ok (Some (span_selection (start (kw "it" 6 8))
                      (end_ (kw "it" 6 8)) green_format
                    :: span_selection (ref_start r) (ref_end r) green_format
                    :: others)) /\
        Forall (fun s => sel_class s = matched) others).
Proof.
  split; [vm_compute; reflexivity|].
  split; [vm_compute; reflexivity|].
  split; [vm_compute; reflexivity|].
  split; [exact unclosed_typing_sample|].
  apply (of_it_needs_closed_paren (lit "(a of it") 6 (kw "it" 6 8) 0).
  - vm_compute; reflexivity.
  - vm_compute; reflexivity.
  - vm_compute; reflexivity.
  - exact unclosed_typing_sample.
Defined.

Lemma unclosed_whose_sample : unclosed (lit "x whose (a of it") 8.
Proof.
  intros j Hj. change (len (lit "x whose (a of it")) with 16 in Hj.
  assert (j = 9 \/ j = 10 \/ j = 11 \/ j = 12 \/ j = 13 \/ j = 14 \/ j = 15
          \/ j = 16) as C by lia.
  repeat destruct C as [->|C]; try subst j; vm_compute; discriminate.
Qed.

(** C10 as stated fails: in [x whose (a of it] the pronoun follows
    [" of"] and its enclosing parenthesis is never closed, yet it is
    reported matched, because the whose-clause pattern, which is tried
    first and tolerates the unclosed parenthesis, resolves it to [x]. *)
Lemma of_it_unclosed_may_be_matched :
  ~ (forall (t : text) (pos : Z) (current : keyword) (ps : Z),
       keyword_at (it_keywords t) pos = Some current ->
       follows_of t (start current) = true ->
       scan_enclosing_open t (start current) = Ok (Some ps) ->
       unclosed t ps ->
       highlight_it_references t pos
       = Ok (Some [span_selection (start current) (end_ current)
                     red_format])).
Proof.
  intros H.
  specialize (H (lit "x whose (a of it") 14 (kw "it" 14 16) 8).
  assert (highlight_it_references (lit "x whose (a of it") 14
          = Ok (Some [span_selection 14 16 green_format;
                      span_selection 0 1 green_format])) as E
      by (vm_compute; reflexivity).
  rewrite E in H.
  assert (Ok (Some [span_selection 14 16 green_format;
                    span_selection 0 1 green_format])
          = Ok (Some [span_selection (start (kw "it" 14 16))
                        (end_ (kw "it" 14 16)) red_format])) as F.
  { apply H; try (vm_compute; reflexivity). exact unclosed_whose_sample. }
  discriminate F.
Qed.

(** ** The bracket matcher and the cursor handler return *)

Lemma ch_eqb_eq (a b : ascii) : ch_eqb a b = true <-> a = b.
Proof. apply Ascii.eqb_eq. Qed.

Lemma str_in_open (c : ascii) :
  str_in [c] open_brackets = true ->
  c = "("%char \/ c = "["%char \/ c = "{"%char.
Proof.
  cbn. rewrite !andb_true_r, !orb_false_r, !orb_true_iff, !ch_eqb_eq. tauto.
Qed.

Lemma str_in_close (c : ascii) :
  str_in [c] close_brackets = true ->
  c = ")"%char \/ c = "]"%char \/ c = "}"%char.
Proof.
  cbn. rewrite !andb_true_r, !orb_false_r, !orb_true_iff, !ch_eqb_eq. tauto.
Qed.

Lemma search_body_forward (t : text) (char : text) (target : ascii)
      (st : search_state) :
  0 <= search_pos st < len t ->
  returns (search_body t char target 1 st)
          (after_while_step (fun st => 0 <= search_pos st) (fun _ => True)
             (fun st => Z.to_nat (len t - search_pos st)) st).
Proof.
  intros H. unfold search_body.
  repeat returns_step; cbn; lia.
Qed.

Lemma search_body_backward (t : text) (char : text) (target : ascii)
      (st : search_state) :
  0 <= search_pos st < len t ->
  returns (search_body t char target (-1) st)
          (after_while_step (fun st => search_pos st < len t) (fun _ => True)
             (fun st => Z.to_nat (search_pos st + 1)) st).
Proof.
  intros H. unfold search_body.
  repeat returns_step; cbn; lia.
Qed.

Lemma find_matching_bracket_returns (t : text) (pos : Z) (c : ascii) :
  -1 <= pos <= len t ->
  returns (find_matching_bracket t pos [c] open_brackets close_brackets
             bracket_pairs reverse_pairs)
          (fun _ => True).
Proof.
  intros H. unfold find_matching_bracket.
  pose proof (fuel_of_len t) as F. pose proof (len_nonneg t) as L.
  destruct (is_nil [c] || negb _); [apply returns_ok; exact I|].
  destruct (str_in [c] open_brackets) eqn:Eo.
  - assert (returns (lookup bracket_pairs [c]) (fun _ => True)) as Hl.
    { apply str_in_open in Eo as [-> | [-> | ->]]; apply returns_ok; exact I. }
    eapply returns_bind; [exact Hl|]. intros target _.
    eapply returns_bind.
    + apply (while_returns (fun st => 0 <= search_pos st) (fun _ => True)
                           (fun st => Z.to_nat (len t - search_pos st))).
      * intros st Hst. apply returns_ok. intros C.
        apply search_body_forward. lia.
      * cbn [search_pos]. lia.
      * cbn [search_pos]. lia.
    + intros [st|p] _; apply returns_ok; exact I.
  - destruct (str_in [c] close_brackets) eqn:Ec; [|apply returns_ok; exact I].
    assert (returns (lookup reverse_pairs [c]) (fun _ => True)) as Hl.
    { apply str_in_close in Ec as [-> | [-> | ->]]; apply returns_ok; exact I. }
    eapply returns_bind; [exact Hl|]. intros target _.
    eapply returns_bind.
    + apply (while_returns (fun st => search_pos st < len t) (fun _ => True)
                           (fun st => Z.to_nat (search_pos st + 1))).
      * intros st Hst. apply returns_ok. intros C.
        apply search_body_backward. lia.
      * cbn [search_pos]. lia.
      * cbn [search_pos]. lia.
    + intros [st|p] _; apply returns_ok; exact I.
Qed.

Lemma get_cursor_bracket_selections_returns (t : text) (pos : Z) :
  0 <= pos <= len t ->
  returns (get_cursor_bracket_selections t pos) (fun _ => True).
Proof.
  intros H. unfold get_cursor_bracket_selections.
  assert (returns (if pos <? len t then c <- getc t pos ;; Ok [c] else Ok [])
                  (fun s => (length s <= 1)%nat /\ (s <> [] -> pos < len t)))
    as Hat.
  { destruct (pos <? len t) eqn:E.
    - rewrite getc_in_range by lia. apply returns_ok. cbn. split; [lia|lia].
    - apply returns_ok. cbn. split; [lia|congruence]. }
  assert (returns (if pos >? 0 then c <- getc t (pos - 1) ;; Ok [c]
                   else Ok [])
                  (fun s => (length s <= 1)%nat)) as Hbefore.
  { destruct (pos >? 0) eqn:E.
    - rewrite getc_in_range by lia. apply returns_ok. cbn. lia.
    - apply returns_ok. cbn. lia. }
  eapply returns_bind; [exact Hat|]. intros char_at [La Ha].
  eapply returns_bind; [exact Hbefore|]. intros char_before Lb.
  cbv beta in Lb. cbv zeta.
  destruct (str_in char_before _).
  - destruct char_before as [|c [|]]; [apply returns_ok; exact I| |
                                       simpl in Lb; lia].
    cbn [is_nil].
    eapply returns_bind; [apply find_matching_bracket_returns; lia|].
    intros [m|] _; apply returns_ok; exact I.
  - destruct (str_in char_at _); [|apply returns_ok; exact I].
    destruct char_at as [|c [|]]; [apply returns_ok; exact I| |
                                   simpl in La; lia].
    cbn [is_nil].
    assert (pos < len t) by (apply Ha; discriminate).
    eapply returns_bind; [apply find_matching_bracket_returns; lia|].
    intros [m|] _; apply returns_ok; exact I.
Qed.

Lemma highlight_body_returns (t : text) (pos : Z) :
  0 <= pos ->
  returns (highlight_body t pos) (fun sels => len t < pos -> sels = []).
Proof.
  intros H. unfold highlight_body.
  destruct (is_nil t || (pos >? len t)) eqn:E;
    [apply returns_ok; reflexivity|].
  apply orb_false_elim in E as [_ E].
  eapply returns_bind; [apply highlight_it_references_returns|].
  intros its _.
  destruct (truthy its); [apply returns_ok; lia|].
  eapply returns_bind; [apply highlight_if_then_else_returns|].
  intros kws _.
  destruct (truthy kws); [apply returns_ok; lia|].
  eapply returns_bind; [apply get_cursor_bracket_selections_returns; lia|].
  intros [|b bs] _; apply returns_ok; lia.
Qed.

Lemma highlight_body_negative (t : text) (pos : Z) :
  pos < 0 ->
  highlight_body t pos = Ok [] \/ highlight_body t pos = Raise IndexError.
Proof.
  intros H. unfold highlight_body.
  destruct (is_nil t || (pos >? len t)); [left; reflexivity|].
  destruct (highlight_it_references_returns t pos) as (its & -> & _ & Hits).
  rewrite (Hits H). cbn [bind truthy].
  destruct (highlight_if_then_else_returns t pos) as (kws & -> & _ & Hkws).
  rewrite (Hkws H). cbn [bind truthy].
  unfold get_cursor_bracket_selections.
  assert ((pos >? 0) = false) as -> by lia.
  assert (forall s, str_in [] s = true) as Hempty by (intros []; reflexivity).
  destruct (pos <? len t).
  - unfold getc.
    destruct ((0 <=? pos) && (pos <? len t)) eqn:E1; [lia|].
    destruct ((- len t <=? pos) && (pos <? 0)).
    + cbn [bind]. rewrite Hempty. left. reflexivity.
    + right. reflexivity.
  - cbn [bind]. rewrite Hempty. left. reflexivity.
Qed.

Lemma pp_token_indent (st : pp_state) (token : text) :
  0 <= indent_level st -> 0 <= indent_level (pp_token st token).
Proof.
  intros H. unfold pp_token, flush.
  repeat match goal with
         | |- context [if ?b then _ else _] => destruct b
         end; cbn [indent_level]; lia.
Qed.

Lemma pp_fold_indent (tokens : list text) (st : pp_state) :
  0 <= indent_level st -> 0 <= indent_level (fold_left pp_token tokens st).
Proof.
  revert st. induction tokens as [|tok tokens IH]; intros st H; simpl;
    [exact H|].
  apply IH, pp_token_indent, H.
Qed.

(** C2: for every text and every cursor offset the cursor handler returns
    a list of selections: nothing it calls loops for ever, and an exception
    could only be the [IndexError] of a negative offset, which its [try]
    absorbs.  An offset outside the text yields no selection.  For an
    offset that is not negative the body of the [try] itself returns, so
    no exception occurs at all.  The pretty-printer and the compactor use
    no operation that can fail, so they are total functions of the
    embedding: the indent level never goes below 0 whatever the
    parentheses are, and [format_expression] gives the pane a text whenever
    the expression is not blank. *)
Theorem analysis_never_raises (t : text) (pos : Z) :
  (exists sels,
      highlight_matching_brackets t pos = Ok sels /\
      (pos < 0 \/ len t < pos -> sels = [])) /\
  (0 <= pos -> exists sels, highlight_body t pos = Ok sels) /\
  0 <= indent_level
         (fold_left pp_token (_tokenize_for_pretty_print t) pp_start) /\
  (is_nil (strip t) = false ->
   format_expression t
   = Some (if char_in nl (strip t) then compact (strip t)
           else pretty_print_relevance (strip t))).
Proof.
  split; [|split; [|split]].
  - unfold highlight_matching_brackets.
    destruct (Z.lt_ge_cases pos 0) as [Hneg|Hpos].
    + destruct (highlight_body_negative t pos Hneg) as [-> | ->];
        exists []; auto.
    + destruct (highlight_body_returns t pos Hpos) as (sels & -> & Hs).
      exists sels. split; [reflexivity|]. intros [C|C]; [lia|auto].
  - intros Hpos.
    destruct (highlight_body_returns t pos Hpos) as (sels & -> & _).
    eauto.
  - apply pp_fold_indent. cbn. lia.
  - intros E. unfold format_expression. rewrite E.
    destruct (char_in nl (strip t)); reflexivity.
Qed.

(** ** Character classes *)

Lemma isword_lower (c : ascii) : isword (lower_char c) = isword c.
Proof. each_char c; reflexivity. Qed.

Lemma isspace_not_word (c : ascii) : isspace c = true -> isword c = false.
Proof. each_char c; try reflexivity; discriminate. Qed.

Lemma lower_open (c : ascii) :
  ch_eqb (lower_char open_paren) (lower_char c) = ch_eqb c open_paren.
Proof. each_char c; reflexivity. Qed.

Lemma lower_close (c : ascii) :
  ch_eqb (lower_char close_paren) (lower_char c) = ch_eqb c close_paren.
Proof. each_char c; reflexivity. Qed.

Lemma lower_idem (c : ascii) : lower_char (lower_char c) = lower_char c.
Proof. each_char c; reflexivity. Qed.

(** ** Words *)

Lemma word_prefix_rest (t : text) : word_prefix t ++ word_rest t = t.
Proof.
  induction t as [|c t IH]; simpl; [reflexivity|].
  destruct (isword c); simpl; [f_equal; exact IH|reflexivity].
Qed.

Lemma word_prefix_all (t : text) : forallb isword (word_prefix t) = true.
Proof.
  induction t as [|c t IH]; simpl; [reflexivity|].
  destruct (isword c) eqn:E; simpl; [rewrite E; exact IH|reflexivity].
Qed.

Lemma word_rest_head (t : text) : isword_opt (hd_error (word_rest t)) = false.
Proof.
  induction t as [|c t IH]; simpl; [reflexivity|].
  destruct (isword c) eqn:E; simpl; [exact IH|exact E].
Qed.

Lemma word_prefix_app (w r : text) :
  forallb isword w = true -> isword_opt (hd_error r) = false ->
  word_prefix (w ++ r) = w /\ word_rest (w ++ r) = r.
Proof.
  intros Hw Hr. induction w as [|c w IH]; simpl in *.
  - destruct r as [|d r]; simpl in *; [auto|]. rewrite Hr. auto.
  - apply andb_prop in Hw as [Hc Hw]. rewrite Hc.
    destruct (IH Hw) as [-> ->]. auto.
Qed.

Lemma atoms_word (w r : text) :
  w <> [] -> forallb isword w = true -> isword_opt (hd_error r) = false ->
  atoms (w ++ r) = w :: atoms r.
Proof.
  intros Hne Hw Hr. induction w as [|c w IH]; [congruence|].
  simpl in Hw. apply andb_prop in Hw as [Hc Hw].
  cbn [app atoms]. rewrite Hc.
  destruct w as [|d w].
  - cbn [app]. rewrite Hr. destruct (atoms r); reflexivity.
  - rewrite IH by (congruence || exact Hw). cbn [app hd_error isword_opt].
    simpl in Hw. apply andb_prop in Hw as [Hd _]. rewrite Hd. reflexivity.
Qed.

Lemma atoms_other (c : ascii) (t : text) :
  isword c = false -> atoms (c :: t) = [c] :: atoms t.
Proof. intros H. cbn [atoms]. rewrite H. reflexivity. Qed.

(** ** What the tokenizer's pattern matches *)

Lemma text_eqb_eq (a b : text) : text_eqb a b = true <-> a = b.
Proof.
  revert b. induction a as [|x a IH]; intros [|y b]; simpl;
    try (split; [discriminate|congruence]); [tauto|].
  rewrite andb_true_iff, ch_eqb_eq, IH. split; [intros [-> ->]|intros [= -> ->]]; auto.
Qed.

Lemma ch_eqb_sym (a b : ascii) : ch_eqb a b = ch_eqb b a.
Proof. apply Ascii.eqb_sym. Qed.

Lemma ci_char_word (x c : ascii) :
  isword x = true -> ch_eqb (lower_char x) (lower_char c) = true ->
  isword c = true.
Proof.
  intros Hx E. apply ch_eqb_eq in E.
  rewrite <- (isword_lower c), <- E, isword_lower. exact Hx.
Qed.

Lemma last_char_cons (prev : option ascii) (y : ascii) (l : text) :
  last_char prev (y :: l) = last_char (Some y) l.
Proof.
  unfold last_char. cbn [rev].
  destruct (rev l) as [|z r]; reflexivity.
Qed.

Lemma word_alt_body (p : text) :
  forall (w r2 : text) (prev : option ascii),
    p <> [] -> forallb isword p = true -> lower p = p ->
    forallb isword w = true -> isword_opt (hd_error r2) = false ->
    ci_prefix p (w ++ r2)
    && word_boundary (last_char prev (firstn (length p) (w ++ r2)))
                     (skipn (length p) (w ++ r2))
    = text_eqb (lower w) p.
Proof.
  induction p as [|x p IH]; intros w r2 prev Hne Hp Hlow Hw Hr;
    [congruence|].
  cbn [forallb] in Hp. apply andb_prop in Hp as [Hx Hp].
  cbn [lower map] in Hlow. injection Hlow as Hlx Hlp.
  destruct w as [|y w].
  - cbn [app lower map text_eqb].
    destruct r2 as [|d r2]; [reflexivity|].
    cbn [ci_prefix]. cbn [hd_error isword_opt] in Hr.
    destruct (ch_eqb (lower_char x) (lower_char d)) eqn:E; [|reflexivity].
    apply (ci_char_word x d Hx) in E. congruence.
  - cbn [forallb] in Hw. apply andb_prop in Hw as [Hy Hw].
    cbn [app ci_prefix length firstn skipn lower map text_eqb].
    rewrite last_char_cons, Hlx, (ch_eqb_sym x).
    destruct (ch_eqb (lower_char y) x); cbn [andb]; [|reflexivity].
    destruct p as [|x' p].
    + cbn [ci_prefix length firstn skipn last_char rev andb].
      unfold word_boundary. cbn [isword_opt]. rewrite Hy.
      destruct w as [|z w]; cbn [app lower map text_eqb].
      * rewrite Hr. reflexivity.
      * cbn [forallb] in Hw. apply andb_prop in Hw as [Hz _].
        cbn [hd_error isword_opt]. rewrite Hz. reflexivity.
    + apply IH; auto. discriminate.
Qed.

Lemma word_alt_at_word (p : text) (prev : option ascii) (c : ascii)
      (r : text) :
  p <> [] -> forallb isword p = true -> lower p = p ->
  isword_opt prev = false -> isword c = true ->
  match_alt prev (c :: r) (Word p)
  = if text_eqb (lower (word_prefix (c :: r))) p then Some (length p)
    else None.
Proof.
  intros Hne Hp Hlow Hprev Hc. cbn [match_alt].
  assert (word_boundary prev (c :: r) = true) as ->.
  { unfold word_boundary. cbn [hd_error isword_opt]. rewrite Hprev, Hc.
    reflexivity. }
  cbn [andb].
  rewrite <- (word_prefix_rest (c :: r)) at 1 2 3.
  rewrite word_alt_body; auto using word_prefix_all, word_rest_head.
Qed.

Lemma word_alt_elsewhere (x : ascii) (p : text) (prev : option ascii)
      (c : ascii) (r : text) :
  isword x = true -> isword_opt prev = true \/ isword c = false ->
  match_alt prev (c :: r) (Word (x :: p)) = None.
Proof.
  intros Hx H. cbn [match_alt ci_prefix].
  destruct (isword c) eqn:Hc.
  - destruct H as [H|H]; [|discriminate].
    unfold word_boundary at 1. cbn [hd_error isword_opt]. rewrite H, Hc.
    reflexivity.
  - destruct (ch_eqb (lower_char x) (lower_char c)) eqn:E.
    + apply (ci_char_word x c Hx) in E. congruence.
    + rewrite andb_false_r. reflexivity.
Qed.

Lemma token_match_open (prev : option ascii) (r : text) :
  token_match prev (open_paren :: r) = Some 1%nat.
Proof. reflexivity. Qed.

Lemma token_match_close (prev : option ascii) (r : text) :
  token_match prev (close_paren :: r) = Some 1%nat.
Proof. reflexivity. Qed.

Lemma lit_alt_other (q c : ascii) (r : text) (prev : option ascii) :
  ch_eqb (lower_char q) (lower_char c) = false ->
  match_alt prev (c :: r) (Lit [q]) = None.
Proof. intros H. cbn [match_alt ci_prefix]. rewrite H. reflexivity. Qed.

Lemma token_match_none (prev : option ascii) (c : ascii) (r : text) :
  ch_eqb c open_paren = false -> ch_eqb c close_paren = false ->
  isword_opt prev = true \/ isword c = false ->
  token_match prev (c :: r) = None.
Proof.
  intros Ho Hc H. unfold token_match, token_pattern.
  cbn [match_alts].
  change (lit "(") with [open_paren]. change (lit ")") with [close_paren].
  rewrite lit_alt_other by exact (eq_trans (lower_open c) Ho).
  rewrite lit_alt_other by exact (eq_trans (lower_close c) Hc).
  cbn [lit list_ascii_of_string].
  rewrite !word_alt_elsewhere by (auto; reflexivity).
  reflexivity.
Qed.

Lemma word_not_paren (c : ascii) :
  isword c = true -> ch_eqb c open_paren = false /\ ch_eqb c close_paren = false.
Proof.
  intros H. split.
  - destruct (ch_eqb c open_paren) eqn:E; [|reflexivity].
    apply ch_eqb_eq in E. subst c. discriminate.
  - destruct (ch_eqb c close_paren) eqn:E; [|reflexivity].
    apply ch_eqb_eq in E. subst c. discriminate.
Qed.

Lemma lower_length (t : text) : length (lower t) = length t.
Proof. apply length_map. Qed.

Lemma token_match_word (prev : option ascii) (c : ascii) (r : text) :
  isword_opt prev = false -> isword c = true ->
  token_match prev (c :: r)
  = if is_keyword_text (lower (word_prefix (c :: r)))
    then Some (length (word_prefix (c :: r))) else None.
Proof.
  intros Hprev Hc. unfold token_match, token_pattern.
  destruct (word_not_paren c Hc) as [Ho Hcl].
  cbn [match_alts].
  change (lit "(") with [open_paren]. change (lit ")") with [close_paren].
  rewrite lit_alt_other by exact (eq_trans (lower_open c) Ho).
  rewrite lit_alt_other by exact (eq_trans (lower_close c) Hcl).
  rewrite !word_alt_at_word by (auto; discriminate || reflexivity).
  unfold is_keyword_text.
  set (w := lower (word_prefix (c :: r))).
  assert (length w = length (word_prefix (c :: r))) as L
      by apply lower_length.
  destruct (text_eqb w (lit "if")) eqn:E1.
  { apply text_eqb_eq in E1. rewrite E1 in L. rewrite <- L. reflexivity. }
  destruct (text_eqb w (lit "then")) eqn:E2.
  { apply text_eqb_eq in E2. rewrite E2 in L. rewrite <- L. reflexivity. }
  destruct (text_eqb w (lit "else")) eqn:E3.
  { apply text_eqb_eq in E3. rewrite E3 in L. rewrite <- L. reflexivity. }
  reflexivity.
Qed.

(** ** The tokenizer, atom by atom *)

Lemma is_delim_open : is_delim [open_paren] = true.
Proof. reflexivity. Qed.

Lemma is_delim_close : is_delim [close_paren] = true.
Proof. reflexivity. Qed.

Lemma is_keyword_text_single (c : ascii) : is_keyword_text [c] = false.
Proof.
  unfold is_keyword_text. cbn. rewrite !andb_false_r. reflexivity.
Qed.

Lemma is_delim_other (c : ascii) :
  ch_eqb c open_paren = false -> ch_eqb c close_paren = false ->
  is_delim [c] = false.
Proof.
  intros Ho Hc. unfold is_delim. cbn [lower map].
  rewrite is_keyword_text_single.
  change (lit "(") with [open_paren]. change (lit ")") with [close_paren].
  cbn [text_eqb]. rewrite Ho, Hc. reflexivity.
Qed.

Lemma is_delim_word (c : ascii) (w : text) :
  isword c = true -> is_delim (c :: w) = is_keyword_text (lower (c :: w)).
Proof.
  intros H. unfold is_delim. destruct (word_not_paren c H) as [Ho Hc].
  change (lit "(") with [open_paren]. change (lit ")") with [close_paren].
  cbn [text_eqb]. rewrite Ho, Hc. reflexivity.
Qed.

Lemma word_prefix_cons (c : ascii) (r : text) :
  isword c = true ->
  word_prefix (c :: r) = c :: word_prefix r /\
  word_rest (c :: r) = word_rest r.
Proof. intros H. cbn. rewrite H. auto. Qed.

Lemma word_prefix_stop (r : text) :
  isword_opt (hd_error r) = false -> word_prefix r = [] /\ word_rest r = r.
Proof.
  destruct r as [|c r]; cbn; [auto|]. intros ->. auto.
Qed.

Lemma firstn_word_prefix (t : text) :
  firstn (length (word_prefix t)) t = word_prefix t.
Proof.
  rewrite <- (word_prefix_rest t) at 2.
  rewrite firstn_app, Nat.sub_diag, firstn_all. cbn. apply app_nil_r.
Qed.

Lemma split_spec_text (prev : option ascii) (rest cur : text) :
  isword_opt prev = false -> split_spec prev rest O cur ->
  re_split_from token_match prev rest O cur = merge (atoms rest) (rev cur).
Proof. unfold split_spec. intros ->. auto. Qed.

Lemma split_spec_word (prev : option ascii) (rest cur : text) :
  isword_opt prev = true -> split_spec prev rest O cur ->
  re_split_from token_match prev rest O cur
  = merge (atoms (word_rest rest)) (rev cur ++ word_prefix rest).
Proof. unfold split_spec. intros ->. auto. Qed.

Lemma split_spec_intro (prev : option ascii) (rest cur : text) :
  (isword_opt prev = false ->
   re_split_from token_match prev rest O cur = merge (atoms rest) (rev cur)) ->
  (isword_opt prev = true ->
   re_split_from token_match prev rest O cur
   = merge (atoms (word_rest rest)) (rev cur ++ word_prefix rest)) ->
  split_spec prev rest O cur.
Proof. unfold split_spec. destruct (isword_opt prev); auto. Qed.

Lemma re_split_atoms (rest : text) :
  forall prev skip cur, split_spec prev rest skip cur.
Proof.
  induction rest as [|c rest IH]; intros prev skip cur.
  - destruct skip as [|k].
    + apply split_spec_intro; intros _; cbn; rewrite ?app_nil_r; reflexivity.
    + intros u r2 E L. symmetry in E. apply app_eq_nil in E as [-> _].
      discriminate.
  - destruct skip as [|k].
    + (* not inside a match *)
      destruct (ch_eqb c open_paren) eqn:Eo.
      { apply ch_eqb_eq in Eo. subst c.
        assert (re_split_from token_match prev (open_paren :: rest) O cur
                = rev cur :: [open_paren] :: merge (atoms rest) []) as E.
        { cbn [re_split_from]. rewrite token_match_open. cbn [firstn].
          rewrite (split_spec_text (Some open_paren) rest [] eq_refl
                     (IH _ O [])).
          reflexivity. }
        apply split_spec_intro; intros _; rewrite E;
          cbn [word_rest word_prefix]; change (isword open_paren) with false;
          cbv iota; rewrite ?app_nil_r, atoms_other by reflexivity;
          cbn [merge]; rewrite is_delim_open; reflexivity. }
      destruct (ch_eqb c close_paren) eqn:Ec.
      { apply ch_eqb_eq in Ec. subst c.
        assert (re_split_from token_match prev (close_paren :: rest) O cur
                = rev cur :: [close_paren] :: merge (atoms rest) []) as E.
        { cbn [re_split_from]. rewrite token_match_close. cbn [firstn].
          rewrite (split_spec_text (Some close_paren) rest [] eq_refl
                     (IH _ O [])).
          reflexivity. }
        apply split_spec_intro; intros _; rewrite E;
          cbn [word_rest word_prefix]; change (isword close_paren) with false;
          cbv iota; rewrite ?app_nil_r, atoms_other by reflexivity;
          cbn [merge]; rewrite is_delim_close; reflexivity. }
      destruct (isword c) eqn:Hc.
      * destruct (word_prefix_cons c rest Hc) as [Ep Er].
        assert (re_split_from token_match (Some c) rest O (c :: cur)
                = merge (atoms (word_rest (c :: rest)))
                        (rev cur ++ word_prefix (c :: rest))) as Text.
        { rewrite (split_spec_word (Some c) _ _ Hc (IH _ O _)), Ep, Er.
          cbn [rev]. rewrite <- app_assoc. reflexivity. }
        apply split_spec_intro; intros Hprev.
        -- (* at the start of a word *)
           assert (atoms (c :: rest)
                   = word_prefix (c :: rest)
                     :: atoms (word_rest (c :: rest))) as A.
           { rewrite <- (word_prefix_rest (c :: rest)) at 1.
             apply atoms_word; auto using word_prefix_all, word_rest_head.
             rewrite Ep. discriminate. }
           assert (is_delim (word_prefix (c :: rest))
                   = is_keyword_text (lower (word_prefix (c :: rest)))) as D
               by (rewrite Ep; apply is_delim_word, Hc).
           assert (length (word_prefix (c :: rest))
                   = Datatypes.S (length (word_prefix rest))) as Len
               by (rewrite Ep; reflexivity).
           cbn [re_split_from]. rewrite token_match_word by auto.
           rewrite A. cbn [merge]. rewrite D.
           destruct (is_keyword_text (lower (word_prefix (c :: rest))))
                    eqn:K; [|exact Text].
           rewrite Len. cbv iota. rewrite <- Len, firstn_word_prefix.
           do 2 f_equal.
           destruct (length (word_prefix rest)) as [|k] eqn:L.
           ++ apply length_zero_iff_nil in L.
              rewrite (split_spec_word (Some c) _ _ Hc (IH _ O _)), L, Er.
              reflexivity.
           ++ pose proof (IH (Some c) (Datatypes.S k) []) as H.
              unfold split_spec in H.
              rewrite (H (word_prefix rest) (word_rest rest));
                auto using word_prefix_all, word_rest_head.
              ** rewrite Er. reflexivity.
              ** symmetry. apply word_prefix_rest.
        -- (* inside a word that is text *)
           cbn [re_split_from]. rewrite token_match_none by auto.
           exact Text.
      * (* a character that is neither a word character nor a
           parenthesis *)
        assert (re_split_from token_match prev (c :: rest) O cur
                = merge (atoms (c :: rest)) (rev cur)) as E.
        { cbn [re_split_from]. rewrite token_match_none by auto.
          rewrite (split_spec_text (Some c) _ _ Hc (IH _ O _)).
          rewrite atoms_other by exact Hc.
          cbn [merge rev]. rewrite is_delim_other by assumption.
          reflexivity. }
        apply split_spec_intro; intros _; rewrite E; [reflexivity|].
        cbn [word_prefix word_rest]. rewrite Hc, app_nil_r. reflexivity.
    + (* inside a match *)
      unfold split_spec. intros u r2 E L Hu Hr.
      destruct u as [|d u]; [discriminate|].
      injection E as <- ->. injection L as L.
      cbn [forallb] in Hu. apply andb_prop in Hu as [Hd Hu].
      cbn [re_split_from].
      destruct k as [|k].
      * apply length_zero_iff_nil in L. subst u. cbn [app] in *.
        rewrite (split_spec_word (Some c) _ _ Hd (IH _ O _)).
        destruct (word_prefix_stop r2 Hr) as [-> ->].
        rewrite app_nil_r. reflexivity.
      * pose proof (IH (Some c) (Datatypes.S k) cur) as H.
        unfold split_spec in H. apply (H u r2); auto.
Qed.

(** The tokenizer gives the non-empty pieces of the merged atoms. *)
Lemma tokenize_atoms (t : text) :
  _tokenize_for_pretty_print t
  = filter (fun p => negb (is_nil p)) (merge (atoms t) []).
Proof.
  unfold _tokenize_for_pretty_print, re_split.
  pose proof (split_spec_text None _ _ eq_refl (re_split_atoms t None O []))
    as H.
  unfold token_match in H. rewrite H. reflexivity.
Qed.

(** ** Induction over a text, word by word *)

Lemma text_word_ind (P : text -> Prop) :
  P [] ->
  (forall c t, isword c = false -> P t -> P (c :: t)) ->
  (forall w r, w <> [] -> forallb isword w = true ->
               isword_opt (hd_error r) = false -> P r -> P (w ++ r)) ->
  forall t, P t.
Proof.
  intros Hnil Hother Hword t.
  assert (forall n t, (length t <= n)%nat -> P t) as H.
  { clear t. induction n as [|n IH]; intros t L.
    - destruct t; [exact Hnil|simpl in L; lia].
    - destruct t as [|c t]; [exact Hnil|].
      destruct (isword c) eqn:Hc.
      + rewrite <- (word_prefix_rest (c :: t)).
        apply Hword; auto using word_prefix_all, word_rest_head.
        * cbn. rewrite Hc. discriminate.
        * apply IH.
          pose proof (f_equal (@length _) (word_prefix_rest (c :: t))) as E.
          rewrite length_app in E. cbn [word_prefix] in E. rewrite Hc in E.
          cbn [length] in E, L. lia.
      + apply Hother; [exact Hc|]. apply IH. simpl in L. lia. }
  apply (H (length t)). lia.
Qed.

Lemma hd_error_app_nonword (r : text) (c : ascii) (v : text) :
  isword_opt (hd_error r) = false -> isword c = false ->
  isword_opt (hd_error (r ++ c :: v)) = false.
Proof. destruct r; cbn; auto. Qed.

Lemma atoms_app_other (u : text) (c : ascii) (v : text) :
  isword c = false -> atoms (u ++ c :: v) = atoms u ++ [c] :: atoms v.
Proof.
  intros Hc. induction u as [|d t Hd IH|w r Hne Hw Hr IH] using text_word_ind.
  - apply atoms_other, Hc.
  - cbn [app]. rewrite !atoms_other, IH by exact Hd. reflexivity.
  - rewrite <- app_assoc.
    rewrite (atoms_word w (r ++ c :: v))
      by auto using hd_error_app_nonword.
    rewrite (atoms_word w r), IH by auto. reflexivity.
Qed.

Lemma atoms_are_atoms (t : text) : Forall (fun a => is_atom a = true) (atoms t).
Proof.
  induction t as [|d t Hd IH|w r Hne Hw Hr IH] using text_word_ind.
  - constructor.
  - rewrite atoms_other by exact Hd. constructor; [reflexivity|exact IH].
  - rewrite atoms_word by auto. constructor; [|exact IH].
    destruct w as [|x [|y w]]; [congruence|reflexivity|exact Hw].
Qed.

Lemma word_ws_free (l : text) : forallb isword l = true -> ws_free l = true.
Proof.
  induction l as [|c l IH]; [reflexivity|]. cbn [forallb ws_free].
  intros H. apply andb_prop in H as [Hc H].
  unfold ws_free in IH. rewrite (IH H), andb_true_r.
  destruct (isspace c) eqn:E; [|reflexivity].
  apply isspace_not_word in E. congruence.
Qed.

Lemma atom_blank_or_free (a : text) :
  is_atom a = true -> is_blank a = false -> ws_free a = true.
Proof.
  destruct a as [|x [|y a]]; [discriminate| |].
  - cbn. intros _. rewrite !andb_true_r. intros ->. reflexivity.
  - intros Hw _. apply word_ws_free. exact Hw.
Qed.

(** ** Splitting at whitespace, as a left fold *)

Lemma split_ws_aux_space (c : ascii) (t g : text) :
  isspace c = true ->
  split_ws_aux (c :: t) (rev g) = opt_word g ++ split_ws_aux t [].
Proof.
  intros H. cbn [split_ws_aux]. rewrite H. unfold opt_word.
  destruct g as [|x g]; [reflexivity|].
  cbn [is_nil rev]. destruct (rev g ++ [x]) eqn:E.
  - apply app_eq_nil in E as [_ E]. discriminate.
  - rewrite <- E, <- (rev_involutive (x :: g)). reflexivity.
Qed.

Lemma split_ws_aux_free (a t g : text) :
  ws_free a = true ->
  split_ws_aux (a ++ t) (rev g) = split_ws_aux t (rev (g ++ a)).
Proof.
  revert g. induction a as [|c a IH]; intros g H.
  - rewrite app_nil_r. reflexivity.
  - cbn in H. apply andb_prop in H as [Hc H].
    cbn [app split_ws_aux]. destruct (isspace c); [discriminate|].
    change (c :: rev g) with (rev [c] ++ rev g).
    rewrite <- rev_app_distr, IH by exact H.
    rewrite <- app_assoc. reflexivity.
Qed.

Lemma split_ws_aux_end (g : text) : split_ws_aux [] (rev g) = opt_word g.
Proof.
  cbn. unfold opt_word. destruct g as [|x g]; [reflexivity|].
  cbn [is_nil rev]. destruct (rev g ++ [x]) eqn:E.
  - apply app_eq_nil in E as [_ E]. discriminate.
  - rewrite <- E, <- (rev_involutive (x :: g)). reflexivity.
Qed.

Lemma split_state_start : split_state [] [] [].
Proof. intros t. reflexivity. Qed.

Lemma split_state_blank (cur : text) (pend : list text) (g a : text) :
  is_atom a = true -> is_blank a = true ->
  split_state cur pend g -> split_state (cur ++ a) (pend ++ opt_word g) [].
Proof.
  intros Ha Hb H t.
  destruct a as [|c [|d a]]; [discriminate| |].
  - cbn in Hb. rewrite andb_true_r in Hb.
    rewrite <- app_assoc, H. cbn [app].
    rewrite split_ws_aux_space by exact Hb. rewrite app_assoc. reflexivity.
  - cbn [is_atom] in Ha. cbn in Hb.
    cbn [forallb] in Ha. apply andb_prop in Ha as [Hc _].
    apply andb_prop in Hb as [Hs _]. apply isspace_not_word in Hs.
    congruence.
Qed.

Lemma split_state_free (cur : text) (pend : list text) (g a : text) :
  ws_free a = true ->
  split_state cur pend g -> split_state (cur ++ a) pend (g ++ a).
Proof.
  intros Ha H t. rewrite <- app_assoc, H, split_ws_aux_free by exact Ha.
  reflexivity.
Qed.

Lemma split_state_compact (cur : text) (pend : list text) (g : text) :
  split_state cur pend g -> compact cur = join (lit " ") (pend ++ opt_word g).
Proof.
  intros H. unfold compact, split_ws.
  rewrite <- (app_nil_r cur) at 1. rewrite H, split_ws_aux_end. reflexivity.
Qed.

(** ** Normalized tokens from the items *)

Lemma join_words_nonempty (ws : list text) :
  ws <> [] -> words ws -> join (lit " ") ws <> [].
Proof.
  destruct ws as [|w ws]; [congruence|]. intros _ H.
  inversion H as [|? ? Hw _]; subst.
  destruct w; [congruence|]. destruct ws; discriminate.
Qed.

Lemma keep_run (ws : list text) :
  words ws ->
  filter (fun p => negb (is_nil p)) [join (lit " ") ws] = flush_run ws.
Proof.
  intros H. destruct ws as [|w ws]; [reflexivity|].
  cbn [filter flush_run].
  destruct (join (lit " ") (w :: ws)) eqn:J; [|reflexivity].
  exfalso. revert J. apply join_words_nonempty; [discriminate|exact H].
Qed.

Lemma opt_word_words (g : text) : words (opt_word g).
Proof.
  unfold opt_word. destruct g; constructor; [discriminate|constructor].
Qed.

Lemma words_app (a b : list text) : words a -> words b -> words (a ++ b).
Proof. intros A B. apply Forall_app. auto. Qed.

Lemma render_flush_word (g : text) (its : list item) (pend : list text) :
  render (flush_word g ++ its) pend = render its (pend ++ opt_word g).
Proof.
  unfold flush_word, opt_word. destruct g; cbn [is_nil app render].
  - rewrite app_nil_r. reflexivity.
  - reflexivity.
Qed.

Lemma delim_not_blank (a : text) :
  is_atom a = true -> is_delim a = true -> is_blank a = false.
Proof.
  destruct a as [|x [|y a]]; [discriminate| |].
  - intros _ Hd. cbn. rewrite andb_true_r.
    destruct (isspace x) eqn:E; [|reflexivity].
    destruct (ch_eqb x open_paren) eqn:Eo.
    { apply ch_eqb_eq in Eo. subst x. discriminate. }
    destruct (ch_eqb x close_paren) eqn:Ec.
    { apply ch_eqb_eq in Ec. subst x. discriminate. }
    rewrite is_delim_other in Hd by assumption. discriminate.
  - intros Hw _. cbn [is_atom forallb] in Hw.
    apply andb_prop in Hw as [Hx _]. cbn [is_blank forallb].
    destruct (isspace x) eqn:E; [|reflexivity].
    apply isspace_not_word in E. congruence.
Qed.

Lemma split_ws_free (a : text) :
  ws_free a = true -> split_ws a = opt_word a.
Proof.
  intros H. unfold split_ws.
  pose proof (split_ws_aux_free a [] [] H) as E.
  rewrite app_nil_r in E. cbn [rev app] in E. rewrite E.
  apply split_ws_aux_end.
Qed.

Lemma compact_free (a : text) : ws_free a = true -> compact a = a.
Proof.
  intros H. unfold compact. rewrite split_ws_free by exact H.
  unfold opt_word. destruct a; reflexivity.
Qed.

Lemma atom_nonempty (a : text) : is_atom a = true -> is_nil a = false.
Proof. destruct a; [discriminate|reflexivity]. Qed.

Lemma normalized_cons (p : text) (l : list text) :
  normalized (p :: l)
  = filter (fun p => negb (is_nil p)) [compact p] ++ normalized l.
Proof.
  unfold normalized. cbn [map filter].
  destruct (negb (is_nil (compact p))); reflexivity.
Qed.

Lemma normalized_merge (l : list text) :
  forall (cur : text) (pend : list text) (g : text),
    Forall (fun a => is_atom a = true) l ->
    split_state cur pend g -> words pend ->
    normalized (merge l cur) = render (group l g) pend.
Proof.
  induction l as [|a l IH]; intros cur pend g Hl Hs Hp.
  - cbn [merge group]. rewrite normalized_cons.
    rewrite (split_state_compact _ _ _ Hs), keep_run
      by auto using words_app, opt_word_words.
    rewrite <- (app_nil_r (flush_word g)), render_flush_word.
    cbn [render normalized map filter]. apply app_nil_r.
  - inversion Hl as [|? ? Ha Hl']; subst. cbn [merge group].
    destruct (is_delim a) eqn:Hd.
    + rewrite !normalized_cons, render_flush_word. cbn [render].
      rewrite (split_state_compact _ _ _ Hs), keep_run
        by auto using words_app, opt_word_words.
      rewrite compact_free
        by auto using atom_blank_or_free, delim_not_blank.
      cbn [filter]. rewrite (atom_nonempty a Ha). cbn [negb app].
      rewrite (IH [] [] []); auto using split_state_start.
      constructor.
    + destruct (is_blank a) eqn:Hb.
      * rewrite render_flush_word.
        apply IH; auto using split_state_blank, words_app, opt_word_words.
      * apply IH; auto using split_state_free, atom_blank_or_free.
Qed.

Lemma normalized_filter (l : list text) :
  normalized (filter (fun p => negb (is_nil p)) l) = normalized l.
Proof.
  induction l as [|p l IH]; [reflexivity|].
  cbn [filter]. destruct p as [|c p].
  - cbn [is_nil negb]. rewrite IH. reflexivity.
  - cbn [is_nil negb]. rewrite !normalized_cons, IH. reflexivity.
Qed.

(** The normalized tokens of a text are what its items render. *)
Lemma normalized_tokens (t : text) :
  normalized (_tokenize_for_pretty_print t) = render (items t) [].
Proof.
  rewrite tokenize_atoms, normalized_filter.
  apply normalized_merge;
    auto using atoms_are_atoms, split_state_start.
  constructor.
Qed.

(** ** Items do not depend on the amount of whitespace *)

Lemma space_atom (c : ascii) :
  isspace c = true -> is_delim [c] = false /\ is_blank [c] = true.
Proof.
  intros H. split.
  - apply is_delim_other.
    + destruct (ch_eqb c open_paren) eqn:E; [|reflexivity].
      apply ch_eqb_eq in E. subst c. discriminate.
    + destruct (ch_eqb c close_paren) eqn:E; [|reflexivity].
      apply ch_eqb_eq in E. subst c. discriminate.
  - cbn. rewrite H. reflexivity.
Qed.

Lemma group_app_blank (l1 : list text) (c : ascii) (l2 : list text) :
  isspace c = true ->
  forall cur, group (l1 ++ [c] :: l2) cur = group l1 cur ++ group l2 [].
Proof.
  intros H. destruct (space_atom c H) as [Hd Hb].
  induction l1 as [|a l1 IH]; intros cur; cbn [app group].
  - rewrite Hd, Hb. reflexivity.
  - destruct (is_delim a); [|destruct (is_blank a)]; rewrite IH;
      rewrite <- ?app_assoc; reflexivity.
Qed.

Lemma items_space (u : text) (c : ascii) (v : text) :
  isspace c = true -> items (u ++ c :: v) = items u ++ items v.
Proof.
  intros H. unfold items.
  rewrite atoms_app_other by (apply isspace_not_word, H).
  apply group_app_blank, H.
Qed.

Lemma items_blank (b : text) : is_blank b = true -> items b = [].
Proof.
  induction b as [|c b IH]; [reflexivity|]. cbn [is_blank forallb].
  intros H. apply andb_prop in H as [Hc Hb].
  change (c :: b) with ([] ++ c :: b).
  rewrite (items_space [] c b Hc). exact (IH Hb).
Qed.

Lemma items_blank_left (b v : text) :
  is_blank b = true -> items (b ++ v) = items v.
Proof.
  induction b as [|c b IH]; [reflexivity|]. cbn [is_blank forallb].
  intros H. apply andb_prop in H as [Hc Hb].
  change ((c :: b) ++ v) with ([] ++ c :: b ++ v).
  rewrite (items_space [] c (b ++ v) Hc). exact (IH Hb).
Qed.

Lemma items_blank_right (u b : text) :
  is_blank b = true -> items (u ++ b) = items u.
Proof.
  destruct b as [|c b]; [rewrite app_nil_r; reflexivity|].
  cbn [is_blank forallb]. intros H. apply andb_prop in H as [Hc Hb].
  rewrite (items_space u c b Hc), (items_blank b Hb). apply app_nil_r.
Qed.

Lemma lstrip_split (t : text) :
  exists b, is_blank b = true /\ t = b ++ lstrip t.
Proof.
  induction t as [|c t (b & Hb & E)]; [exists []; auto|].
  cbn [lstrip]. destruct (isspace c) eqn:Hc.
  - exists (c :: b). cbn [is_blank forallb app]. rewrite Hc.
    split; [exact Hb|]. f_equal. exact E.
  - exists []. auto.
Qed.

Lemma is_blank_rev (b : text) : is_blank (rev b) = is_blank b.
Proof.
  unfold is_blank. induction b as [|c b IH]; [reflexivity|].
  cbn [rev forallb]. rewrite forallb_app, IH. cbn.
  rewrite andb_true_r. apply andb_comm.
Qed.

Lemma rstrip_split (t : text) :
  exists b, is_blank b = true /\ t = rstrip t ++ b.
Proof.
  destruct (lstrip_split (rev t)) as (b & Hb & E).
  exists (rev b). split; [rewrite is_blank_rev; exact Hb|].
  unfold rstrip. rewrite <- rev_app_distr, <- E, rev_involutive.
  reflexivity.
Qed.

Lemma items_strip (t : text) : items (strip t) = items t.
Proof.
  unfold strip.
  destruct (lstrip_split t) as (b1 & H1 & E1).
  destruct (rstrip_split (lstrip t)) as (b2 & H2 & E2).
  rewrite E1 at 2. rewrite items_blank_left by exact H1.
  rewrite E2 at 2. rewrite items_blank_right by exact H2. reflexivity.
Qed.

Lemma items_join (c : ascii) (parts : list text) :
  isspace c = true ->
  items (join [c] parts) = concat (map items parts).
Proof.
  intros H. induction parts as [|p [|q ps] IH].
  - reflexivity.
  - cbn. rewrite app_nil_r. reflexivity.
  - change (join [c] (p :: q :: ps)) with (p ++ c :: join [c] (q :: ps)).
    rewrite items_space by exact H. rewrite IH. reflexivity.
Qed.

Lemma items_split_aux (t : text) :
  forall cur, concat (map items (split_ws_aux t cur)) = items (rev cur ++ t).
Proof.
  induction t as [|c t IH]; intros cur.
  - cbn [split_ws_aux]. rewrite app_nil_r.
    destruct cur as [|x cur]; [reflexivity|].
    cbn [map concat]. apply app_nil_r.
  - cbn [split_ws_aux]. destruct (isspace c) eqn:Hc.
    + rewrite items_space by exact Hc.
      destruct cur as [|x cur].
      * rewrite IH. reflexivity.
      * cbn [map concat]. rewrite IH. reflexivity.
    + rewrite IH. cbn [rev]. rewrite <- app_assoc. reflexivity.
Qed.

(** Compacting a text keeps its items. *)
Lemma items_compact (t : text) : items (compact t) = items t.
Proof.
  unfold compact. change (lit " ") with [" "%char].
  rewrite items_join by reflexivity.
  unfold split_ws. rewrite items_split_aux. reflexivity.
Qed.

(** ** Atoms of a text made of atoms *)

Lemma atoms_head (r : text) :
  isword_opt (hd_error r) = false ->
  isword_opt (hd_error (concat (atoms r))) = false.
Proof.
  destruct r as [|c r]; [reflexivity|]. cbn [hd_error isword_opt].
  intros H. rewrite atoms_other by exact H. cbn. exact H.
Qed.

Lemma atoms_wf (t : text) : wf_atoms (atoms t).
Proof.
  induction t as [|d t Hd IH|w r Hne Hw Hr IH] using text_word_ind.
  - exact I.
  - rewrite atoms_other by exact Hd. cbn [wf_atoms hd_error isword_opt].
    rewrite Hd. repeat split; [discriminate|exact IH].
  - rewrite atoms_word by auto. cbn [wf_atoms]. repeat split.
    + destruct w as [|x [|y w]]; [congruence|reflexivity|exact Hw].
    + intros _. apply atoms_head, Hr.
    + exact IH.
Qed.

Lemma atom_word_or_char (a : text) :
  is_atom a = true ->
  (isword_opt (hd_error a) = true /\ a <> [] /\ forallb isword a = true) \/
  (exists c, a = [c] /\ isword c = false).
Proof.
  destruct a as [|x [|y a]]; [discriminate| |].
  - intros _. destruct (isword x) eqn:E.
    + left. cbn. rewrite E. repeat split. discriminate.
    + right. eauto.
  - intros H. left. cbn [is_atom] in H. pose proof H as H'.
    cbn [forallb] in H'. apply andb_prop in H' as [Hx _].
    cbn [hd_error isword_opt]. repeat split; [exact Hx|discriminate|exact H].
Qed.

Lemma atoms_concat (l : list text) : wf_atoms l -> atoms (concat l) = l.
Proof.
  induction l as [|a l IH]; [reflexivity|].
  intros (Ha & Hadj & Hl). cbn [concat].
  destruct (atom_word_or_char a Ha) as [(Hh & Hne & Hw)|(c & -> & Hc)].
  - rewrite atoms_word, IH; auto.
  - cbn [app]. rewrite atoms_other, IH by auto. reflexivity.
Qed.

Lemma wf_atoms_app (l1 l2 : list text) :
  wf_atoms (l1 ++ l2) -> wf_atoms l1 /\ wf_atoms l2.
Proof.
  induction l1 as [|a l1 IH]; [cbn; auto|].
  cbn [app wf_atoms]. intros (Ha & Hadj & H).
  destruct (IH H) as [H1 H2]. repeat split; auto.
  intros Hh. specialize (Hadj Hh). rewrite concat_app in Hadj.
  destruct (concat l1); [reflexivity|exact Hadj].
Qed.

Lemma items_concat (l : list text) : wf_atoms l -> items (concat l) = group l [].
Proof. intros H. unfold items. rewrite atoms_concat by exact H. reflexivity. Qed.

Lemma group_app_delim (l1 : list text) (a : text) (l2 : list text) :
  is_delim a = true ->
  forall cur, group (l1 ++ a :: l2) cur = group l1 cur ++ D a :: group l2 [].
Proof.
  intros Hd. induction l1 as [|b l1 IH]; intros cur; cbn [app group].
  - rewrite Hd. reflexivity.
  - destruct (is_delim b); [|destruct (is_blank b)]; rewrite IH;
      rewrite <- ?app_assoc; reflexivity.
Qed.

Lemma items_delim (a : text) :
  is_atom a = true -> is_delim a = true -> items a = [D a].
Proof.
  intros Ha Hd.
  assert (wf_atoms [a]) as Hwf by (cbn; auto).
  pose proof (items_concat [a] Hwf) as E. cbn [concat] in E.
  rewrite app_nil_r in E. rewrite E. cbn [group]. rewrite Hd. reflexivity.
Qed.

Lemma group_only_words (l : list text) :
  Forall (fun a => is_delim a = false) l ->
  forall cur, only_words (group l cur).
Proof.
  induction l as [|a l IH]; intros H cur; cbn [group].
  - unfold flush_word. destruct (is_nil cur); repeat constructor.
  - inversion H as [|? ? Ha Hl]; subst. rewrite Ha.
    destruct (is_blank a); [|apply IH, Hl].
    apply Forall_app. split; [|apply IH, Hl].
    unfold flush_word. destruct (is_nil cur); repeat constructor.
Qed.

Lemma text_piece_items (p : text) : text_piece p -> only_words (items p).
Proof.
  intros (l & Hwf & Hl & ->). rewrite items_concat by exact Hwf.
  apply group_only_words, Hl.
Qed.

(** ** The tokens are pieces, and hold the items of the text *)

Lemma merge_pieces (l : list text) :
  forall lc,
    wf_atoms (lc ++ l) -> Forall (fun a => is_delim a = false) lc ->
    Forall piece (merge l (concat lc)) /\
    concat (map items (merge l (concat lc))) = group (lc ++ l) [].
Proof.
  induction l as [|a l IH]; intros lc Hwf Hlc.
  - rewrite app_nil_r in *. cbn [merge map concat]. split.
    + constructor; [|constructor]. left. exists lc. auto.
    + rewrite app_nil_r. apply items_concat, Hwf.
  - destruct (wf_atoms_app _ _ Hwf) as [Hwf1 Hwf2].
    pose proof Hwf2 as (Ha & _ & Hwfl).
    cbn [merge]. destruct (is_delim a) eqn:Hd.
    + destruct (IH [] Hwfl ltac:(constructor)) as [P E]. cbn [concat] in P, E.
      split.
      * constructor; [left; exists lc; auto|].
        constructor; [right; split; auto|exact P].
      * cbn [map concat]. cbn [app] in E. rewrite E.
        rewrite items_concat, items_delim, group_app_delim by auto.
        reflexivity.
    + assert (concat lc ++ a = concat (lc ++ [a])) as ->.
      { rewrite concat_app. cbn. rewrite app_nil_r. reflexivity. }
      assert ((lc ++ [a]) ++ l = lc ++ a :: l) as E
          by (rewrite <- app_assoc; reflexivity).
      rewrite <- E. apply IH.
      * rewrite E. exact Hwf.
      * apply Forall_app. split; [exact Hlc|]. constructor; [exact Hd|].
        constructor.
Qed.

Lemma tokens_pieces (t : text) :
  Forall piece (_tokenize_for_pretty_print t) /\
  concat (map items (_tokenize_for_pretty_print t)) = items t.
Proof.
  rewrite tokenize_atoms.
  destruct (merge_pieces (atoms t) [] (atoms_wf t) ltac:(constructor))
    as [P E].
  cbn [concat app] in P, E. split.
  - apply Forall_forall. intros p Hp. apply filter_In in Hp as [Hp _].
    revert p Hp. apply Forall_forall. exact P.
  - unfold items at 2. rewrite <- E. generalize (merge (atoms t) []).
    intros l.
    induction l as [|p l IH]; [reflexivity|].
    cbn [filter map concat].
    destruct p as [|c p]; cbn [is_nil negb]; [exact IH|].
    cbn [map concat]. rewrite IH. reflexivity.
Qed.

(** ** The pretty-printer keeps the items *)

Lemma items_after (cl v : text) :
  ends_ok cl -> items (cl ++ v) = items cl ++ items v.
Proof.
  intros [->|(cl0 & c & -> & Hc)]; [reflexivity|].
  rewrite <- app_assoc. cbn [app].
  rewrite items_space by exact Hc.
  rewrite (items_blank_right cl0 [c]); [reflexivity|].
  cbn. rewrite Hc. reflexivity.
Qed.

Lemma str_mul_blank (n : Z) : is_blank (str_mul indent_str n) = true.
Proof.
  unfold str_mul. induction (Z.to_nat n) as [|k IH]; [reflexivity|].
  cbn [repeat concat]. unfold is_blank in *. rewrite forallb_app, IH.
  reflexivity.
Qed.

Lemma items_indented (n : Z) (v : text) :
  items (str_mul indent_str n ++ v) = items v.
Proof. apply items_blank_left, str_mul_blank. Qed.

Lemma items_stripped_nil (t : text) : is_nil (strip t) = true -> items t = [].
Proof.
  intros H. rewrite <- items_strip. destruct (strip t); [reflexivity|].
  discriminate.
Qed.

Lemma concat_items_snoc (l : list text) (x : text) :
  concat (map items (l ++ [x])) = concat (map items l) ++ items x.
Proof.
  rewrite map_app, concat_app. cbn. rewrite app_nil_r. reflexivity.
Qed.

Lemma flush_held (st : pp_state) :
  held (flush st) = held st /\
  items (current_line (flush st)) = [] /\
  (ends_ok (current_line st) -> ends_ok (current_line (flush st))) /\
  indent_level (flush st) = indent_level st.
Proof.
  unfold flush, held.
  destruct (is_nil (strip (current_line st))) eqn:E; cbn [negb].
  - repeat split; auto. apply items_stripped_nil, E.
  - cbn [pp_result current_line indent_level].
    rewrite concat_items_snoc, items_indented, items_strip.
    repeat split; rewrite ?app_nil_r; auto. intros _. left. reflexivity.
Qed.

Lemma lstrip_free (a : text) : ws_free a = true -> lstrip a = a.
Proof.
  destruct a as [|c a]; [reflexivity|]. cbn.
  intros H. apply andb_prop in H as [Hc _].
  destruct (isspace c); [discriminate|reflexivity].
Qed.

Lemma ws_free_rev (a : text) : ws_free (rev a) = ws_free a.
Proof.
  unfold ws_free. induction a as [|c a IH]; [reflexivity|].
  cbn [rev forallb]. rewrite forallb_app, IH. cbn.
  rewrite andb_true_r. apply andb_comm.
Qed.

Lemma strip_free (a : text) : ws_free a = true -> strip a = a.
Proof.
  intros H. unfold strip, rstrip. rewrite (lstrip_free a H).
  rewrite lstrip_free by (rewrite ws_free_rev; exact H).
  apply rev_involutive.
Qed.

Lemma forallb_isword_lower (t : text) :
  forallb isword (lower t) = forallb isword t.
Proof.
  induction t as [|c t IH]; [reflexivity|].
  cbn [lower map forallb]. unfold lower in IH. rewrite IH, isword_lower.
  reflexivity.
Qed.

Lemma keyword_delim_piece (ts : text) :
  is_keyword_text (lower ts) = true -> delim_piece ts.
Proof.
  intros H.
  assert (forallb isword ts = true /\ ts <> []) as [Hw Hne].
  { rewrite <- forallb_isword_lower. unfold is_keyword_text in H.
    destruct ts as [|c ts]; [discriminate|]. split; [|discriminate].
    apply orb_prop in H as [H|H]; [apply orb_prop in H as [H|H]|];
      apply text_eqb_eq in H; rewrite H; reflexivity. }
  split.
  - destruct ts as [|x [|y ts]]; [congruence|reflexivity|exact Hw].
  - unfold is_delim. rewrite H. apply orb_true_r.
Qed.

Lemma paren_delim_piece (ts : text) :
  text_eqb ts (lit "(") = true \/ text_eqb ts (lit ")") = true ->
  delim_piece ts.
Proof.
  intros [H|H]; apply text_eqb_eq in H; subst ts; split; reflexivity.
Qed.

Lemma text_piece_not_delim (p : text) :
  text_piece p -> delim_piece (strip p) -> False.
Proof.
  intros Hp [Ha Hd]. apply text_piece_items in Hp.
  rewrite <- items_strip, (items_delim _ Ha Hd) in Hp.
  inversion Hp as [|? ? F _]. exact F.
Qed.

Lemma pp_token_text (st : pp_state) (p : text) :
  text_piece p -> ends_ok (current_line st) ->
  ends_ok (current_line (pp_token st p)) /\
  held (pp_token st p) = held st ++ items p.
Proof.
  intros Hp Hcl. unfold pp_token.
  destruct (is_nil (strip p)) eqn:En.
  - rewrite (items_stripped_nil p En), app_nil_r.
    destruct (negb (is_nil (current_line st)) && _); [|auto].
    unfold held. cbn [current_line pp_result]. split.
    + right. exists (current_line st), " "%char. auto.
    + rewrite items_blank_right by reflexivity. reflexivity.
  - destruct (text_eqb (strip p) (lit "(")) eqn:E1.
    { exfalso. apply (text_piece_not_delim p Hp), paren_delim_piece. auto. }
    destruct (text_eqb (strip p) (lit ")")) eqn:E2.
    { exfalso. apply (text_piece_not_delim p Hp), paren_delim_piece. auto. }
    destruct (is_keyword_text (lower (strip p))) eqn:E3.
    { exfalso. apply (text_piece_not_delim p Hp), keyword_delim_piece, E3. }
    unfold held. cbn [current_line pp_result]. split.
    + right. exists (current_line st ++ strip p), " "%char.
      rewrite <- app_assoc. auto.
    + rewrite items_after by exact Hcl.
      rewrite items_blank_right by reflexivity.
      rewrite items_strip, app_assoc. reflexivity.
Qed.

Lemma delim_piece_free (a : text) : delim_piece a -> ws_free a = true.
Proof.
  intros [Ha Hd]. auto using atom_blank_or_free, delim_not_blank.
Qed.

Lemma pp_token_delim (st : pp_state) (a : text) :
  delim_piece a -> ends_ok (current_line st) ->
  ends_ok (current_line (pp_token st a)) /\
  held (pp_token st a) = held st ++ items a.
Proof.
  intros Hp Hcl. pose proof Hp as [Ha Hd]. unfold pp_token.
  rewrite (strip_free a (delim_piece_free a Hp)), (atom_nonempty a Ha).
  destruct (flush_held st) as (Hh & Hi & He & _). specialize (He Hcl).
  rewrite (items_delim a Ha Hd), <- Hh.
  unfold held in *. rewrite Hi, app_nil_r.
  destruct (text_eqb a (lit "(")) eqn:E1.
  { apply text_eqb_eq in E1. subst a. cbn [current_line pp_result].
    split; [exact He|].
    rewrite concat_items_snoc, items_indented, Hi, app_nil_r.
    reflexivity. }
  destruct (text_eqb a (lit ")")) eqn:E2.
  { apply text_eqb_eq in E2. subst a. cbn [current_line pp_result].
    split; [exact He|].
    rewrite concat_items_snoc, items_indented, Hi, app_nil_r.
    reflexivity. }
  assert (is_keyword_text (lower a) = true) as ->.
  { unfold is_delim in Hd. rewrite E1, E2 in Hd. exact Hd. }
  cbn [current_line pp_result]. split.
  - right. exists a, " "%char. auto.
  - rewrite items_blank_right by reflexivity.
    rewrite (items_delim a Ha Hd). reflexivity.
Qed.

Lemma pp_fold_held (tokens : list text) :
  Forall piece tokens ->
  forall st, ends_ok (current_line st) ->
  held (fold_left pp_token tokens st)
  = held st ++ concat (map items tokens).
Proof.
  induction 1 as [|p tokens Hp _ IH]; intros st Hcl; cbn [fold_left].
  - rewrite app_nil_r. reflexivity.
  - assert (ends_ok (current_line (pp_token st p)) /\
            held (pp_token st p) = held st ++ items p) as [Hcl' Hh].
    { destruct Hp as [Hp|Hp];
        [apply pp_token_text|apply pp_token_delim]; assumption. }
    rewrite IH by exact Hcl'. rewrite Hh. cbn [map concat].
    rewrite app_assoc. reflexivity.
Qed.

(** Expanding a text keeps its items. *)
Lemma items_expand (t : text) : items (pretty_print_relevance t) = items t.
Proof.
  unfold pretty_print_relevance.
  destruct (tokens_pieces t) as [Hp Hi].
  pose proof (pp_fold_held _ Hp pp_start (or_introl eq_refl)) as Hh.
  set (st := fold_left pp_token (_tokenize_for_pretty_print t) pp_start) in *.
  destruct (flush_held st) as (Hf & Hn & _).
  rewrite items_join by reflexivity.
  assert (held (flush st) = concat (map items (pp_result (flush st)))) as E
      by (unfold held; rewrite Hn, app_nil_r; reflexivity).
  rewrite <- E, Hf, Hh, Hi. reflexivity.
Qed.

(** ** Stripping a token of a compacted text *)

Lemma tidy_app (u v : text) :
  tidy (u ++ v) = true -> tidy u = true /\ tidy v = true.
Proof.
  induction u as [|c u IH]; [cbn; auto|].
  cbn [app tidy]. intros H. apply andb_prop in H as [Hc H].
  destruct (IH H) as [Hu Hv]. split; [|exact Hv].
  rewrite Hu, andb_true_r.
  destruct u as [|d u]; [|exact Hc].
  cbn [hd_error isspace_opt negb]. rewrite andb_true_r.
  destruct (isspace c) eqn:E; [|reflexivity].
  cbn [negb orb] in *. apply andb_prop in Hc as [Hc _]. exact Hc.
Qed.

Lemma tidy_free_app (p v : text) :
  ws_free p = true -> tidy (p ++ v) = tidy v.
Proof.
  induction p as [|c p IH]; [reflexivity|]. cbn [ws_free forallb].
  intros H. apply andb_prop in H as [Hc H]. cbn [app tidy].
  rewrite Hc. cbn [orb andb]. apply IH, H.
Qed.

Lemma split_ws_aux_chunks (t : text) :
  forall cur, ws_free (rev cur) = true ->
              Forall chunk (split_ws_aux t cur).
Proof.
  induction t as [|c t IH]; intros cur H; cbn [split_ws_aux].
  - destruct cur as [|x cur]; constructor; [|constructor].
    split; [exact H|]. cbn. destruct (rev cur); discriminate.
  - destruct (isspace c) eqn:Hc.
    + destruct cur as [|x cur]; [apply IH; reflexivity|].
      constructor; [|apply IH; reflexivity].
      split; [exact H|]. cbn. destruct (rev cur); discriminate.
    + apply IH. cbn [rev]. unfold ws_free in *.
      rewrite forallb_app, H. cbn. rewrite Hc. reflexivity.
Qed.

Lemma chunk_head (w : text) (v : text) :
  chunk w -> isspace_opt (hd_error (w ++ v)) = false.
Proof.
  intros [Hf Hne]. destruct w as [|c w]; [congruence|].
  cbn in *. apply andb_prop in Hf as [Hc _].
  destruct (isspace c); [discriminate|reflexivity].
Qed.

Lemma tidy_join (ws : list text) :
  Forall chunk ws -> tidy (join (lit " ") ws) = true.
Proof.
  induction 1 as [|p ws Hp Hws IH]; [reflexivity|].
  destruct ws as [|q ws].
  - cbn [join]. rewrite <- (app_nil_r p), tidy_free_app by apply Hp.
    reflexivity.
  - change (join (lit " ") (p :: q :: ws))
      with (p ++ " "%char :: join (lit " ") (q :: ws)).
    rewrite tidy_free_app by apply Hp. cbn [tidy].
    rewrite IH, andb_true_r. cbn [isspace negb orb ch_eqb andb].
    inversion Hws as [|? ? Hq _]; subst.
    assert (isspace_opt (hd_error (join (lit " ") (q :: ws))) = false) as ->.
    { destruct ws; [rewrite <- (app_nil_r q)|]; apply chunk_head, Hq. }
    reflexivity.
Qed.

Lemma tidy_compact (t : text) : tidy (compact t) = true.
Proof.
  apply tidy_join. apply split_ws_aux_chunks. reflexivity.
Qed.

Lemma concat_atoms (t : text) : concat (atoms t) = t.
Proof.
  induction t as [|d t Hd IH|w r Hne Hw Hr IH] using text_word_ind.
  - reflexivity.
  - rewrite atoms_other by exact Hd. cbn. rewrite IH. reflexivity.
  - rewrite atoms_word by auto. cbn [concat]. rewrite IH. reflexivity.
Qed.

Lemma merge_factors (l : list text) :
  forall cur p, In p (merge l cur) ->
                exists pre post, cur ++ concat l = pre ++ p ++ post.
Proof.
  induction l as [|a l IH]; intros cur p; cbn [merge concat].
  - intros [<-|[]]. exists [], []. rewrite !app_nil_r. reflexivity.
  - destruct (is_delim a).
    + intros [<-|[<-|H]].
      * exists [], (a ++ concat l). reflexivity.
      * exists cur, (concat l). reflexivity.
      * destruct (IH [] p H) as (pre & post & E). cbn [app] in E.
        exists (cur ++ a ++ pre), post. rewrite E, <- !app_assoc.
        reflexivity.
    + intros H. destruct (IH (cur ++ a) p H) as (pre & post & E).
      exists pre, post. rewrite <- E, <- app_assoc. reflexivity.
Qed.

Lemma tokens_tidy (t : text) (p : text) :
  tidy t = true -> In p (_tokenize_for_pretty_print t) -> tidy p = true.
Proof.
  intros Ht Hp. rewrite tokenize_atoms in Hp.
  apply filter_In in Hp as [Hp _].
  apply merge_factors in Hp as (pre & post & E).
  cbn [app] in E. rewrite concat_atoms in E. rewrite E in Ht.
  apply tidy_app in Ht as [_ Ht]. apply tidy_app in Ht as [Ht _].
  exact Ht.
Qed.

Lemma lstrip_app_keep (x y : text) :
  lstrip x <> [] -> lstrip (x ++ y) = lstrip x ++ y.
Proof.
  induction x as [|c x IH]; [cbn; congruence|].
  cbn [app lstrip]. destruct (isspace c); [exact IH|reflexivity].
Qed.

Lemma rstrip_app_keep (u v : text) :
  rstrip v <> [] -> rstrip (u ++ v) = u ++ rstrip v.
Proof.
  unfold rstrip. intros H. rewrite rev_app_distr, lstrip_app_keep.
  - rewrite rev_app_distr, rev_involutive. reflexivity.
  - intros E. apply H. rewrite E. reflexivity.
Qed.

Lemma rstrip_free (g : text) : ws_free g = true -> rstrip g = g.
Proof.
  intros H. unfold rstrip.
  rewrite lstrip_free by (rewrite ws_free_rev; exact H).
  apply rev_involutive.
Qed.

Lemma rstrip_space (u : text) (c : ascii) :
  isspace c = true -> rstrip (u ++ [c]) = rstrip u.
Proof.
  intros H. unfold rstrip. rewrite rev_unit. cbn [lstrip]. rewrite H.
  reflexivity.
Qed.

Lemma rstrip_nonblank (d : ascii) (v : text) :
  isspace d = false -> rstrip (d :: v) <> [].
Proof.
  intros Hd E. destruct (rstrip_split (d :: v)) as (b & Hb & Eb).
  rewrite E in Eb. cbn [app] in Eb. subst b.
  cbn in Hb. rewrite Hd in Hb. discriminate.
Qed.

Lemma split_ws_aux_nonempty (t : text) :
  forall cur, cur <> [] -> split_ws_aux t cur <> [].
Proof.
  induction t as [|c t IH]; intros cur H; cbn [split_ws_aux].
  - destruct cur; [congruence|discriminate].
  - destruct (isspace c).
    + destruct cur; [congruence|discriminate].
    + apply IH. discriminate.
Qed.

Lemma join_cons (p : text) (ws : list text) :
  ws <> [] -> join (lit " ") (p :: ws) = p ++ " "%char :: join (lit " ") ws.
Proof. destruct ws; [congruence|reflexivity]. Qed.

Lemma join_split_rstrip (v : text) :
  forall g,
    tidy v = true -> ws_free g = true ->
    g <> [] \/ isspace_opt (hd_error v) = false ->
    join (lit " ") (split_ws_aux v (rev g)) = rstrip (g ++ v).
Proof.
  induction v as [|c v IH]; intros g Ht Hg Hstart.
  - rewrite split_ws_aux_end, app_nil_r, rstrip_free by exact Hg.
    unfold opt_word. destruct g; reflexivity.
  - cbn [tidy] in Ht. apply andb_prop in Ht as [Hc Ht].
    destruct (isspace c) eqn:Es.
    + cbn [negb orb] in Hc. apply andb_prop in Hc as [Hsp Hnext].
      apply negb_true_iff in Hnext.
      destruct Hstart as [Hne|F]; [|cbn in F; congruence].
      rewrite split_ws_aux_space by exact Es.
      unfold opt_word. destruct g as [|x g]; [congruence|].
      cbn [is_nil app].
      destruct v as [|d v].
      * cbn [split_ws_aux join].
        change (x :: g ++ [c]) with ((x :: g) ++ [c]).
        rewrite rstrip_space, rstrip_free by assumption. reflexivity.
      * cbn [hd_error isspace_opt] in Hnext.
        assert (split_ws_aux (d :: v) [] <> []) as Hws.
        { cbn [split_ws_aux]. rewrite Hnext.
          apply split_ws_aux_nonempty. discriminate. }
        rewrite join_cons by exact Hws.
        pose proof (IH [] Ht eq_refl (or_intror Hnext)) as E.
        cbn [rev app] in E. rewrite E.
        assert (c = " "%char) as -> by (apply ch_eqb_eq, Hsp).
        replace (x :: g ++ " "%char :: d :: v)
          with (((x :: g) ++ [" "%char]) ++ d :: v)
          by (rewrite <- app_assoc; reflexivity).
        rewrite rstrip_app_keep by (apply rstrip_nonblank, Hnext).
        rewrite <- app_assoc. reflexivity.
    + assert (ws_free [c] = true) as Hfc by (cbn; rewrite Es; reflexivity).
      change (c :: v) with ([c] ++ v).
      rewrite split_ws_aux_free by exact Hfc.
      rewrite IH; auto.
      * rewrite <- app_assoc. reflexivity.
      * unfold ws_free in *. rewrite forallb_app, Hg, Hfc. reflexivity.
      * left. destruct g; discriminate.
Qed.

Lemma split_ws_aux_blank (b v : text) :
  is_blank b = true -> split_ws_aux (b ++ v) [] = split_ws_aux v [].
Proof.
  induction b as [|c b IH]; [reflexivity|]. cbn [is_blank forallb].
  intros H. apply andb_prop in H as [Hc Hb].
  cbn [app split_ws_aux]. rewrite Hc. exact (IH Hb).
Qed.

Lemma lstrip_head (t : text) : isspace_opt (hd_error (lstrip t)) = false.
Proof.
  induction t as [|c t IH]; [reflexivity|]. cbn [lstrip].
  destruct (isspace c) eqn:E; [exact IH|]. cbn. exact E.
Qed.

Lemma tidy_strip (t : text) : tidy t = true -> strip t = compact t.
Proof.
  intros H. destruct (lstrip_split t) as (b & Hb & E).
  unfold strip, compact, split_ws.
  rewrite E at 2. rewrite split_ws_aux_blank by exact Hb.
  rewrite E in H. apply tidy_app in H as [_ H].
  symmetry.
  apply (join_split_rstrip (lstrip t) [] H eq_refl).
  right. apply lstrip_head.
Qed.

Lemma token_contents_normalized (t : text) :
  tidy t = true ->
  token_contents t = normalized (_tokenize_for_pretty_print t).
Proof.
  intros H. unfold token_contents, normalized. f_equal.
  apply map_ext_in. intros p Hp. apply tidy_strip.
  apply (tokens_tidy t p H Hp).
Qed.

(** ** Expanding and compacting *)

(** C9: tokenizing compact(expand(s)) and tokenizing compact(s) give the
    same sequence of tokens, a token being read as the printer reads it:
    stripped, and left out when it is only whitespace.  The parentheses,
    the keywords (in the case they were written in) and the contents of the
    text runs agree, in this order. *)
Theorem expand_compact_same_tokens (s : text) :
  token_contents (compact (pretty_print_relevance s))
  = token_contents (compact s).
Proof.
  rewrite !token_contents_normalized by apply tidy_compact.
  rewrite !normalized_tokens, !items_compact, items_expand.
  reflexivity.
Qed.

(** The tokens themselves differ, in their whitespace. *)
Remark tokens_differ_in_whitespace :
  _tokenize_for_pretty_print (compact (pretty_print_relevance (lit "(a)")))
  = [lit "("; lit " a "; lit ")"] /\
  _tokenize_for_pretty_print (compact (lit "(a)"))
  = [lit "("; lit "a"; lit ")"].
Proof. split; vm_compute; reflexivity. Qed.

(** ** The bracket matcher on one pair and on a lone opener *)

Lemma len_app (u v : text) : len (u ++ v) = len u + len v.
Proof. unfold len. rewrite length_app. lia. Qed.

Lemma len_cons (x : ascii) (v : text) : len (x :: v) = 1 + len v.
Proof. unfold len. cbn [length]. lia. Qed.

Lemma getc_middle (pre : text) (x : ascii) (post : text) :
  getc (pre ++ x :: post) (len pre) = Ok x.
Proof.
  rewrite getc_in_range.
  - unfold len. rewrite Nat2Z.id, nth_middle. reflexivity.
  - rewrite len_app, len_cons.
    pose proof (len_nonneg pre). pose proof (len_nonneg post). lia.
Qed.

Lemma pair_facts (o c : ascii) :
  In ([o], c) bracket_pairs ->
  is_bracket o = true /\ str_in [o] open_brackets = true /\
  lookup bracket_pairs [o] = Ok c /\
  is_bracket c = true /\ str_in [c] open_brackets = false /\
  str_in [c] close_brackets = true /\ lookup reverse_pairs [c] = Ok o /\
  ch_eqb c o = false /\ ch_eqb o c = false.
Proof.
  intros [E|[E|[E|[]]]]; injection E as <- <-; repeat split; reflexivity.
Qed.

Lemma not_bracket_pair (x o c : ascii) :
  In ([o], c) bracket_pairs -> is_bracket x = false ->
  ch_eqb x o = false /\ ch_eqb x c = false.
Proof.
  intros Hp Hx.
  assert (forall y, is_bracket y = true -> ch_eqb x y = false) as H.
  { intros y Hy. destruct (ch_eqb x y) eqn:E; [|reflexivity].
    apply ch_eqb_eq in E. subst y. congruence. }
  destruct (pair_facts o c Hp) as (Ho & _ & _ & Hc & _). auto.
Qed.

(** Characters that are neither the bracket nor its partner leave the
    counter alone. *)
Lemma forward_skip (o c : ascii) (b : text) :
  forall (pre post : text) (cnt : Z) (fuel : nat),
    Forall (fun x => ch_eqb x o = false /\ ch_eqb x c = false) b ->
    while (R := Z) (length b + fuel) (search_cond_forward (pre ++ b ++ post))
      (search_body (pre ++ b ++ post) [o] c 1)
      {| count := cnt; search_pos := len pre |}
    = while fuel (search_cond_forward (pre ++ b ++ post))
        (search_body (pre ++ b ++ post) [o] c 1)
        {| count := cnt; search_pos := len pre + len b |}.
Proof.
  induction b as [|x b IH]; intros pre post cnt fuel Hb.
  - cbn [length Nat.add]. f_equal. f_equal. change (len []) with 0. lia.
  - inversion Hb as [|? ? [Hxo Hxc] Hb']; subst.
    cbn [length Nat.add while]. unfold search_cond_forward at 1.
    cbn [bind search_pos].
    assert ((len pre <? len (pre ++ (x :: b) ++ post)) = true) as ->.
    { rewrite !len_app, len_cons.
      pose proof (len_nonneg b). pose proof (len_nonneg post). lia. }
    unfold search_body at 1. cbn [search_pos count app].
    rewrite getc_middle. cbn [bind text_eqb]. rewrite Hxo, Hxc. cbn [andb].
    replace (pre ++ x :: b ++ post) with ((pre ++ [x]) ++ b ++ post)
      by (rewrite <- app_assoc; reflexivity).
    replace (len pre + 1) with (len (pre ++ [x]))
      by (rewrite len_app, len_cons; change (len []) with 0; lia).
    cbn [bind]. rewrite IH by assumption. f_equal. f_equal.
    rewrite len_app, !len_cons. change (len []) with 0. lia.
Qed.

Lemma forward_none (o c : ascii) (b : text) :
  forall (pre : text) (cnt : Z) (fuel : nat),
    Forall (fun x => ch_eqb x c = false) b ->
    (length b < fuel)%nat ->
    exists st,
      while (R := Z) fuel (search_cond_forward (pre ++ b))
        (search_body (pre ++ b) [o] c 1)
        {| count := cnt; search_pos := len pre |}
      = Ok (inl st).
Proof.
  induction b as [|x b IH]; intros pre cnt fuel Hb Hfuel.
  - destruct fuel as [|fuel]; [cbn in Hfuel; lia|].
    cbn [while]. unfold search_cond_forward. cbn [bind search_pos].
    rewrite app_nil_r, Z.ltb_irrefl. eauto.
  - inversion Hb as [|? ? Hxc Hb']; subst.
    destruct fuel as [|fuel]; [cbn in Hfuel; lia|].
    cbn [while]. unfold search_cond_forward at 1. cbn [bind search_pos].
    assert ((len pre <? len (pre ++ x :: b)) = true) as ->.
    { rewrite len_app, len_cons. pose proof (len_nonneg b). lia. }
    unfold search_body at 1. cbn [search_pos count].
    rewrite getc_middle. cbn [bind text_eqb]. rewrite Hxc.
    replace (pre ++ x :: b) with ((pre ++ [x]) ++ b)
      by (rewrite <- app_assoc; reflexivity).
    replace (len pre + 1) with (len (pre ++ [x]))
      by (rewrite len_app, len_cons; change (len []) with 0; lia).
    cbn [length] in Hfuel.
    destruct (ch_eqb x o && true); cbn [bind]; apply IH; auto; lia.
Qed.

Lemma backward_skip (o c : ascii) (b : text) :
  forall (pre post : text) (cnt : Z) (fuel : nat),
    Forall (fun x => ch_eqb x o = false /\ ch_eqb x c = false) b ->
    while (R := Z) (length b + fuel) search_cond_backward
      (search_body (pre ++ b ++ post) [c] o (-1))
      {| count := cnt; search_pos := len pre + len b - 1 |}
    = while fuel search_cond_backward
        (search_body (pre ++ b ++ post) [c] o (-1))
        {| count := cnt; search_pos := len pre - 1 |}.
Proof.
  induction b as [|x b IH] using rev_ind; intros pre post cnt fuel Hb.
  - cbn [length Nat.add]. f_equal. f_equal. change (len []) with 0. lia.
  - apply Forall_app in Hb as [Hb' Hx].
    inversion Hx as [|? ? [Hxo Hxc] _]; subst.
    rewrite length_app. cbn [length].
    replace (length b + 1 + fuel)%nat with (Datatypes.S (length b + fuel))
      by lia.
    cbn [while]. unfold search_cond_backward at 1. cbn [bind search_pos].
    assert ((len pre + len (b ++ [x]) - 1 >=? 0) = true) as ->.
    { rewrite len_app, len_cons. change (len []) with 0.
      pose proof (len_nonneg b). pose proof (len_nonneg pre). lia. }
    unfold search_body at 1. cbn [search_pos count].
    replace (len pre + len (b ++ [x]) - 1) with (len (pre ++ b))
      by (rewrite !len_app, len_cons; change (len []) with 0; lia).
    replace (pre ++ (b ++ [x]) ++ post) with ((pre ++ b) ++ x :: post)
      by (rewrite <- !app_assoc; reflexivity).
    rewrite getc_middle. cbn [bind text_eqb]. rewrite Hxo, Hxc.
    cbn [andb bind].
    replace ((pre ++ b) ++ x :: post) with (pre ++ b ++ x :: post)
      by (rewrite <- !app_assoc; reflexivity).
    replace (len (pre ++ b) + -1) with (len pre + len b - 1)
      by (rewrite len_app; lia).
    apply IH; assumption.
Qed.

Lemma no_bracket_pair (o c : ascii) (b : text) :
  In ([o], c) bracket_pairs -> no_bracket b ->
  Forall (fun x => ch_eqb x o = false /\ ch_eqb x c = false) b.
Proof.
  intros Hp Hb. eapply Forall_impl; [|exact Hb].
  intros x Hx. apply (not_bracket_pair x o c Hp Hx).
Qed.

Lemma fuel_split (a b d : text) (x y : ascii) :
  exists k, fuel_of (a ++ x :: b ++ y :: d)
            = (length b + Datatypes.S (Datatypes.S k))%nat.
Proof.
  exists (fuel_of (a ++ x :: b ++ y :: d) - length b - 2)%nat.
  unfold fuel_of. repeat (rewrite length_app; cbn [length]). lia.
Qed.

(** From the opener of the pair the search reaches its closer. *)
Lemma find_closer_of_pair (a b d : text) (o c : ascii) :
  In ([o], c) bracket_pairs -> no_bracket b ->
  find_matching_bracket (a ++ o :: b ++ c :: d) (len a) [o]
    open_brackets close_brackets bracket_pairs reverse_pairs
  = Ok (Some (len a + 1 + len b)).
Proof.
  intros Hp Hb.
  destruct (pair_facts o c Hp) as (Ho & Hoo & Hl & Hc & _ & _ & _ & Hco & _).
  unfold find_matching_bracket. unfold is_bracket in Ho.
  rewrite Ho, Hoo, Hl. cbn [is_nil negb orb bind].
  destruct (fuel_split a b d o c) as (k & ->).
  change (fun st : search_state =>
            Ok (search_pos st <? len (a ++ o :: b ++ c :: d)))
    with (search_cond_forward (a ++ o :: b ++ c :: d)).
  replace (a ++ o :: b ++ c :: d) with ((a ++ [o]) ++ b ++ c :: d)
    by (rewrite <- app_assoc; reflexivity).
  replace (len a + 1) with (len (a ++ [o]))
    by (rewrite len_app, len_cons; change (len []) with 0; lia).
  rewrite forward_skip by (apply no_bracket_pair; assumption).
  cbn [while]. unfold search_cond_forward at 1. cbn [bind search_pos].
  assert ((len (a ++ [o]) + len b <? len ((a ++ [o]) ++ b ++ c :: d)) = true)
    as ->.
  { rewrite !len_app, !len_cons. pose proof (len_nonneg d). lia. }
  unfold search_body at 1. cbn [search_pos count].
  replace (len (a ++ [o]) + len b) with (len ((a ++ [o]) ++ b))
    by (rewrite !len_app; reflexivity).
  replace ((a ++ [o]) ++ b ++ c :: d) with (((a ++ [o]) ++ b) ++ c :: d)
    by (rewrite <- !app_assoc; reflexivity).
  rewrite getc_middle. cbn [bind text_eqb]. rewrite Hco.
  unfold ch_eqb at 1. rewrite Ascii.eqb_refl. cbn [andb].
  change (1 - 1 =? 0) with true. cbn [bind]. reflexivity.
Qed.

(** From the closer of the pair the search reaches its opener. *)
Lemma find_opener_of_pair (a b d : text) (o c : ascii) :
  In ([o], c) bracket_pairs -> no_bracket b ->
  find_matching_bracket (a ++ o :: b ++ c :: d) (len a + 1 + len b) [c]
    open_brackets close_brackets bracket_pairs reverse_pairs
  = Ok (Some (len a)).
Proof.
  intros Hp Hb.
  destruct (pair_facts o c Hp)
    as (_ & _ & _ & Hc & Hco & Hcc & Hl & _ & Hoc).
  unfold find_matching_bracket. unfold is_bracket in Hc.
  rewrite Hc, Hco, Hcc, Hl. cbn [is_nil negb orb bind].
  destruct (fuel_split a b d o c) as (k & ->).
  change (fun st : search_state => Ok (search_pos st >=? 0))
    with search_cond_backward.
  replace (a ++ o :: b ++ c :: d) with ((a ++ [o]) ++ b ++ c :: d)
    by (rewrite <- app_assoc; reflexivity).
  replace (len a + 1 + len b - 1) with (len (a ++ [o]) + len b - 1)
    by (rewrite len_app, len_cons; change (len []) with 0; lia).
  rewrite backward_skip by (apply no_bracket_pair; assumption).
  cbn [while]. unfold search_cond_backward at 1. cbn [bind search_pos].
  assert ((len (a ++ [o]) - 1 >=? 0) = true) as ->.
  { rewrite len_app, len_cons. change (len []) with 0.
    pose proof (len_nonneg a). lia. }
  unfold search_body at 1. cbn [search_pos count].
  replace (len (a ++ [o]) - 1) with (len a)
    by (rewrite len_app, len_cons; change (len []) with 0; lia).
  replace ((a ++ [o]) ++ b ++ c :: d) with (a ++ o :: b ++ c :: d)
    by (rewrite <- app_assoc; reflexivity).
  rewrite getc_middle. cbn [bind text_eqb]. rewrite Hoc.
  unfold ch_eqb at 1. rewrite Ascii.eqb_refl. cbn [andb].
  change (1 - 1 =? 0) with true. cbn [bind]. reflexivity.
Qed.

Lemma count_char_zero (q : ascii) (s : text) :
  count_char q s = 0 -> Forall (fun x => ch_eqb x q = false) s.
Proof.
  assert (forall s, 0 <= count_char q s) as Hpos.
  { intros l. induction l as [|x l IH]; cbn; [lia|].
    destruct (ch_eqb x q); lia. }
  induction s as [|x s IH]; [constructor|]. cbn [count_char].
  intros H. pose proof (Hpos s).
  destruct (ch_eqb x q) eqn:E; [lia|]. constructor; [exact E|].
  apply IH. lia.
Qed.

(** An opener with no closer of its type after it has no partner. *)
Lemma find_closer_of_lone (u v : text) (p q : ascii) :
  In ([p], q) bracket_pairs -> count_char q v = 0 ->
  find_matching_bracket (u ++ p :: v) (len u) [p]
    open_brackets close_brackets bracket_pairs reverse_pairs
  = Ok None.
Proof.
  intros Hp Hv.
  destruct (pair_facts p q Hp) as (Ho & Hoo & Hl & _).
  unfold find_matching_bracket. unfold is_bracket in Ho.
  rewrite Ho, Hoo, Hl. cbn [is_nil negb orb bind].
  change (fun st : search_state => Ok (search_pos st <? len (u ++ p :: v)))
    with (search_cond_forward (u ++ p :: v)).
  replace (u ++ p :: v) with ((u ++ [p]) ++ v)
    by (rewrite <- app_assoc; reflexivity).
  replace (len u + 1) with (len (u ++ [p]))
    by (rewrite len_app, len_cons; change (len []) with 0; lia).
  destruct (forward_none p q v (u ++ [p]) 1 (fuel_of ((u ++ [p]) ++ v)))
    as (st & ->); [apply count_char_zero, Hv| |reflexivity].
  unfold fuel_of. rewrite !length_app. lia.
Qed.

(** With a bracket before the cursor, that bracket is the one examined. *)
Lemma bracket_before_cursor (t : text) (pos : Z) (x : ascii) :
  0 < pos <= len t -> getc t (pos - 1) = Ok x -> is_bracket x = true ->
  get_cursor_bracket_selections t pos = report t (pos - 1) [x].
Proof.
  intros Hpos Hx Hb. unfold get_cursor_bracket_selections, report.
  assert (exists s, (if pos <? len t then c <- getc t pos ;; Ok [c]
                     else Ok []) = Ok s) as (s & ->).
  { destruct (pos <? len t) eqn:E; [|eauto].
    rewrite getc_in_range by lia. cbn [bind]. eauto. }
  cbn [bind]. assert ((pos >? 0) = true) as -> by lia.
  rewrite Hx. cbn [bind]. unfold is_bracket in Hb. rewrite Hb.
  reflexivity.
Qed.

(** With no bracket before the cursor, the bracket at the cursor is. *)
Lemma bracket_at_cursor (t : text) (pos : Z) (y x : ascii) :
  0 < pos < len t -> getc t (pos - 1) = Ok y -> is_bracket y = false ->
  getc t pos = Ok x -> is_bracket x = true ->
  get_cursor_bracket_selections t pos = report t pos [x].
Proof.
  intros Hpos Hy Hyb Hx Hxb. unfold get_cursor_bracket_selections, report.
  assert ((pos <? len t) = true) as -> by lia.
  assert ((pos >? 0) = true) as -> by lia.
  rewrite Hx, Hy. cbn [bind]. unfold is_bracket in Hyb, Hxb.
  rewrite Hyb, Hxb. reflexivity.
Qed.

Lemma getc_before_middle (pre : text) (y x : ascii) (post : text) :
  getc ((pre ++ [y]) ++ x :: post) (len (pre ++ [y]) - 1) = Ok y.
Proof.
  replace (len (pre ++ [y]) - 1) with (len pre)
    by (rewrite len_app, len_cons; change (len []) with 0; lia).
  rewrite <- app_assoc. apply getc_middle.
Qed.

(** C5 (as amended): in a text whose only brackets are one opener and its
    closer, the matcher reports the pair, as two spans of length 1, both
    matched, from the cursor just after the opener, from the cursor on the
    opener when a character precedes it, and from the cursor on or just
    after the closer: the same two positions each time.  In a text with an
    opener that no closer of its type follows, the matcher reports that
    opener alone, as one unmatched span of length 1, from the cursor just
    after it, and from the cursor on it when the character before it is
    not a bracket. *)
Theorem bracket_matcher_sides (a b d : text) (o c : ascii)
        (u v : text) (p q : ascii) :
  In ([o], c) bracket_pairs ->
  no_bracket a -> no_bracket b -> no_bracket d ->
  In ([p], q) bracket_pairs -> count_char q v = 0 ->
  let t := a ++ o :: b ++ c :: d in
  let i := len a in
  let j := len a + 1 + len b in
  let w := u ++ p :: v in
  let k := len u in
  let pair_from_opener :=
    [bracket_selection i orange_format; bracket_selection j orange_format] in
  let pair_from_closer :=
    [bracket_selection j orange_format; bracket_selection i orange_format] in
  get_cursor_bracket_selections t (i + 1) = Ok pair_from_opener /\
  (a <> [] -> get_cursor_bracket_selections t i = Ok pair_from_opener) /\
  get_cursor_bracket_selections t (j + 1) = Ok pair_from_closer /\
  get_cursor_bracket_selections t j
  = Ok (if is_nil b then pair_from_opener else pair_from_closer) /\
  get_cursor_bracket_selections w (k + 1)
  = Ok [bracket_selection k red_format] /\
  (forall u' y, u = u' ++ [y] -> is_bracket y = false ->
                get_cursor_bracket_selections w k
                = Ok [bracket_selection k red_format]) /\
  sel_class (bracket_selection i orange_format) = matched /\
  sel_class (bracket_selection k red_format) = unmatched.
Proof.
  intros Hp Ha Hb Hd Hq Hv t i j w k pair_from_opener pair_from_closer.
  destruct (pair_facts o c Hp) as (Ho & _ & _ & Hc & _).
  destruct (pair_facts p q Hq) as (Hpb & _).
  pose proof (len_nonneg a) as La. pose proof (len_nonneg b) as Lb.
  pose proof (len_nonneg d) as Ld. pose proof (len_nonneg u) as Lu.
  pose proof (len_nonneg v) as Lv.
  assert (len t = len a + 1 + len b + 1 + len d) as Lt.
  { subst t. rewrite len_app, len_cons, len_app, len_cons. lia. }
  assert (len w = len u + 1 + len v) as Lw.
  { subst w. rewrite len_app, len_cons. lia. }
  assert (report t i [o] = Ok pair_from_opener) as Ropen.
  { unfold report. subst t i. rewrite find_closer_of_pair by assumption.
    reflexivity. }
  assert (report t j [c] = Ok pair_from_closer) as Rclose.
  { unfold report. subst t j. rewrite find_opener_of_pair by assumption.
    reflexivity. }
  assert (report w k [p] = Ok [bracket_selection k red_format]) as Rlone.
  { unfold report. subst w k.
    rewrite (find_closer_of_lone u v p q) by assumption.
    reflexivity. }
  assert (getc t i = Ok o) as Gi by apply getc_middle.
  assert (getc t j = Ok c) as Gj.
  { subst t j. replace (len a + 1 + len b) with (len ((a ++ [o]) ++ b))
      by (rewrite !len_app, len_cons; change (len []) with 0; lia).
    replace (a ++ o :: b ++ c :: d) with (((a ++ [o]) ++ b) ++ c :: d)
      by (rewrite <- !app_assoc; reflexivity).
    apply getc_middle. }
  assert (getc w k = Ok p) as Gk by apply getc_middle.
  repeat match goal with |- _ /\ _ => split end; try reflexivity.
  - rewrite (bracket_before_cursor t (i + 1) o);
      replace (i + 1 - 1) with i by lia; auto. lia.
  - intros Hne.
    destruct (exists_last Hne) as (a' & y & Ea).
    assert (is_bracket y = false) as Hy.
    { rewrite Ea in Ha. apply Forall_app in Ha as [_ Ha].
      inversion Ha; auto. }
    rewrite (bracket_at_cursor t i y o); auto.
    + assert (0 < i).
      { subst i. rewrite Ea, len_app, len_cons. change (len []) with 0.
        pose proof (len_nonneg a'). lia. }
      lia.
    + subst t i. rewrite Ea. apply getc_before_middle.
  - rewrite (bracket_before_cursor t (j + 1) c);
      replace (j + 1 - 1) with j by lia; auto. lia.
  - destruct (is_nil b) eqn:Eb.
    + assert (j = i + 1) as Ej.
      { destruct b; [|discriminate]. subst j i. change (len []) with 0.
        lia. }
      rewrite Ej. rewrite (bracket_before_cursor t (i + 1) o);
        replace (i + 1 - 1) with i by lia; auto. lia.
    + assert (b <> []) as Hne by (intros ->; discriminate).
      destruct (exists_last Hne) as (b'' & y & Eb').
      assert (is_bracket y = false) as Hy.
      { rewrite Eb' in Hb. apply Forall_app in Hb as [_ Hb].
        inversion Hb; auto. }
      assert (0 < len b).
      { rewrite Eb', len_app, len_cons. change (len []) with 0.
        pose proof (len_nonneg b''). lia. }
      rewrite (bracket_at_cursor t j y c); auto; [lia|].
      subst t j. rewrite Eb'.
      replace (a ++ o :: (b'' ++ [y]) ++ c :: d)
        with (((a ++ o :: b'') ++ [y]) ++ c :: d)
        by (rewrite <- !app_assoc; reflexivity).
      replace (len a + 1 + len (b'' ++ [y]))
        with (len ((a ++ o :: b'') ++ [y]))
        by (rewrite !len_app, !len_cons; change (len []) with 0; lia).
      apply getc_before_middle.
  - rewrite (bracket_before_cursor w (k + 1) p);
      replace (k + 1 - 1) with k by lia; auto. lia.
  - intros u' y Eu Hy.
    rewrite (bracket_at_cursor w k y p); auto.
    + assert (0 < k).
      { subst k. rewrite Eu, len_app, len_cons. change (len []) with 0.
        pose proof (len_nonneg u'). lia. }
      lia.
    + subst w k. rewrite Eu. apply getc_before_middle.
Qed.

Lemma no_bracket_check (s : text) :
  forallb (fun x => negb (is_bracket x)) s = true -> no_bracket s.
Proof.
  intros H. apply Forall_forall. intros x Hx.
  rewrite forallb_forall in H. apply negb_true_iff, H, Hx.
Qed.

Lemma bracket_matcher_sides_witness :
  In ([open_paren], close_paren) bracket_pairs /\
  no_bracket (lit "f") /\ no_bracket (lit "x") /\ no_bracket (lit " + 1") /\
  In (["["%char], "]"%char) bracket_pairs /\
  count_char "]"%char (lit "0") = 0 /\
  let t := lit "f" ++ open_paren :: lit "x" ++ close_paren :: lit " + 1" in
  let i := len (lit "f") in
  let j := len (lit "f") + 1 + len (lit "x") in
  let w := lit "xs" ++ "["%char :: lit "0" in
  let k := len (lit "xs") in
  let pair_from_opener :=
    [bracket_selection i orange_format; bracket_selection j orange_format] in
  let pair_from_closer :=
    [bracket_selection j orange_format; bracket_selection i orange_format] in
  get_cursor_bracket_selections t (i + 1) = Ok pair_from_opener /\
  (lit "f" <> [] -> get_cursor_bracket_selections t i = Ok pair_from_opener) /\
  get_cursor_bracket_selections t (j + 1) = Ok pair_from_closer /\
  get_cursor_bracket_selections t j
  = Ok (if is_nil (lit "x") then pair_from_opener else pair_from_closer) /\
  get_cursor_bracket_selections w (k + 1)
  = Ok [bracket_selection k red_format] /\
  (forall u' y, lit "xs" = u' ++ [y] -> is_bracket y = false ->
                get_cursor_bracket_selections w k
                = Ok [bracket_selection k red_format]) /\
  sel_class (bracket_selection i orange_format) = matched /\
  sel_class (bracket_selection k red_format) = unmatched.
Proof.
  split; [left; reflexivity|].
  split; [apply no_bracket_check; reflexivity|].
  split; [apply no_bracket_check; reflexivity|].
  split; [apply no_bracket_check; reflexivity|].
  split; [right; left; reflexivity|].
  split; [reflexivity|].
  apply (bracket_matcher_sides (lit "f") (lit "x") (lit " + 1")
           open_paren close_paren (lit "xs") (lit "0") "["%char "]"%char).
  - left; reflexivity.
  - apply no_bracket_check; reflexivity.
  - apply no_bracket_check; reflexivity.
  - apply no_bracket_check; reflexivity.
  - right; left; reflexivity.
  - reflexivity.
Defined.

(** C5 as stated fails: in the text [[](] the opener ["("] has no closer
    at all, but with the cursor on it the character before the cursor is a
    bracket and is the one examined, so the pair [[]] is reported, matched,
    and the lone opener is not. *)
Lemma bracket_before_cursor_wins :
  ~ (forall (u v : text) (p q : ascii),
       u <> [] -> In ([p], q) bracket_pairs ->
       count_char q (u ++ p :: v) = 0 ->
       get_cursor_bracket_selections (u ++ p :: v) (len u)
       = Ok [bracket_selection (len u) red_format]).
Proof.
  intros H.
  specialize (H (lit "[]") [] open_paren close_paren).
  assert (get_cursor_bracket_selections (lit "[](") 2
          = Ok [bracket_selection 1 orange_format;
                bracket_selection 0 orange_format]) as E
      by (vm_compute; reflexivity).
  assert (get_cursor_bracket_selections (lit "[](") 2
          = Ok [bracket_selection 2 red_format]) as F.
  { apply H; [discriminate|left; reflexivity|reflexivity]. }
  rewrite E in F. discriminate F.
Qed.

(* ================================================================== *)
(** * Further properties *)

(** ** Lists and lines *)

Lemma getitem_in_range {A} (l : list A) (i : Z) (d : A) :
  0 <= i < Z.of_nat (length l) -> getitem l i = Ok (nth (Z.to_nat i) l d).
Proof.
  intros H. unfold getitem.
  replace (i <? 0) with false by (symmetry; apply Z.ltb_ge; lia).
  replace (0 <=? i) with true by (symmetry; apply Z.leb_le; lia).
  replace (i <? Z.of_nat (length l)) with true
    by (symmetry; apply Z.ltb_lt; lia).
  cbn [andb].
  destruct (nth_error l (Z.to_nat i)) as [a|] eqn:E.
  - apply (nth_error_nth l _ d) in E. rewrite E. reflexivity.
  - apply nth_error_None in E. lia.
Qed.

Lemma getitem_last {A} (l : list A) (x : A) : getitem (l ++ [x]) (-1) = Ok x.
Proof.
  unfold getitem. rewrite length_app. cbn [length].
  replace (-1 <? 0) with true by reflexivity.
  replace (0 <=? -1 + Z.of_nat (length l + 1)) with true
    by (symmetry; apply Z.leb_le; lia).
  replace (-1 + Z.of_nat (length l + 1) <? Z.of_nat (length l + 1)) with true
    by (symmetry; apply Z.ltb_lt; lia).
  cbn [andb].
  replace (Z.to_nat (-1 + Z.of_nat (length l + 1))) with (length l) by lia.
  rewrite nth_error_app2 by lia. rewrite Nat.sub_diag. reflexivity.
Qed.

Lemma split_on_nonempty (sep : ascii) (t : text) : split_on sep t <> [].
Proof.
  destruct t as [|c t]; cbn [split_on]; [discriminate|].
  destruct (ch_eqb c sep); [discriminate|].
  destruct (split_on sep t); discriminate.
Qed.

Lemma split_on_no_sep (sep : ascii) (t : text) :
  Forall (fun l => char_in sep l = false) (split_on sep t).
Proof.
  induction t as [|c t IH]; cbn [split_on].
  - constructor; [reflexivity|constructor].
  - destruct (ch_eqb c sep) eqn:E.
    + constructor; [reflexivity|exact IH].
    + destruct (split_on sep t) as [|l ls].
      * constructor; [|constructor]. cbn. rewrite ch_eqb_sym, E. reflexivity.
      * inversion IH as [|? ? Hl Hls]; subst. constructor; [|exact Hls].
        cbn. cbn in Hl. rewrite ch_eqb_sym, E. exact Hl.
Qed.

Lemma join_step (sep l : text) (ls : list text) :
  ls <> [] -> join sep (l :: ls) = l ++ sep ++ join sep ls.
Proof. destruct ls; [contradiction|reflexivity]. Qed.

Lemma join_split_on (sep : ascii) (t : text) : join [sep] (split_on sep t) = t.
Proof.
  induction t as [|c t IH]; cbn [split_on]; [reflexivity|].
  pose proof (split_on_nonempty sep t) as Hne.
  destruct (ch_eqb c sep) eqn:E.
  - apply ch_eqb_eq in E. subst c.
    rewrite join_step by exact Hne. rewrite IH. reflexivity.
  - destruct (split_on sep t) as [|l ls]; [contradiction|].
    destruct ls as [|l2 ls].
    + cbn [join] in *. rewrite IH. reflexivity.
    + rewrite join_step by discriminate.
      rewrite join_step in IH by discriminate.
      rewrite <- app_comm_cons. rewrite IH. reflexivity.
Qed.

Lemma split_on_free (sep : ascii) (l : text) :
  char_in sep l = false -> split_on sep l = [l].
Proof.
  induction l as [|c l IH]; intros H; cbn [split_on]; [reflexivity|].
  cbn in H. apply orb_false_iff in H as [H1 H2].
  rewrite ch_eqb_sym, H1. rewrite (IH H2). reflexivity.
Qed.

Lemma split_on_app (sep : ascii) (l : text) (t : text) :
  char_in sep l = false ->
  split_on sep (l ++ sep :: t) = l :: split_on sep t.
Proof.
  induction l as [|c l IH]; intros H; cbn [split_on app].
  - rewrite (proj2 (ch_eqb_eq sep sep) eq_refl). reflexivity.
  - cbn in H. apply orb_false_iff in H as [H1 H2].
    rewrite ch_eqb_sym, H1. rewrite (IH H2). reflexivity.
Qed.

Lemma split_on_join (sep : ascii) (ls : list text) :
  ls <> [] -> Forall (fun l => char_in sep l = false) ls ->
  split_on sep (join [sep] ls) = ls.
Proof.
  induction ls as [|l ls IH]; intros Hne H; [contradiction|].
  inversion H as [|? ? Hl Hls]; subst.
  destruct ls as [|l2 ls].
  - cbn [join]. apply split_on_free. exact Hl.
  - change (join [sep] (l :: l2 :: ls))
      with (l ++ sep :: join [sep] (l2 :: ls)).
    rewrite split_on_app by exact Hl.
    rewrite IH; [reflexivity|discriminate|exact Hls].
Qed.

(** ** Removing the result lines *)

Lemma text_eqb_nil (s : text) : text_eqb s [] = is_nil s.
Proof. destruct s; reflexivity. Qed.

Lemma keep_one_blank_squeeze (ls : list text) :
  forall st,
    kept_lines (fold_left keep_one_blank ls st)
    = kept_lines st ++ squeeze (prev_blank st) ls.
Proof.
  induction ls as [|l ls IH]; intros st; cbn [fold_left squeeze].
  - rewrite app_nil_r. reflexivity.
  - rewrite IH. unfold keep_one_blank, blank_line. rewrite text_eqb_nil.
    destruct (is_nil (strip l) && prev_blank st) eqn:E.
    + reflexivity.
    + cbn [kept_lines prev_blank]. rewrite <- app_assoc. reflexivity.
Qed.

Lemma keep_max_one_blank_squeeze (ls : list text) :
  forall st,
    kept_lines (fold_left keep_max_one_blank ls st)
    = kept_lines st ++ squeeze (prev_blank st) ls.
Proof.
  induction ls as [|l ls IH]; intros st; cbn [fold_left squeeze].
  - rewrite app_nil_r. reflexivity.
  - rewrite IH. unfold keep_max_one_blank, blank_line.
    destruct (is_nil (strip l) && prev_blank st) eqn:E.
    + reflexivity.
    + cbn [kept_lines prev_blank]. rewrite <- app_assoc. reflexivity.
Qed.

Lemma trim_blank_tail_snoc (ls : list text) (x : text) :
  trim_blank_tail (ls ++ [x])
  = if blank_line x then trim_blank_tail ls else ls ++ [x].
Proof.
  induction ls as [|a ls IH]; cbn [app trim_blank_tail].
  - destruct (blank_line x); reflexivity.
  - rewrite IH. destruct (blank_line x); [reflexivity|].
    destruct (ls ++ [x]) eqn:E; [|reflexivity].
    destruct ls; discriminate E.
Qed.

Lemma pop_loop (ls : list text) :
  forall fuel, (length ls < fuel)%nat ->
  while (R := Empty_set) fuel
    (fun ls => if is_empty ls then Ok false
               else l <- getitem ls (-1) ;; Ok (text_eqb (strip l) []))
    (fun ls => Ok (Next (removelast ls)))
    ls
  = Ok (inl (trim_blank_tail ls)).
Proof.
  induction ls as [|x ls IH] using rev_ind; intros fuel Hf.
  - destruct fuel; [lia|]. reflexivity.
  - destruct fuel; [rewrite length_app in Hf; cbn in Hf; lia|].
    cbn [while].
    replace (is_empty (ls ++ [x])) with false by (destruct ls; reflexivity).
    rewrite getitem_last. cbn [bind]. rewrite text_eqb_nil.
    rewrite trim_blank_tail_snoc. unfold blank_line.
    destruct (is_nil (strip x)).
    + rewrite removelast_last. apply IH.
      rewrite length_app in Hf. cbn in Hf. lia.
    + reflexivity.
Qed.

Lemma pop_trailing_blank_trim (ls : list text) :
  pop_trailing_blank ls = Ok (trim_blank_tail ls).
Proof.
  unfold pop_trailing_blank. rewrite pop_loop by lia. reflexivity.
Qed.

(** The text [remove_results] computes, as one expression. *)
Lemma remove_results_text_eq (t : text) :
  remove_results_text t
  = Ok (join [nl]
          (trim_blank_tail
             (squeeze false
                (filter (fun l => negb (result_line l)) (lines_of t))))).
Proof.
  unfold remove_results_text. rewrite keep_one_blank_squeeze.
  cbn [kept_lines prev_blank app]. rewrite pop_trailing_blank_trim.
  reflexivity.
Qed.

Lemma starts_with_result_any (s : text) :
  startswith_any s result_prefixes = starts_with_result s.
Proof.
  unfold startswith_any, result_prefixes, starts_with_result.
  cbn [existsb].
  destruct (startswith s (lit "A:")), (startswith s (lit "T:")),
    (startswith s (lit "E:")), (startswith s (lit "I:")); reflexivity.
Qed.

Lemma cleaned_text_eq (t : text) :
  cleaned_text t
  = join [nl]
      (squeeze false (filter (fun l => negb (result_line l)) (lines_of t))).
Proof.
  unfold cleaned_text. rewrite keep_max_one_blank_squeeze.
  cbn [kept_lines prev_blank app]. f_equal. f_equal.
  apply filter_ext. intros l. rewrite starts_with_result_any. reflexivity.
Qed.

(** Facts on [squeeze] and [trim_blank_tail]. *)

Lemma squeeze_incl (ls : list text) :
  forall prev l, In l (squeeze prev ls) -> In l ls.
Proof.
  induction ls as [|a ls IH]; intros prev l H; cbn [squeeze] in H; [exact H|].
  destruct (blank_line a && prev).
  - right. exact (IH _ _ H).
  - destruct H as [H|H]; [left; exact H|right; exact (IH _ _ H)].
Qed.

Lemma trim_blank_tail_incl (ls : list text) (l : text) :
  In l (trim_blank_tail ls) -> In l ls.
Proof.
  induction ls as [|a ls IH]; cbn [trim_blank_tail]; intros H; [exact H|].
  destruct (trim_blank_tail ls) as [|r rs].
  - destruct (blank_line a); [contradiction|].
    destruct H as [H|[]]. left. exact H.
  - destruct H as [H|H]; [left; exact H|right; exact (IH H)].
Qed.

Lemma squeeze_head (ls : list text) :
  blank_opt (hd_error (squeeze true ls)) = false.
Proof.
  induction ls as [|a ls IH]; cbn [squeeze]; [reflexivity|].
  rewrite andb_true_r. destruct (blank_line a) eqn:E; [exact IH|].
  cbn. exact E.
Qed.

Lemma squeeze_single (ls : list text) :
  forall prev, single_blanks (squeeze prev ls) = true.
Proof.
  induction ls as [|a ls IH]; intros prev; cbn [squeeze]; [reflexivity|].
  destruct (blank_line a && prev) eqn:E; [apply IH|].
  cbn [single_blanks]. rewrite IH, andb_true_r.
  destruct (blank_line a) eqn:B; [|reflexivity].
  rewrite squeeze_head. reflexivity.
Qed.

Lemma squeeze_fixed (ls : list text) :
  forall prev,
    single_blanks ls = true ->
    (prev = true -> blank_opt (hd_error ls) = false) ->
    squeeze prev ls = ls.
Proof.
  induction ls as [|a ls IH]; intros prev H Hp; [reflexivity|].
  cbn [squeeze]. cbn [single_blanks] in H.
  apply andb_true_iff in H as [H1 H2].
  replace (blank_line a && prev) with false.
  - f_equal. apply IH; [exact H2|]. intros E. rewrite E in H1.
    cbn in H1. destruct (blank_opt (hd_error ls)); [discriminate|reflexivity].
  - destruct prev; [|rewrite andb_false_r; reflexivity].
    cbn in Hp. rewrite (Hp eq_refl). reflexivity.
Qed.

Lemma trim_blank_tail_fixed (ls : list text) (x : text) :
  blank_line x = false -> trim_blank_tail (ls ++ [x]) = ls ++ [x].
Proof. intros H. rewrite trim_blank_tail_snoc, H. reflexivity. Qed.

(** What is left once the blank lines at the end are gone: nothing, or
    lines the last of which is not blank. *)
Lemma trim_blank_tail_last (ls : list text) :
  trim_blank_tail ls = [] \/
  exists r x, trim_blank_tail ls = r ++ [x] /\ blank_line x = false.
Proof.
  induction ls as [|x ls IH] using rev_ind; [left; reflexivity|].
  rewrite trim_blank_tail_snoc. destruct (blank_line x) eqn:E; [exact IH|].
  right. exists ls, x. auto.
Qed.

Lemma single_blanks_app (u v : list text) :
  single_blanks (u ++ v) = true -> single_blanks u = true.
Proof.
  induction u as [|a u IH]; intros H; [reflexivity|].
  cbn [app single_blanks] in *. apply andb_true_iff in H as [H1 H2].
  rewrite (IH H2), andb_true_r.
  destruct (blank_line a); [|reflexivity].
  destruct u as [|b u]; [reflexivity|exact H1].
Qed.

Lemma trim_blank_tail_prefix (ls : list text) :
  exists b, ls = trim_blank_tail ls ++ b /\
            Forall (fun l => blank_line l = true) b.
Proof.
  induction ls as [|x ls IH] using rev_ind.
  - exists []. split; [reflexivity|constructor].
  - rewrite trim_blank_tail_snoc. destruct (blank_line x) eqn:E.
    + destruct IH as (b & Hb & Hall). exists (b ++ [x]). split.
      * rewrite app_assoc, <- Hb. reflexivity.
      * apply Forall_app. split; [exact Hall|]. constructor; [exact E|constructor].
    + exists []. rewrite app_nil_r. split; [reflexivity|constructor].
Qed.

Lemma trim_blank_tail_single (ls : list text) :
  single_blanks ls = true -> single_blanks (trim_blank_tail ls) = true.
Proof.
  intros H. destruct (trim_blank_tail_prefix ls) as (b & Hb & _).
  rewrite Hb in H. apply (single_blanks_app _ _ H).
Qed.

Lemma filter_all (f : text -> bool) (ls : list text) :
  Forall (fun l => f l = true) ls -> filter f ls = ls.
Proof.
  induction 1 as [|l ls Hl _ IH]; [reflexivity|].
  cbn [filter]. rewrite Hl, IH. reflexivity.
Qed.

Lemma blank_not_result (l : text) : blank_line l = true -> result_line l = false.
Proof.
  unfold blank_line, result_line. destruct (strip l); [reflexivity|discriminate].
Qed.

(** The lines [remove_results] leaves. *)

Lemma clean_lines_spec (t : text) (l : text) :
  In l (clean_lines t) -> result_line l = false /\ char_in nl l = false.
Proof.
  intros H. apply squeeze_incl in H. apply filter_In in H as [H1 H2].
  split.
  - destruct (result_line l); [discriminate|reflexivity].
  - pose proof (split_on_no_sep nl t) as F.
    rewrite Forall_forall in F. exact (F l H1).
Qed.

Lemma remaining_lines_spec (t : text) (l : text) :
  In l (remaining_lines t) -> result_line l = false /\ char_in nl l = false.
Proof.
  intros H. apply trim_blank_tail_incl in H. exact (clean_lines_spec t l H).
Qed.

(** The lines of a text put together from lines: the same lines, or one
    empty line when there is no line. *)
Lemma lines_of_join (ls : list text) :
  Forall (fun l => char_in nl l = false) ls ->
  lines_of (join [nl] ls) = match ls with [] => [[]] | _ => ls end.
Proof.
  intros H. destruct ls as [|l ls]; [reflexivity|].
  apply split_on_join; [discriminate|exact H].
Qed.

Lemma remaining_no_nl (t : text) :
  Forall (fun l => char_in nl l = false) (remaining_lines t).
Proof.
  apply Forall_forall. intros l H. exact (proj2 (remaining_lines_spec t l H)).
Qed.

Lemma clean_no_nl (t : text) :
  Forall (fun l => char_in nl l = false) (clean_lines t).
Proof.
  apply Forall_forall. intros l H. exact (proj2 (clean_lines_spec t l H)).
Qed.

Lemma remove_results_text_lines (t : text) :
  remove_results_text t = Ok (join [nl] (remaining_lines t)).
Proof. apply remove_results_text_eq. Qed.

Lemma cleaned_text_lines (t : text) :
  cleaned_text t = join [nl] (clean_lines t).
Proof. apply cleaned_text_eq. Qed.

(** Lines that hold no result line, no two blank lines in a row and no
    blank line at the end are left as they are. *)
Lemma clean_lines_fixed (ls : list text) :
  ls <> [] ->
  Forall (fun l => char_in nl l = false) ls ->
  Forall (fun l => result_line l = false) ls ->
  single_blanks ls = true ->
  clean_lines (join [nl] ls) = ls.
Proof.
  intros Hne Hnl Hres Hsb. unfold clean_lines.
  rewrite lines_of_join by exact Hnl.
  destruct ls as [|l ls]; [contradiction|].
  rewrite filter_all.
  - apply squeeze_fixed; [exact Hsb|discriminate].
  - rewrite Forall_forall in *. intros x Hx. rewrite (Hres x Hx). reflexivity.
Qed.

Lemma clean_lines_empty : clean_lines [] = [[]].
Proof. reflexivity. Qed.

Lemma clean_lines_no_result (t : text) :
  Forall (fun l => result_line l = false) (clean_lines t).
Proof.
  apply Forall_forall. intros l H. exact (proj1 (clean_lines_spec t l H)).
Qed.

Lemma remaining_no_result (t : text) :
  Forall (fun l => result_line l = false) (remaining_lines t).
Proof.
  apply Forall_forall. intros l H. exact (proj1 (remaining_lines_spec t l H)).
Qed.

Lemma clean_lines_single (t : text) : single_blanks (clean_lines t) = true.
Proof. apply squeeze_single. Qed.

Lemma remaining_single (t : text) : single_blanks (remaining_lines t) = true.
Proof. apply trim_blank_tail_single, clean_lines_single. Qed.

Lemma trim_blank_tail_idem (ls : list text) :
  trim_blank_tail (trim_blank_tail ls) = trim_blank_tail ls.
Proof.
  destruct (trim_blank_tail_last ls) as [E|(r & x & E & Hx)]; rewrite E.
  - reflexivity.
  - apply trim_blank_tail_fixed. exact Hx.
Qed.

(** X1: Remove Results leaves no result line.  On a QnA tab the pane is
    given a text none of whose lines, stripped, starts with [A:], [T:],
    [E:] or [I:], and a cursor position within that text; on any other tab,
    or with no tab, the pane is left alone. *)
Theorem remove_results_no_result_line (t : text) (old_pos : Z) :
  (exists new_text,
      remove_results (Some (lit "qna")) t old_pos
      = Ok (Some (new_text, Z.min old_pos (len new_text))) /\
      remove_results_text t = Ok new_text /\
      Forall (fun l => starts_with_result (strip l) = false)
             (split_on nl new_text) /\
      Z.min old_pos (len new_text) <= len new_text) /\
  remove_results (Some (lit "sc")) t old_pos = Ok None /\
  remove_results None t old_pos = Ok None.
Proof.
  split; [|split; reflexivity].
  exists (join [nl] (remaining_lines t)).
  unfold remove_results. cbn [text_eqb lit list_ascii_of_string].
  change (negb (text_eqb (lit "qna") (lit "qna"))) with false. cbv iota.
  rewrite remove_results_text_lines. cbn [bind].
  split; [reflexivity|]. split; [reflexivity|]. split; [|lia].
  change (split_on nl) with lines_of.
  rewrite lines_of_join by apply remaining_no_nl.
  pose proof (remaining_no_result t) as H.
  destruct (remaining_lines t) as [|l ls]; [|exact H].
  constructor; [reflexivity|constructor].
Qed.

(** X2: the text Remove Results leaves has no two blank lines in a row
    and, unless it is empty, does not end with a blank line. *)
Theorem remove_results_blank_lines (t : text) :
  exists new_text,
    remove_results_text t = Ok new_text /\
    single_blanks (split_on nl new_text) = true /\
    (new_text <> [] ->
     blank_line (last (split_on nl new_text) []) = false).
Proof.
  exists (join [nl] (remaining_lines t)).
  rewrite remove_results_text_lines. split; [reflexivity|].
  change (split_on nl) with lines_of.
  rewrite lines_of_join by apply remaining_no_nl.
  pose proof (remaining_single t) as Hs.
  unfold remaining_lines in *.
  destruct (trim_blank_tail_last (clean_lines t)) as [E|(r & x & E & Hx)];
    rewrite E in *.
  - split; [reflexivity|]. intros H. contradiction H. reflexivity.
  - split.
    + destruct (r ++ [x]) eqn:F; [destruct r; discriminate F|exact Hs].
    + intros _. destruct (r ++ [x]) eqn:F; [destruct r; discriminate F|].
      rewrite <- F. rewrite last_last. exact Hx.
Qed.

(** X3: Remove Results is idempotent: applied to its own output it
    changes nothing. *)
Theorem remove_results_idempotent (t new_text : text) :
  remove_results_text t = Ok new_text ->
  remove_results_text new_text = Ok new_text.
Proof.
  rewrite remove_results_text_lines. intros E. injection E as <-.
  rewrite remove_results_text_lines. f_equal.
  destruct (remaining_lines t) as [|l ls] eqn:R; [reflexivity|].
  rewrite <- R. f_equal. unfold remaining_lines at 1.
  rewrite clean_lines_fixed.
  - apply trim_blank_tail_idem.
  - rewrite R. discriminate.
  - apply remaining_no_nl.
  - apply remaining_no_result.
  - apply remaining_single.
Qed.

Lemma remove_results_idempotent_witness :
  remove_results_text (lit "Q: 1" ++ nl :: lit "A: 1" ++ [nl])
  = Ok (lit "Q: 1") /\
  remove_results_text (lit "Q: 1") = Ok (lit "Q: 1").
Proof.
  split; [vm_compute; reflexivity|].
  apply (remove_results_idempotent (lit "Q: 1" ++ nl :: lit "A: 1" ++ [nl])).
  vm_compute. reflexivity.
Defined.

Lemma filter_squeeze (ls : list text) :
  forall prev,
    filter (fun l => negb (blank_line l)) (squeeze prev ls)
    = filter (fun l => negb (blank_line l)) ls.
Proof.
  induction ls as [|a ls IH]; intros prev; cbn [squeeze filter]; [reflexivity|].
  destruct (blank_line a) eqn:B; cbn [andb negb].
  - destruct prev; cbn [filter]; rewrite ?B; cbn [negb]; apply IH.
  - cbn [filter]. rewrite B. cbn [negb]. rewrite IH. reflexivity.
Qed.

Lemma filter_blank_nil (b : list text) :
  Forall (fun l => blank_line l = true) b ->
  filter (fun l => negb (blank_line l)) b = [].
Proof.
  induction 1 as [|l b Hl _ IH]; [reflexivity|].
  cbn [filter]. rewrite Hl. exact IH.
Qed.

Lemma filter_trim (ls : list text) :
  filter (fun l => negb (blank_line l)) (trim_blank_tail ls)
  = filter (fun l => negb (blank_line l)) ls.
Proof.
  destruct (trim_blank_tail_prefix ls) as (b & Hb & Hall).
  rewrite Hb at 2. rewrite filter_app, (filter_blank_nil b Hall), app_nil_r.
  reflexivity.
Qed.

Lemma filter_filter (f g : text -> bool) (ls : list text) :
  filter f (filter g ls) = filter (fun l => f l && g l) ls.
Proof.
  induction ls as [|a ls IH]; [reflexivity|]. cbn [filter].
  destruct (g a); cbn [filter]; rewrite ?andb_true_r, ?andb_false_r.
  - destruct (f a); rewrite IH; reflexivity.
  - exact IH.
Qed.

(** X4: Remove Results keeps every other line that is not blank: the
    lines of its output that are not blank are the lines of the input that
    are neither blank nor result lines, in their order and unchanged. *)
Theorem remove_results_keeps_content (t : text) :
  exists new_text,
    remove_results_text t = Ok new_text /\
    filter (fun l => negb (blank_line l)) (split_on nl new_text)
    = filter (fun l => negb (blank_line l)
                       && negb (starts_with_result (strip l)))
             (split_on nl t).
Proof.
  exists (join [nl] (remaining_lines t)).
  rewrite remove_results_text_lines. split; [reflexivity|].
  change (split_on nl) with lines_of.
  rewrite lines_of_join by apply remaining_no_nl.
  transitivity (filter (fun l => negb (blank_line l)) (remaining_lines t)).
  - destruct (remaining_lines t); reflexivity.
  - unfold remaining_lines, clean_lines.
    rewrite filter_trim, filter_squeeze, filter_filter. reflexivity.
Qed.

(** X5: the cleaning that opens an evaluation and Remove Results agree:
    Remove Results gives the same text before and after that cleaning, and
    the cleaning changes nothing in a text Remove Results has left. *)
Theorem cleaning_and_remove_results (t : text) :
  remove_results_text (cleaned_text t) = remove_results_text t /\
  exists new_text,
    remove_results_text t = Ok new_text /\ cleaned_text new_text = new_text.
Proof.
  split.
  - rewrite !remove_results_text_lines, cleaned_text_lines. f_equal. f_equal.
    unfold remaining_lines.
    destruct (clean_lines t) as [|l ls] eqn:C; [reflexivity|].
    rewrite <- C. f_equal. apply clean_lines_fixed.
    + rewrite C. discriminate.
    + apply clean_no_nl.
    + apply clean_lines_no_result.
    + apply clean_lines_single.
  - exists (join [nl] (remaining_lines t)).
    rewrite remove_results_text_lines. split; [reflexivity|].
    rewrite cleaned_text_lines.
    destruct (remaining_lines t) as [|l ls] eqn:R; [reflexivity|].
    rewrite <- R. f_equal. apply clean_lines_fixed.
    + rewrite R. discriminate.
    + apply remaining_no_nl.
    + apply remaining_no_result.
    + apply remaining_single.
Qed.

(** ** Finding the queries *)

Lemma while_exit {S R} (Inv E : S -> Prop) (Q : R -> Prop) (mu : S -> nat)
      (cond : S -> result bool) (body : S -> result (ctl S R)) :
  (forall s, Inv s ->
     returns (cond s)
       (fun b => (b = true ->
                  returns (body s) (after_exit_step Inv E Q mu s)) /\
                 (b = false -> E s))) ->
  forall fuel s, Inv s -> (mu s < fuel)%nat ->
  returns (while fuel cond body s) (after_loop E Q).
Proof.
  intros Hstep fuel.
  induction fuel as [|fuel IH]; intros s Hs Hmu; [lia|].
  cbn [while].
  destruct (Hstep s Hs) as (b & -> & Hb1 & Hb2). cbn [bind].
  destruct b.
  - destruct (Hb1 eq_refl) as (c & -> & Hc). cbn [bind].
    destruct c as [s'|s'|r]; cbn in Hc.
    + apply IH; [tauto|lia].
    + apply returns_ok. exact Hc.
    + apply returns_ok. exact Hc.
  - apply returns_ok. exact (Hb2 eq_refl).
Qed.

Lemma lstrip_blank (t : text) : is_nil (lstrip t) = is_blank t.
Proof.
  induction t as [|c t IH]; [reflexivity|].
  cbn [lstrip is_blank forallb]. destruct (isspace c); [exact IH|reflexivity].
Qed.

Lemma strip_blank (t : text) : is_nil (strip t) = is_blank t.
Proof.
  unfold strip, rstrip.
  destruct (lstrip (rev (lstrip t))) as [|a l] eqn:E.
  - cbn [rev is_nil]. symmetry.
    assert (is_blank (rev (lstrip t)) = true) as B
        by (rewrite <- lstrip_blank, E; reflexivity).
    rewrite is_blank_rev in B.
    destruct (lstrip_split t) as (b & Hb & Ht). rewrite Ht.
    unfold is_blank in *. rewrite forallb_app, Hb, B. reflexivity.
  - replace (is_nil (rev (a :: l))) with false
      by (cbn [rev]; destruct (rev l); reflexivity).
    symmetry. apply not_true_is_false. intros B.
    assert (is_blank (lstrip t) = true) as B2.
    { destruct (lstrip_split t) as (b & Hb & Ht). rewrite Ht in B.
      unfold is_blank in *. rewrite forallb_app in B.
      apply andb_true_iff in B. tauto. }
    rewrite <- is_blank_rev, <- lstrip_blank, E in B2. discriminate B2.
Qed.

(** A stripped text ends with a character that is not whitespace. *)
Lemma strip_last (t : text) :
  strip t = [] \/ exists u x, strip t = u ++ [x] /\ isspace x = false.
Proof.
  unfold strip, rstrip.
  pose proof (lstrip_head (rev (lstrip t))) as H.
  destruct (lstrip (rev (lstrip t))) as [|x w]; [left; reflexivity|].
  right. exists (rev w), x. split; [reflexivity|].
  cbn in H. exact H.
Qed.

Lemma strip_snoc_nonblank (u : text) (x : ascii) :
  isspace x = false -> is_nil (strip (u ++ [x])) = false.
Proof.
  intros H. rewrite strip_blank. unfold is_blank.
  rewrite forallb_app. cbn. rewrite H, andb_false_r. reflexivity.
Qed.

(** What follows [Q:] on a line that opens a query is not blank. *)
Lemma query_line_content (line : text) :
  query_line line = true ->
  is_nil (strip (slice_from (strip line) 2)) = false.
Proof.
  unfold query_line. intros H. apply andb_true_iff in H as [_ H].
  apply Z.gtb_lt in H.
  destruct (strip_last line) as [E|(u & x & E & Hx)].
  - rewrite E in H. cbn in H. lia.
  - rewrite E in *. unfold slice_from, norm_bound.
    replace (2 <? 0) with false by reflexivity.
    rewrite len_app in *. change (len [x]) with 1 in *.
    replace (Z.to_nat (Z.min 2 (len u + 1))) with 2%nat by lia.
    rewrite skipn_app.
    replace (2 - length u)%nat with 0%nat by (unfold len in H; lia).
    cbn [skipn]. apply strip_snoc_nonblank. exact Hx.
Qed.

Lemma join_nonempty (sep p : text) (ps : list text) :
  is_nil p = false -> is_nil (join sep (p :: ps)) = false.
Proof.
  intros H. destruct p as [|c p]; [discriminate|].
  destruct ps; reflexivity.
Qed.

Lemma ascending_snoc (l : list Z) (e : Z) :
  ascending l -> (forall x, In x l -> x < e) -> ascending (l ++ [e]).
Proof.
  induction l as [|a l IH]; intros Ha He; cbn [app ascending].
  - split; [intros y []|exact I].
  - destruct Ha as [Ha1 Ha2]. split.
    + intros y Hy. apply in_app_or in Hy as [Hy|[<-|[]]].
      * exact (Ha1 y Hy).
      * apply He. left. reflexivity.
    + apply IH; [exact Ha2|]. intros x Hx. apply He. right. exact Hx.
Qed.

Lemma descending_snoc (l : list Z) (e : Z) :
  descending l -> (forall x, In x l -> e < x) -> descending (l ++ [e]).
Proof.
  induction l as [|a l IH]; intros Ha He; cbn [app descending].
  - split; [intros y []|exact I].
  - destruct Ha as [Ha1 Ha2]. split.
    + intros y Hy. apply in_app_or in Hy as [Hy|[<-|[]]].
      * exact (Ha1 y Hy).
      * apply He. left. reflexivity.
    + apply IH; [exact Ha2|]. intros x Hx. apply He. right. exact Hx.
Qed.

Lemma ascending_rev (l : list Z) : ascending l -> descending (rev l).
Proof.
  induction l as [|a l IH]; intros H; [exact I|].
  destruct H as [H1 H2]. cbn [rev]. apply descending_snoc; [exact (IH H2)|].
  intros x Hx. apply H1. apply in_rev. exact Hx.
Qed.

Lemma firstn_succ (l : list text) (n : nat) :
  (n < length l)%nat -> firstn (Datatypes.S n) l = firstn n l ++ [nth n l []].
Proof.
  revert l. induction n as [|n IH]; intros l H.
  - destruct l; [cbn in H; lia|reflexivity].
  - destruct l as [|a l]; [cbn in H; lia|].
    cbn [firstn nth app]. f_equal. apply IH. cbn in H. lia.
Qed.


Lemma count_step (lines : list text) (i : Z) :
  0 <= i < Z.of_nat (length lines) ->
  filter query_line (firstn (Z.to_nat (i + 1)) lines)
  = filter query_line (firstn (Z.to_nat i) lines)
    ++ (if query_line (nth (Z.to_nat i) lines []) then
          [nth (Z.to_nat i) lines []]
        else []).
Proof.
  intros H. replace (Z.to_nat (i + 1)) with (Datatypes.S (Z.to_nat i)) by lia.
  rewrite firstn_succ by lia. rewrite filter_app. cbn [filter].
  reflexivity.
Qed.

(** The state of the inner loop, [i] being the line of the query: the lines
    after it up to [j] continue it. *)
Definition continues (lines : list text) (i : Z) (st : part_state) : Prop :=
  i < pj st <= Z.of_nat (length lines) /\
  query_end_line st = pj st - 1 /\
  (exists p more, query_parts st = p :: more /\ is_nil p = false) /\
  filter query_line (firstn (Z.to_nat (pj st)) lines)
  = filter query_line (firstn (Z.to_nat (i + 1)) lines).

Lemma continuation_returns (lines : list text) (i : Z) (st : part_state) :
  0 <= i -> continues lines i st ->
  returns (continuation lines st) (continues lines i).
Proof.
  intros Hi Hst. unfold continuation.
  apply returns_bind with (P := after_loop (continues lines i)
                                           (fun _ : Empty_set => True)).
  - apply while_returns
      with (mu := fun st => Z.to_nat (Z.of_nat (length lines) - pj st)).
    + intros s Hs. apply returns_ok. intros Hc. apply Z.ltb_lt in Hc.
      destruct Hs as (H1 & H2 & (p & more & H3 & Hp) & H4).
      rewrite (getitem_in_range lines (pj s) []) by lia. cbn [bind].
      destruct (is_nil (strip (nth (Z.to_nat (pj s)) lines []))
                || startswith (strip (nth (Z.to_nat (pj s)) lines []))
                              (lit "Q:")) eqn:E.
      * apply returns_ok. cbn. split; [exact H1|]. split; [exact H2|].
        split; [|exact H4]. exists p, more. auto.
      * apply returns_ok. cbn. apply orb_false_iff in E as [E1 E2].
        split; [|lia]. unfold continues. cbn [pj query_parts query_end_line].
        split; [lia|]. split; [lia|]. split.
        -- exists p, (more ++ [strip (nth (Z.to_nat (pj s)) lines [])]).
           rewrite H3. auto.
        -- rewrite count_step by lia. rewrite H4.
           unfold query_line at 2. rewrite E2. cbn [andb].
           rewrite app_nil_r. reflexivity.
    + exact Hst.
    + destruct Hst as (H1 & _). lia.
  - intros [s|[]] Hs. apply returns_ok. exact Hs.
Qed.

(** The state of the outer loop: the queries found so far, one for each
    query line before line [i], with line numbers that go up and stay
    below [i]. *)
Definition found_so_far (lines : list text) (st : query_state) : Prop :=
  0 <= qi st <= Z.of_nat (length lines) /\
  ascending (map fst (pending st)) /\
  Forall (fun q => 0 <= fst q < qi st /\ snd q <> []) (pending st) /\
  length (pending st)
  = length (filter query_line (firstn (Z.to_nat (qi st)) lines)).

Lemma query_step_returns (lines : list text) (st : query_state) :
  found_so_far lines st -> qi st < Z.of_nat (length lines) ->
  returns (query_step lines st)
    (after_exit_step (found_so_far lines)
       (fun st => found_so_far lines st /\ qi st = Z.of_nat (length lines))
       (fun _ : Empty_set => True)
       (fun st => Z.to_nat (Z.of_nat (length lines) - qi st)) st).
Proof.
  intros (H1 & H2 & H3 & H4) Hlt. unfold query_step.
  rewrite (getitem_in_range lines (qi st) []) by lia. cbn [bind].
  set (line := nth (Z.to_nat (qi st)) lines []).
  destruct (startswith (strip line) (lit "Q:") && (len (strip line) >? 2))
    eqn:E.
  - apply returns_bind with (P := continues lines (qi st)).
    + apply continuation_returns; [lia|].
      unfold continues. cbn [pj query_parts query_end_line].
      split; [lia|]. split; [lia|]. split; [|reflexivity].
      exists (strip (slice_from (strip line) 2)), [].
      split; [reflexivity|]. apply query_line_content. exact E.
    + intros ps (P1 & P2 & (p & more & P3 & Hp) & P4).
      apply returns_ok. cbn. split; [|lia].
      rewrite P3, (join_nonempty _ p more Hp). cbn [negb].
      unfold found_so_far. cbn [qi pending].
      split; [lia|]. split; [|split].
      * rewrite map_app. apply ascending_snoc; [exact H2|].
        intros x Hx. cbn [map fst]. apply in_map_iff in Hx as (q & <- & Hq).
        rewrite Forall_forall in H3. destruct (H3 q Hq) as (Hq1 & _).
        apply Z.lt_le_trans with (qi st); [exact (proj2 Hq1)|lia].
      * apply Forall_app. split.
        -- eapply Forall_impl; [|exact H3]. cbn. intros q (Ha & Hb).
           split; [lia|exact Hb].
        -- constructor; [|constructor]. cbn [fst snd]. split; [lia|].
           intros F.
           pose proof (join_nonempty (lit " ") p more Hp) as G.
           change (lit " ") with [" "%char] in G.
           rewrite F in G. discriminate G.
      * rewrite length_app, H4, P4, count_step by lia.
        fold line. unfold query_line at 3. rewrite E.
        rewrite length_app. reflexivity.
  - apply returns_ok. cbn. split; [|lia].
    unfold found_so_far. cbn [qi pending].
    split; [lia|]. split; [exact H2|]. split.
    + eapply Forall_impl; [|exact H3]. cbn. intros q (Ha & Hb).
      split; [lia|exact Hb].
    + rewrite count_step by lia. fold line. unfold query_line at 2.
      rewrite E, app_nil_r. exact H4.
Qed.

Lemma find_queries_returns (lines : list text) :
  returns (find_queries lines)
    (fun qs =>
       ascending (map fst qs) /\
       Forall (fun q => 0 <= fst q < Z.of_nat (length lines) /\ snd q <> [])
              qs /\
       length qs = length (filter query_line lines)).
Proof.
  unfold find_queries.
  apply returns_bind
    with (P := after_loop
                 (fun st => found_so_far lines st /\
                            qi st = Z.of_nat (length lines))
                 (fun _ : Empty_set => True)).
  - apply while_exit
      with (Inv := found_so_far lines)
           (mu := fun st => Z.to_nat (Z.of_nat (length lines) - qi st)).
    + intros s Hs. apply returns_ok. split.
      * intros Hc. apply Z.ltb_lt in Hc. apply query_step_returns; assumption.
      * intros Hc. apply Z.ltb_ge in Hc. split; [exact Hs|].
        destruct Hs as (H1 & _). lia.
    + unfold found_so_far. cbn [qi pending map length].
      split; [lia|]. split; [exact I|]. split; [constructor|reflexivity].
    + cbn [qi]. lia.
  - intros [s|[]] ((H1 & H2 & H3 & H4) & Eq). apply returns_ok.
    cbn [final]. split; [exact H2|]. split.
    + eapply Forall_impl; [|exact H3]. cbn. intros q (Ha & Hb).
      split; [lia|exact Hb].
    + rewrite H4, Eq, Nat2Z.id, firstn_all. reflexivity.
Qed.

(** X6: the search for the queries ends and numbers them in the order of
    the lines: the line numbers it records are within the lines and go up
    strictly, so that they go down strictly in the list the evaluation
    reads, which is the reversed one. *)
Theorem queries_in_line_order (lines : list text) :
  exists qs,
    find_queries lines = Ok qs /\
    Forall (fun q => 0 <= fst q < Z.of_nat (length lines)) qs /\
    ascending (map fst qs) /\
    descending (map fst (rev qs)).
Proof.
  destruct (find_queries_returns lines) as (qs & E & H1 & H2 & H3).
  exists qs. split; [exact E|]. split; [|split].
  - eapply Forall_impl; [|exact H2]. cbn. tauto.
  - exact H1.
  - rewrite map_rev. apply ascending_rev. exact H1.
Qed.

(** X7: every line that opens a query gives exactly one query, and no
    query is empty: the search records as many queries as there are lines
    that, stripped, start with [Q:] and hold more than that. *)
Theorem one_query_per_query_line (lines : list text) :
  exists qs,
    find_queries lines = Ok qs /\
    length qs
    = length (filter (fun line => startswith (strip line) (lit "Q:")
                                  && (len (strip line) >? 2)) lines) /\
    Forall (fun q => snd q <> []) qs.
Proof.
  destruct (find_queries_returns lines) as (qs & E & H1 & H2 & H3).
  exists qs. split; [exact E|]. split; [exact H3|].
  eapply Forall_impl; [|exact H2]. cbn. tauto.
Qed.

(** ** The worker *)

Lemma lstrip_blank_app (b y : text) :
  is_blank b = true -> lstrip (b ++ y) = lstrip y.
Proof.
  induction b as [|c b IH]; intros H; [reflexivity|].
  cbn [is_blank forallb] in H. apply andb_true_iff in H as [H1 H2].
  cbn [app lstrip]. rewrite H1. apply IH. exact H2.
Qed.

Lemma rstrip_cons_keep (b : ascii) (r : text) :
  isspace b = false -> rstrip (b :: r) = b :: rstrip r.
Proof.
  intros H. unfold rstrip. cbn [rev].
  destruct (lstrip (rev r)) as [|x w] eqn:E.
  - assert (is_blank (rev r) = true) as B
        by (rewrite <- lstrip_blank, E; reflexivity).
    rewrite lstrip_blank_app by exact B. cbn [lstrip]. rewrite H. reflexivity.
  - rewrite lstrip_app_keep by (rewrite E; discriminate).
    rewrite E, rev_app_distr. reflexivity.
Qed.

(** Stripping keeps the two characters a text starts with when they are
    not whitespace. *)
Lemma strip_keeps_prefix (a b : ascii) (r : text) :
  isspace a = false -> isspace b = false ->
  strip (a :: b :: r) = a :: b :: rstrip r.
Proof.
  intros Ha Hb. unfold strip. cbn [lstrip]. rewrite Ha.
  rewrite !rstrip_cons_keep by assumption. reflexivity.
Qed.

Lemma startswith_two (s : text) (a b : ascii) :
  startswith s [a; b] = true -> exists r, s = a :: b :: r.
Proof.
  destruct s as [|x [|y r]]; cbn [startswith]; intros H.
  - discriminate.
  - apply andb_true_iff in H as [_ H]. discriminate.
  - apply andb_true_iff in H as [H1 H2].
    apply andb_true_iff in H2 as [H2 _].
    apply ch_eqb_eq in H1, H2. subst. exists r. reflexivity.
Qed.

Lemma startswith_nil (s : text) : startswith s [] = true.
Proof. destruct s; reflexivity. Qed.

(** A line that starts with a result prefix is a result line. *)
Lemma prefixed_result_line (a : ascii) (r : text) :
  In a ["A"%char; "T"%char; "E"%char; "I"%char] ->
  result_line (a :: ":"%char :: r) = true.
Proof.
  intros H. unfold result_line.
  rewrite strip_keeps_prefix.
  - unfold starts_with_result.
    destruct H as [<-|[<-|[<-|[<-|[]]]]]; cbn; rewrite startswith_nil;
      reflexivity.
  - destruct H as [<-|[<-|[<-|[<-|[]]]]]; reflexivity.
  - reflexivity.
Qed.

Lemma str_in_tail (c : ascii) (p hay : text) :
  str_in (c :: p) hay = true -> str_in p hay = true.
Proof.
  induction hay as [|x hay IH]; cbn [str_in startswith].
  - rewrite orb_false_r. discriminate.
  - intros H. apply orb_true_iff in H as [H|H].
    + apply andb_true_iff in H as [_ H]. apply orb_true_iff. right.
      destruct hay as [|y hay]; cbn [str_in]; rewrite H; reflexivity.
    + apply orb_true_iff. right. apply IH. exact H.
Qed.

Lemma split_once_found (sep : text) (s : text) :
  forall cur, str_in sep s = true ->
              exists a b, split_once sep s cur = [a; b].
Proof.
  induction s as [|c s IH]; intros cur H.
  - cbn [str_in] in H. rewrite orb_false_r in H.
    cbn [split_once]. rewrite H. eauto.
  - cbn [str_in] in H. cbn [split_once].
    destruct (startswith (c :: s) sep); [eauto|].
    cbn [orb] in H. apply IH. exact H.
Qed.

Lemma second_of_split (sep : text) (s : text) :
  str_in sep s = true ->
  exists rest, getitem (split_once sep s []) 1 = Ok rest.
Proof.
  intros H. destruct (split_once_found sep s [] H) as (a & b & E).
  rewrite E. exists b. reflexivity.
Qed.

Lemma startswith_any_cases (line : text) :
  startswith_any line [lit "A:"; lit "E:"; lit "I:"] = true ->
  exists a r, line = a :: ":"%char :: r /\
              In a ["A"%char; "T"%char; "E"%char; "I"%char].
Proof.
  unfold startswith_any. cbn [existsb]. rewrite orb_false_r.
  intros H. apply orb_true_iff in H as [H|H];
    [|apply orb_true_iff in H as [H|H]];
    apply startswith_two in H as (r & ->); eexists; exists r;
    (split; [reflexivity|cbn; tauto]).
Qed.

(** Each iteration of the loop appends at most a result line. *)
Lemma format_line_returns (show_ms : text -> option text)
      (ls : list text) (line : text) :
  Forall (fun l => result_line l = true) ls ->
  returns (format_line show_ms ls line)
          (Forall (fun l => result_line l = true)).
Proof.
  intros H. unfold format_line.
  assert (forall l, result_line l = true ->
                    Forall (fun l => result_line l = true) (ls ++ [l])) as A.
  { intros l Hl. apply Forall_app. split; [exact H|].
    constructor; [exact Hl|constructor]. }
  destruct (is_nil (rstrip line) || text_eqb (rstrip line) (lit "Q:")
            || text_eqb (rstrip line) (lit "Q: "));
    [apply returns_ok; exact H|].
  destruct (startswith (rstrip line) (lit "Q:")
            && str_in (lit " A:") (rstrip line)) eqn:E1.
  { apply andb_true_iff in E1 as [_ E1]. apply str_in_tail in E1.
    destruct (second_of_split (lit "A:") (rstrip line) E1) as (rest & ->).
    cbn [bind].
    apply returns_ok. apply A. apply prefixed_result_line. cbn. tauto. }
  destruct (startswith (rstrip line) (lit "Q:")
            && str_in (lit " E:") (rstrip line)) eqn:E2.
  { apply andb_true_iff in E2 as [_ E2]. apply str_in_tail in E2.
    destruct (second_of_split (lit "E:") (rstrip line) E2) as (rest & ->).
    cbn [bind].
    apply returns_ok. apply A. apply prefixed_result_line. cbn. tauto. }
  destruct (startswith (rstrip line) (lit "T:")) eqn:E3.
  { apply startswith_two in E3 as (r & E3).
    assert (result_line (rstrip line) = true) as P
        by (rewrite E3; apply prefixed_result_line; cbn; tauto).
    destruct (isdigit _); [|apply returns_ok, A, P].
    destruct (show_ms _);
      [|apply returns_ok, A, P].
    apply returns_ok, A. apply prefixed_result_line. cbn. tauto. }
  destruct (startswith_any (rstrip line) [lit "A:"; lit "E:"; lit "I:"])
    eqn:E4.
  { apply startswith_any_cases in E4 as (a & r & E4 & Ha).
    apply returns_ok, A. rewrite E4. apply prefixed_result_line. exact Ha. }
  apply returns_ok. exact H.
Qed.

Lemma formatted_lines_returns (show_ms : text -> option text)
      (stdout : text) :
  returns (formatted_lines show_ms stdout)
          (Forall (fun l => result_line l = true)).
Proof.
  unfold formatted_lines.
  apply returns_bind
    with (P := after_loop (Forall (fun l => result_line l = true))
                          (fun _ : Empty_set => True)).
  - apply for_in_returns; [|constructor].
    intros line ls _ Hls.
    apply returns_bind with (P := Forall (fun l => result_line l = true)).
    + apply format_line_returns. exact Hls.
    + intros ls' H'. apply returns_ok. exact H'.
  - intros [ls|[]] H. apply returns_ok. exact H.
Qed.

(** X8: the worker's reading of the output of qna never raises, whatever
    the output, and every line it reports is a result line: stripped, it
    starts with [A:], [T:], [E:] or [I:], so that Remove Results and the
    cleaning of the next evaluation delete it. *)
Theorem worker_reports_result_lines (show_ms : text -> option text)
        (stdout : text) :
  exists ls,
    formatted_lines show_ms stdout = Ok ls /\
    format_output show_ms stdout = Ok (join [nl] ls) /\
    Forall (fun l => starts_with_result (strip l) = true) ls /\
    filter (fun l => negb (starts_with_result (strip l))) ls = [].
Proof.
  destruct (formatted_lines_returns show_ms stdout) as (ls & E & H).
  exists ls. split; [exact E|]. split.
  - unfold format_output. rewrite E. reflexivity.
  - split; [exact H|].
    clear E. induction H as [|l ls Hl _ IH]; [reflexivity|].
    cbn [filter]. unfold result_line in Hl. rewrite Hl. exact IH.
Qed.

(** ** Single Clause mode and the worker *)

Lemma split_ws_aux_word (w t : text) :
  ws_free w = true -> split_ws_aux (w ++ t) [] = split_ws_aux t (rev w).
Proof.
  intros H. exact (split_ws_aux_free w t [] H).
Qed.

Lemma split_ws_join (ws : list text) :
  Forall chunk ws -> split_ws (join (lit " ") ws) = ws.
Proof.
  induction 1 as [|w ws Hw Hws IH]; [reflexivity|].
  destruct Hw as [Hf Hne]. unfold split_ws in *.
  assert (opt_word w = [w]) as Ow
      by (unfold opt_word; destruct w; [contradiction|reflexivity]).
  destruct ws as [|w2 ws].
  - cbn [join]. rewrite <- (app_nil_r w) at 1.
    rewrite split_ws_aux_word by exact Hf.
    rewrite split_ws_aux_end. exact Ow.
  - rewrite join_cons by discriminate.
    rewrite split_ws_aux_word by exact Hf.
    rewrite split_ws_aux_space by reflexivity.
    rewrite IH, Ow. reflexivity.
Qed.

Lemma split_ws_chunks (t : text) : Forall chunk (split_ws t).
Proof. apply split_ws_aux_chunks. reflexivity. Qed.

(** Compacting is idempotent. *)
Lemma compact_idem (t : text) : compact (compact t) = compact t.
Proof.
  unfold compact at 1. unfold compact at 1.
  rewrite split_ws_join by apply split_ws_chunks. reflexivity.
Qed.

Lemma strip_compact (t : text) : strip (compact t) = compact t.
Proof.
  rewrite tidy_strip by apply tidy_compact. apply compact_idem.
Qed.

Lemma tidy_no_nl (t : text) : tidy t = true -> char_in nl t = false.
Proof.
  induction t as [|c t IH]; intros H; [reflexivity|].
  cbn [tidy] in H. apply andb_true_iff in H as [H1 H2].
  cbn [char_in existsb]. fold (char_in nl t). rewrite (IH H2), orb_false_r.
  destruct (ch_eqb nl c) eqn:E; [|reflexivity].
  apply ch_eqb_eq in E. subst c. discriminate H1.
Qed.

Lemma split_ws_aux_some (t : text) :
  forall cur, is_blank t = false -> split_ws_aux t cur <> [].
Proof.
  induction t as [|c t IH]; intros cur H; [discriminate|].
  cbn [is_blank forallb] in H. cbn [split_ws_aux].
  destruct (isspace c) eqn:E.
  - destruct cur; [apply IH; exact H|discriminate].
  - apply split_ws_aux_nonempty. discriminate.
Qed.

Lemma compact_nonempty (t : text) :
  is_blank t = false -> is_nil (compact t) = false.
Proof.
  intros H. unfold compact.
  pose proof (split_ws_chunks t) as C.
  pose proof (split_ws_aux_some t [] H) as N. fold (split_ws t) in N.
  destruct (split_ws t) as [|w ws]; [contradiction|].
  inversion C as [|? ? [_ Hw] _]; subst.
  apply join_nonempty. destruct w; [contradiction|reflexivity].
Qed.

Lemma is_blank_strip (t : text) : is_blank (strip t) = is_blank t.
Proof.
  rewrite <- !strip_blank.
  destruct (strip_last t) as [E|(u & x & E & Hx)].
  - rewrite E. reflexivity.
  - rewrite E. rewrite strip_snoc_nonblank by exact Hx.
    destruct (u ++ [x]) eqn:F; [destruct u; discriminate F|reflexivity].
Qed.

(** X9: in Single Clause mode the worker sends qna the expression it is
    given, as it is: the expression the mode hands over is the text of the
    pane compacted to one line, it is not empty and holds no newline, and
    the cleaning of the worker leaves it unchanged. *)
Theorem single_clause_query_unchanged (t e : text) :
  single_clause_action t = evaluate_expression e ->
  e = compact (strip t) /\ e <> [] /\ char_in nl e = false /\
  upper_startswith_q e = false /\ clean_query e = Some e.
Proof.
  unfold single_clause_action. fold (compact (strip t)).
  destruct (is_nil (strip t)) eqn:N; [discriminate|].
  destruct (upper_startswith_q (compact (strip t))) eqn:Q; [discriminate|].
  intros E. injection E as <-.
  assert (is_nil (compact (strip t)) = false) as NE.
  { apply compact_nonempty. rewrite is_blank_strip, <- strip_blank. exact N. }
  split; [reflexivity|]. split.
  - intros F. rewrite F in NE. discriminate NE.
  - split; [apply tidy_no_nl, tidy_compact|]. split; [exact Q|].
    unfold clean_query. rewrite strip_compact, Q, NE. reflexivity.
Qed.

Lemma single_clause_query_unchanged_witness :
  single_clause_action (lit " exists" ++ nl :: lit "  file x ")
  = evaluate_expression (lit "exists file x") /\
  lit "exists file x"
  = compact (strip (lit " exists" ++ nl :: lit "  file x ")) /\
  lit "exists file x" <> [] /\
  char_in nl (lit "exists file x") = false /\
  upper_startswith_q (lit "exists file x") = false /\
  clean_query (lit "exists file x") = Some (lit "exists file x").
Proof.
  split; [vm_compute; reflexivity|].
  apply (single_clause_query_unchanged
           (lit " exists" ++ nl :: lit "  file x ")).
  vm_compute. reflexivity.
Defined.

(** ** Zoom *)

Lemma zoom_keeps (s : Z) (c : zoom_command) :
  4 <= s /\ Z.even s = true -> 4 <= zoom s c /\ Z.even (zoom s c) = true.
Proof.
  intros [H1 H2]. destruct c; cbn [zoom].
  - unfold zoom_in. split; [lia|].
    rewrite Z.even_add, H2. reflexivity.
  - unfold zoom_out. destruct (s >? 4) eqn:E.
    + apply Z.gtb_lt in E. split.
      * destruct (Z.eq_dec s 5) as [->|]; [discriminate H2|lia].
      * rewrite Z.even_sub, H2. reflexivity.
    + auto.
  - unfold zoom_reset. split; [lia|reflexivity].
Qed.

(** X10: the font size never drops below 4 points: after any sequence of
    zoom commands from the size the window starts with, the size is an even
    number that is at least 4. *)
Theorem zoom_never_below_four (commands : list zoom_command) :
  4 <= fold_left zoom commands initial_font_size /\
  Z.even (fold_left zoom commands initial_font_size) = true.
Proof.
  assert (forall s, 4 <= s /\ Z.even s = true ->
                    4 <= fold_left zoom commands s /\
                    Z.even (fold_left zoom commands s) = true) as G.
  { induction commands as [|c cs IH]; intros s H; [exact H|].
    cbn [fold_left]. apply IH. apply zoom_keeps. exact H. }
  apply G. split; [unfold initial_font_size; lia|reflexivity].
Qed.

(** ** Block comments *)

Lemma index_from_spec (p : text) (rest : text) :
  p <> [] ->
  forall pos o, 0 <= pos ->
    (index_from p rest pos o = -1 /\
     forall j, o <= pos + Z.of_nat j -> startswith (skipn j rest) p = false)
    \/
    (pos <= index_from p rest pos o /\ o <= index_from p rest pos o /\
     startswith (skipn (Z.to_nat (index_from p rest pos o - pos)) rest) p
     = true /\
     forall j, o <= pos + Z.of_nat j < index_from p rest pos o ->
               startswith (skipn j rest) p = false).
Proof.
  intros Hp. induction rest as [|c rest IH]; intros pos o Hpos.
  - left. split; [reflexivity|]. intros j _. rewrite skipn_nil.
    destruct p; [contradiction|reflexivity].
  - cbn [index_from].
    destruct ((o <=? pos) && startswith (c :: rest) p) eqn:E.
    + right. apply andb_true_iff in E as [E1 E2]. apply Z.leb_le in E1.
      split; [lia|]. split; [lia|]. split.
      * rewrite Z.sub_diag. exact E2.
      * intros j Hj. lia.
    + assert (o <= pos -> startswith (c :: rest) p = false) as H0.
      { intros Ho. apply Z.leb_le in Ho. rewrite Ho in E. exact E. }
      destruct (IH (pos + 1) o ltac:(lia)) as [(R & H)|(R1 & R2 & R3 & H)].
      * left. split; [exact R|]. intros [|j] Hj.
        -- apply H0. lia.
        -- cbn [skipn]. apply H. lia.
      * right. split; [lia|]. split; [exact R2|]. split.
        -- replace (Z.to_nat (index_from p rest (pos + 1) o - pos))
             with (Datatypes.S
                     (Z.to_nat (index_from p rest (pos + 1) o - (pos + 1))))
             by lia.
           exact R3.
        -- intros [|j] Hj.
           ++ apply H0. lia.
           ++ cbn [skipn]. apply H. lia.
Qed.

Lemma startswith_length (s p : text) :
  startswith s p = true -> (length p <= length s)%nat.
Proof.
  revert p. induction s as [|c s IH]; intros [|x p] H; cbn in *;
    try lia; try discriminate.
  apply andb_true_iff in H as [_ H]. apply IH in H. lia.
Qed.

(** What [index_in] answers from an offset that is not negative: [-1] when
    the pattern does not occur from there on, and otherwise the first place
    from there on where it occurs. *)
Lemma index_in_spec (p t : text) (o : Z) :
  p <> [] -> 0 <= o ->
  (index_in p t o = -1 /\
   forall j, startswith (skipn j (skipn (Z.to_nat o) t)) p = false)
  \/
  (o <= index_in p t o /\
   index_in p t o + Z.of_nat (length p) <= len t /\
   startswith (skipn (Z.to_nat (index_in p t o)) t) p = true /\
   forall j, (j < Z.to_nat (index_in p t o - o))%nat ->
             startswith (skipn j (skipn (Z.to_nat o) t)) p = false).
Proof.
  intros Hp Ho. unfold index_in.
  assert ((o <? 0) = false) as Hneg by (apply Z.ltb_ge; lia).
  rewrite !Hneg.
  destruct (index_from_spec p t Hp 0 o ltac:(lia))
    as [(R & H)|(R1 & R2 & R3 & H)].
  - left. split; [exact R|]. intros j. rewrite skipn_skipn.
    apply H. lia.
  - right. rewrite Z.sub_0_r in R3. split; [exact R2|]. split; [|split].
    + apply startswith_length in R3. rewrite length_skipn in R3.
      unfold len.
      assert (length p <> 0)%nat by (destruct p; [contradiction|discriminate]).
      lia.
    + exact R3.
    + intros j Hj. rewrite skipn_skipn. apply H. lia.
Qed.

Lemma ends_none (b : bool) (s : text) :
  (forall j, startswith (skipn j s) (awaited b) = false) ->
  ends_in_comment b false s = b.
Proof.
  induction s as [|c s IH]; intros H; [reflexivity|].
  pose proof (H O) as H0. cbn [skipn] in H0.
  cbn [ends_in_comment]. rewrite H0. apply IH.
  intros j. exact (H (Datatypes.S j)).
Qed.

Lemma awaited_two (b : bool) : exists x y, awaited b = [x; y].
Proof. destruct b; eexists; eexists; reflexivity. Qed.

Lemma ends_first (b : bool) (r : nat) :
  forall s,
    startswith (skipn r s) (awaited b) = true ->
    (forall j, (j < r)%nat -> startswith (skipn j s) (awaited b) = false) ->
    ends_in_comment b false s
    = ends_in_comment (negb b) false (skipn (r + 2) s).
Proof.
  induction r as [|r IH]; intros s H1 H2.
  - cbn [skipn] in H1. destruct (awaited_two b) as (x & y & Ea).
    pose proof H1 as H3. rewrite Ea in H3.
    apply startswith_two in H3 as (s2 & ->).
    cbn [ends_in_comment]. rewrite H1. reflexivity.
  - destruct s as [|c s].
    + cbn [skipn] in H1. destruct (awaited_two b) as (x & y & Ea).
      rewrite Ea in H1. discriminate H1.
    + pose proof (H2 O ltac:(lia)) as H0. cbn [skipn] in H0.
      cbn [ends_in_comment]. rewrite H0.
      cbn [skipn Nat.add]. apply IH; [exact H1|].
      intros j Hj. apply (H2 (Datatypes.S j)). lia.
Qed.

Lemma awaited_nonempty (b : bool) : awaited b <> [].
Proof. destruct b; discriminate. Qed.

(** Reading on from [o] when the awaited delimiter is looked up with
    [index_in]. *)
Lemma ends_by_index (b : bool) (t : text) (o : Z) :
  0 <= o ->
  (index_in (awaited b) t o = -1 /\
   ends_in_comment b false (skipn (Z.to_nat o) t) = b)
  \/
  (o <= index_in (awaited b) t o /\
   index_in (awaited b) t o + 2 <= len t /\
   ends_in_comment b false (skipn (Z.to_nat o) t)
   = ends_in_comment (negb b) false
       (skipn (Z.to_nat (index_in (awaited b) t o + 2)) t)).
Proof.
  intros Ho.
  destruct (index_in_spec (awaited b) t o (awaited_nonempty b) Ho)
    as [(R & H)|(R1 & R2 & R3 & H)].
  - left. split; [exact R|]. apply ends_none. exact H.
  - right. split; [exact R1|]. split.
    + assert (length (awaited b) = 2%nat) as L by (destruct b; reflexivity).
      rewrite L in R2. lia.
    + rewrite (ends_first b (Z.to_nat (index_in (awaited b) t o - o))).
      * rewrite skipn_skipn. f_equal. f_equal. lia.
      * rewrite skipn_skipn.
        replace (Z.to_nat (index_in (awaited b) t o - o) + Z.to_nat o)%nat
          with (Z.to_nat (index_in (awaited b) t o)) by lia.
        exact R3.
      * exact H.
Qed.

Lemma index_in_at_end (p t : text) (o : Z) :
  p <> [] -> len t <= o -> index_in p t o = -1.
Proof.
  intros Hp Ho. pose proof (len_nonneg t).
  destruct (index_in_spec p t o Hp ltac:(lia)) as [(R & _)|(R1 & R2 & _)].
  - exact R.
  - assert (length p <> 0)%nat by (destruct p; [contradiction|discriminate]).
    lia.
Qed.

Lemma index_in_later (p t : text) (o : Z) :
  p <> [] -> 0 <= o -> index_in p t 0 = -1 -> index_in p t o = -1.
Proof.
  intros Hp Ho H0.
  destruct (index_in_spec p t 0 Hp ltac:(lia)) as [(_ & H)|(R1 & _)];
    [|lia].
  destruct (index_in_spec p t o Hp Ho) as [(R & _)|(R1 & R2 & R3 & _)];
    [exact R|].
  specialize (H (Z.to_nat (index_in p t o))). cbn [skipn Z.to_nat] in H.
  change (Z.to_nat 0) with O in H. cbn [skipn] in H.
  rewrite H in R3. discriminate R3.
Qed.

(** The state the loop is in once [start_index] has been looked up from
    [o], the reader being outside a comment at [o]. *)
Lemma comment_inv_outside (t : text) (answer : bool) (o : Z)
      (fs : list (Z * Z)) :
  0 <= o ->
  formats_within t fs ->
  answer = ends_in_comment false false (skipn (Z.to_nat o) t) ->
  comment_inv t answer
    {| start_index := index_in comment_start t o; block_state := 0;
       comment_formats := fs |} /\
  (index_in comment_start t o = -1 \/ o <= index_in comment_start t o).
Proof.
  intros Ho Hfs Ha. unfold comment_inv. cbn [start_index block_state
                                                comment_formats].
  destruct (ends_by_index false t o Ho) as [(R & E)|(R1 & R2 & E)];
    cbn [awaited negb] in *.
  - split; [|left; exact R]. split; [exact Hfs|]. left.
    rewrite Ha, E. auto.
  - split; [|right; exact R1]. split; [exact Hfs|]. right. left.
    split; [lia|]. split; [exact R2|]. split; [reflexivity|].
    rewrite Ha. exact E.
Qed.

Lemma formats_within_snoc (t : text) (fs : list (Z * Z)) (s n : Z) :
  formats_within t fs -> 0 <= s -> 0 <= n -> s + n <= len t ->
  formats_within t (fs ++ [(s, n)]).
Proof.
  intros H Hs Hn Hsn. apply Forall_app. split; [exact H|].
  constructor; [cbn [fst snd]; lia|constructor].
Qed.

Lemma comment_step_returns (t : text) (answer : bool) (st : comment_state) :
  comment_inv t answer st -> 0 <= start_index st ->
  returns (comment_step t st)
    (after_exit_step (comment_inv t answer)
       (fun st => comment_inv t answer st /\ start_index st < 0)
       (fun _ : Empty_set => True) (comment_measure t) st).
Proof.
  intros (Hfs & Hst) Hge. unfold comment_step. apply returns_ok.
  cbn [after_exit_step]. pose proof (len_nonneg t) as Hlen.
  destruct Hst as [(H1 & _)|[(H1 & H2 & H3 & H4)|(H1 & H2 & H3 & H4)]];
    [lia| |].
  - destruct (ends_by_index true t (start_index st + 2) ltac:(lia))
      as [(R & E)|(R1 & R2 & E)]; cbn [awaited negb] in *.
    + rewrite R. change (-1 =? -1) with true. cbv iota.
      replace (start_index st + (len t - start_index st)) with (len t)
        by lia.
      rewrite (index_in_at_end comment_start t (len t))
        by (discriminate || lia).
      split.
      * split; cbn [start_index block_state comment_formats].
        -- apply formats_within_snoc; [exact Hfs|lia|lia|lia].
        -- left. rewrite H4, E. auto.
      * unfold comment_measure. cbn [start_index].
        change (-1 <? 0) with true.
        replace (start_index st <? 0) with false
          by (symmetry; apply Z.ltb_ge; lia).
        cbv iota. lia.
    + replace (index_in comment_end t (start_index st + 2) =? -1) with false
        by (symmetry; apply Z.eqb_neq; lia).
      replace (start_index st
               + (index_in comment_end t (start_index st + 2)
                  - start_index st + 2))
        with (index_in comment_end t (start_index st + 2) + 2) by lia.
      set (e := index_in comment_end t (start_index st + 2)) in *.
      destruct (comment_inv_outside t answer (e + 2)
                  (comment_formats st ++ [(start_index st,
                                           e - start_index st + 2)]))
        as (Inv & Hnext).
      * lia.
      * apply formats_within_snoc; [exact Hfs|lia|lia|lia].
      * rewrite H4. exact E.
      * rewrite H3. split; [exact Inv|].
        unfold comment_measure. cbn [start_index].
        replace (start_index st <? 0) with false
          by (symmetry; apply Z.ltb_ge; lia).
        destruct Hnext as [->|Hnext]; [change (-1 <? 0) with true; cbv iota; lia|].
        replace (index_in comment_start t (e + 2) <? 0) with false
          by (symmetry; apply Z.ltb_ge; lia).
        lia.
  - rewrite H1. cbn [Z.add].
    rewrite (index_in_later comment_end t 2) by (discriminate || lia || exact H4).
    change (-1 =? -1) with true. cbv iota.
    rewrite Z.sub_0_r.
    rewrite (index_in_at_end comment_start t (len t))
      by (discriminate || lia).
    split.
    + split; cbn [start_index block_state comment_formats].
      * apply formats_within_snoc; [exact Hfs|lia|lia|lia].
      * left. rewrite H3. auto.
    + unfold comment_measure. cbn [start_index].
      change (-1 <? 0) with true. rewrite H1. change (0 <? 0) with false.
      cbv iota. lia.
Qed.

Lemma index_in_range (p t : text) (o : Z) :
  p <> [] -> 0 <= o -> index_in p t o = -1 \/ o <= index_in p t o.
Proof.
  intros Hp Ho.
  destruct (index_in_spec p t o Hp Ho) as [(R & _)|(R1 & _)]; auto.
Qed.

Lemma comment_measure_fuel (t : text) (st : comment_state) :
  start_index st = -1 \/ 0 <= start_index st ->
  (comment_measure t st < fuel_of t)%nat.
Proof.
  intros H. unfold comment_measure, fuel_of. pose proof (len_nonneg t).
  unfold len in *.
  destruct (start_index st <? 0) eqn:E; [lia|].
  apply Z.ltb_ge in E. lia.
Qed.

Lemma highlight_comments_returns (previous_block_state : Z) (t : text) :
  returns (highlight_comments previous_block_state t)
    (fun r =>
       fst r = state_of (ends_in_comment (previous_block_state =? 1) false t)
       /\ formats_within t (snd r)).
Proof.
  unfold highlight_comments.
  set (answer := ends_in_comment (previous_block_state =? 1) false t).
  pose proof (len_nonneg t) as Hlen.
  match goal with
  | |- returns (bind (while _ _ _ ?st0) _) _ =>
      assert (comment_inv t answer st0 /\
              (comment_measure t st0 < fuel_of t)%nat) as (Inv0 & Mu0)
  end.
  { destruct (previous_block_state =? 1) eqn:P.
    - destruct (ends_by_index true t 0 ltac:(lia))
        as [(R & E)|(R1 & R2 & E)]; cbn [awaited negb] in *.
      + rewrite R. change (-1 =? -1) with true. cbv iota. split.
        * split; cbn [start_index block_state comment_formats].
          -- constructor; [cbn [fst snd]; lia|constructor].
          -- right. right. unfold answer. auto.
        * apply comment_measure_fuel. cbn [start_index]. lia.
      + replace (index_in comment_end t 0 =? -1) with false
          by (symmetry; apply Z.eqb_neq; lia).
        destruct (comment_inv_outside t answer
                    (index_in comment_end t 0 + 2)
                    [(0, index_in comment_end t 0 + 2)])
          as (Inv & Hnext).
        * lia.
        * constructor; [cbn [fst snd]; lia|constructor].
        * unfold answer. exact E.
        * split; [exact Inv|].
          apply comment_measure_fuel. cbn [start_index]. lia.
    - destruct (comment_inv_outside t answer 0 []) as (Inv & Hnext).
      + lia.
      + constructor.
      + reflexivity.
      + split; [exact Inv|].
        apply comment_measure_fuel. cbn [start_index]. lia. }
  apply returns_bind
    with (P := after_loop
                 (fun st => comment_inv t answer st /\ start_index st < 0)
                 (fun _ : Empty_set => True)).
  - apply while_exit
      with (Inv := comment_inv t answer) (mu := comment_measure t).
    + intros s Hs. apply returns_ok. split.
      * intros Hc. apply Z.geb_le in Hc.
        apply comment_step_returns; assumption.
      * intros Hc. split; [exact Hs|].
        destruct (start_index s >=? 0) eqn:G; [discriminate|].
        rewrite Z.geb_leb in G. apply Z.leb_gt in G. exact G.
    + exact Inv0.
    + exact Mu0.
  - intros [s|[]] ((Hfs & Hst) & Hneg). apply returns_ok.
    cbn [final fst snd]. split; [|exact Hfs].
    destruct Hst as [(_ & H)|[(H & _)|(H & _)]]; [exact H|lia|lia].
Qed.

(** X11: the comment pass of the highlighter ends on every block and
    sets the comment format within the block only: every call
    [setFormat(start, count, ...)] it makes has [0 <= start],
    [0 <= count] and [start + count <= len(text)]. *)
Theorem comment_formats_within_block (previous_block_state : Z) (t : text) :
  exists state formats,
    highlight_comments previous_block_state t = Ok (state, formats) /\
    Forall (fun f => 0 <= fst f /\ 0 <= snd f /\ fst f + snd f <= len t)
           formats.
Proof.
  destruct (highlight_comments_returns previous_block_state t)
    as ((state & formats) & E & _ & H).
  exists state, formats. split; [exact E|exact H].
Qed.

(** X12: the state the comment pass gives a block is 1 exactly when the
    end of the block lies inside a comment, for a reader that goes through
    the block character by character from the state of the previous block,
    entering a comment at [/*] and leaving it at the next [*/]. *)
Theorem block_state_tracks_comments (previous_block_state : Z) (t : text) :
  exists formats,
    highlight_comments previous_block_state t
    = Ok (state_of (ends_in_comment (previous_block_state =? 1) false t),
          formats).
Proof.
  destruct (highlight_comments_returns previous_block_state t)
    as ((state & formats) & E & H & _).
  exists formats. rewrite E. cbn [fst] in H. rewrite H. reflexivity.
Qed.

(** ** The depth tracker outside the text *)

Lemma getc_out_of_range (t : text) (i : Z) :
  len t <= i -> getc t i = Raise IndexError.
Proof.
  intros H. unfold getc. pose proof (len_nonneg t).
  replace (i <? len t) with false by (symmetry; apply Z.ltb_ge; lia).
  replace (i <? 0) with false by (symmetry; apply Z.ltb_ge; lia).
  rewrite !andb_false_r. reflexivity.
Qed.

Lemma depth_loop_raises (t : text) (n : nat) :
  forall (a b d : Z),
    0 <= a -> a + Z.of_nat n = len t -> len t < b ->
    for_in (R := Empty_set) (range a b)
      (fun i depth =>
         c <- getc t i ;;
         if ch_eqb c open_paren then Ok (Next (depth + 1))
         else if ch_eqb c close_paren then Ok (Next (depth - 1))
         else Ok (Next depth)) d
    = Raise IndexError.
Proof.
  induction n as [|n IH]; intros a b d Ha Hn Hb.
  - rewrite range_cons by lia. cbn [for_in].
    rewrite getc_out_of_range by lia. reflexivity.
  - rewrite range_cons by lia. cbn [for_in].
    rewrite getc_in_range by lia. cbn [bind].
    destruct (ch_eqb _ open_paren); [|destruct (ch_eqb _ close_paren)];
      cbn [bind]; apply IH; lia.
Qed.

(** X13: the depth tracker reads the text up to the offset it is given:
    for every offset beyond the end of the text it raises [IndexError],
    and for every offset that is not positive it reads nothing and
    answers 0. *)
Theorem get_paren_depth_outside (t : text) (k : nat) :
  get_paren_depth t (len t + 1 + Z.of_nat k) = Raise IndexError /\
  get_paren_depth t (- Z.of_nat k) = Ok 0.
Proof.
  split; unfold get_paren_depth.
  - pose proof (len_nonneg t).
    rewrite (depth_loop_raises t (length t)); [reflexivity|lia| |lia].
    unfold len. lia.
  - rewrite range_nil by lia. reflexivity.
Qed.

(** ** The tokenizer loses nothing *)

Lemma concat_merge (l : list text) :
  forall cur, concat (merge l cur) = cur ++ concat l.
Proof.
  induction l as [|a l IH]; intros cur; cbn [merge concat].
  - rewrite !app_nil_r. reflexivity.
  - destruct (is_delim a); cbn [concat]; rewrite IH.
    + reflexivity.
    + rewrite app_assoc. reflexivity.
Qed.

Lemma concat_nonempty (l : list text) :
  concat (filter (fun p => negb (is_nil p)) l) = concat l.
Proof.
  induction l as [|a l IH]; [reflexivity|]. cbn [filter concat].
  destruct a; cbn [is_nil negb concat app]; rewrite IH; reflexivity.
Qed.

Lemma concat_tokens (expr : text) :
  concat (_tokenize_for_pretty_print expr) = expr.
Proof.
  rewrite tokenize_atoms, concat_nonempty, concat_merge.
  apply concat_atoms.
Qed.

(** X14: the tokenizer of the printer loses no character: the tokens of
    an expression, put end to end, are the expression, and no token is
    empty. *)
Theorem tokens_concat (expr : text) :
  concat (_tokenize_for_pretty_print expr) = expr /\
  Forall (fun token => token <> []) (_tokenize_for_pretty_print expr).
Proof.
  split.
  - apply concat_tokens.
  - unfold _tokenize_for_pretty_print. apply Forall_forall.
    intros p Hp. apply filter_In in Hp as [_ Hp].
    destruct p; [discriminate|discriminate].
Qed.

(** ** Expanding what was compacted *)

Lemma endswith_space (x : text) : endswith (x ++ lit " ") (lit " ") = true.
Proof.
  unfold endswith. rewrite rev_app_distr. cbn. apply startswith_nil.
Qed.

Lemma spaced_flush (st : pp_state) :
  spaced (current_line st) -> spaced (current_line (flush st)).
Proof.
  intros H. unfold flush. destruct (negb (is_nil (strip (current_line st)))).
  - left. reflexivity.
  - exact H.
Qed.

Lemma pp_token_spaced (st : pp_state) (token : text) :
  spaced (current_line st) -> spaced (current_line (pp_token st token)).
Proof.
  intros H. unfold pp_token.
  destruct (is_nil (strip token)).
  - destruct (negb (is_nil (current_line st)) && _); [|exact H].
    right. cbn [current_line]. apply endswith_space.
  - destruct (text_eqb (strip token) (lit "("));
      [cbn [current_line]; apply spaced_flush, H|].
    destruct (text_eqb (strip token) (lit ")"));
      [cbn [current_line]; apply spaced_flush, H|].
    destruct (is_keyword_text (lower (strip token))); cbn [current_line];
      right.
    + apply endswith_space.
    + rewrite app_assoc. apply endswith_space.
Qed.

(** A token of whitespace only leaves the printer as it is. *)
Lemma pp_token_blank (st : pp_state) (token : text) :
  spaced (current_line st) -> is_nil (strip token) = true ->
  pp_token st token = st.
Proof.
  intros H E. unfold pp_token. rewrite E.
  destruct H as [H|H]; rewrite H.
  - reflexivity.
  - cbn [negb]. rewrite andb_false_r. reflexivity.
Qed.

Lemma lstrip_idem_head (t : text) :
  isspace_opt (hd_error t) = false -> lstrip t = t.
Proof.
  destruct t as [|c t]; [reflexivity|]. cbn. intros ->. reflexivity.
Qed.

Lemma strip_idem (t : text) : strip (strip t) = strip t.
Proof.
  destruct (strip_last t) as [E|(u & x & E & Hx)]; rewrite E; [reflexivity|].
  unfold strip at 1.
  assert (isspace_opt (hd_error (u ++ [x])) = false) as Hh.
  { rewrite <- E. unfold strip.
    destruct (rstrip_split (lstrip t)) as (b & _ & Hb).
    pose proof (lstrip_head t) as Hl. rewrite Hb in Hl.
    destruct (rstrip (lstrip t)); [reflexivity|exact Hl]. }
  rewrite (lstrip_idem_head _ Hh).
  rewrite rstrip_app_keep.
  - unfold rstrip. cbn. rewrite Hx. reflexivity.
  - unfold rstrip. cbn. rewrite Hx. discriminate.
Qed.

Lemma pp_token_strip (st : pp_state) (token : text) :
  pp_token st (strip token) = pp_token st token.
Proof. unfold pp_token. rewrite strip_idem. reflexivity. Qed.

(** The printer reads the contents of the tokens only. *)
Lemma pp_fold_contents (tokens : list text) :
  forall st,
    spaced (current_line st) ->
    fold_left pp_token tokens st
    = fold_left pp_token
        (filter (fun p => negb (is_nil p)) (map strip tokens)) st.
Proof.
  induction tokens as [|tok tokens IH]; intros st H; [reflexivity|].
  cbn [fold_left map filter].
  destruct (is_nil (strip tok)) eqn:E; cbn [negb].
  - rewrite (pp_token_blank st tok H E). apply IH. exact H.
  - cbn [fold_left]. rewrite pp_token_strip.
    apply IH. apply pp_token_spaced. exact H.
Qed.

Lemma expand_by_contents (t : text) :
  pretty_print_relevance t = print_tokens (token_contents t).
Proof.
  unfold pretty_print_relevance, print_tokens, token_contents.
  rewrite <- pp_fold_contents by (left; reflexivity). reflexivity.
Qed.

(** Expanding after compacting: the expansion in between changes
    nothing. *)
Lemma expand_compact_expand (s : text) :
  pretty_print_relevance (compact (pretty_print_relevance s))
  = pretty_print_relevance (compact s).
Proof.
  rewrite (expand_by_contents (compact (pretty_print_relevance s))).
  rewrite (expand_by_contents (compact s)). f_equal.
  rewrite !token_contents_normalized by apply tidy_compact.
  rewrite !normalized_tokens, !items_compact, items_expand.
  reflexivity.
Qed.

Lemma split_ws_aux_only_blank (b : text) :
  is_blank b = true -> forall cur, split_ws_aux b cur = split_ws_aux [] cur.
Proof.
  induction b as [|c b IH]; intros Hb cur; [reflexivity|].
  cbn [is_blank forallb] in Hb. apply andb_true_iff in Hb as [H1 H2].
  cbn [split_ws_aux]. rewrite H1.
  destruct cur; rewrite (IH H2); reflexivity.
Qed.

Lemma split_ws_aux_blank_end (u b : text) :
  is_blank b = true ->
  forall cur, split_ws_aux (u ++ b) cur = split_ws_aux u cur.
Proof.
  intros Hb. induction u as [|c u IH]; intros cur; cbn [app].
  - apply split_ws_aux_only_blank. exact Hb.
  - cbn [split_ws_aux]. destruct (isspace c).
    + destruct cur; rewrite IH; reflexivity.
    + apply IH.
Qed.

Lemma compact_strip (t : text) : compact (strip t) = compact t.
Proof.
  unfold compact, split_ws, strip.
  destruct (lstrip_split t) as (b1 & Hb1 & E1).
  destruct (rstrip_split (lstrip t)) as (b2 & Hb2 & E2).
  rewrite E1 at 2. rewrite split_ws_aux_blank by exact Hb1.
  rewrite E2 at 2. rewrite split_ws_aux_blank_end by exact Hb2.
  reflexivity.
Qed.

Lemma char_in_blank (c : ascii) (t : text) :
  char_in c t = true -> isspace c = false -> is_blank t = false.
Proof.
  induction t as [|x t IH]; intros H Hc; [discriminate|].
  cbn [char_in existsb] in H. cbn [is_blank forallb].
  apply orb_true_iff in H as [H|H].
  - apply ch_eqb_eq in H. subst x. rewrite Hc. reflexivity.
  - fold (char_in c t) in H. fold (is_blank t). rewrite (IH H Hc).
    apply andb_false_r.
Qed.

(** X15: Expand and Compact undo each other on an expanded text.  When
    the pane holds the expansion [e] of a compacted expression, and [e] has
    several lines, [format_expression] compacts it, and applied to the
    result it gives [e] back, character for character. *)
Theorem expand_compact_round_trip (s : text) :
  let e := pretty_print_relevance (compact s) in
  char_in nl (strip e) = true ->
  format_expression e = Some (compact e) /\
  format_expression (compact e) = Some e.
Proof.
  intros e Hnl.
  assert (is_nil (strip e) = false) as Ne
      by (destruct (strip e); [discriminate Hnl|reflexivity]).
  unfold format_expression. rewrite Ne, Hnl, compact_strip.
  split; [reflexivity|].
  rewrite strip_compact, (tidy_no_nl _ (tidy_compact e)).
  rewrite compact_nonempty
    by (rewrite <- strip_blank; exact Ne).
  f_equal. unfold e. rewrite expand_compact_expand, compact_idem.
  reflexivity.
Qed.

Lemma expand_compact_round_trip_witness :
  let e := pretty_print_relevance (compact (lit "(a  b)")) in
  char_in nl (strip e) = true /\
  format_expression e = Some (compact e) /\
  format_expression (compact e) = Some e.
Proof.
  split; [vm_compute; reflexivity|].
  apply (expand_compact_round_trip (lit "(a  b)")).
  vm_compute. reflexivity.
Defined.

(** ** Referents are stretches of the text *)

Lemma containing_whose_before (t : text) (it_pos : Z)
      (ms : list re_match) :
  (forall m, In m ms -> 0 <= m_end m) ->
  returns (containing_whose t it_pos ms) (clause_before ms it_pos).
Proof.
  intros H. unfold containing_whose.
  eapply returns_bind.
  - apply (for_in_returns (clause_before ms it_pos) (fun _ => True));
      [|exact I].
    intros m found Hm Hfound.
    eapply returns_bind; [apply scan_close_paren_returns; auto|].
    intros [e|] _.
    + destruct ((m_end m <=? it_pos) && (it_pos <=? e)) eqn:C;
        apply returns_ok; cbn; [|exact Hfound].
      apply andb_true_iff in C as [C _]. apply Z.leb_le in C. auto.
    + destruct (it_pos >=? m_end m) eqn:C; apply returns_ok; cbn;
        [|exact Hfound].
      rewrite Z.geb_leb in C. apply Z.leb_le in C. auto.
  - intros [st|[]] Hr. apply returns_ok. exact Hr.
Qed.

Lemma scan_open_paren_before (t : text) (expr_end : Z) :
  expr_end <= len t ->
  returns (scan_open_paren t expr_end)
          (fun st => os_start st <= expr_end - 2).
Proof.
  intros H. unfold scan_open_paren.
  eapply returns_bind.
  - apply (while_returns (fun st => os_start st <= expr_end - 2)
                         (fun _ => True)
                         (fun st => Z.to_nat (os_start st + 1))).
    + intros s Hs. apply returns_ok. intros C.
      apply andb_prop in C as [C _].
      rewrite getc_in_range by lia. cbn [bind]. apply returns_ok.
      cbn. lia.
    + cbn [os_start]. lia.
    + cbn [os_start]. pose proof (fuel_of_len t). pose proof (len_nonneg t).
      lia.
  - intros [st|[]] Hr. apply returns_ok. exact Hr.
Qed.

(** A referent [find_whose_context] finds is a stretch of the text that is
    not empty and ends before the [whose] of the clause, hence before the
    pronoun. *)
Lemma find_whose_context_before (t : text) (it_pos : Z) :
  returns (find_whose_context t it_pos) (referent_before t it_pos).
Proof.
  unfold find_whose_context.
  pose proof (whose_matches_bounds t) as Hb.
  destruct (finditer match_whose t) as [|m0 ms] eqn:E;
    [apply returns_ok; exact I|].
  eapply returns_bind.
  - apply containing_whose_before. intros m Hm. apply Hb in Hm. lia.
  - intros [m|] Hm; [|apply returns_ok; exact I].
    cbn in Hm. destruct Hm as [Hm Hpos]. apply Hb in Hm.
    eapply returns_bind; [apply skip_space_back_returns; lia|].
    intros e He. cbv beta in He.
    destruct (e =? 0) eqn:E0; [apply returns_ok; exact I|].
    rewrite getc_in_range by lia. cbn [bind].
    destruct (ch_eqb _ close_paren).
    + eapply returns_bind; [apply scan_open_paren_before; lia|].
      intros st Hst. cbv beta in Hst.
      destruct ((os_depth st =? 0) && (os_start st + 1 >=? 0)) eqn:C;
        apply returns_ok; [|exact I].
      apply andb_true_iff in C as [_ C]. rewrite Z.geb_leb in C.
      apply Z.leb_le in C. cbn. lia.
    + eapply returns_bind; [apply scan_word_start_returns; lia|].
      intros w Hw. cbv beta in Hw.
      destruct (w <? e) eqn:C; apply returns_ok; [|exact I].
      apply Z.ltb_lt in C. cbn. lia.
Qed.

Lemma trim_object_end_le (t : text) (obj_start obj_end : Z) :
  0 <= obj_start -> obj_end <= len t \/ obj_end <= obj_start ->
  returns (trim_object_end t obj_start obj_end) (fun e => e <= obj_end).
Proof.
  intros H1 H2. unfold trim_object_end.
  eapply returns_bind.
  - apply (while_returns
             (fun e => (e <= len t \/ e <= obj_start) /\ e <= obj_end)
             (fun _ => True)
             (fun e => Z.to_nat (e - obj_start))).
    + intros s Hs. destruct (s >? obj_start) eqn:E.
      * rewrite getc_in_range by lia. cbn [bind]. apply returns_ok.
        intros _. apply returns_ok. cbn. lia.
      * apply returns_ok. discriminate.
    + split; [exact H2|lia].
    + pose proof (fuel_of_len t). pose proof (len_nonneg t). lia.
  - intros [e|[]] Hr. apply returns_ok. cbn in Hr. cbn [final]. tauto.
Qed.

Lemma lstrip_len (l : text) : len (lstrip l) <= len l.
Proof.
  unfold len. apply inj_le.
  induction l as [|c l IH]; simpl; [lia|].
  destruct (isspace c); simpl; lia.
Qed.

Lemma match_of_space_min (s : text) (rel : Z) :
  match_of_space s = Some rel -> 3 <= rel.
Proof.
  unfold match_of_space. destruct (ci_prefix _ _); [|discriminate].
  destruct (count_space _); [discriminate|]. intros M. injection M as <-.
  lia.
Qed.

(** A referent [find_of_it_context] finds is a stretch of the text that is
    not empty. *)
Lemma find_of_it_context_within (t : text) (it_pos : Z) :
  it_pos <= len t ->
  returns (find_of_it_context t it_pos) (referent_within t).
Proof.
  intros H. unfold find_of_it_context.
  destruct (negb (follows_of t it_pos)); [apply returns_ok; exact I|].
  eapply returns_bind; [apply scan_enclosing_open_returns; exact H|].
  intros [ps|] Hps; [|apply returns_ok; exact I]. cbn in Hps.
  eapply returns_bind; [apply scan_close_paren_returns; lia|].
  intros [pe|] Hpe; [|apply returns_ok; exact I]. cbn in Hpe.
  destruct (negb _); [apply returns_ok; exact I|].
  destruct (match_of_space _) as [rel|] eqn:M; [|apply returns_ok; exact I].
  apply match_of_space_min in M.
  pose proof (lstrip_len (slice_from t (pe + 1))) as Hl.
  eapply returns_bind; [apply scan_object_end_returns; lia|].
  intros e He. cbv beta in He.
  eapply returns_bind; [apply trim_object_end_le; [lia|exact He]|].
  intros e' He'. cbv beta in He'.
  match goal with
  | |- returns (if ?c then _ else _) _ => destruct c eqn:C
  end; apply returns_ok; [|exact I].
  apply Z.gtb_lt in C. cbn. lia.
Qed.

(** A referent is a stretch of the text that is not empty. *)
Lemma find_it_referent_within (t : text) (k : keyword) :
  within t k -> returns (find_it_referent t k) (referent_within t).
Proof.
  intros (W1 & W2 & W3). unfold find_it_referent.
  eapply returns_bind; [apply find_whose_context_before|].
  intros [r|] Hr.
  - apply returns_ok. cbn in *. lia.
  - eapply returns_bind; [apply find_of_it_context_within; lia|].
    intros [r|] Hr2; apply returns_ok; [exact Hr2|exact I].
Qed.

Lemma sibling_selections_within (t : text) (keywords : list keyword)
      (current_it : keyword) (ref : referent) (selections : list selection) :
  all_within t keywords -> Forall (selection_within t) selections ->
  returns (sibling_selections t keywords current_it ref selections)
          (Forall (selection_within t)).
Proof.
  intros Hall Hs. unfold sibling_selections.
  eapply returns_bind.
  - apply (for_in_returns (Forall (selection_within t)) (fun _ => True));
      [|exact Hs].
    intros k sels Hk Hsels.
    destruct (negb _); [|apply returns_ok; exact Hsels].
    eapply returns_bind; [apply find_it_referent_returns; auto|].
    intros [o|] _; [|apply returns_ok; exact Hsels].
    destruct (_ && _); apply returns_ok; [|exact Hsels].
    cbn. apply Forall_app. split; [exact Hsels|].
    constructor; [|constructor]. exact (Hall k Hk).
  - intros [st|[]] Hr. apply returns_ok. exact Hr.
Qed.

Lemma highlight_it_references_within (t : text) (pos : Z) :
  returns (highlight_it_references t pos)
          (fun r => forall sels, r = Some sels ->
                                 Forall (selection_within t) sels).
Proof.
  unfold highlight_it_references.
  pose proof (it_keywords_all_within t) as Hall.
  destruct (it_keywords t) as [|k0 ks] eqn:E;
    [apply returns_ok; discriminate|].
  destruct (keyword_at (k0 :: ks) pos) as [cur|] eqn:A;
    [|apply returns_ok; discriminate].
  apply keyword_at_In in A as [Hin Hpos].
  pose proof (Hall cur Hin) as Hw.
  eapply returns_bind; [apply find_it_referent_within; exact Hw|].
  intros [ref|] Href.
  - eapply returns_bind.
    + apply sibling_selections_within; [exact Hall|].
      constructor; [exact Hw|]. constructor; [exact Href|constructor].
    + intros sels Hs. apply returns_ok. intros sels' E'.
      injection E' as <-. exact Hs.
  - apply returns_ok. intros sels' E'. injection E' as <-.
    constructor; [exact Hw|constructor].
Qed.

(** X16: every span the pronoun highlighter reports is a stretch of the
    text that is not empty: [0 <= start < end <= len(text)] holds for the
    pronoun under the cursor, for its referent and for the other pronouns
    reported with it, whatever the text and the cursor offset. *)
Theorem pronoun_spans_within_text (t : text) (pos : Z) :
  exists r,
    highlight_it_references t pos = Ok r /\
    forall sels, r = Some sels ->
      Forall (fun s => 0 <= sel_start s /\ sel_start s < sel_end s /\
                       sel_end s <= len t) sels.
Proof.
  destruct (highlight_it_references_within t pos) as (r & E & H).
  exists r. split; [exact E|exact H].
Qed.

(** X17: the referent the [whose] pattern gives a pronoun lies before the
    pronoun: it is a stretch of the text that is not empty and ends before
    the offset of the pronoun, whatever the text and the offset. *)
Theorem whose_referent_before_pronoun (t : text) (it_pos : Z) :
  exists o,
    find_whose_context t it_pos = Ok o /\
    forall r, o = Some r ->
      0 <= ref_start r /\ ref_start r < ref_end r /\
      ref_end r < it_pos /\ ref_end r <= len t.
Proof.
  destruct (find_whose_context_before t it_pos) as (o & E & H).
  exists o. split; [exact E|]. intros r ->. exact H.
Qed.

(** ** The of-it referent lies after the pronoun *)

Lemma count_char_app (c : ascii) (u v : text) :
  count_char c (u ++ v) = count_char c u + count_char c v.
Proof.
  induction u as [|x u IH]; cbn [app count_char]; [lia|]. rewrite IH. lia.
Qed.

Lemma sub_empty (t : text) (i : Z) : sub t i i = [].
Proof. unfold sub. rewrite Z.sub_diag. reflexivity. Qed.

Lemma sub_snoc (t : text) (i m : Z) :
  0 <= i <= m -> m < len t ->
  sub t i (m + 1) = sub t i m ++ [nth (Z.to_nat m) t zero].
Proof.
  intros Hi Hm. unfold sub.
  replace (Z.to_nat (m + 1 - i)) with (Datatypes.S (Z.to_nat (m - i))) by lia.
  assert (forall (l : text) (k : nat),
             (k < length l)%nat ->
             firstn (Datatypes.S k) l = firstn k l ++ [nth k l zero]) as F.
  { intros l k. revert l. induction k as [|k IH]; intros l Hk.
    - destruct l; [cbn in Hk; lia|reflexivity].
    - destruct l as [|x l]; [cbn in Hk; lia|].
      cbn [firstn nth app]. f_equal. apply IH. cbn in Hk. lia. }
  rewrite F by (rewrite length_skipn; unfold len in Hm; lia).
  f_equal. rewrite nth_skipn. f_equal. f_equal. lia.
Qed.

Lemma sub_cons (t : text) (i j : Z) :
  0 <= i < j -> i < len t ->
  sub t i j = nth (Z.to_nat i) t zero :: sub t (i + 1) j.
Proof.
  intros Hi Hl. unfold sub.
  rewrite (skipn_nth_cons t (Z.to_nat i)) by (unfold len in Hl; lia).
  replace (Z.to_nat (j - i)) with (Datatypes.S (Z.to_nat (j - (i + 1))))
    by lia.
  cbn [firstn]. f_equal. f_equal. f_equal. lia.
Qed.

(** The backward scan for the enclosing parenthesis, from offset [n] with
    depth [d]: between the parenthesis it finds and [n] the parentheses
    that open are as many as [d] and those that close, and from no place
    in between on do more open than that. *)
Lemma enclosing_loop (t : text) (n : nat) :
  forall d, 0 <= d -> Z.of_nat n <= len t ->
  exists st,
    for_in (R := Empty_set) (range_down (Z.of_nat n - 1) (-1))
      (fun i st =>
         c <- getc t i ;;
         if ch_eqb c close_paren then
           Ok (Next {| en_depth := en_depth st + 1;
                       en_start := en_start st |})
         else if ch_eqb c open_paren then
           if en_depth st =? 0
           then Ok (Break {| en_depth := en_depth st; en_start := Some i |})
           else Ok (Next {| en_depth := en_depth st - 1;
                            en_start := en_start st |})
         else Ok (Next st))
      {| en_depth := d; en_start := None |}
    = Ok (inl st) /\
    forall ps, en_start st = Some ps ->
      0 <= ps < Z.of_nat n /\
      count_char open_paren (sub t (ps + 1) (Z.of_nat n))
      = d + count_char close_paren (sub t (ps + 1) (Z.of_nat n)) /\
      forall i, ps < i <= Z.of_nat n ->
        count_char open_paren (sub t i (Z.of_nat n))
        <= d + count_char close_paren (sub t i (Z.of_nat n)).
Proof.
  induction n as [|n IH]; intros d Hd Hn.
  - rewrite range_down_nil by lia. eexists. split; [reflexivity|].
    cbn [en_start]. discriminate.
  - rewrite range_down_cons by lia. cbn [for_in].
    replace (Z.of_nat (Datatypes.S n) - 1) with (Z.of_nat n) by lia.
    rewrite getc_in_range by lia. cbn [bind].
    rewrite Nat2Z.id.
    assert (forall i, 0 <= i <= Z.of_nat n ->
              sub t i (Z.of_nat (Datatypes.S n))
              = sub t i (Z.of_nat n) ++ [nth n t zero]) as Sn.
    { intros i Hi.
      replace (Z.of_nat (Datatypes.S n)) with (Z.of_nat n + 1) by lia.
      rewrite sub_snoc by lia. rewrite Nat2Z.id. reflexivity. }
    assert (sub t (Z.of_nat (Datatypes.S n)) (Z.of_nat (Datatypes.S n)) = [])
      as Se by apply sub_empty.
    set (c := nth n t zero) in *.
    cbn [en_depth en_start].
    (* what the rest of the scan gives, from the depth [d'] *)
    assert (forall d',
              0 <= d' ->
              d' + (if ch_eqb c open_paren then 1 else 0)
              = d + (if ch_eqb c close_paren then 1 else 0) ->
              exists st,
                for_in (R := Empty_set) (range_down (Z.of_nat n - 1) (-1))
                  (fun i st =>
                     c <- getc t i ;;
                     if ch_eqb c close_paren then
                       Ok (Next {| en_depth := en_depth st + 1;
                                   en_start := en_start st |})
                     else if ch_eqb c open_paren then
                       if en_depth st =? 0
                       then Ok (Break {| en_depth := en_depth st;
                                         en_start := Some i |})
                       else Ok (Next {| en_depth := en_depth st - 1;
                                        en_start := en_start st |})
                     else Ok (Next st))
                  {| en_depth := d'; en_start := None |}
                = Ok (inl st) /\
                forall ps, en_start st = Some ps ->
                  0 <= ps < Z.of_nat (Datatypes.S n) /\
                  count_char open_paren
                    (sub t (ps + 1) (Z.of_nat (Datatypes.S n)))
                  = d + count_char close_paren
                          (sub t (ps + 1) (Z.of_nat (Datatypes.S n))) /\
                  forall i, ps < i <= Z.of_nat (Datatypes.S n) ->
                    count_char open_paren
                      (sub t i (Z.of_nat (Datatypes.S n)))
                    <= d + count_char close_paren
                             (sub t i (Z.of_nat (Datatypes.S n)))) as Go.
    { intros d' Hd' Hbal.
      destruct (IH d' Hd' ltac:(lia)) as (st & E & H).
      exists st. split; [exact E|]. intros ps Hps.
      destruct (H ps Hps) as (H1 & H2 & H3).
      split; [lia|]. split.
      - rewrite Sn by lia. rewrite !count_char_app. cbn [count_char].
        rewrite H2. lia.
      - intros i Hi.
        destruct (Z.eq_dec i (Z.of_nat (Datatypes.S n))) as [->|Hne].
        + rewrite Se. cbn [count_char]. lia.
        + rewrite Sn by lia. rewrite !count_char_app. cbn [count_char].
          specialize (H3 i ltac:(lia)). lia. }
    destruct (ch_eqb c close_paren) eqn:Ec.
    + assert (ch_eqb c open_paren = false) as Eo.
      { apply Ascii.eqb_eq in Ec. rewrite Ec. reflexivity. }
      rewrite Eo in Go. apply Go; lia.
    + destruct (ch_eqb c open_paren) eqn:Eo.
      * destruct (d =? 0) eqn:Ez.
        -- apply Z.eqb_eq in Ez. eexists. split; [reflexivity|].
           cbn [en_start]. intros ps Hps. injection Hps as <-.
           split; [lia|]. split.
           ++ replace (Z.of_nat n + 1) with (Z.of_nat (Datatypes.S n))
                by lia.
              rewrite Se. cbn [count_char]. lia.
           ++ intros i Hi.
              replace i with (Z.of_nat (Datatypes.S n)) by lia.
              rewrite Se. cbn [count_char]. lia.
        -- apply Z.eqb_neq in Ez. apply Go; lia.
      * apply Go; lia.
Qed.

(** The forward scan for the closing parenthesis passes over a stretch in
    which it cannot find it. *)
Lemma close_loop_skip (t : text) (n : nat) :
  forall (a b d : Z),
    0 <= a -> a + Z.of_nat n <= b -> b <= len t -> 0 < d ->
    (forall k, 0 <= k <= Z.of_nat n ->
       count_char close_paren (sub t a (a + k))
       < d + count_char open_paren (sub t a (a + k))) ->
    exists d',
      for_in (range a b) (close_paren_step t)
        {| cs_depth := d; cs_end := None |}
      = for_in (range (a + Z.of_nat n) b) (close_paren_step t)
          {| cs_depth := d'; cs_end := None |}.
Proof.
  induction n as [|n IH]; intros a b d Ha Hb Hl Hd Hbal.
  - exists d. rewrite Z.add_0_r. reflexivity.
  - rewrite range_cons by lia. cbn [for_in]. unfold close_paren_step at 1.
    rewrite getc_in_range by lia. cbn [bind].
    pose proof (Hbal 1 ltac:(lia)) as H1.
    rewrite (sub_cons t a (a + 1)) in H1 by lia.
    rewrite sub_empty in H1. cbn [count_char] in H1.
    replace (a + Z.of_nat (Datatypes.S n)) with (a + 1 + Z.of_nat n) by lia.
    set (c := nth (Z.to_nat a) t zero) in *.
    assert (forall d0,
              0 < d0 ->
              d0 + (if ch_eqb c close_paren then 1 else 0)
              = d + (if ch_eqb c open_paren then 1 else 0) ->
              exists d',
                for_in (range (a + 1) b) (close_paren_step t)
                  {| cs_depth := d0; cs_end := None |}
                = for_in (range (a + 1 + Z.of_nat n) b) (close_paren_step t)
                    {| cs_depth := d'; cs_end := None |}) as Go.
    { intros d0 Hd0 Hrel. apply IH; try lia.
      intros k Hk. specialize (Hbal (k + 1) ltac:(lia)).
      rewrite (sub_cons t a (a + (k + 1))) in Hbal by lia.
      cbn [count_char] in Hbal. fold c in Hbal.
      replace (a + 1 + k) with (a + (k + 1)) by lia. lia. }
    destruct (ch_eqb c open_paren) eqn:Eo.
    + assert (ch_eqb c close_paren = false) as Ec.
      { apply Ascii.eqb_eq in Eo. rewrite Eo. reflexivity. }
      rewrite Ec in Go. cbn [cs_depth cs_end]. apply Go; lia.
    + destruct (ch_eqb c close_paren) eqn:Ec; cbn [cs_depth cs_end].
      * cbv zeta. destruct (d - 1 =? 0) eqn:Ez; [lia|].
        apply Go; lia.
      * apply Go; lia.
Qed.

Lemma close_loop_from (t : text) (a b d : Z) :
  0 <= a -> b <= len t ->
  returns (for_in (range a b) (close_paren_step t)
             {| cs_depth := d; cs_end := None |})
          (after_loop (fun st => forall e, cs_end st = Some e -> a <= e)
                      (fun _ : Empty_set => True)).
Proof.
  intros Ha Hb.
  apply (for_in_returns (fun st => forall e, cs_end st = Some e -> a <= e)
                        (fun _ => True)); [|cbn; discriminate].
  intros i st Hi Hst. apply range_In in Hi. unfold close_paren_step.
  rewrite getc_in_range by lia. cbn [bind].
  destruct (ch_eqb _ open_paren); [apply returns_ok; exact Hst|].
  destruct (ch_eqb _ close_paren); [|apply returns_ok; exact Hst].
  cbv zeta. destruct (_ =? 0); apply returns_ok; cbn; [|exact Hst].
  intros e E. injection E as <-. lia.
Qed.

(** The parenthesis that closes the one found around the pronoun lies at
    the pronoun or after it. *)
Lemma enclosing_paren_closes_after (t : text) (it_pos ps pe : Z) :
  it_pos <= len t ->
  scan_enclosing_open t it_pos = Ok (Some ps) ->
  scan_close_paren t (ps + 1) = Ok (Some pe) ->
  it_pos <= pe.
Proof.
  intros Hlen Hopen Hclose.
  destruct (Z.le_gt_cases it_pos 0) as [Hneg|Hpos].
  { unfold scan_enclosing_open in Hopen.
    rewrite range_down_nil in Hopen by lia. discriminate Hopen. }
  unfold scan_enclosing_open in Hopen.
  destruct (enclosing_loop t (Z.to_nat it_pos) 0 ltac:(lia) ltac:(lia))
    as (st & E & H).
  rewrite Z2Nat.id in E, H by lia. rewrite E in Hopen. cbn in Hopen.
  injection Hopen as Hps. destruct (H ps Hps) as (H1 & H2 & H3).
  unfold scan_close_paren in Hclose.
  destruct (close_loop_skip t (Z.to_nat (it_pos - (ps + 1))) (ps + 1)
              (len t) 1) as (d' & E2); try lia.
  - intros k Hk.
    specialize (H3 (ps + 1 + k) ltac:(lia)).
    assert (sub t (ps + 1) it_pos
            = sub t (ps + 1) (ps + 1 + k) ++ sub t (ps + 1 + k) it_pos)
      as Sp.
    { unfold sub. rewrite <- (firstn_skipn (Z.to_nat k)
                               (firstn (Z.to_nat (it_pos - (ps + 1)))
                                  (skipn (Z.to_nat (ps + 1)) t))).
      f_equal.
      - rewrite firstn_firstn. f_equal. lia.
      - rewrite skipn_firstn_comm, skipn_skipn. f_equal; [lia|].
        f_equal. lia. }
    rewrite Sp, !count_char_app in H2. lia.
  - rewrite E2 in Hclose.
    replace (ps + 1 + Z.of_nat (Z.to_nat (it_pos - (ps + 1)))) with it_pos
      in Hclose by lia.
    destruct (close_loop_from t it_pos (len t) d' ltac:(lia) ltac:(lia))
      as (r & Er & Hr).
    rewrite Er in Hclose. cbn in Hclose.
    destruct r as [st2|[]]. cbn in Hr, Hclose.
    injection Hclose as Hc. exact (Hr pe Hc).
Qed.

(** X18: the referent the of-it pattern gives a pronoun lies after the
    pronoun: it is a stretch of the text that is not empty and starts
    after the offset of the pronoun, whatever the text, for every offset
    within it. *)
Theorem of_it_referent_after_pronoun (t : text) (it_pos : Z) :
  it_pos <= len t ->
  exists o,
    find_of_it_context t it_pos = Ok o /\
    forall r, o = Some r ->
      it_pos < ref_start r /\ ref_start r < ref_end r /\ ref_end r <= len t.
Proof.
  intros H.
  destruct (find_of_it_context_within t it_pos H) as (o & E & Hw).
  exists o. split; [exact E|]. intros r ->. cbn in Hw.
  split; [|tauto].
  unfold find_of_it_context in E.
  destruct (negb (follows_of t it_pos)); [discriminate|].
  destruct (scan_enclosing_open t it_pos) as [[ps|]| |] eqn:Eo;
    try discriminate.
  cbn [bind] in E.
  destruct (scan_close_paren t (ps + 1)) as [[pe|]| |] eqn:Ec;
    try discriminate.
  cbn [bind] in E.
  pose proof (enclosing_paren_closes_after t it_pos ps pe H Eo Ec) as Hpe.
  destruct (negb _); [discriminate|].
  destruct (match_of_space _) as [rel|] eqn:M; [|discriminate].
  apply match_of_space_min in M.
  pose proof (lstrip_len (slice_from t (pe + 1))) as Hl.
  destruct (scan_object_end t _) as [e| |]; try discriminate.
  cbn [bind] in E.
  destruct (trim_object_end t _ e) as [e'| |]; try discriminate.
  cbn [bind] in E.
  destruct (e' >? _); [|discriminate].
  injection E as <-. cbn [ref_start]. lia.
Qed.

Lemma of_it_referent_after_pronoun_witness :
  24 <= len of_it_sample /\
  exists o,
    find_of_it_context of_it_sample 24 = Ok o /\
    forall r, o = Some r ->
      24 < ref_start r /\ ref_start r < ref_end r /\
      ref_end r <= len of_it_sample.
Proof.
  split; [vm_compute; discriminate|].
  apply (of_it_referent_after_pronoun of_it_sample 24).
  vm_compute. discriminate.
Defined.

(** ** Matching brackets, in general *)

Lemma forward_run (o c : ascii) (s : text) :
  forall (pre : text) (cnt : Z) (fuel : nat),
    (length s < fuel)%nat ->
    returns
      (while (R := Z) fuel (search_cond_forward (pre ++ s))
         (search_body (pre ++ s) [o] c 1)
         {| count := cnt; search_pos := len pre |})
      (search_result
         (option_map (fun k => len pre + Z.of_nat k)
            (closing_index o c cnt s))).
Proof.
  induction s as [|x s IH]; intros pre cnt fuel Hf.
  - destruct fuel; [lia|]. cbn [closing_index while option_map].
    unfold search_cond_forward. cbn [bind search_pos].
    rewrite app_nil_r, Z.ltb_irrefl. apply returns_ok. eexists. reflexivity.
  - destruct fuel; [lia|]. cbn [length] in Hf. cbn [closing_index while].
    unfold search_cond_forward at 1. cbn [bind search_pos].
    assert ((len pre <? len (pre ++ x :: s)) = true) as ->.
    { rewrite len_app, len_cons. pose proof (len_nonneg s).
      apply Z.ltb_lt. lia. }
    unfold search_body at 1. cbn [search_pos count].
    rewrite getc_middle. cbn [bind text_eqb]. rewrite andb_true_r.
    assert (forall cnt',
              returns
                (while (R := Z) fuel (search_cond_forward (pre ++ x :: s))
                   (search_body (pre ++ x :: s) [o] c 1)
                   {| count := cnt'; search_pos := len pre + 1 |})
                (search_result
                   (option_map (fun k => len pre + Z.of_nat k)
                      (option_map Datatypes.S (closing_index o c cnt' s)))))
      as Go.
    { intros cnt'. specialize (IH (pre ++ [x]) cnt' fuel ltac:(lia)).
      rewrite <- app_assoc in IH. cbn [app] in IH.
      rewrite len_app, len_cons in IH. change (len []) with 0 in IH.
      rewrite Z.add_0_r in IH.
      destruct (closing_index o c cnt' s) as [k|]; cbn [option_map] in *;
        [|exact IH].
      replace (len pre + Z.of_nat (Datatypes.S k))
        with (len pre + 1 + Z.of_nat k) by lia.
      exact IH. }
    destruct (ch_eqb x o); [cbn [bind]; apply Go|].
    destruct (ch_eqb x c); [|cbn [bind]; apply Go].
    cbv zeta. destruct (cnt - 1 =? 0); [|cbn [bind]; apply Go].
    cbn [bind option_map]. apply returns_ok. cbn [search_result].
    f_equal. lia.
Qed.

Lemma backward_run (c o : ascii) (pre : text) :
  forall (post : text) (cnt : Z) (fuel : nat),
    (length pre < fuel)%nat ->
    returns
      (while (R := Z) fuel search_cond_backward
         (search_body (pre ++ post) [c] o (-1))
         {| count := cnt; search_pos := len pre - 1 |})
      (search_result
         (option_map (fun k => len pre - 1 - Z.of_nat k)
            (closing_index c o cnt (rev pre)))).
Proof.
  induction pre as [|x pre IH] using rev_ind; intros post cnt fuel Hf.
  - destruct fuel; [lia|]. cbn [rev closing_index while option_map].
    apply returns_ok. eexists. reflexivity.
  - destruct fuel; [rewrite length_app in Hf; cbn in Hf; lia|].
    rewrite length_app in Hf. cbn [length] in Hf.
    rewrite rev_app_distr. cbn [rev app closing_index while].
    unfold search_cond_backward at 1. cbn [bind search_pos].
    rewrite len_app, len_cons. change (len []) with 0.
    replace (len pre + (1 + 0) - 1) with (len pre) by lia.
    assert ((len pre >=? 0) = true) as ->.
    { pose proof (len_nonneg pre). rewrite Z.geb_leb. apply Z.leb_le. lia. }
    unfold search_body at 1. cbn [search_pos count].
    rewrite <- app_assoc. cbn [app].
    rewrite getc_middle. cbn [bind text_eqb]. rewrite andb_true_r.
    assert (forall cnt',
              returns
                (while (R := Z) fuel search_cond_backward
                   (search_body (pre ++ x :: post) [c] o (-1))
                   {| count := cnt'; search_pos := len pre + -1 |})
                (search_result
                   (option_map (fun k => len pre - Z.of_nat k)
                      (option_map Datatypes.S
                         (closing_index c o cnt' (rev pre)))))) as Go.
    { intros cnt'. specialize (IH (x :: post) cnt' fuel ltac:(lia)).
      replace (len pre + -1) with (len pre - 1) by lia.
      destruct (closing_index c o cnt' (rev pre)) as [k|];
        cbn [option_map] in *; [|exact IH].
      replace (len pre - Z.of_nat (Datatypes.S k))
        with (len pre - 1 - Z.of_nat k) by lia.
      exact IH. }
    destruct (ch_eqb x c); [cbn [bind]; apply Go|].
    destruct (ch_eqb x o); [|cbn [bind]; apply Go].
    cbv zeta. destruct (cnt - 1 =? 0); [|cbn [bind]; apply Go].
    cbn [bind option_map]. apply returns_ok. cbn [search_result].
    f_equal. lia.
Qed.

(** The search from an opener, and the search from a closer, as
    [closing_index] on the text ahead. *)
Lemma find_match_forward (pre s : text) (o c : ascii) :
  In ([o], c) bracket_pairs ->
  find_match (pre ++ o :: s) (len pre) [o]
  = Ok (option_map (fun k => len pre + 1 + Z.of_nat k)
          (closing_index o c 1 s)).
Proof.
  intros Hp.
  destruct (pair_facts o c Hp) as (Ho & Hoo & Hl & _).
  unfold find_match, find_matching_bracket. unfold is_bracket in Ho.
  rewrite Ho, Hoo, Hl. cbn [is_nil negb orb bind].
  change (fun st : search_state => Ok (search_pos st <? len (pre ++ o :: s)))
    with (search_cond_forward (pre ++ o :: s)).
  pose proof (forward_run o c s (pre ++ [o]) 1 (fuel_of (pre ++ o :: s)))
    as R.
  rewrite <- app_assoc in R. cbn [app] in R.
  rewrite len_app, len_cons in R. change (len []) with 0 in R.
  rewrite Z.add_0_r in R.
  assert (length s < fuel_of (pre ++ o :: s))%nat as Hf.
  { unfold fuel_of. rewrite length_app. cbn [length]. lia. }
  destruct (R Hf) as (r & -> & Hr). cbn [bind].
  destruct (closing_index o c 1 s) as [k|]; cbn [option_map search_result]
    in *.
  - rewrite Hr. reflexivity.
  - destruct Hr as (st & ->). reflexivity.
Qed.

Lemma find_match_backward (pre post : text) (o c : ascii) :
  In ([o], c) bracket_pairs ->
  find_match (pre ++ c :: post) (len pre) [c]
  = Ok (option_map (fun k => len pre - 1 - Z.of_nat k)
          (closing_index c o 1 (rev pre))).
Proof.
  intros Hp.
  destruct (pair_facts o c Hp) as (_ & _ & _ & Hc & Hco & Hcc & Hl & _).
  unfold find_match, find_matching_bracket. unfold is_bracket in Hc.
  rewrite Hc, Hco, Hcc, Hl. cbn [is_nil negb orb bind].
  change (fun st : search_state => Ok (search_pos st >=? 0))
    with search_cond_backward.
  assert (length pre < fuel_of (pre ++ c :: post))%nat as Hf.
  { unfold fuel_of. rewrite length_app. cbn [length]. lia. }
  destruct (backward_run c o pre (c :: post) 1
              (fuel_of (pre ++ c :: post)) Hf) as (r & -> & Hr).
  cbn [bind].
  destruct (closing_index c o 1 (rev pre)) as [k|];
    cbn [option_map search_result] in *.
  - rewrite Hr. reflexivity.
  - destruct Hr as (st & ->). reflexivity.
Qed.

(** Where [closing_index] finds the partner: the characters before it
    hold as many brackets as partners, and none of their beginnings holds
    more partners than the count allows. *)
Lemma closing_index_found (up down : ascii) :
  ch_eqb up down = false ->
  forall (s : text) (n : Z) (k : nat),
    1 <= n -> closing_index up down n s = Some k ->
    exists b d,
      s = b ++ down :: d /\ length b = k /\
      n + count_char up b - count_char down b = 1 /\
      forall b1 b2, b = b1 ++ b2 ->
                    1 <= n + count_char up b1 - count_char down b1.
Proof.
  intros Hne. induction s as [|x s IH]; intros n k Hn H; [discriminate|].
  cbn [closing_index] in H.
  assert (forall n' k',
            1 <= n' ->
            n' = n + (if ch_eqb x up then 1 else 0)
                 - (if ch_eqb x down then 1 else 0) ->
            closing_index up down n' s = Some k' ->
            exists b d,
              x :: s = b ++ down :: d /\ length b = Datatypes.S k' /\
              n + count_char up b - count_char down b = 1 /\
              forall b1 b2, b = b1 ++ b2 ->
                            1 <= n + count_char up b1 - count_char down b1)
    as Go.
  { intros n' k' Hn' En' Hk'.
    destruct (IH n' k' Hn' Hk') as (b & d & Es & Hl & Hb & Hpre).
    exists (x :: b), d. split; [rewrite Es; reflexivity|].
    split; [cbn [length]; lia|]. split; [cbn [count_char]; lia|].
    intros [|y b1] b2 E; [cbn [count_char]; lia|].
    injection E as <- E. cbn [count_char].
    specialize (Hpre b1 b2 E). lia. }
  destruct (ch_eqb x up) eqn:Eu.
  - assert (ch_eqb x down = false) as Ed.
    { apply ch_eqb_eq in Eu. subst x. exact Hne. }
    rewrite Ed in Go.
    destruct (closing_index up down (n + 1) s) as [k'|] eqn:Ek;
      [|discriminate].
    injection H as <-. apply (Go (n + 1) k'); [lia|lia|exact Ek].
  - destruct (ch_eqb x down) eqn:Ed.
    + destruct (n - 1 =? 0) eqn:Ez.
      * injection H as <-. apply Z.eqb_eq in Ez. apply ch_eqb_eq in Ed.
        subst x. exists [], s. split; [reflexivity|].
        split; [reflexivity|]. split; [cbn [count_char]; lia|].
        intros b1 b2 E. symmetry in E. apply app_eq_nil in E as [-> _].
        cbn [count_char]. lia.
      * apply Z.eqb_neq in Ez.
        destruct (closing_index up down (n - 1) s) as [k'|] eqn:Ek;
          [|discriminate].
        injection H as <-. apply (Go (n - 1) k'); [lia|lia|exact Ek].
    + destruct (closing_index up down n s) as [k'|] eqn:Ek; [|discriminate].
      injection H as <-. apply (Go n k'); [lia|lia|exact Ek].
Qed.

Lemma closing_index_reached (up down : ascii) :
  ch_eqb up down = false ->
  forall (r w : text) (m : Z),
    (forall r1 r2, r = r1 ++ r2 ->
                   1 <= m + count_char up r1 - count_char down r1) ->
    m + count_char up r - count_char down r = 1 ->
    closing_index up down m (r ++ down :: w) = Some (length r).
Proof.
  intros Hne. induction r as [|x r IH]; intros w m Hpre Htot.
  - cbn [app closing_index]. cbn [count_char] in Htot.
    rewrite ch_eqb_sym, Hne.
    rewrite (proj2 (ch_eqb_eq down down) eq_refl).
    replace (m - 1 =? 0) with true by (symmetry; apply Z.eqb_eq; lia).
    reflexivity.
  - cbn [app closing_index length]. cbn [count_char] in Htot.
    pose proof (Hpre [x] r eq_refl) as H1. cbn [count_char] in H1.
    assert (forall m',
              m' = m + (if ch_eqb x up then 1 else 0)
                   - (if ch_eqb x down then 1 else 0) ->
              closing_index up down m' (r ++ down :: w) = Some (length r))
      as Go.
    { intros m' Em. apply IH; [|lia].
      intros r1 r2 E. specialize (Hpre (x :: r1) r2).
      cbn [app count_char] in Hpre. rewrite E in Hpre.
      specialize (Hpre eq_refl). lia. }
    destruct (ch_eqb x up) eqn:Eu.
    + assert (ch_eqb x down = false) as Ed.
      { apply ch_eqb_eq in Eu. subst x. exact Hne. }
      rewrite Ed in Go. rewrite (Go (m + 1)) by lia. reflexivity.
    + destruct (ch_eqb x down) eqn:Ed.
      * replace (m - 1 =? 0) with false
          by (symmetry; apply Z.eqb_neq; lia).
        rewrite (Go (m - 1)) by lia. reflexivity.
      * rewrite (Go m) by lia. reflexivity.
Qed.

Lemma count_char_rev (c : ascii) (s : text) :
  count_char c (rev s) = count_char c s.
Proof.
  induction s as [|x s IH]; [reflexivity|].
  cbn [rev]. rewrite count_char_app, IH. cbn [count_char]. lia.
Qed.

(** The search from the partner found comes back: what lies between a
    bracket and the partner found for it is read the other way round by
    the search in the other direction. *)
Lemma closing_index_back (up down : ascii) (s : text) (k : nat) (w : text) :
  ch_eqb up down = false ->
  closing_index up down 1 s = Some k ->
  exists b d,
    s = b ++ down :: d /\ length b = k /\
    closing_index down up 1 (rev b ++ up :: w) = Some k.
Proof.
  intros Hne H.
  destruct (closing_index_found up down Hne s 1 k ltac:(lia) H)
    as (b & d & Es & Hl & Hb & Hpre).
  exists b, d. split; [exact Es|]. split; [exact Hl|].
  rewrite <- Hl, <- length_rev.
  apply closing_index_reached.
  - rewrite ch_eqb_sym. exact Hne.
  - intros r1 r2 E.
    assert (b = rev r2 ++ rev r1) as Eb.
    { rewrite <- rev_app_distr, <- E, rev_involutive. reflexivity. }
    specialize (Hpre (rev r2) (rev r1) Eb).
    rewrite Eb, !count_char_app, !count_char_rev in Hb.
    rewrite !count_char_rev in Hpre. lia.
  - rewrite !count_char_rev. lia.
Qed.

Lemma getc_split (t : text) (p : Z) (x : ascii) :
  0 <= p -> getc t p = Ok x ->
  exists pre post, t = pre ++ x :: post /\ len pre = p.
Proof.
  intros Hp H.
  assert (p < len t) as Hlt.
  { destruct (Z.lt_ge_cases p (len t)) as [L|G]; [exact L|].
    rewrite getc_out_of_range in H by lia. discriminate H. }
  rewrite getc_in_range in H by lia. injection H as <-.
  exists (firstn (Z.to_nat p) t), (skipn (Datatypes.S (Z.to_nat p)) t).
  split.
  - rewrite <- skipn_nth_cons by (unfold len in Hlt; lia).
    symmetry. apply firstn_skipn.
  - unfold len in *. rewrite length_firstn. lia.
Qed.

(** X19: from an opener the bracket matcher finds a closer of its type
    after it, within the text, and from that closer it finds the opener
    again, however the brackets in between are nested. *)
Theorem opener_round_trip (t : text) (p q : Z) (o c : ascii) :
  In ([o], c) bracket_pairs -> 0 <= p -> getc t p = Ok o ->
  find_matching_bracket t p [o] open_brackets close_brackets
    bracket_pairs reverse_pairs = Ok (Some q) ->
  p < q < len t /\ getc t q = Ok c /\
  find_matching_bracket t q [c] open_brackets close_brackets
    bracket_pairs reverse_pairs = Ok (Some p).
Proof.
  intros Hp Hpos Hg H. fold (find_match t p [o]) in H.
  fold (find_match t q [c]).
  destruct (pair_facts o c Hp) as (_ & _ & _ & _ & _ & _ & _ & _ & Hoc).
  destruct (getc_split t p o Hpos Hg) as (pre & s & -> & <-).
  rewrite (find_match_forward pre s o c Hp) in H.
  destruct (closing_index o c 1 s) as [k|] eqn:Ek; [|discriminate].
  cbn [option_map] in H. injection H as <-.
  destruct (closing_index_back o c s k (rev pre) Hoc Ek)
    as (b & d & -> & Hl & Hback).
  assert (len pre + 1 + Z.of_nat k = len (pre ++ o :: b)) as Eq.
  { rewrite len_app, len_cons. unfold len. lia. }
  rewrite Eq.
  replace (pre ++ o :: b ++ c :: d) with ((pre ++ o :: b) ++ c :: d)
    by (rewrite <- app_assoc; reflexivity).
  split; [|split].
  - rewrite !len_app, !len_cons. pose proof (len_nonneg pre).
    pose proof (len_nonneg b). pose proof (len_nonneg d). lia.
  - apply getc_middle.
  - rewrite (find_match_backward (pre ++ o :: b) d o c Hp).
    rewrite rev_app_distr. cbn [rev]. rewrite <- app_assoc. cbn [app].
    rewrite Hback. cbn [option_map]. f_equal. f_equal.
    rewrite len_app, len_cons. unfold len. lia.
Qed.

Lemma opener_round_trip_witness :
  In ([open_paren], close_paren) bracket_pairs /\ 0 <= 1 /\
  getc (lit "f((a)b)c") 1 = Ok open_paren /\
  find_matching_bracket (lit "f((a)b)c") 1 [open_paren] open_brackets
    close_brackets bracket_pairs reverse_pairs = Ok (Some 6) /\
  1 < 6 < len (lit "f((a)b)c") /\
  getc (lit "f((a)b)c") 6 = Ok close_paren /\
  find_matching_bracket (lit "f((a)b)c") 6 [close_paren] open_brackets
    close_brackets bracket_pairs reverse_pairs = Ok (Some 1).
Proof.
  split; [left; reflexivity|]. split; [lia|]. split; [reflexivity|].
  split; [vm_compute; reflexivity|].
  apply (opener_round_trip (lit "f((a)b)c") 1 6 open_paren close_paren).
  - left. reflexivity.
  - lia.
  - reflexivity.
  - vm_compute. reflexivity.
Defined.

(** X20: from a closer the bracket matcher finds an opener of its type
    before it, and from that opener it finds the closer again, however
    the brackets in between are nested. *)
Theorem closer_round_trip (t : text) (p q : Z) (o c : ascii) :
  In ([o], c) bracket_pairs -> 0 <= q -> getc t q = Ok c ->
  find_matching_bracket t q [c] open_brackets close_brackets
    bracket_pairs reverse_pairs = Ok (Some p) ->
  0 <= p < q /\ getc t p = Ok o /\
  find_matching_bracket t p [o] open_brackets close_brackets
    bracket_pairs reverse_pairs = Ok (Some q).
Proof.
  intros Hp Hpos Hg H. fold (find_match t q [c]) in H.
  fold (find_match t p [o]).
  destruct (pair_facts o c Hp) as (_ & _ & _ & _ & _ & _ & _ & Hco & _).
  destruct (getc_split t q c Hpos Hg) as (pre & post & -> & <-).
  rewrite (find_match_backward pre post o c Hp) in H.
  destruct (closing_index c o 1 (rev pre)) as [k|] eqn:Ek; [|discriminate].
  cbn [option_map] in H. injection H as <-.
  destruct (closing_index_back c o (rev pre) k post Hco Ek)
    as (b & d & Er & Hl & Hback).
  assert (pre = rev d ++ o :: rev b) as Epre.
  { rewrite <- (rev_involutive pre), Er, rev_app_distr. cbn [rev].
    rewrite <- app_assoc. reflexivity. }
  assert (len pre - 1 - Z.of_nat k = len (rev d)) as Eq.
  { rewrite Epre, len_app, len_cons. unfold len. rewrite !length_rev. lia. }
  rewrite Eq. rewrite Epre. rewrite <- app_assoc. cbn [app].
  split; [|split].
  - rewrite len_app, len_cons. pose proof (len_nonneg (rev d)).
    pose proof (len_nonneg (rev b)). lia.
  - apply getc_middle.
  - rewrite (find_match_forward (rev d) (rev b ++ c :: post) o c Hp).
    rewrite Hback. cbn [option_map]. f_equal. f_equal.
    rewrite len_app, len_cons. unfold len. rewrite !length_rev. lia.
Qed.

Lemma closer_round_trip_witness :
  In (["["%char], "]"%char) bracket_pairs /\ 0 <= 5 /\
  getc (lit "x[[0]]") 5 = Ok "]"%char /\
  find_matching_bracket (lit "x[[0]]") 5 ["]"%char] open_brackets
    close_brackets bracket_pairs reverse_pairs = Ok (Some 1) /\
  0 <= 1 < 5 /\
  getc (lit "x[[0]]") 1 = Ok "["%char /\
  find_matching_bracket (lit "x[[0]]") 1 ["["%char] open_brackets
    close_brackets bracket_pairs reverse_pairs = Ok (Some 5).
Proof.
  split; [right; left; reflexivity|]. split; [lia|]. split; [reflexivity|].
  split; [vm_compute; reflexivity|].
  apply (closer_round_trip (lit "x[[0]]") 1 5 "["%char "]"%char).
  - right. left. reflexivity.
  - lia.
  - reflexivity.
  - vm_compute. reflexivity.
Defined.

(** ** The groups the keyword-block matcher gives *)

Lemma for_in_prefix {I S R} (Inv : list I -> S -> Prop) (F : S -> Prop)
      (Q : R -> Prop) (xs : list I) (body : I -> S -> result (ctl S R)) :
  (forall pre x post s c,
      xs = pre ++ x :: post -> Inv pre s -> body x s = Ok c ->
      after_prefix_step Inv F Q pre x c) ->
  (forall s, Inv xs s -> F s) ->
  forall s r, Inv [] s -> for_in xs body s = Ok r -> after_loop F Q r.
Proof.
  intros Hstep Hend.
  assert (forall rest pre s r,
             xs = pre ++ rest -> Inv pre s ->
             for_in rest body s = Ok r -> after_loop F Q r) as G.
  { induction rest as [|x rest IH]; intros pre s r E Hs Hr.
    - cbn in Hr. injection Hr as <-. cbn. apply Hend.
      rewrite E, app_nil_r. exact Hs.
    - cbn [for_in] in Hr. destruct (body x s) as [c| |] eqn:Eb;
        try discriminate Hr.
      cbn [bind] in Hr. pose proof (Hstep pre x rest s c E Hs Eb) as Hc.
      destruct c as [s'|s'|v]; cbn in Hc.
      + apply (IH (pre ++ [x]) s' r); [|exact Hc|exact Hr].
        rewrite <- app_assoc. exact E.
      + injection Hr as <-. exact Hc.
      + injection Hr as <-. exact Hc. }
  intros s r Hs Hr. apply (G xs [] s r); auto.
Qed.

Lemma ascending_split {A} (f : A -> Z) (pre : list A) (x : A)
      (post : list A) :
  ascending (map f (pre ++ x :: post)) ->
  forall k, In k pre -> f k < f x.
Proof.
  induction pre as [|a pre IH]; intros H k Hk; [contradiction|].
  cbn [app map ascending] in H. destruct H as [H1 H2].
  destruct Hk as [<-|Hk].
  - apply H1. rewrite map_app. apply in_or_app. right. left. reflexivity.
  - apply IH; assumption.
Qed.

Lemma descending_split {A} (f : A -> Z) (pre : list A) (x : A)
      (post : list A) :
  descending (map f (pre ++ x :: post)) ->
  forall k, In k pre -> f x < f k.
Proof.
  induction pre as [|a pre IH]; intros H k Hk; [contradiction|].
  cbn [app map descending] in H. destruct H as [H1 H2].
  destruct Hk as [<-|Hk].
  - apply H1. rewrite map_app. apply in_or_app. right. left. reflexivity.
  - apply IH; assumption.
Qed.

Lemma ascending_filter (f : keyword -> bool) (l : list keyword) :
  ascending (map start l) -> ascending (map start (filter f l)).
Proof.
  induction l as [|a l IH]; intros H; [exact I|].
  cbn [map ascending] in H. destruct H as [H1 H2]. cbn [filter].
  destruct (f a); [|exact (IH H2)].
  cbn [map ascending]. split; [|exact (IH H2)].
  intros y Hy. apply H1. apply in_map_iff in Hy as (k & <- & Hk).
  apply filter_In in Hk as [Hk _]. apply in_map. exact Hk.
Qed.

(** Keywords in the order of the text are sorted already. *)
Lemma sorted_by_start_ascending (l : list keyword) :
  ascending (map start l) -> sorted_by_start l = l.
Proof.
  unfold sorted_by_start, sort_by.
  induction l as [|a l IH]; intros H; [reflexivity|].
  cbn [map ascending] in H. destruct H as [H1 H2].
  cbn [fold_right]. rewrite (IH H2).
  destruct l as [|b l]; [reflexivity|]. cbn [insert_by].
  replace (start a <=? start b) with true; [reflexivity|].
  symmetry. apply Z.leb_le.
  specialize (H1 (start b) (or_introl eq_refl)). lia.
Qed.

Lemma insert_by_last (a : keyword) (m : list keyword) :
  (forall x, In x m -> start a < start x) ->
  insert_by (fun a b => start b <=? start a) a m = m ++ [a].
Proof.
  induction m as [|b m IH]; intros H; [reflexivity|].
  cbn [insert_by app].
  replace (start b <=? start a) with false.
  - f_equal. apply IH. intros x Hx. apply H. right. exact Hx.
  - symmetry. apply Z.leb_gt. apply H. left. reflexivity.
Qed.

Lemma sorted_by_start_reverse_ascending (l : list keyword) :
  ascending (map start l) -> sorted_by_start_reverse l = rev l.
Proof.
  unfold sorted_by_start_reverse, sort_by.
  induction l as [|a l IH]; intros H; [reflexivity|].
  cbn [map ascending] in H. destruct H as [H1 H2].
  cbn [fold_right rev]. rewrite (IH H2).
  apply insert_by_last. intros x Hx. apply in_rev in Hx.
  apply H1. apply in_map. exact Hx.
Qed.

Lemma scan_ascending (m : option ascii -> text -> option nat) :
  bounded m ->
  forall rest prev pos skip,
    ascending (map m_start (scan m prev rest pos skip)).
Proof.
  intros Hb. induction rest as [|c rest IH]; intros prev pos skip;
    [exact I|].
  cbn [scan]. destruct skip as [|k]; [|apply IH].
  destruct (m prev (c :: rest)) as [[|k]|] eqn:E; try apply IH.
  cbn [map ascending m_start]. split; [|apply IH].
  intros y Hy. apply in_map_iff in Hy as (x & <- & Hx).
  apply (scan_bounds m Hb) in Hx. lia.
Qed.

Lemma if_keywords_ascending (t : text) :
  ascending (map start (if_keywords t)).
Proof.
  unfold if_keywords, finditer. rewrite map_map.
  change (fun x => start (keyword_of x)) with m_start.
  apply scan_ascending. intros prev rest k. apply match_alts_bound.
Qed.

Lemma word_is_eq (k : keyword) (w : string) :
  word_is k w = true -> word k = lit w.
Proof. unfold word_is. apply text_eqb_eq. Qed.

(* The cases of a step that gives a value. *)
Ltac ok_cases H :=
  repeat (first
    [ discriminate H
    | match type of H with
      | bind ?m _ = Ok _ =>
          let E := fresh "E" in destruct m eqn:E; cbn [bind] in H
      | (if ?b then _ else _) = Ok _ =>
          let E := fresh "E" in destruct b eqn:E
      | match ?d with inl _ => _ | inr _ => _ end = Ok _ => destruct d
      end ]).

(** *** From an [if] *)

Lemma find_then_else_for_if_group (t : text) (if_kw : keyword)
      (keywords : list keyword) (tr : triple) :
  ascending (map start keywords) ->
  In if_kw keywords -> word if_kw = lit "if" ->
  find_then_else_for_if t if_kw keywords = Ok tr ->
  group_ok keywords tr.
Proof.
  intros Hasc Hin Hw H. unfold find_then_else_for_if in H.
  destruct (get_paren_depth t (start if_kw)) as [sd| |]; try discriminate H.
  cbn [bind] in H.
  rewrite sorted_by_start_ascending in H by (apply ascending_filter, Hasc).
  set (A := filter (fun k => start k >? start if_kw) keywords) in *.
  assert (ascending (map start A)) as HA by apply ascending_filter, Hasc.
  assert (forall k, In k A -> In k keywords /\ start if_kw < start k) as HinA.
  { intros k Hk. apply filter_In in Hk as [Hk1 Hk2].
    apply Z.gtb_lt in Hk2. auto. }
  set (Inv := fun (pre : list keyword) (st : if_state) =>
                fi_else st = None /\
                (forall k, fi_then st = Some k ->
                           In k pre /\ word k = lit "then")).
  set (G := fun (th el : option keyword) =>
              group_ok keywords (Some if_kw, th, el)).
  assert (forall pre post th,
             A = pre ++ post ->
             (forall k, th = Some k -> In k pre /\ word k = lit "then") ->
             G th None) as Gnone.
  { intros pre post th EA Hth. unfold G, group_ok, slot_ok, slot_before.
    split; [intros k E; injection E as <-; auto|].
    split.
    { intros k E. destruct (Hth k E) as [Hk Hwk]. split; [|exact Hwk].
      apply HinA. rewrite EA. apply in_or_app. auto. }
    split; [discriminate|]. split.
    { intros x y E1 E2. injection E1 as <-. destruct (Hth y E2) as [Hk _].
      apply HinA. rewrite EA. apply in_or_app. auto. }
    split; discriminate. }
  destruct (for_in A (then_else_step t if_kw sd A) _) as [r| |] eqn:Loop;
    try discriminate H.
  cbn [bind] in H.
  assert (after_loop (fun st => G (fi_then st) (fi_else st))
                     (group_ok keywords) r) as Hr.
  { apply (fun Hs He Hi => for_in_prefix Inv _ _ A _ Hs He _ r Hi Loop).
    - intros pre x post st c EA [I1 I2] Hc.
      assert (In x A) as HxA
          by (rewrite EA; apply in_or_app; right; left; reflexivity).
      assert (forall k, fi_then st = Some k ->
                        In k (pre ++ [x]) /\ word k = lit "then") as I2'.
      { intros k E. destruct (I2 k E). split; [|assumption].
        apply in_or_app. auto. }
      unfold then_else_step in Hc.
      ok_cases Hc; injection Hc as <-; cbn;
        cbn [fi_then fi_else] in *;
        try (split; [exact I1|exact I2']);
        try (rewrite I1; apply (Gnone pre (x :: post) _ EA I2)).
      + (* then *)
        split; [exact I1|]. intros k Ek. injection Ek as <-.
        split; [apply in_or_app; right; left; reflexivity|].
        apply word_is_eq. assumption.
      + (* else *)
        unfold group_ok, slot_ok, slot_before.
        split; [intros k Ek; injection Ek as <-; auto|].
        split.
        { intros k Ek. destruct (I2 k Ek) as [Hk Hwk]. split; [|exact Hwk].
          apply HinA. rewrite EA. apply in_or_app. auto. }
        split.
        { intros k Ek. injection Ek as <-. split; [apply HinA, HxA|].
          apply word_is_eq. assumption. }
        split.
        { intros k1 k2 Ea Eb. injection Ea as <-.
          destruct (I2 k2 Eb) as [Hk _].
          apply HinA. rewrite EA. apply in_or_app. auto. }
        split.
        { intros k1 k2 Ea Eb. injection Eb as <-.
          destruct (I2 k1 Ea) as [Hk _].
          rewrite EA in HA.
          exact (ascending_split start pre x post HA k1 Hk). }
        intros k1 k2 Ea Eb. injection Ea as <-. injection Eb as <-.
        apply HinA, HxA.
    - intros st [I1 I2]. rewrite I1.
      apply (Gnone A [] _); [rewrite app_nil_r; reflexivity|exact I2].
    - split; [reflexivity|discriminate]. }
  destruct r as [st|res]; injection H as <-; exact Hr.
Qed.

(** *** From a [then] *)

Lemma find_if_else_for_then_group (t : text) (then_kw : keyword)
      (keywords : list keyword) (tr : triple) :
  ascending (map start keywords) ->
  In then_kw keywords -> word then_kw = lit "then" ->
  find_if_else_for_then t then_kw keywords = Ok tr ->
  group_ok keywords tr.
Proof.
  intros Hasc Hin Hw H. unfold find_if_else_for_then in H.
  destruct (get_paren_depth t (start then_kw)) as [sd| |];
    try discriminate H.
  cbn [bind] in H.
  rewrite sorted_by_start_reverse_ascending in H
    by (apply ascending_filter, Hasc).
  rewrite sorted_by_start_ascending in H by (apply ascending_filter, Hasc).
  set (B := rev (filter (fun k => start k <? start then_kw) keywords)) in *.
  set (A := filter (fun k => start k >? start then_kw) keywords) in *.
  assert (forall k, In k B -> In k keywords /\ start k < start then_kw)
    as HinB.
  { intros k Hk. apply in_rev in Hk. apply filter_In in Hk as [Hk1 Hk2].
    apply Z.ltb_lt in Hk2. auto. }
  assert (forall k, In k A -> In k keywords /\ start then_kw < start k)
    as HinA.
  { intros k Hk. apply filter_In in Hk as [Hk1 Hk2].
    apply Z.gtb_lt in Hk2. auto. }
  destruct (for_in B (if_for_then_step t sd) _) as [r| |] eqn:Loop;
    try discriminate H.
  cbn [bind] in H.
  assert (after_loop (fun st => forall k, bk_if st = Some k ->
                                          In k B /\ word k = lit "if")
                     (fun _ : Empty_set => True) r) as Hr.
  { apply (fun Hs He Hi =>
             for_in_prefix (fun _ st => bk_if st = None) _ _ B _
                           Hs He _ r Hi Loop).
    - intros pre x post st c EB I1 Hc.
      assert (In x B) as HxB
          by (rewrite EB; apply in_or_app; right; left; reflexivity).
      unfold if_for_then_step in Hc.
      ok_cases Hc; injection Hc as <-; cbn; cbn [bk_if] in *;
        try exact I1; try (rewrite I1; discriminate).
      intros k Ek. injection Ek as <-. split; [exact HxB|].
      apply (word_is_eq x "if"). assumption.
    - intros st I1. rewrite I1. discriminate.
    - reflexivity. }
  destruct r as [st|[]]. cbn [final] in H. cbn in Hr.
  assert (slot_ok keywords "if" (bk_if st)) as Sif.
  { intros k Ek. destruct (Hr k Ek) as [Hk Hwk]. split; [|exact Hwk].
    apply HinB, Hk. }
  assert (slot_ok keywords "then" (Some then_kw)) as Sth
      by (intros k Ek; injection Ek as <-; auto).
  assert (slot_before (bk_if st) (Some then_kw)) as Oit.
  { intros k1 k2 Ea Eb. injection Eb as <-. apply HinB. apply (Hr k1 Ea). }
  assert (group_ok keywords (bk_if st, Some then_kw, None)) as Gnone.
  { unfold group_ok. split; [exact Sif|]. split; [exact Sth|].
    split; [discriminate|]. split; [exact Oit|]. split; discriminate. }
  destruct (is_some (bk_if st)); [|injection H as <-; exact Gnone].
  destruct (for_in A _ _) as [r2| |] eqn:Loop2; try discriminate H.
  cbn [bind] in H.
  assert (after_loop (fun s2 => forall k, fw_else s2 = Some k ->
                                          In k A /\ word k = lit "else")
                     (group_ok keywords) r2) as Hr2.
  { apply (fun Hs He Hi =>
             for_in_prefix (fun _ s2 => fw_else s2 = None) _ _ A _
                           Hs He _ r2 Hi Loop2).
    - intros pre x post s2 c EA I1 Hc.
      assert (In x A) as HxA
          by (rewrite EA; apply in_or_app; right; left; reflexivity).
      unfold else_for_then_step in Hc.
      ok_cases Hc; injection Hc as <-; cbn; cbn [fw_else] in *;
        try exact I1; try (rewrite I1; exact Gnone);
        try (rewrite I1; discriminate).
      intros k Ek. injection Ek as <-. split; [exact HxA|].
      apply (word_is_eq x "else"). assumption.
    - intros s2 I1. rewrite I1. discriminate.
    - reflexivity. }
  destruct r2 as [s2|res]; injection H as <-; cbn in Hr2; [|exact Hr2].
  unfold group_ok. split; [exact Sif|]. split; [exact Sth|].
  split; [|split; [exact Oit|split]].
  - intros k Ek. destruct (Hr2 k Ek) as [Hk Hwk]. split; [|exact Hwk].
    apply HinA, Hk.
  - intros k1 k2 Ea Eb. injection Ea as <-. apply HinA. apply (Hr2 k2 Eb).
  - intros k1 k2 Ea Eb.
    pose proof (proj2 (HinB k1 (proj1 (Hr k1 Ea)))).
    pose proof (proj2 (HinA k2 (proj1 (Hr2 k2 Eb)))). lia.
Qed.

(** *** From an [else] *)

Lemma find_if_then_for_else_group (t : text) (else_kw : keyword)
      (keywords : list keyword) (tr : triple) :
  ascending (map start keywords) ->
  In else_kw keywords -> word else_kw = lit "else" ->
  find_if_then_for_else t else_kw keywords = Ok tr ->
  group_ok keywords tr.
Proof.
  intros Hasc Hin Hw H. unfold find_if_then_for_else in H.
  destruct (get_paren_depth t (start else_kw)) as [sd| |];
    try discriminate H.
  cbn [bind] in H.
  rewrite sorted_by_start_reverse_ascending in H
    by (apply ascending_filter, Hasc).
  set (B := rev (filter (fun k => start k <? start else_kw) keywords)) in *.
  assert (forall k, In k B -> In k keywords /\ start k < start else_kw)
    as HinB.
  { intros k Hk. apply in_rev in Hk. apply filter_In in Hk as [Hk1 Hk2].
    apply Z.ltb_lt in Hk2. auto. }
  assert (descending (map start B)) as HB.
  { unfold B. rewrite map_rev. apply ascending_rev, ascending_filter, Hasc. }
  destruct (for_in B (if_then_for_else_step t sd) _) as [r| |] eqn:Loop;
    try discriminate H.
  cbn [bind] in H.
  set (Inv := fun (pre : list keyword) (st : back_state) =>
                bk_if st = None /\
                (forall k, bk_then st = Some k ->
                           In k pre /\ word k = lit "then")).
  set (F := fun st : back_state =>
              (forall k, bk_then st = Some k ->
                         In k B /\ word k = lit "then") /\
              (forall k, bk_if st = Some k ->
                         In k B /\ word k = lit "if" /\
                         forall th, bk_then st = Some th ->
                                    start k < start th)).
  assert (after_loop F (fun _ : Empty_set => True) r) as Hr.
  { apply (fun Hs He Hi => for_in_prefix Inv F _ B _ Hs He _ r Hi Loop).
    - intros pre x post st c EB [I1 I2] Hc.
      assert (In x B) as HxB
          by (rewrite EB; apply in_or_app; right; left; reflexivity).
      assert (forall k, bk_then st = Some k ->
                        In k (pre ++ [x]) /\ word k = lit "then") as I2'.
      { intros k Ek. destruct (I2 k Ek). split; [|assumption].
        apply in_or_app. auto. }
      assert (forall k, bk_then st = Some k ->
                        In k B /\ word k = lit "then") as I2B.
      { intros k Ek. destruct (I2 k Ek). split; [|assumption].
        rewrite EB. apply in_or_app. auto. }
      unfold if_then_for_else_step in Hc.
      ok_cases Hc; injection Hc as <-; cbn; cbn [bk_if bk_then] in *;
        try (split; [exact I1|exact I2']);
        try (split; [exact I2B|rewrite I1; discriminate]).
      + (* then *)
        split; [exact I1|]. intros k Ek. injection Ek as <-.
        split; [apply in_or_app; right; left; reflexivity|].
        apply (word_is_eq x "then"). assumption.
      + (* if *)
        split; [exact I2B|]. intros k Ek. injection Ek as <-.
        split; [exact HxB|]. split; [apply (word_is_eq x "if"); assumption|].
        intros th Eth. destruct (I2 th Eth) as [Hth _].
        rewrite EB in HB.
        exact (descending_split start pre x post HB th Hth).
    - intros st [I1 I2]. split; [exact I2|rewrite I1; discriminate].
    - split; [reflexivity|discriminate]. }
  destruct r as [st|[]]. cbn [final] in H. injection H as <-.
  destruct Hr as [Hth Hif]. unfold group_ok, slot_ok, slot_before.
  split.
  { intros k Ek. destruct (Hif k Ek) as (Hk & Hwk & _).
    split; [apply HinB, Hk|exact Hwk]. }
  split.
  { intros k Ek. destruct (Hth k Ek) as (Hk & Hwk).
    split; [apply HinB, Hk|exact Hwk]. }
  split; [intros k Ek; injection Ek as <-; auto|].
  split.
  { intros k1 k2 Ea Eb. destruct (Hif k1 Ea) as (_ & _ & Ho).
    apply Ho, Eb. }
  split.
  { intros k1 k2 Ea Eb. injection Eb as <-. apply HinB, Hth, Ea. }
  intros k1 k2 Ea Eb. injection Eb as <-. apply HinB.
  apply (Hif k1 Ea).
Qed.

Lemma find_matching_group (t : text) (current : keyword) :
  In current (if_keywords t) ->
  returns (find_matching_if_then_else t (if_keywords t) current)
          (group_ok (if_keywords t)).
Proof.
  intros Hin.
  destruct (find_matching_if_then_else_returns t current Hin)
    as ([[i th] el] & E & _).
  exists (i, th, el). split; [exact E|].
  pose proof (if_keywords_ascending t) as Hasc.
  unfold find_matching_if_then_else in E.
  destruct (word_is current "if") eqn:W1.
  { apply (find_then_else_for_if_group t current); auto.
    apply word_is_eq, W1. }
  destruct (word_is current "then") eqn:W2.
  { apply (find_if_else_for_then_group t current); auto.
    apply word_is_eq, W2. }
  destruct (word_is current "else") eqn:W3.
  { apply (find_if_then_for_else_group t current); auto.
    apply word_is_eq, W3. }
  injection E as <- <- <-. unfold group_ok, slot_ok, slot_before.
  repeat split; discriminate.
Qed.

(** X21: the groups of the keyword-block matcher are well formed.  With
    the cursor on an [if], [then] or [else] of the text, the matcher
    returns a group in which every keyword found is an occurrence in the
    text of the word of its slot, and the keywords found come in the order
    [if], [then], [else] in the text. *)
Theorem keyword_group_well_formed (t : text) (current : keyword) :
  In current (if_keywords t) ->
  exists if_pos then_pos else_pos,
    find_matching_if_then_else t (if_keywords t) current
    = Ok (if_pos, then_pos, else_pos) /\
    (forall k, if_pos = Some k ->
               In k (if_keywords t) /\ word k = lit "if") /\
    (forall k, then_pos = Some k ->
               In k (if_keywords t) /\ word k = lit "then") /\
    (forall k, else_pos = Some k ->
               In k (if_keywords t) /\ word k = lit "else") /\
    (forall a b, if_pos = Some a -> then_pos = Some b ->
                 start a < start b) /\
    (forall a b, then_pos = Some a -> else_pos = Some b ->
                 start a < start b) /\
    (forall a b, if_pos = Some a -> else_pos = Some b ->
                 start a < start b).
Proof.
  intros Hin.
  destruct (find_matching_group t current Hin) as ([[i th] el] & E & G).
  exists i, th, el. split; [exact E|exact G].
Qed.

Lemma keyword_group_well_formed_witness :
  In (kw "else" 31 35) (if_keywords nested_if) /\
  exists if_pos then_pos else_pos,
    find_matching_if_then_else nested_if (if_keywords nested_if)
      (kw "else" 31 35)
    = Ok (if_pos, then_pos, else_pos) /\
    (forall k, if_pos = Some k ->
               In k (if_keywords nested_if) /\ word k = lit "if") /\
    (forall k, then_pos = Some k ->
               In k (if_keywords nested_if) /\ word k = lit "then") /\
    (forall k, else_pos = Some k ->
               In k (if_keywords nested_if) /\ word k = lit "else") /\
    (forall a b, if_pos = Some a -> then_pos = Some b ->
                 start a < start b) /\
    (forall a b, then_pos = Some a -> else_pos = Some b ->
                 start a < start b) /\
    (forall a b, if_pos = Some a -> else_pos = Some b ->
                 start a < start b).
Proof.
  assert (In (kw "else" 31 35) (if_keywords nested_if)) as H
      by (vm_compute; tauto).
  split; [exact H|].
  exact (keyword_group_well_formed nested_if (kw "else" 31 35) H).
Defined.

Lemma search_body_forward_pos (t : text) (char : text) (target : ascii)
      (st : search_state) :
  0 <= search_pos st < len t ->
  returns (search_body t char target 1 st)
          (after_while_step (fun st => 0 <= search_pos st)
             (fun q => 0 <= q < len t)
             (fun st => Z.to_nat (len t - search_pos st)) st).
Proof.
  intros H. unfold search_body.
  repeat returns_step; cbn; lia.
Qed.

Lemma search_body_backward_pos (t : text) (char : text) (target : ascii)
      (st : search_state) :
  0 <= search_pos st < len t ->
  returns (search_body t char target (-1) st)
          (after_while_step (fun st => search_pos st < len t)
             (fun q => 0 <= q < len t)
             (fun st => Z.to_nat (search_pos st + 1)) st).
Proof.
  intros H. unfold search_body.
  repeat returns_step; cbn; lia.
Qed.

Lemma find_matching_bracket_within (t : text) (pos : Z) (c : ascii) :
  -1 <= pos <= len t ->
  returns (find_matching_bracket t pos [c] open_brackets close_brackets
             bracket_pairs reverse_pairs)
          (fun r => forall q, r = Some q -> 0 <= q < len t).
Proof.
  intros H. unfold find_matching_bracket.
  pose proof (fuel_of_len t) as F. pose proof (len_nonneg t) as L.
  destruct (is_nil [c] || negb _); [apply returns_ok; discriminate|].
  destruct (str_in [c] open_brackets) eqn:Eo.
  - assert (returns (lookup bracket_pairs [c]) (fun _ => True)) as Hl.
    { apply str_in_open in Eo as [-> | [-> | ->]]; apply returns_ok; exact I. }
    eapply returns_bind; [exact Hl|]. intros target _.
    eapply returns_bind.
    + apply (while_returns (fun st => 0 <= search_pos st)
                           (fun q => 0 <= q < len t)
                           (fun st => Z.to_nat (len t - search_pos st))).
      * intros st Hst. apply returns_ok. intros C.
        apply search_body_forward_pos. lia.
      * cbn [search_pos]. lia.
      * cbn [search_pos]. lia.
    + intros [st|p] Hp; apply returns_ok; [discriminate|].
      intros q E. injection E as <-. exact Hp.
  - destruct (str_in [c] close_brackets) eqn:Ec;
      [|apply returns_ok; discriminate].
    assert (returns (lookup reverse_pairs [c]) (fun _ => True)) as Hl.
    { apply str_in_close in Ec as [-> | [-> | ->]]; apply returns_ok; exact I. }
    eapply returns_bind; [exact Hl|]. intros target _.
    eapply returns_bind.
    + apply (while_returns (fun st => search_pos st < len t)
                           (fun q => 0 <= q < len t)
                           (fun st => Z.to_nat (search_pos st + 1))).
      * intros st Hst. apply returns_ok. intros C.
        apply search_body_backward_pos. lia.
      * cbn [search_pos]. lia.
      * cbn [search_pos]. lia.
    + intros [st|p] Hp; apply returns_ok; [discriminate|].
      intros q E. injection E as <-. exact Hp.
Qed.

Lemma bracket_selection_within (t : text) (p : Z) (f : char_format) :
  0 <= p < len t -> selection_within t (bracket_selection p f).
Proof. intros H. unfold selection_within. cbn. lia. Qed.

Lemma cursor_bracket_selections_within (t : text) (pos : Z) :
  0 <= pos <= len t ->
  returns (get_cursor_bracket_selections t pos)
          (Forall (selection_within t)).
Proof.
  intros H. unfold get_cursor_bracket_selections.
  assert (returns (if pos <? len t then c <- getc t pos ;; Ok [c] else Ok [])
                  (fun s => (length s <= 1)%nat /\ (s <> [] -> pos < len t)))
    as Hat.
  { destruct (pos <? len t) eqn:E.
    - rewrite getc_in_range by lia. apply returns_ok. cbn. split; [lia|lia].
    - apply returns_ok. cbn. split; [lia|congruence]. }
  assert (returns (if pos >? 0 then c <- getc t (pos - 1) ;; Ok [c]
                   else Ok [])
                  (fun s => (length s <= 1)%nat /\ (s <> [] -> 0 < pos)))
    as Hbefore.
  { destruct (pos >? 0) eqn:E.
    - rewrite getc_in_range by lia. apply returns_ok. cbn. split; lia.
    - apply returns_ok. cbn. split; [lia|congruence]. }
  eapply returns_bind; [exact Hat|]. intros char_at [La Ha].
  eapply returns_bind; [exact Hbefore|]. intros char_before [Lb Hb].
  cbv zeta.
  destruct (str_in char_before _).
  - destruct char_before as [|c [|]]; [apply returns_ok; constructor| |
                                       simpl in Lb; lia].
    cbn [is_nil].
    assert (0 < pos) by (apply Hb; discriminate).
    eapply returns_bind; [apply find_matching_bracket_within; lia|].
    intros [m|] Hm; apply returns_ok.
    + constructor; [apply bracket_selection_within; lia|].
      constructor; [apply bracket_selection_within; apply Hm; reflexivity|].
      constructor.
    + constructor; [apply bracket_selection_within; lia|constructor].
  - destruct (str_in char_at _); [|apply returns_ok; constructor].
    destruct char_at as [|c [|]]; [apply returns_ok; constructor| |
                                   simpl in La; lia].
    cbn [is_nil].
    assert (pos < len t) by (apply Ha; discriminate).
    eapply returns_bind; [apply find_matching_bracket_within; lia|].
    intros [m|] Hm; apply returns_ok.
    + constructor; [apply bracket_selection_within; lia|].
      constructor; [apply bracket_selection_within; apply Hm; reflexivity|].
      constructor.
    + constructor; [apply bracket_selection_within; lia|constructor].
Qed.

Lemma selection_of_within (t : text) (keywords : list keyword)
      (w : string) (o : option keyword) (b : bool) :
  all_within t keywords -> slot_ok keywords w o ->
  Forall (selection_within t) (selection_of o b).
Proof.
  intros Hall Hs. destruct o as [k|]; [|constructor].
  constructor; [|constructor].
  destruct (Hs k eq_refl) as [Hin _]. exact (Hall k Hin).
Qed.

Lemma highlight_if_then_else_within (t : text) (pos : Z) :
  returns (highlight_if_then_else t pos)
          (fun r => forall sels, r = Some sels ->
                                 Forall (selection_within t) sels).
Proof.
  unfold highlight_if_then_else.
  pose proof (if_keywords_all_within t) as Hall.
  pose proof (find_matching_group t) as Hfind.
  destruct (if_keywords t) as [|k0 ks] eqn:E;
    [apply returns_ok; discriminate|].
  destruct (keyword_at (k0 :: ks) pos) as [cur|] eqn:A;
    [|apply returns_ok; discriminate].
  apply keyword_at_In in A as [Hin Hpos].
  eapply returns_bind; [apply Hfind; exact Hin|].
  intros [[i th] el] (Hi & Ht & He & _).
  assert (Forall (selection_within t)
            (selection_of i (is_some i && is_some th && is_some el)
             ++ selection_of th (is_some i && is_some th && is_some el)
             ++ selection_of el (is_some i && is_some th && is_some el)))
    as Hs.
  { apply Forall_app. split; [eapply selection_of_within; eauto|].
    apply Forall_app. split; eapply selection_of_within; eauto. }
  cbv zeta.
  destruct (_ ++ _); apply returns_ok; [discriminate|].
  intros sels E'. injection E' as <-. exact Hs.
Qed.

Lemma highlight_body_within (t : text) (pos : Z) :
  0 <= pos ->
  returns (highlight_body t pos) (Forall (selection_within t)).
Proof.
  intros H. unfold highlight_body.
  destruct (is_nil t || (pos >? len t)) eqn:E;
    [apply returns_ok; constructor|].
  apply orb_false_elim in E as [_ E].
  eapply returns_bind; [apply highlight_it_references_within|].
  intros [its|] Hits; cbn [truthy selections_of].
  - destruct its as [|s its'] eqn:Ei.
    + eapply returns_bind; [apply highlight_if_then_else_within|].
      intros [kws|] Hkws; cbn [truthy selections_of].
      * destruct kws as [|k kws'] eqn:Ek.
        -- eapply returns_bind;
             [apply cursor_bracket_selections_within; lia|].
           intros [|b bs] Hb; apply returns_ok; [constructor|exact Hb].
        -- apply returns_ok. apply Hkws. reflexivity.
      * eapply returns_bind;
          [apply cursor_bracket_selections_within; lia|].
        intros [|b bs] Hb; apply returns_ok; [constructor|exact Hb].
    + apply returns_ok. apply Hits. reflexivity.
  - eapply returns_bind; [apply highlight_if_then_else_within|].
    intros [kws|] Hkws; cbn [truthy selections_of].
    + destruct kws as [|k kws'] eqn:Ek.
      * eapply returns_bind;
          [apply cursor_bracket_selections_within; lia|].
        intros [|b bs] Hb; apply returns_ok; [constructor|exact Hb].
      * apply returns_ok. apply Hkws. reflexivity.
    + eapply returns_bind;
        [apply cursor_bracket_selections_within; lia|].
      intros [|b bs] Hb; apply returns_ok; [constructor|exact Hb].
Qed.

(** X22: whatever the text and the cursor offset, negative or beyond the
    end included, the cursor handler ends without an exception and every
    selection it sets on the pane (a pronoun, a referent, a keyword of an
    if/then/else group, a bracket or its match) is a stretch of the text
    that is not empty: [0 <= start < end <= len(text)]. *)
Theorem cursor_selections_within_text (t : text) (pos : Z) :
  exists sels,
    highlight_matching_brackets t pos = Ok sels /\
    Forall (fun s => 0 <= sel_start s /\ sel_start s < sel_end s /\
                     sel_end s <= len t) sels.
Proof.
  unfold highlight_matching_brackets.
  destruct (Z.neg_nonneg_cases pos) as [Hneg|Hpos].
  - destruct (highlight_body_negative t pos Hneg) as [-> | ->];
      exists []; split; try reflexivity; constructor.
  - destruct (highlight_body_within t pos Hpos) as (sels & -> & Hs).
    exists sels. split; [reflexivity|exact Hs].
Qed.

(** ** The groups stay within the parentheses of the keyword *)

Lemma depth_at_succ (t : text) (i : Z) :
  0 <= i < len t ->
  depth_at t (i + 1) = depth_at t i + paren_step (nth (Z.to_nat i) t zero).
Proof.
  intros H. unfold depth_at, sub. cbn [Z.to_nat skipn].
  replace (Z.to_nat (i + 1 - 0)) with (Datatypes.S (Z.to_nat i)) by lia.
  replace (Z.to_nat (i - 0)) with (Z.to_nat i) by lia.
  assert (Z.to_nat i < length t)%nat as L by (unfold len in H; lia).
  revert L. generalize (Z.to_nat i). clear H.
  induction t as [|c t IH]; intros n L; simpl in L; [lia|].
  destruct n as [|n].
  - cbn [firstn nth count_char]. unfold paren_step.
    destruct (ch_eqb c open_paren) eqn:Eo.
    + assert (ch_eqb c close_paren = false) as ->.
      { apply Ascii.eqb_eq in Eo. rewrite Eo. reflexivity. }
      lia.
    + destruct (ch_eqb c close_paren); lia.
  - change (firstn (Datatypes.S (Datatypes.S n)) (c :: t))
      with (c :: firstn (Datatypes.S n) t).
    change (firstn (Datatypes.S n) (c :: t)) with (c :: firstn n t).
    cbn [count_char nth]. specialize (IH n ltac:(lia)). lia.
Qed.

Lemma get_paren_depth_at (t : text) (p : Z) :
  0 <= p <= len t -> get_paren_depth t p = Ok (depth_at t p).
Proof.
  intros H. unfold get_paren_depth.
  pose proof (depth_loop_counts t (Z.to_nat p) 0 0) as L.
  replace (0 + Z.of_nat (Z.to_nat p)) with p in L by lia.
  rewrite L by lia. cbn [bind final]. unfold depth_at, sub.
  replace (Z.to_nat (p - 0)) with (Z.to_nat p) by lia. reflexivity.
Qed.

Lemma above_join (t : text) (sd a b c : Z) :
  above t sd a b -> above t sd b c -> above t sd a c.
Proof.
  intros H1 H2 q Hq. destruct (Z_le_gt_dec q b); [apply H1|apply H2]; lia.
Qed.

Lemma above_point (t : text) (sd a : Z) :
  sd <= depth_at t a -> above t sd a a.
Proof. intros H q Hq. replace q with a by lia. exact H. Qed.

(** The forward update of the depth: when it does not return, the depth
    reached is that of the text at [hi], and it stayed at [sd] or above. *)
Lemma depth_forward_spec (t : text) (sd : Z) (n : nat) :
  forall lo hi r,
    hi = lo + Z.of_nat n -> 0 <= lo -> hi <= len t ->
    sd <= depth_at t lo ->
    depth_forward t sd lo hi (depth_at t lo) = Ok r ->
    match r with
    | inl d => d = depth_at t hi /\ above t sd lo hi
    | inr _ => True
    end.
Proof.
  unfold depth_forward.
  induction n as [|n IH]; intros lo hi r E H0 H1 Hsd H.
  - rewrite range_nil in H by lia. cbn in H. injection H as <-.
    replace hi with lo by lia. split; [reflexivity|].
    apply above_point, Hsd.
  - rewrite range_cons in H by lia. cbn [for_in] in H.
    rewrite getc_in_range in H by lia. cbn [bind] in H.
    pose proof (depth_at_succ t lo ltac:(lia)) as S1.
    unfold paren_step in S1.
    set (c := nth (Z.to_nat lo) t zero) in *.
    assert (forall d, d = depth_at t (lo + 1) -> sd <= d ->
              for_in (range (lo + 1) hi)
                (fun i depth =>
                   c <- getc t i ;;
                   if ch_eqb c open_paren then Ok (Next (depth + 1))
                   else if ch_eqb c close_paren then
                     let depth := depth - 1 in
                     if depth <? sd then Ok (Return tt) else Ok (Next depth)
                   else Ok (Next depth)) d = Ok r ->
              match r with
              | inl d => d = depth_at t hi /\ above t sd lo hi
              | inr _ => True
              end) as Go.
    { intros d -> Hd Hr. specialize (IH (lo + 1) hi r ltac:(lia) ltac:(lia)
                                       H1 Hd Hr).
      destruct r as [d'|u]; [|exact I]. destruct IH as [I1 I2].
      split; [exact I1|].
      apply (above_join t sd lo (lo + 1) hi); [|exact I2].
      intros q Hq. destruct (Z.eq_dec q lo) as [->|Hne]; [exact Hsd|].
      replace q with (lo + 1) by lia. exact Hd. }
    destruct (ch_eqb c open_paren) eqn:Eo.
    + cbn [bind] in H. apply (Go (depth_at t lo + 1)); [lia|lia|exact H].
    + destruct (ch_eqb c close_paren) eqn:Ec.
      * cbv zeta in H. destruct (depth_at t lo - 1 <? sd) eqn:El.
        -- cbn in H. injection H as <-. exact I.
        -- cbn [bind] in H.
           apply (Go (depth_at t lo - 1)); [lia|lia|exact H].
      * cbn [bind] in H. apply (Go (depth_at t lo)); [lia|lia|exact H].
Qed.

(** The backward update of the depth: the loop ends below [sd], or with
    the depth of the text at [lo], having stayed at [sd] or above. *)
Lemma depth_backward_spec (t : text) (sd : Z) (n : nat) :
  forall lo hi d,
    hi = lo + Z.of_nat n -> 0 <= lo -> hi <= len t ->
    sd <= depth_at t hi ->
    depth_backward t sd hi lo (depth_at t hi) = Ok d ->
    d < sd \/ (d = depth_at t lo /\ above t sd lo hi).
Proof.
  unfold depth_backward.
  induction n as [|n IH]; intros lo hi d E H0 H1 Hsd H.
  - rewrite range_down_nil in H by lia. cbn in H. injection H as <-.
    right. replace lo with hi by lia. split; [reflexivity|].
    apply above_point, Hsd.
  - rewrite range_down_cons in H by lia. cbn [for_in] in H.
    rewrite getc_in_range in H by lia. cbn [bind] in H.
    pose proof (depth_at_succ t (hi - 1) ltac:(lia)) as S1.
    replace (hi - 1 + 1) with hi in S1 by lia.
    unfold paren_step in S1.
    set (c := nth (Z.to_nat (hi - 1)) t zero) in *.
    assert (forall d0, d0 = depth_at t (hi - 1) -> sd <= d0 ->
              (r <- for_in (R := Empty_set) (range_down (hi - 1 - 1) (lo - 1))
                 (fun i depth =>
                    c <- getc t i ;;
                    if ch_eqb c close_paren then Ok (Next (depth + 1))
                    else if ch_eqb c open_paren then
                      let depth := depth - 1 in
                      if depth <? sd then Ok (Break depth)
                      else Ok (Next depth)
                    else Ok (Next depth)) d0 ;;
               Ok (final r)) = Ok d ->
              d < sd \/ (d = depth_at t lo /\ above t sd lo hi)) as Go.
    { intros d0 -> Hd Hr.
      specialize (IH lo (hi - 1) d ltac:(lia) H0 ltac:(lia) Hd Hr).
      destruct IH as [IH|[I1 I2]]; [left; exact IH|right].
      split; [exact I1|].
      apply (above_join t sd lo (hi - 1) hi); [exact I2|].
      intros q Hq. destruct (Z.eq_dec q hi) as [->|Hne]; [exact Hsd|].
      replace q with (hi - 1) by lia. exact Hd. }
    destruct (ch_eqb c close_paren) eqn:Ec.
    + assert (ch_eqb c open_paren = false) as Eo.
      { apply Ascii.eqb_eq in Ec. rewrite Ec. reflexivity. }
      rewrite Eo in S1. cbn [bind] in H.
      apply (Go (depth_at t hi + 1)); [lia|lia|exact H].
    + destruct (ch_eqb c open_paren) eqn:Eo.
      * cbv zeta in H. destruct (depth_at t hi - 1 <? sd) eqn:El.
        -- cbn in H. injection H as <-. left. lia.
        -- cbn [bind] in H.
           apply (Go (depth_at t hi - 1)); [lia|lia|exact H].
      * cbn [bind] in H.
        apply (Go (depth_at t hi)); [lia|lia|exact H].
Qed.
Lemma count_char_nonneg (c : ascii) (s : text) : 0 <= count_char c s.
Proof.
  induction s as [|x s IH]; cbn [count_char]; [lia|].
  destruct (ch_eqb x c); lia.
Qed.

Lemma count_char_firstn (c : ascii) (n : nat) (s : text) :
  count_char c (firstn n s) <= count_char c s.
Proof.
  revert n. induction s as [|x s IH]; intros [|n]; cbn [firstn count_char];
    try lia.
  - pose proof (count_char_nonneg c s). destruct (ch_eqb x c); lia.
  - specialize (IH n). lia.
Qed.

Lemma firstn_plus {A} (a n : nat) (l : list A) :
  firstn (a + n) l = firstn a l ++ firstn n (skipn a l).
Proof.
  revert l. induction a as [|a IH]; intros l; [reflexivity|].
  destruct l as [|x l]; cbn [Nat.add firstn skipn app].
  - rewrite firstn_nil. reflexivity.
  - f_equal. apply IH.
Qed.

Lemma depth_at_split (t : text) (a b : Z) :
  0 <= a <= b ->
  depth_at t b
  = depth_at t a + count_char open_paren (sub t a b)
    - count_char close_paren (sub t a b).
Proof.
  intros H. unfold depth_at, sub. cbn [Z.to_nat skipn].
  replace (Z.to_nat (b - 0)) with (Z.to_nat a + Z.to_nat (b - a))%nat by lia.
  replace (Z.to_nat (a - 0)) with (Z.to_nat a) by lia.
  rewrite firstn_plus, !count_char_app. lia.
Qed.

Lemma lower_char_paren (c : ascii) :
  ch_eqb (lower_char c) open_paren = ch_eqb c open_paren /\
  ch_eqb (lower_char c) close_paren = ch_eqb c close_paren.
Proof.
  destruct c as [[] [] [] [] [] [] [] []]; split; reflexivity.
Qed.

Lemma count_paren_lower (g : text) :
  count_char open_paren (lower g) = count_char open_paren g /\
  count_char close_paren (lower g) = count_char close_paren g.
Proof.
  unfold lower. induction g as [|c g [I1 I2]]; [split; reflexivity|].
  cbn [map count_char]. destruct (lower_char_paren c) as [-> ->].
  rewrite I1, I2. split; reflexivity.
Qed.

Lemma scan_group_text (m : option ascii -> text -> option nat) :
  bounded m ->
  forall rest prev pos skip x,
    In x (scan m prev rest pos skip) ->
    m_group x
    = firstn (Z.to_nat (m_end x - m_start x))
             (skipn (Z.to_nat (m_start x - pos)) rest).
Proof.
  intros Hb. induction rest as [|c rest IH]; intros prev pos skip x H;
    [contradiction|].
  assert (forall k, In x (scan m (Some c) rest (pos + 1) k) ->
            m_group x
            = firstn (Z.to_nat (m_end x - m_start x))
                     (skipn (Z.to_nat (m_start x - pos)) (c :: rest)))
    as Tail.
  { intros k Hk. pose proof (scan_bounds m Hb _ _ _ _ _ Hk) as B.
    rewrite (IH _ _ _ _ Hk).
    replace (Z.to_nat (m_start x - pos))
      with (Datatypes.S (Z.to_nat (m_start x - (pos + 1)))) by lia.
    reflexivity. }
  cbn [scan] in H. destruct skip as [|k]; [|eauto].
  destruct (m prev (c :: rest)) as [[|k]|] eqn:E; eauto.
  destruct H as [<-|H]; [|eauto].
  cbn [m_group m_start m_end].
  replace (Z.to_nat (pos - pos)) with O by lia.
  replace (Z.to_nat (pos + Z.of_nat (Datatypes.S k) - pos))
    with (Datatypes.S k) by lia.
  reflexivity.
Qed.

Lemma chained_weaken (lo lo' : Z) (l : list re_match) :
  chained lo l -> lo' <= lo -> chained lo' l.
Proof.
  destruct l as [|y l]; [auto|]. cbn [chained]. intros (H1 & H2 & H3) H.
  split; [lia|]. split; assumption.
Qed.

Lemma scan_chained (m : option ascii -> text -> option nat) :
  forall rest prev pos skip,
    chained (pos + Z.of_nat skip) (scan m prev rest pos skip).
Proof.
  induction rest as [|c rest IH]; intros prev pos skip; [exact I|].
  cbn [scan]. destruct skip as [|k].
  - destruct (m prev (c :: rest)) as [[|k]|] eqn:E.
    + apply (chained_weaken (pos + 1 + Z.of_nat O)); [apply IH|lia].
    + cbn [chained m_start m_end]. split; [lia|]. split; [lia|].
      replace (pos + Z.of_nat (Datatypes.S k)) with (pos + 1 + Z.of_nat k)
        by lia.
      apply IH.
    + apply (chained_weaken (pos + 1 + Z.of_nat O)); [apply IH|lia].
  - replace (pos + Z.of_nat (Datatypes.S k)) with (pos + 1 + Z.of_nat k)
      by lia.
    apply IH.
Qed.

Lemma chained_from (lo : Z) (l : list re_match) (x : re_match) :
  chained lo l -> In x l -> lo <= m_start x /\ m_start x < m_end x.
Proof.
  revert lo. induction l as [|y l IH]; intros lo H Hx; [contradiction|].
  cbn [chained] in H. destruct H as (H1 & H2 & H3).
  destruct Hx as [<-|Hx]; [lia|].
  specialize (IH _ H3 Hx). lia.
Qed.

Lemma chained_apart (lo : Z) (l : list re_match) (a b : re_match) :
  chained lo l -> In a l -> In b l -> m_start a < m_start b ->
  m_end a <= m_start b.
Proof.
  revert lo. induction l as [|y l IH]; intros lo H Ha Hb Hlt;
    [contradiction|].
  cbn [chained] in H. destruct H as (H1 & H2 & H3).
  destruct Ha as [<-|Ha], Hb as [<-|Hb].
  - lia.
  - apply (chained_from _ _ _ H3 Hb).
  - pose proof (chained_from _ _ _ H3 Ha). lia.
  - exact (IH _ H3 Ha Hb Hlt).
Qed.

(** Two keyword occurrences do not overlap. *)
Lemma if_keywords_apart (t : text) (a b : keyword) :
  In a (if_keywords t) -> In b (if_keywords t) -> start a < start b ->
  end_ a <= start b.
Proof.
  unfold if_keywords. rewrite !in_map_iff.
  intros (x & <- & Hx) (y & <- & Hy) Hlt. cbn [keyword_of start end_] in *.
  exact (chained_apart _ _ x y (scan_chained _ _ _ _ _) Hx Hy Hlt).
Qed.

(** There is no parenthesis within a keyword occurrence: the depth is the
    same from its start to its end. *)
Lemma keyword_depth (t : text) (k : keyword) (q : Z) :
  In k (if_keywords t) -> start k <= q <= end_ k ->
  depth_at t q = depth_at t (start k).
Proof.
  intros Hk Hq. pose proof (if_keywords_all_within t k Hk) as W.
  unfold within in W.
  unfold if_keywords in Hk. apply in_map_iff in Hk as (x & <- & Hx).
  cbn [keyword_of start end_] in *.
  assert (bounded (match_alts if_pattern)) as Hb
      by (intros prev rest n; apply match_alts_bound).
  pose proof (scan_group_text _ Hb _ _ _ _ _ Hx) as G.
  pose proof (scan_groups _ _ _ _ _ _ Hx) as (a & Ha & E).
  replace (Z.to_nat (m_start x - 0)) with (Z.to_nat (m_start x)) in G by lia.
  fold (sub t (m_start x) (m_end x)) in G.
  assert (count_char open_paren (m_group x) = 0 /\
          count_char close_paren (m_group x) = 0) as [C1 C2].
  { destruct (count_paren_lower (m_group x)) as [<- <-]. rewrite E.
    simpl in Ha. destruct Ha as [<-|[<-|[<-|[]]]]; split; reflexivity. }
  rewrite G in C1, C2.
  rewrite (depth_at_split t (m_start x) q) by lia.
  assert (sub t (m_start x) q
          = firstn (Z.to_nat (q - m_start x)) (sub t (m_start x) (m_end x)))
    as P.
  { unfold sub. rewrite firstn_firstn. f_equal. lia. }
  pose proof (count_char_firstn open_paren (Z.to_nat (q - m_start x))
                (sub t (m_start x) (m_end x))) as F1.
  pose proof (count_char_firstn close_paren (Z.to_nat (q - m_start x))
                (sub t (m_start x) (m_end x))) as F2.
  rewrite <- P in F1, F2.
  pose proof (count_char_nonneg open_paren (sub t (m_start x) q)).
  pose proof (count_char_nonneg close_paren (sub t (m_start x) q)).
  lia.
Qed.
Lemma found_after_inside (t : text) (sd : Z) (cur : keyword)
      (o : option keyword) :
  found_after t sd cur o -> slot_inside t sd cur o.
Proof.
  intros H k E. destruct (H k E) as [H1 H2]. intros q Hq. apply H2. lia.
Qed.

Lemma found_before_inside (t : text) (sd : Z) (cur : keyword)
      (o : option keyword) :
  found_before t sd cur o -> slot_inside t sd cur o.
Proof.
  intros H k E. destruct (H k E) as [H1 H2]. intros q Hq. apply H2. lia.
Qed.

Lemma self_inside (t : text) (sd : Z) (cur : keyword) :
  sd <= depth_at t (start cur) -> slot_inside t sd cur (Some cur).
Proof.
  intros H k E. injection E as <-. intros q Hq.
  replace q with (start cur) by lia. exact H.
Qed.

Lemma none_inside (t : text) (sd : Z) (cur : keyword) :
  slot_inside t sd cur None.
Proof. intros k E. discriminate E. Qed.

Lemma none_after (t : text) (sd : Z) (cur : keyword) :
  found_after t sd cur None.
Proof. intros k E. discriminate E. Qed.

Lemma none_before (t : text) (sd : Z) (cur : keyword) :
  found_before t sd cur None.
Proof. intros k E. discriminate E. Qed.

Lemma some_after (t : text) (sd : Z) (cur x : keyword) :
  start cur <= start x -> above t sd (start cur) (start x) ->
  found_after t sd cur (Some x).
Proof. intros H1 H2 k E. injection E as <-. auto. Qed.

Lemma some_before (t : text) (sd : Z) (cur x : keyword) :
  start x <= start cur -> above t sd (start x) (start cur) ->
  found_before t sd cur (Some x).
Proof. intros H1 H2 k E. injection E as <-. auto. Qed.

Lemma above_keyword (t : text) (sd : Z) (x : keyword) :
  In x (if_keywords t) -> sd <= depth_at t (start x) ->
  above t sd (start x) (end_ x).
Proof.
  intros Hx H q Hq. rewrite (keyword_depth t x q Hx Hq). exact H.
Qed.

(** *** From an [if] *)

Lemma then_else_step_inside (t : text) (if_kw first : keyword)
      (rest : list keyword) (x : keyword) (st : if_state) (lo : Z)
      (c : ctl if_state triple) :
  let sd := depth_at t (start if_kw) in
  In if_kw (if_keywords t) -> In x (if_keywords t) ->
  (kw_eqb x first = true /\ lo = start if_kw) \/
  (kw_eqb x first = false /\ fi_prev_end st = Some lo) ->
  start if_kw <= lo <= start x ->
  fi_depth st = depth_at t lo -> above t sd (start if_kw) lo ->
  found_after t sd if_kw (fi_then st) ->
  found_after t sd if_kw (fi_else st) ->
  then_else_step t if_kw sd (first :: rest) x st = Ok c ->
  match c with
  | Next s' =>
      found_after t sd if_kw (fi_then s') /\
      found_after t sd if_kw (fi_else s') /\
      fi_prev_end s' = Some (end_ x) /\
      fi_depth s' = depth_at t (end_ x) /\
      above t sd (start if_kw) (end_ x)
  | Break s' => True
  | Return r => group_inside t sd if_kw r
  end.
Proof.
  intros sd Hin Hx Hlo Hr Hd Hab Hth Hel H.
  pose proof (if_keywords_all_within t x Hx) as W. unfold within in W.
  pose proof (if_keywords_all_within t if_kw Hin) as Wc. unfold within in Wc.
  assert (sd <= depth_at t lo) as Hsd by (apply Hab; lia).
  assert (slot_inside t sd if_kw (Some if_kw)) as Self
      by (apply self_inside; unfold sd; lia).
  unfold then_else_step in H. cbn [bind] in H.
  assert ((if kw_eqb x first then Ok (start if_kw)
           else match fi_prev_end st with
                | Some p => Ok p
                | None => Raise UnboundLocalError
                end) = Ok lo) as El.
  { destruct Hlo as [[-> ->]|[-> ->]]; reflexivity. }
  rewrite El in H. cbn [bind] in H. rewrite Hd in H.
  destruct (depth_forward t sd lo (start x) (depth_at t lo)) as [d| |] eqn:D;
    try discriminate H.
  cbn [bind] in H.
  apply (depth_forward_spec t sd (Z.to_nat (start x - lo))) in D;
    [|lia|lia|lia|exact Hsd].
  destruct d as [cd|u].
  - destruct D as [-> D2].
    assert (above t sd (start if_kw) (start x)) as Ax
        by (apply (above_join t sd _ lo); assumption).
    assert (sd <= depth_at t (start x)) as Hsx by (apply Ax; lia).
    assert (above t sd (start if_kw) (end_ x)) as Ae.
    { apply (above_join t sd _ (start x)); [exact Ax|].
      apply above_keyword; assumption. }
    assert (depth_at t (start x) = depth_at t (end_ x)) as Ed.
    { symmetry. apply keyword_depth; [exact Hx|lia]. }
    ok_cases H; injection H as <-; cbn [fi_then fi_else fi_prev_end fi_depth];
      lazymatch goal with
      | |- group_inside _ _ _ _ =>
          unfold group_inside; split; [exact Self|];
          split; apply found_after_inside; [exact Hth|];
          apply some_after; [lia|exact Ax]
      | |- _ =>
          split; [first [exact Hth | apply some_after; [lia|exact Ax]]|];
          split; [exact Hel|]; split; [reflexivity|];
          split; [exact Ed|exact Ae]
      end.
  - injection H as <-. unfold group_inside. split; [exact Self|].
    split; apply found_after_inside; assumption.
Qed.

Lemma find_then_else_for_if_inside (t : text) (if_kw : keyword)
      (tr : triple) :
  In if_kw (if_keywords t) ->
  find_then_else_for_if t if_kw (if_keywords t) = Ok tr ->
  group_inside t (depth_at t (start if_kw)) if_kw tr.
Proof.
  intros Hin H.
  pose proof (if_keywords_ascending t) as Hasc.
  pose proof (if_keywords_all_within t) as Hall.
  pose proof (Hall if_kw Hin) as Wc. unfold within in Wc.
  unfold find_then_else_for_if in H.
  rewrite get_paren_depth_at in H by lia. cbn [bind] in H.
  rewrite sorted_by_start_ascending in H by (apply ascending_filter, Hasc).
  set (sd := depth_at t (start if_kw)) in *.
  set (A := filter (fun k => start k >? start if_kw) (if_keywords t)) in *.
  assert (ascending (map start A)) as HA by apply ascending_filter, Hasc.
  assert (forall k, In k A ->
                    In k (if_keywords t) /\ start if_kw < start k) as HinA.
  { intros k Hk. apply filter_In in Hk as [Hk1 Hk2].
    apply Z.gtb_lt in Hk2. auto. }
  set (Inv := fun (pre : list keyword) (st : if_state) =>
                found_after t sd if_kw (fi_then st) /\
                found_after t sd if_kw (fi_else st) /\
                ((pre = [] /\ fi_depth st = sd) \/
                 (exists pre' l,
                     pre = pre' ++ [l] /\ fi_prev_end st = Some (end_ l) /\
                     fi_depth st = depth_at t (end_ l) /\
                     above t sd (start if_kw) (end_ l)))).
  set (F := fun st : if_state =>
              found_after t sd if_kw (fi_then st) /\
              found_after t sd if_kw (fi_else st)).
  destruct (for_in A (then_else_step t if_kw sd A) _) as [r| |] eqn:Loop;
    try discriminate H.
  cbn [bind] in H.
  assert (after_loop F (group_inside t sd if_kw) r) as Hr.
  { apply (fun Hs He Hi => for_in_prefix Inv F _ A _ Hs He _ r Hi Loop).
    - intros pre x post st c EA (I1 & I2 & I3) Hc.
      assert (In x A) as HxA
          by (rewrite EA; apply in_or_app; right; left; reflexivity).
      destruct (HinA x HxA) as [Hx Hlt].
      pose proof (Hall x Hx) as Wx. unfold within in Wx.
      assert (exists first rest lo,
                 A = first :: rest /\
                 ((kw_eqb x first = true /\ lo = start if_kw) \/
                  (kw_eqb x first = false /\ fi_prev_end st = Some lo)) /\
                 start if_kw <= lo <= start x /\
                 fi_depth st = depth_at t lo /\
                 above t sd (start if_kw) lo) as (first & rest & lo & EA' & Hlo
                                                  & Hr & Hd & Hab).
      { destruct I3 as [[-> Hd]|(pre' & l & -> & Hp & Hd & Hab)].
        - exists x, post, (start if_kw). split; [exact EA|].
          split; [left; split; [apply kw_eqb_refl|reflexivity]|].
          split; [lia|]. split; [exact Hd|].
          apply above_point. unfold sd. lia.
        - assert (In l A) as HlA.
          { rewrite EA. apply in_or_app. left. apply in_or_app. right.
            left. reflexivity. }
          destruct (HinA l HlA) as [Hl Hltl].
          pose proof (Hall l Hl) as Wl. unfold within in Wl.
          assert (start l < start x) as Hlx.
          { rewrite EA in HA.
            apply (ascending_split start (pre' ++ [l]) x post HA).
            apply in_or_app. right. left. reflexivity. }
          pose proof (if_keywords_apart t l x Hl Hx Hlx) as Hapart.
          destruct (pre' ++ [l]) as [|first rest'] eqn:Ep.
          { destruct pre'; discriminate Ep. }
          exists first, (rest' ++ x :: post), (end_ l).
          split; [exact EA|]. split.
          { right. split; [|exact Hp].
            assert (start first < start x) as Hfx.
            { rewrite EA in HA.
              apply (ascending_split start (first :: rest') x post HA).
              left. reflexivity. }
            unfold kw_eqb. replace (start x =? start first) with false
              by (symmetry; apply Z.eqb_neq; lia).
            rewrite andb_false_r. reflexivity. }
          split; [lia|]. split; [exact Hd|exact Hab]. }
      rewrite EA' in Hc.
      pose proof (then_else_step_inside t if_kw first rest x st lo c Hin Hx Hlo
                    Hr Hd Hab I1 I2 Hc) as Post.
      destruct c as [s'|s'|res]; cbn.
      + destruct Post as (P1 & P2 & P3 & P4 & P5).
        split; [exact P1|]. split; [exact P2|]. right.
        exists pre, x. auto.
      + unfold then_else_step in Hc. ok_cases Hc; discriminate Hc.
      + exact Post.
    - intros st (I1 & I2 & _). split; assumption.
    - split; [apply none_after|]. split; [apply none_after|].
      left. split; reflexivity. }
  destruct r as [st|res]; injection H as <-; cbn in Hr; [|exact Hr].
  destruct Hr as [H1 H2]. unfold group_inside.
  split; [apply self_inside; unfold sd; lia|].
  split; apply found_after_inside; assumption.
Qed.
(** *** From a [then] *)

Lemma if_for_then_step_inside (t : text) (cur x : keyword) (st : back_state)
      (c : ctl back_state Empty_set) :
  let sd := depth_at t (start cur) in
  In x (if_keywords t) ->
  end_ x <= bk_prev_pos st <= start cur -> start cur <= len t ->
  bk_depth st = depth_at t (bk_prev_pos st) ->
  above t sd (bk_prev_pos st) (start cur) ->
  bk_if st = None ->
  if_for_then_step t sd x st = Ok c ->
  match c with
  | Next s' =>
      bk_if s' = None /\ bk_prev_pos s' = start x /\
      bk_depth s' = depth_at t (start x) /\
      above t sd (start x) (start cur)
  | Break s' => found_before t sd cur (bk_if s')
  | Return r => True
  end.
Proof.
  intros sd Hx Hr Hlen Hd Hab Hif H.
  pose proof (if_keywords_all_within t x Hx) as W. unfold within in W.
  assert (sd <= depth_at t (bk_prev_pos st)) as Hsd by (apply Hab; lia).
  unfold if_for_then_step in H. rewrite Hd in H.
  destruct (depth_backward t sd (bk_prev_pos st) (end_ x) _) as [d| |] eqn:D;
    try discriminate H.
  cbn [bind] in H.
  apply (depth_backward_spec t sd (Z.to_nat (bk_prev_pos st - end_ x))) in D;
    [|lia|lia|lia|exact Hsd].
  destruct (d <? sd) eqn:El.
  - injection H as <-. cbn [bk_if]. rewrite Hif. apply none_before.
  - destruct D as [D|[-> D2]]; [lia|].
    assert (depth_at t (end_ x) = depth_at t (start x)) as Ed
        by (apply keyword_depth; [exact Hx|lia]).
    assert (above t sd (start x) (start cur)) as Ax.
    { apply (above_join t sd _ (end_ x));
        [apply above_keyword; [exact Hx|lia]|].
      apply (above_join t sd _ (bk_prev_pos st)); assumption. }
    ok_cases H; injection H as <-; cbn [bk_if bk_prev_pos bk_depth];
      lazymatch goal with
      | |- found_before _ _ _ _ => apply some_before; [lia|exact Ax]
      | |- _ => split; [exact Hif|]; split; [reflexivity|];
                split; [exact Ed|exact Ax]
      end.
Qed.

Lemma else_for_then_step_inside (t : text) (then_kw : keyword)
      (found_if : option keyword) (x : keyword) (st : fwd_state)
      (c : ctl fwd_state triple) :
  let sd := depth_at t (start then_kw) in
  In then_kw (if_keywords t) -> In x (if_keywords t) ->
  start then_kw <= fw_prev_end st <= start x ->
  fw_depth st = depth_at t (fw_prev_end st) ->
  above t sd (start then_kw) (fw_prev_end st) ->
  fw_else st = None ->
  found_before t sd then_kw found_if ->
  else_for_then_step t then_kw sd found_if x st = Ok c ->
  match c with
  | Next s' =>
      fw_else s' = None /\ fw_prev_end s' = end_ x /\
      fw_depth s' = depth_at t (end_ x) /\
      above t sd (start then_kw) (end_ x)
  | Break s' => found_after t sd then_kw (fw_else s')
  | Return r => group_inside t sd then_kw r
  end.
Proof.
  intros sd Hin Hx Hr Hd Hab Hel Hif H.
  pose proof (if_keywords_all_within t x Hx) as W. unfold within in W.
  pose proof (if_keywords_all_within t then_kw Hin) as Wc.
  unfold within in Wc.
  assert (sd <= depth_at t (fw_prev_end st)) as Hsd by (apply Hab; lia).
  assert (slot_inside t sd then_kw (Some then_kw)) as Self
      by (apply self_inside; unfold sd; lia).
  unfold else_for_then_step in H. rewrite Hd in H.
  destruct (depth_forward t sd (fw_prev_end st) (start x) _) as [d| |] eqn:D;
    try discriminate H.
  cbn [bind] in H.
  apply (depth_forward_spec t sd (Z.to_nat (start x - fw_prev_end st))) in D;
    [|lia|lia|lia|exact Hsd].
  destruct d as [cd|u].
  - destruct D as [-> D2].
    assert (above t sd (start then_kw) (start x)) as Ax
        by (apply (above_join t sd _ (fw_prev_end st)); assumption).
    assert (sd <= depth_at t (start x)) as Hsx by (apply Ax; lia).
    assert (above t sd (start then_kw) (end_ x)) as Ae.
    { apply (above_join t sd _ (start x)); [exact Ax|].
      apply above_keyword; assumption. }
    assert (depth_at t (start x) = depth_at t (end_ x)) as Ed.
    { symmetry. apply keyword_depth; [exact Hx|lia]. }
    ok_cases H; injection H as <-; cbn [fw_else fw_prev_end fw_depth];
      lazymatch goal with
      | |- found_after _ _ _ _ => apply some_after; [lia|exact Ax]
      | |- _ => split; [exact Hel|]; split; [reflexivity|];
                split; [exact Ed|exact Ae]
      end.
  - injection H as <-. unfold group_inside.
    split; [apply found_before_inside, Hif|]. split; [exact Self|].
    rewrite Hel. apply none_inside.
Qed.

(** The prefix of a list in descending order of the text lies after the
    element that follows it, and keywords that follow one another do not
    overlap: where the backward search is, and where it goes next. *)
Lemma backward_position (t : text) (cur : keyword) (B pre post : list keyword)
      (x : keyword) (prev_pos : Z) :
  In cur (if_keywords t) ->
  (forall k, In k B -> In k (if_keywords t) /\ start k < start cur) ->
  descending (map start B) -> B = pre ++ x :: post ->
  (pre = [] /\ prev_pos = start cur) \/
  (exists pre' l, pre = pre' ++ [l] /\ prev_pos = start l) ->
  In x (if_keywords t) /\ end_ x <= prev_pos <= start cur.
Proof.
  intros Hin HinB HB EB Hp.
  assert (In x B) as HxB
      by (rewrite EB; apply in_or_app; right; left; reflexivity).
  destruct (HinB x HxB) as [Hx Hlt]. split; [exact Hx|].
  destruct Hp as [[-> ->]|(pre' & l & -> & ->)].
  - pose proof (if_keywords_apart t x cur Hx Hin Hlt). lia.
  - assert (In l B) as HlB.
    { rewrite EB. apply in_or_app. left. apply in_or_app. right.
      left. reflexivity. }
    destruct (HinB l HlB) as [Hl Hltl].
    assert (start x < start l) as Hxl.
    { rewrite EB in HB.
      apply (descending_split start (pre' ++ [l]) x post HB).
      apply in_or_app. right. left. reflexivity. }
    pose proof (if_keywords_apart t x l Hx Hl Hxl). lia.
Qed.

Lemma forward_position (t : text) (cur : keyword) (A pre post : list keyword)
      (x : keyword) (prev_end : Z) :
  In cur (if_keywords t) ->
  (forall k, In k A -> In k (if_keywords t) /\ start cur < start k) ->
  ascending (map start A) -> A = pre ++ x :: post ->
  (pre = [] /\ prev_end = end_ cur) \/
  (exists pre' l, pre = pre' ++ [l] /\ prev_end = end_ l) ->
  In x (if_keywords t) /\ start cur <= prev_end <= start x.
Proof.
  intros Hin HinA HA EA Hp.
  pose proof (if_keywords_all_within t cur Hin) as Wc. unfold within in Wc.
  assert (In x A) as HxA
      by (rewrite EA; apply in_or_app; right; left; reflexivity).
  destruct (HinA x HxA) as [Hx Hlt]. split; [exact Hx|].
  destruct Hp as [[-> ->]|(pre' & l & -> & ->)].
  - pose proof (if_keywords_apart t cur x Hin Hx Hlt). lia.
  - assert (In l A) as HlA.
    { rewrite EA. apply in_or_app. left. apply in_or_app. right.
      left. reflexivity. }
    destruct (HinA l HlA) as [Hl Hltl].
    pose proof (if_keywords_all_within t l Hl) as Wl. unfold within in Wl.
    assert (start l < start x) as Hlx.
    { rewrite EA in HA.
      apply (ascending_split start (pre' ++ [l]) x post HA).
      apply in_or_app. right. left. reflexivity. }
    pose proof (if_keywords_apart t l x Hl Hx Hlx). lia.
Qed.

Lemma find_if_else_for_then_inside (t : text) (then_kw : keyword)
      (tr : triple) :
  In then_kw (if_keywords t) ->
  find_if_else_for_then t then_kw (if_keywords t) = Ok tr ->
  group_inside t (depth_at t (start then_kw)) then_kw tr.
Proof.
  intros Hin H.
  pose proof (if_keywords_ascending t) as Hasc.
  pose proof (if_keywords_all_within t) as Hall.
  pose proof (Hall then_kw Hin) as Wc. unfold within in Wc.
  unfold find_if_else_for_then in H.
  rewrite get_paren_depth_at in H by lia. cbn [bind] in H.
  rewrite sorted_by_start_reverse_ascending in H
    by (apply ascending_filter, Hasc).
  rewrite sorted_by_start_ascending in H by (apply ascending_filter, Hasc).
  set (sd := depth_at t (start then_kw)) in *.
  set (B := rev (filter (fun k => start k <? start then_kw) (if_keywords t)))
    in *.
  set (A := filter (fun k => start k >? start then_kw) (if_keywords t)) in *.
  assert (forall k, In k B ->
                    In k (if_keywords t) /\ start k < start then_kw)
    as HinB.
  { intros k Hk. apply in_rev in Hk. apply filter_In in Hk as [Hk1 Hk2].
    apply Z.ltb_lt in Hk2. auto. }
  assert (forall k, In k A ->
                    In k (if_keywords t) /\ start then_kw < start k)
    as HinA.
  { intros k Hk. apply filter_In in Hk as [Hk1 Hk2].
    apply Z.gtb_lt in Hk2. auto. }
  assert (descending (map start B)) as HB.
  { unfold B. rewrite map_rev. apply ascending_rev, ascending_filter, Hasc. }
  assert (ascending (map start A)) as HA by apply ascending_filter, Hasc.
  assert (slot_inside t sd then_kw (Some then_kw)) as Self
      by (apply self_inside; unfold sd; lia).
  destruct (for_in B (if_for_then_step t sd) _) as [r| |] eqn:Loop;
    try discriminate H.
  cbn [bind] in H.
  set (Inv := fun (pre : list keyword) (st : back_state) =>
                bk_if st = None /\
                bk_depth st = depth_at t (bk_prev_pos st) /\
                above t sd (bk_prev_pos st) (start then_kw) /\
                ((pre = [] /\ bk_prev_pos st = start then_kw) \/
                 (exists pre' l,
                     pre = pre' ++ [l] /\ bk_prev_pos st = start l))).
  assert (after_loop (fun st => found_before t sd then_kw (bk_if st))
                     (fun _ : Empty_set => True) r) as Hr.
  { apply (fun Hs He Hi => for_in_prefix Inv _ _ B _ Hs He _ r Hi Loop).
    - intros pre x post st c EB (I1 & I2 & I3 & I4) Hc.
      destruct (backward_position t then_kw B pre post x (bk_prev_pos st)
                  Hin HinB HB EB I4) as [Hx Hpos].
      pose proof (if_for_then_step_inside t then_kw x st c Hx Hpos
                    ltac:(lia) I2 I3 I1 Hc) as Post.
      destruct c as [s'|s'|[]]; cbn; [|exact Post].
      destruct Post as (P1 & P2 & P3 & P4). rewrite <- P2 in P3, P4.
      split; [exact P1|]. split; [exact P3|]. split; [exact P4|].
      right. exists pre, x. auto.
    - intros st (I1 & _). rewrite I1. apply none_before.
    - split; [reflexivity|]. split; [reflexivity|].
      split; [apply above_point; unfold sd; cbn; lia|].
      left. split; reflexivity. }
  destruct r as [st|[]]. cbn [final] in H. cbn in Hr.
  destruct (is_some (bk_if st)).
  2:{ injection H as <-. unfold group_inside.
      split; [apply found_before_inside, Hr|]. split; [exact Self|].
      apply none_inside. }
  destruct (for_in A _ _) as [r2| |] eqn:Loop2; try discriminate H.
  cbn [bind] in H.
  set (Inv2 := fun (pre : list keyword) (s2 : fwd_state) =>
                 fw_else s2 = None /\
                 fw_depth s2 = depth_at t (fw_prev_end s2) /\
                 above t sd (start then_kw) (fw_prev_end s2) /\
                 ((pre = [] /\ fw_prev_end s2 = end_ then_kw) \/
                  (exists pre' l,
                      pre = pre' ++ [l] /\ fw_prev_end s2 = end_ l))).
  assert (after_loop (fun s2 => found_after t sd then_kw (fw_else s2))
                     (group_inside t sd then_kw) r2) as Hr2.
  { apply (fun Hs He Hi => for_in_prefix Inv2 _ _ A _ Hs He _ r2 Hi Loop2).
    - intros pre x post s2 c EA (I1 & I2 & I3 & I4) Hc.
      destruct (forward_position t then_kw A pre post x (fw_prev_end s2)
                  Hin HinA HA EA I4) as [Hx Hpos].
      pose proof (else_for_then_step_inside t then_kw (bk_if st) x s2 c
                    Hin Hx Hpos I2 I3 I1 Hr Hc) as Post.
      destruct c as [s'|s'|res]; cbn; [|exact Post|exact Post].
      destruct Post as (P1 & P2 & P3 & P4). rewrite <- P2 in P3, P4.
      split; [exact P1|]. split; [exact P3|]. split; [exact P4|].
      right. exists pre, x. auto.
    - intros s2 (I1 & _). rewrite I1. apply none_after.
    - split; [reflexivity|]. cbn [fw_depth fw_prev_end].
      split; [symmetry; apply keyword_depth; [exact Hin|lia]|].
      split; [apply above_keyword; [exact Hin|unfold sd; lia]|].
      left. split; reflexivity. }
  destruct r2 as [s2|res]; injection H as <-; cbn in Hr2; [|exact Hr2].
  unfold group_inside. split; [apply found_before_inside, Hr|].
  split; [exact Self|]. apply found_after_inside, Hr2.
Qed.

(** *** From an [else] *)

Lemma if_then_for_else_step_inside (t : text) (cur x : keyword)
      (st : back_state) (c : ctl back_state Empty_set) :
  let sd := depth_at t (start cur) in
  In x (if_keywords t) ->
  end_ x <= bk_prev_pos st <= start cur -> start cur <= len t ->
  bk_depth st = depth_at t (bk_prev_pos st) ->
  above t sd (bk_prev_pos st) (start cur) ->
  bk_if st = None -> found_before t sd cur (bk_then st) ->
  if_then_for_else_step t sd x st = Ok c ->
  match c with
  | Next s' =>
      bk_if s' = None /\ found_before t sd cur (bk_then s') /\
      bk_prev_pos s' = start x /\
      bk_depth s' = depth_at t (start x) /\
      above t sd (start x) (start cur)
  | Break s' =>
      found_before t sd cur (bk_if s') /\ found_before t sd cur (bk_then s')
  | Return r => True
  end.
Proof.
  intros sd Hx Hr Hlen Hd Hab Hif Hth H.
  pose proof (if_keywords_all_within t x Hx) as W. unfold within in W.
  assert (sd <= depth_at t (bk_prev_pos st)) as Hsd by (apply Hab; lia).
  unfold if_then_for_else_step in H. rewrite Hd in H.
  destruct (depth_backward t sd (bk_prev_pos st) (end_ x) _) as [d| |] eqn:D;
    try discriminate H.
  cbn [bind] in H.
  apply (depth_backward_spec t sd (Z.to_nat (bk_prev_pos st - end_ x))) in D;
    [|lia|lia|lia|exact Hsd].
  destruct (d <? sd) eqn:El.
  - injection H as <-. cbn [bk_if bk_then]. rewrite Hif.
    split; [apply none_before|exact Hth].
  - destruct D as [D|[-> D2]]; [lia|].
    assert (depth_at t (end_ x) = depth_at t (start x)) as Ed
        by (apply keyword_depth; [exact Hx|lia]).
    assert (above t sd (start x) (start cur)) as Ax.
    { apply (above_join t sd _ (end_ x));
        [apply above_keyword; [exact Hx|lia]|].
      apply (above_join t sd _ (bk_prev_pos st)); assumption. }
    ok_cases H; injection H as <-; cbn [bk_if bk_then bk_prev_pos bk_depth];
      lazymatch goal with
      | |- found_before _ _ _ _ /\ found_before _ _ _ _ =>
          split; [apply some_before; [lia|exact Ax]|exact Hth]
      | |- _ =>
          split; [exact Hif|];
          split; [first [exact Hth | apply some_before; [lia|exact Ax]]|];
          split; [reflexivity|]; split; [exact Ed|exact Ax]
      end.
Qed.

Lemma find_if_then_for_else_inside (t : text) (else_kw : keyword)
      (tr : triple) :
  In else_kw (if_keywords t) ->
  find_if_then_for_else t else_kw (if_keywords t) = Ok tr ->
  group_inside t (depth_at t (start else_kw)) else_kw tr.
Proof.
  intros Hin H.
  pose proof (if_keywords_ascending t) as Hasc.
  pose proof (if_keywords_all_within t) as Hall.
  pose proof (Hall else_kw Hin) as Wc. unfold within in Wc.
  unfold find_if_then_for_else in H.
  rewrite get_paren_depth_at in H by lia. cbn [bind] in H.
  rewrite sorted_by_start_reverse_ascending in H
    by (apply ascending_filter, Hasc).
  set (sd := depth_at t (start else_kw)) in *.
  set (B := rev (filter (fun k => start k <? start else_kw) (if_keywords t)))
    in *.
  assert (forall k, In k B ->
                    In k (if_keywords t) /\ start k < start else_kw)
    as HinB.
  { intros k Hk. apply in_rev in Hk. apply filter_In in Hk as [Hk1 Hk2].
    apply Z.ltb_lt in Hk2. auto. }
  assert (descending (map start B)) as HB.
  { unfold B. rewrite map_rev. apply ascending_rev, ascending_filter, Hasc. }
  destruct (for_in B (if_then_for_else_step t sd) _) as [r| |] eqn:Loop;
    try discriminate H.
  cbn [bind] in H.
  set (Inv := fun (pre : list keyword) (st : back_state) =>
                bk_if st = None /\
                found_before t sd else_kw (bk_then st) /\
                bk_depth st = depth_at t (bk_prev_pos st) /\
                above t sd (bk_prev_pos st) (start else_kw) /\
                ((pre = [] /\ bk_prev_pos st = start else_kw) \/
                 (exists pre' l,
                     pre = pre' ++ [l] /\ bk_prev_pos st = start l))).
  assert (after_loop (fun st => found_before t sd else_kw (bk_if st) /\
                                found_before t sd else_kw (bk_then st))
                     (fun _ : Empty_set => True) r) as Hr.
  { apply (fun Hs He Hi => for_in_prefix Inv _ _ B _ Hs He _ r Hi Loop).
    - intros pre x post st c EB (I1 & I2 & I3 & I4 & I5) Hc.
      destruct (backward_position t else_kw B pre post x (bk_prev_pos st)
                  Hin HinB HB EB I5) as [Hx Hpos].
      pose proof (if_then_for_else_step_inside t else_kw x st c Hx Hpos
                    ltac:(lia) I3 I4 I1 I2 Hc) as Post.
      destruct c as [s'|s'|[]]; cbn; [|exact Post].
      destruct Post as (P1 & P2 & P3 & P4 & P5). rewrite <- P3 in P4, P5.
      split; [exact P1|]. split; [exact P2|]. split; [exact P4|].
      split; [exact P5|]. right. exists pre, x. auto.
    - intros st (I1 & I2 & _). rewrite I1.
      split; [apply none_before|exact I2].
    - split; [reflexivity|]. split; [apply none_before|].
      split; [reflexivity|].
      split; [apply above_point; unfold sd; cbn; lia|].
      left. split; reflexivity. }
  destruct r as [st|[]]. cbn [final] in H. injection H as <-.
  destruct Hr as [H1 H2]. unfold group_inside.
  split; [apply found_before_inside, H1|].
  split; [apply found_before_inside, H2|].
  apply self_inside. unfold sd. lia.
Qed.

Lemma find_matching_inside (t : text) (current : keyword) :
  In current (if_keywords t) ->
  returns (find_matching_if_then_else t (if_keywords t) current)
          (group_inside t (depth_at t (start current)) current).
Proof.
  intros Hin.
  destruct (find_matching_if_then_else_returns t current Hin)
    as (tr & E & _).
  exists tr. split; [exact E|].
  unfold find_matching_if_then_else in E.
  destruct (word_is current "if").
  { apply find_then_else_for_if_inside; assumption. }
  destruct (word_is current "then").
  { apply find_if_else_for_then_inside; assumption. }
  destruct (word_is current "else").
  { apply find_if_then_for_else_inside; assumption. }
  injection E as <-. unfold group_inside.
  split; [|split]; apply none_inside.
Qed.

Lemma In_found (tr : triple) (k : keyword) :
  In k (found tr) ->
  fst (fst tr) = Some k \/ snd (fst tr) = Some k \/ snd tr = Some k.
Proof.
  destruct tr as [[[i|] [th|]] [el|]]; cbn; intuition (subst; auto).
Qed.

(** X23: the keyword-block matcher respects the parentheses.  With the
    cursor on an [if], [then] or [else] of the text, whose parenthesis
    depth is [d0], every keyword of the group returned is such that, at
    every offset from the one to the other, [get_paren_depth] is [d0] or
    more: a keyword outside the parentheses that enclose the keyword
    under the cursor is never taken into its group. *)
Theorem keyword_group_within_parentheses (t : text) (current : keyword) :
  In current (if_keywords t) ->
  exists tr d0,
    find_matching_if_then_else t (if_keywords t) current = Ok tr /\
    get_paren_depth t (start current) = Ok d0 /\
    forall k p,
      In k (found tr) ->
      Z.min (start current) (start k) <= p <= Z.max (start current) (start k) ->
      exists d, get_paren_depth t p = Ok d /\ d0 <= d.
Proof.
  intros Hin.
  pose proof (if_keywords_all_within t current Hin) as Wc.
  unfold within in Wc.
  destruct (find_matching_inside t current Hin) as (tr & E & G).
  destruct (find_matching_group t current Hin) as (tr' & E' & G').
  rewrite E in E'. injection E' as <-.
  exists tr, (depth_at t (start current)).
  split; [exact E|]. split; [apply get_paren_depth_at; lia|].
  intros k p Hk Hp.
  assert (In k (if_keywords t)) as Hkin.
  { destruct tr as [[i th] el]. destruct G' as (S1 & S2 & S3 & _).
    apply In_found in Hk. cbn [fst snd] in Hk.
    destruct Hk as [Hk|[Hk|Hk]];
      [apply (S1 k Hk)|apply (S2 k Hk)|apply (S3 k Hk)]. }
  pose proof (if_keywords_all_within t k Hkin) as Wk. unfold within in Wk.
  exists (depth_at t p). split; [apply get_paren_depth_at; lia|].
  destruct tr as [[i th] el]. destruct G as (S1 & S2 & S3).
  apply In_found in Hk. cbn [fst snd] in Hk.
  destruct Hk as [Hk|[Hk|Hk]];
    [apply (S1 k Hk)|apply (S2 k Hk)|apply (S3 k Hk)]; exact Hp.
Qed.

Lemma keyword_group_within_parentheses_witness :
  In (kw "else" 31 35) (if_keywords nested_if) /\
  exists tr d0,
    find_matching_if_then_else nested_if (if_keywords nested_if)
      (kw "else" 31 35) = Ok tr /\
    get_paren_depth nested_if (start (kw "else" 31 35)) = Ok d0 /\
    forall k p,
      In k (found tr) ->
      Z.min (start (kw "else" 31 35)) (start k) <= p
      <= Z.max (start (kw "else" 31 35)) (start k) ->
      exists d, get_paren_depth nested_if p = Ok d /\ d0 <= d.
Proof.
  assert (In (kw "else" 31 35) (if_keywords nested_if)) as H
      by (vm_compute; tauto).
  split; [exact H|].
  exact (keyword_group_within_parentheses nested_if (kw "else" 31 35) H).
Defined.

(** ** The lines of an expanded text *)

Lemma char_in_In (c : ascii) (s : text) : char_in c s = true <-> In c s.
Proof.
  unfold char_in. rewrite existsb_exists. split.
  - intros (x & Hx & E). apply ch_eqb_eq in E. subst x. exact Hx.
  - intros H. exists c. split; [exact H|]. apply ch_eqb_eq. reflexivity.
Qed.

Lemma char_in_not (c : ascii) (s : text) : ~ In c s -> char_in c s = false.
Proof.
  intros H. destruct (char_in c s) eqn:E; [|reflexivity].
  apply char_in_In in E. contradiction.
Qed.

Lemma plain_paren_free (s : text) : plain s -> paren_free s = true.
Proof.
  intros H. unfold paren_free.
  rewrite !char_in_not; [reflexivity| |]; intros Hc;
    destruct (H _ Hc) as (H1 & H2 & _); congruence.
Qed.

Lemma plain_no_nl (s : text) : plain s -> char_in nl s = false.
Proof.
  intros H. apply char_in_not. intros Hc.
  destruct (H _ Hc) as (_ & _ & H3). congruence.
Qed.

Lemma plain_app (u v : text) : plain u -> plain v -> plain (u ++ v).
Proof.
  intros Hu Hv c Hc. apply in_app_or in Hc as [Hc|Hc]; auto.
Qed.

Lemma plain_space : plain (lit " ").
Proof.
  intros c [<-|[]]. repeat split; discriminate.
Qed.

Lemma lstrip_In (c : ascii) (s : text) : In c (lstrip s) -> In c s.
Proof.
  induction s as [|x s IH]; [auto|]. cbn [lstrip].
  destruct (isspace x); [|auto]. intros H. right. auto.
Qed.

Lemma strip_In (c : ascii) (s : text) : In c (strip s) -> In c s.
Proof.
  unfold strip, rstrip. intros H. apply in_rev in H.
  apply lstrip_In in H. apply in_rev in H. apply lstrip_In, H.
Qed.

Lemma plain_strip (s : text) : plain s -> plain (strip s).
Proof. intros H c Hc. apply H, strip_In, Hc. Qed.

Lemma indent_In (c : ascii) (k : Z) :
  In c (str_mul indent_str k) -> c = " "%char.
Proof.
  unfold str_mul. induction (Z.to_nat k) as [|n IH]; [contradiction|].
  cbn [repeat concat]. intros H. apply in_app_or in H as [H|H]; [|auto].
  cbn in H. intuition congruence.
Qed.

Lemma indent_no_nl (k : Z) (body : text) :
  char_in nl body = false ->
  char_in nl (str_mul indent_str k ++ body) = false.
Proof.
  intros H. apply char_in_not. intros Hc.
  apply in_app_or in Hc as [Hc|Hc].
  - apply indent_In in Hc. discriminate Hc.
  - apply char_in_In in Hc. congruence.
Qed.

Lemma lower_char_plain (c : ascii) :
  lower_char c = open_paren \/ lower_char c = close_paren \/
  lower_char c = nl ->
  lower_char c = c.
Proof.
  destruct c as [[] [] [] [] [] [] [] []]; intros [H|[H|H]];
    solve [reflexivity | discriminate H].
Qed.

Lemma keyword_plain (p : text) : is_keyword_text (lower p) = true -> plain p.
Proof.
  intros H c Hc.
  assert (In (lower_char c) (lower p)) as Hl by (apply in_map, Hc).
  assert (plain (lower p)) as Hp.
  { unfold is_keyword_text in H.
    apply orb_true_iff in H as [H|H];
      [apply orb_true_iff in H as [H|H]|];
      apply text_eqb_eq in H; rewrite H; intros x Hx; cbn in Hx;
      repeat (destruct Hx as [<-|Hx]; [repeat split; discriminate|]);
      contradiction. }
  destruct (Hp _ Hl) as (H1 & H2 & H3).
  repeat split; intros E; subst c; [apply H1|apply H2|apply H3]; reflexivity.
Qed.

Lemma atom_plain (a : text) :
  is_atom a = true -> is_delim a = false -> ~ In nl a -> plain a.
Proof.
  intros Ha Hd Hn c Hc.
  assert (c <> nl) as H3 by (intros ->; contradiction).
  destruct a as [|x [|y a]]; [discriminate Ha| |].
  - destruct Hc as [<-|[]]. repeat split; [| |exact H3]; intros E; subst x;
      discriminate Hd.
  - cbn [is_atom] in Ha.
    pose proof (proj1 (forallb_forall _ _) Ha c Hc) as Hw.
    repeat split; [| |exact H3]; intros E; subst c; discriminate Hw.
Qed.

Lemma wf_atoms_atom (l : list text) (a : text) :
  wf_atoms l -> In a l -> is_atom a = true.
Proof.
  induction l as [|b l IH]; intros H Ha; [contradiction|].
  cbn [wf_atoms] in H. destruct H as (H1 & _ & H3).
  destruct Ha as [<-|Ha]; auto.
Qed.

(** A token is one parenthesis or holds none. *)
Lemma piece_plain (p : text) :
  piece p -> ~ In nl p -> p = lit "(" \/ p = lit ")" \/ plain p.
Proof.
  intros [(l & Hwf & Hl & ->)|[Ha Hd]] Hn.
  - right. right. intros c Hc. apply in_concat in Hc as (a & Ha & Hc).
    apply (atom_plain a); [exact (wf_atoms_atom l a Hwf Ha)| |
                           |exact Hc].
    + exact (proj1 (Forall_forall _ _) Hl a Ha).
    + intros Hx. apply Hn. apply in_concat. eauto.
  - unfold is_delim in Hd. apply orb_true_iff in Hd as [Hd|Hd];
      [apply orb_true_iff in Hd as [Hd|Hd]|].
    + left. apply text_eqb_eq, Hd.
    + right. left. apply text_eqb_eq, Hd.
    + right. right. apply keyword_plain, Hd.
Qed.

Lemma printing_flush (st : pp_state) : printing st -> printing (flush st).
Proof.
  intros (H1 & H2 & H3). unfold flush.
  destruct (is_nil (strip (current_line st))) eqn:E; cbn [negb];
    [split; [exact H1|split; [exact H2|exact H3]]|].
  split; [|split; [exact H2|intros c []]].
  cbn [pp_result]. apply Forall_app. split; [exact H1|].
  constructor; [|constructor].
  pose proof (plain_strip _ H3) as Hp. split.
  - exists (indent_level st), (strip (current_line st)).
    split; [exact H2|]. split; [reflexivity|].
    split; [intros E'; rewrite E' in E; discriminate E|].
    split; [apply strip_idem|]. right. right. apply plain_paren_free, Hp.
  - apply indent_no_nl, plain_no_nl, Hp.
Qed.

Lemma paren_line (k : Z) (b : text) :
  0 <= k -> b = lit "(" \/ b = lit ")" ->
  expanded_line (str_mul indent_str k ++ b) /\
  char_in nl (str_mul indent_str k ++ b) = false.
Proof.
  intros Hk Hb. split.
  - exists k, b. split; [exact Hk|]. split; [reflexivity|].
    destruct Hb as [-> | ->]; (split; [discriminate|]);
      (split; [reflexivity|]); auto.
  - apply indent_no_nl. destruct Hb as [-> | ->]; reflexivity.
Qed.

Lemma printing_token (st : pp_state) (token : text) :
  printing st -> token = lit "(" \/ token = lit ")" \/ plain token ->
  printing (pp_token st token).
Proof.
  intros Hst Htok. unfold pp_token.
  destruct (is_nil (strip token)) eqn:En.
  { destruct (negb (is_nil (current_line st)) && _); [|exact Hst].
    destruct Hst as (H1 & H2 & H3).
    split; [exact H1|]. split; [exact H2|].
    cbn [current_line]. apply plain_app; [exact H3|apply plain_space]. }
  destruct (text_eqb (strip token) (lit "(")) eqn:Eo.
  { destruct (printing_flush st Hst) as (H1 & H2 & H3).
    split; [|split; [cbn [indent_level]; lia|exact H3]].
    cbn [pp_result]. apply Forall_app. split; [exact H1|].
    constructor; [|constructor]. apply paren_line; auto. }
  destruct (text_eqb (strip token) (lit ")")) eqn:Ec.
  { destruct (printing_flush st Hst) as (H1 & H2 & H3).
    split; [|split; [cbn [indent_level]; lia|exact H3]].
    cbn [pp_result]. apply Forall_app. split; [exact H1|].
    constructor; [|constructor]. apply paren_line; [lia|auto]. }
  assert (plain (strip token)) as Hp.
  { destruct Htok as [->|[->|Hp]]; [discriminate Eo|discriminate Ec|].
    apply plain_strip, Hp. }
  destruct (is_keyword_text (lower (strip token))).
  - destruct (printing_flush st Hst) as (H1 & H2 & H3).
    split; [exact H1|]. split; [exact H2|].
    cbn [current_line]. apply plain_app; [exact Hp|apply plain_space].
  - destruct Hst as (H1 & H2 & H3).
    split; [exact H1|]. split; [exact H2|].
    cbn [current_line].
    apply plain_app; [exact H3|apply plain_app; [exact Hp|apply plain_space]].
Qed.

Lemma printing_fold (tokens : list text) :
  Forall (fun p => p = lit "(" \/ p = lit ")" \/ plain p) tokens ->
  forall st, printing st -> printing (fold_left pp_token tokens st).
Proof.
  induction tokens as [|p tokens IH]; intros H st Hst; [exact Hst|].
  inversion H as [|? ? Hp Hrest]; subst. cbn [fold_left].
  apply IH; [exact Hrest|]. apply printing_token; assumption.
Qed.

Lemma group_nil (l : list text) :
  forall cur, group l cur = [] ->
              cur = [] /\ Forall (fun a => is_blank a = true) l.
Proof.
  induction l as [|a l IH]; intros cur H; cbn [group] in H.
  - unfold flush_word in H. destruct cur; [auto|discriminate H].
  - destruct (is_delim a).
    { apply app_eq_nil in H as [_ H]. discriminate H. }
    destruct (is_blank a) eqn:Eb.
    + apply app_eq_nil in H as [H1 H2].
      destruct (IH [] H2) as [_ Hl].
      split; [|constructor; assumption].
      unfold flush_word in H1. destruct cur; [reflexivity|discriminate H1].
    + destruct (IH _ H) as [Hc _]. apply app_eq_nil in Hc as [_ ->].
      discriminate Eb.
Qed.

Lemma items_nil_blank (t : text) : items t = [] -> is_blank t = true.
Proof.
  intros H. apply group_nil in H as [_ H].
  rewrite <- (concat_atoms t). unfold is_blank.
  induction H as [|a l Ha _ IH]; [reflexivity|].
  cbn [concat]. rewrite forallb_app. unfold is_blank in Ha.
  rewrite Ha, IH. reflexivity.
Qed.

(** The lines the printer gives for an expression of one line. *)
Lemma expanded_shape (expr : text) :
  char_in nl expr = false -> is_blank expr = false ->
  Forall expanded_line (lines_of (pretty_print_relevance expr)).
Proof.
  intros Hn Hb.
  pose proof (items_expand expr) as Hi.
  unfold pretty_print_relevance in *. cbv zeta in *.
  destruct (tokens_pieces expr) as [Hp _].
  assert (printing (flush (fold_left pp_token
                             (_tokenize_for_pretty_print expr) pp_start)))
    as (H1 & _).
  { apply printing_flush, printing_fold.
    - apply Forall_forall. intros p Hin. apply piece_plain.
      + exact (proj1 (Forall_forall _ _) Hp p Hin).
      + intros Hc.
        assert (In nl expr) as Hx.
        { rewrite <- (concat_tokens expr). apply in_concat. eauto. }
        apply char_in_In in Hx. congruence.
    - split; [constructor|]. split; [cbn; lia|intros c []]. }
  set (ls := pp_result _) in *.
  destruct ls as [|l ls'] eqn:El.
  { cbn [join] in Hi. symmetry in Hi. apply items_nil_blank in Hi.
    congruence. }
  unfold lines_of. rewrite split_on_join; [|discriminate|].
  - eapply Forall_impl; [|exact H1]. intros a [Ha _]. exact Ha.
  - eapply Forall_impl; [|exact H1]. intros a [_ Ha]. exact Ha.
Qed.

(** X24: the lines of an expanded text.  When Expand is applied to a
    pane whose text, stripped, is one line, every line of the text it
    gives is an indent of a multiple of four spaces followed by a text
    that is not empty, has no whitespace at either end, and is one
    parenthesis or holds no parenthesis: every parenthesis stands alone
    on its line, and no line is blank or ends with whitespace. *)
Theorem expanded_lines_shape (t e : text) :
  char_in nl (strip t) = false -> format_expression t = Some e ->
  Forall (fun l =>
            exists k body,
              0 <= k /\ l = str_mul indent_str k ++ body /\ body <> [] /\
              strip body = body /\
              (body = lit "(" \/ body = lit ")" \/ paren_free body = true))
         (lines_of e).
Proof.
  intros Hn H. unfold format_expression in H. cbv zeta in H.
  destruct (is_nil (strip t)) eqn:E; [discriminate H|].
  rewrite Hn in H. injection H as <-.
  apply expanded_shape; [exact Hn|].
  rewrite is_blank_strip, <- strip_blank. exact E.
Qed.

Lemma expanded_lines_shape_witness :
  char_in nl (strip (lit "if (a) then b")) = false /\
  format_expression (lit "if (a) then b")
  = Some (lit "if" ++ [nl] ++ lit "(" ++ [nl] ++ lit "    a" ++ [nl]
          ++ lit ")" ++ [nl] ++ lit "then b") /\
  Forall (fun l =>
            exists k body,
              0 <= k /\ l = str_mul indent_str k ++ body /\ body <> [] /\
              strip body = body /\
              (body = lit "(" \/ body = lit ")" \/ paren_free body = true))
         (lines_of (lit "if" ++ [nl] ++ lit "(" ++ [nl] ++ lit "    a"
                    ++ [nl] ++ lit ")" ++ [nl] ++ lit "then b")).
Proof.
  assert (char_in nl (strip (lit "if (a) then b")) = false) as H1
      by reflexivity.
  assert (format_expression (lit "if (a) then b")
          = Some (lit "if" ++ [nl] ++ lit "(" ++ [nl] ++ lit "    a" ++ [nl]
                  ++ lit ")" ++ [nl] ++ lit "then b")) as H2
      by (vm_compute; reflexivity).
  split; [exact H1|]. split; [exact H2|].
  exact (expanded_lines_shape _ _ H1 H2).
Defined.

(** ** The bracket matcher at any offset *)

Lemma getc_below_range (t : text) (i : Z) :
  i < - len t -> getc t i = Raise IndexError.
Proof.
  intros H. unfold getc. pose proof (len_nonneg t).
  replace (0 <=? i) with false by (symmetry; apply Z.leb_gt; lia).
  replace (- len t <=? i) with false by (symmetry; apply Z.leb_gt; lia).
  reflexivity.
Qed.

Lemma getc_wrapped (t : text) (i : Z) :
  - len t <= i < len t -> exists c, getc t i = Ok c.
Proof.
  intros H. destruct (Z_lt_ge_dec i 0) as [Hn|Hp].
  - unfold getc.
    replace (0 <=? i) with false by (symmetry; apply Z.leb_gt; lia).
    replace (- len t <=? i) with true by (symmetry; apply Z.leb_le; lia).
    replace (i <? 0) with true by (symmetry; apply Z.ltb_lt; lia).
    eexists. reflexivity.
  - rewrite getc_in_range by lia. eexists. reflexivity.
Qed.

Lemma search_body_wrapped (t : text) (char : text) (target : ascii)
      (st : search_state) :
  - len t <= search_pos st < len t ->
  returns (search_body t char target 1 st)
          (after_while_step (fun st => - len t <= search_pos st)
             (fun _ => True)
             (fun st => Z.to_nat (len t - search_pos st)) st).
Proof.
  intros H. unfold search_body.
  destruct (getc_wrapped t _ H) as (c & ->). cbn [bind].
  repeat returns_step; cbn; lia.
Qed.

(** X25: the bracket matcher at any offset.  For every text, every
    offset, negative or beyond the end included, and every character,
    [find_matching_bracket] ends: it raises [IndexError] when the search
    from an opening bracket starts below [-len(text)] or the search from a
    closing bracket starts at [len(text)] or beyond, where the first
    character it reads does not exist, and returns otherwise, a negative
    start within [-len(text)] being read from the end of the text as
    Python does. *)
Theorem find_matching_bracket_any_offset (t : text) (pos : Z) (c : ascii) :
  exists r,
    find_matching_bracket t pos [c] open_brackets close_brackets
      bracket_pairs reverse_pairs
    = if (str_in [c] open_brackets && (pos + 1 <? - len t))
         || (str_in [c] close_brackets && (len t <=? pos - 1))
      then Raise IndexError else Ok r.
Proof.
  pose proof (len_nonneg t) as L.
  assert (Z.of_nat (fuel_of t) = 2 * len t + 2) as F
      by (unfold fuel_of, len; lia).
  unfold find_matching_bracket.
  destruct (str_in [c] open_brackets) eqn:Eo.
  - assert (str_in [c] close_brackets = false) as Ec
        by (apply str_in_open in Eo as [-> | [-> | ->]]; reflexivity).
    assert (is_nil [c] || negb (str_in [c] (open_brackets ++ close_brackets))
            = false) as ->
        by (apply str_in_open in Eo as [-> | [-> | ->]]; reflexivity).
    assert (exists target, lookup bracket_pairs [c] = Ok target)
      as (target & ->)
        by (apply str_in_open in Eo as [-> | [-> | ->]]; eexists;
            reflexivity).
    rewrite Ec. cbn [bind andb orb]. rewrite orb_false_r.
    destruct (pos + 1 <? - len t) eqn:Ep.
    + apply Z.ltb_lt in Ep.
      exists None. unfold fuel_of. cbn [while bind search_pos].
      replace (pos + 1 <? len t) with true by (symmetry; apply Z.ltb_lt; lia).
      unfold search_body. cbn [search_pos].
      rewrite getc_below_range by lia. reflexivity.
    + apply Z.ltb_ge in Ep.
      destruct (while_returns (fun st => - len t <= search_pos st)
                  (fun _ : Z => True)
                  (fun st => Z.to_nat (len t - search_pos st))
                  (fun st => Ok (search_pos st <? len t))
                  (search_body t [c] target 1)
                  ltac:(intros st Hst; cbv beta in Hst; apply returns_ok; intros C;
                        apply search_body_wrapped; lia)
                  (fuel_of t) {| count := 1; search_pos := pos + 1 |}
                  ltac:(cbn [search_pos]; lia)
                  ltac:(cbn [search_pos]; lia))
        as (r & -> & _).
      cbn [bind]. destruct r as [st|p]; eexists; reflexivity.
  - cbn [andb orb].
    destruct (str_in [c] close_brackets) eqn:Ec.
    + assert (is_nil [c]
              || negb (str_in [c] (open_brackets ++ close_brackets))
              = false) as ->
          by (apply str_in_close in Ec as [-> | [-> | ->]]; reflexivity).
      assert (exists target, lookup reverse_pairs [c] = Ok target)
        as (target & ->)
          by (apply str_in_close in Ec as [-> | [-> | ->]]; eexists;
              reflexivity).
      cbn [bind andb].
      destruct (len t <=? pos - 1) eqn:Ep.
      * apply Z.leb_le in Ep.
        exists None. unfold fuel_of. cbn [while bind search_pos].
        replace (pos - 1 >=? 0) with true by (symmetry; apply Z.geb_le; lia).
        unfold search_body. cbn [search_pos].
        rewrite getc_out_of_range by lia. reflexivity.
      * apply Z.leb_gt in Ep.
        destruct (while_returns (fun st => search_pos st < len t)
                    (fun _ : Z => True)
                    (fun st => Z.to_nat (search_pos st + 1))
                    (fun st => Ok (search_pos st >=? 0))
                    (search_body t [c] target (-1))
                    ltac:(intros st Hst; cbv beta in Hst; apply returns_ok; intros C;
                          apply search_body_backward; lia)
                    (fuel_of t) {| count := 1; search_pos := pos - 1 |}
                    ltac:(cbn [search_pos]; lia)
                    ltac:(cbn [search_pos]; lia))
          as (r & -> & _).
        cbn [bind]. destruct r as [st|p]; eexists; reflexivity.
    + cbn [andb]. destruct (is_nil [c] || negb _); exists None; reflexivity.
Qed.
